(** * markdown-ify: the HTML to Markdown conversion pipeline

    A shallow embedding of [src/services/markdownConversionService.ts] and
    [src/services/complexStructureService.ts], and the properties of the
    pipeline that the specification states.

    Strings are sequences of UTF-16 code units; the embedding covers the
    code units below 256, one [ascii] each.  The browser's DOM is a store of
    nodes addressed by identity, mutated in place as the source does. *)

From Stdlib Require Import String Ascii List Arith Bool Lia ZArith.
From Stdlib Require Import Floats.SpecFloat.
From stdpp Require Import base option list strings.
Import ListNotations.

Set Default Proof Using "Type".
Set Warnings "-register-all".
Arguments String.append !_ _ : simpl nomatch.

(* ================================================================== *)
(** * Characters and strings, as JavaScript reads them *)

Module Js.

Definition code (c : ascii) : nat := nat_of_ascii c.

Definition LF : ascii := ascii_of_nat 10.
Definition CR : ascii := ascii_of_nat 13.
Definition TAB : ascii := ascii_of_nat 9.
Definition QUOT : ascii := ascii_of_nat 34.

Definition ch (c : ascii) : string := String c EmptyString.
Definition nl : string := ch LF.

(** [\s] and the characters [String.prototype.trim] strips: TAB, LF, VT,
    FF, CR, space and NBSP (the white space and line terminators below
    256). *)
Definition isSpace (c : ascii) : bool :=
  let n := code c in
  (n =? 9) || (n =? 10) || (n =? 11) || (n =? 12) || (n =? 13)
  || (n =? 32) || (n =? 160).

(** ASCII white space, at which the DOM splits a [class] attribute and
    the HTML parser separates the parts of a tag: TAB, LF, FF, CR and
    space.  VT and NBSP are [\s] but not ASCII white space. *)
Definition isAsciiSpace (c : ascii) : bool :=
  let n := code c in
  (n =? 9) || (n =? 10) || (n =? 12) || (n =? 13) || (n =? 32).

(** [\d] *)
Definition isDigit (c : ascii) : bool :=
  let n := code c in (48 <=? n) && (n <=? 57).

Definition isUpper (c : ascii) : bool :=
  let n := code c in (65 <=? n) && (n <=? 90).

Definition isLower (c : ascii) : bool :=
  let n := code c in (97 <=? n) && (n <=? 122).

(** [[a-zA-Z0-9]] *)
Definition isAlnum (c : ascii) : bool := isUpper c || isLower c || isDigit c.

(** A line terminator: what [.] refuses and what [$] with the [m] flag
    stops before. *)
Definition isLineTerminator (c : ascii) : bool :=
  let n := code c in (n =? 10) || (n =? 13).

Definition lowerChar (c : ascii) : ascii :=
  if isUpper c then ascii_of_nat (code c + 32) else c.

Fixpoint toLowerCase (s : string) : string :=
  match s with
  | EmptyString => EmptyString
  | String c r => String (lowerChar c) (toLowerCase r)
  end.

Definition slen (s : string) : nat := String.length s.

Fixpoint rev_onto (s acc : string) : string :=
  match s with
  | EmptyString => acc
  | String c r => rev_onto r (String c acc)
  end.

Definition srev (s : string) : string := rev_onto s EmptyString.

Fixpoint trimStart (s : string) : string :=
  match s with
  | EmptyString => EmptyString
  | String c r => if isSpace c then trimStart r else s
  end.

Definition trimEnd (s : string) : string := srev (trimStart (srev s)).

(** [s.trim()] *)
Definition trim (s : string) : string := trimEnd (trimStart s).

(** [s.substring(0, n)] *)
Fixpoint take (n : nat) (s : string) : string :=
  match n, s with
  | 0, _ => EmptyString
  | _, EmptyString => EmptyString
  | S n', String c r => String c (take n' r)
  end.

Fixpoint drop (n : nat) (s : string) : string :=
  match n, s with
  | 0, _ => s
  | _, EmptyString => EmptyString
  | S n', String _ r => drop n' r
  end.

(** [s.startsWith(p)] *)
Fixpoint startsWith (p s : string) : bool :=
  match p, s with
  | EmptyString, _ => true
  | String a p', String b s' => if Ascii.eqb a b then startsWith p' s' else false
  | String _ _, EmptyString => false
  end.

(** [' '.repeat(n)] *)
Fixpoint repeat (c : ascii) (n : nat) : string :=
  match n with
  | 0 => EmptyString
  | S n' => String c (repeat c n')
  end.

(** The position of the first occurrence of [p] in [s], as [indexOf]
    finds it. *)
Fixpoint indexOf (p s : string) : option nat :=
  if startsWith p s then Some 0
  else match s with
       | EmptyString => None
       | String _ r => option_map S (indexOf p r)
       end.

Definition includes (p s : string) : bool :=
  match indexOf p s with Some _ => true | None => false end.

(** The text after the last LF: [s.split('\n').pop()]. *)
Fixpoint lastLine (s : string) : string :=
  match s with
  | EmptyString => EmptyString
  | String c r =>
      if Ascii.eqb c LF then lastLine r
      else if includes nl r then lastLine r else s
  end.

(** ** Numbers

    A JavaScript number is an IEEE 754 double: a [spec_float] with 53
    bits of mantissa and exponents below 1024. *)
Definition double : Type := spec_float.

(** The double nearest to an integer, ties to even. *)
Definition toNumber (z : Z) : double := binary_normalize 53 1024 z 0 false.

(** [a + b] *)
Definition numberAdd (a b : double) : double := SFadd 53 1024 a b.

(** The mathematical value of a run of decimal digits. *)
Fixpoint parseDigits (s : string) (acc : Z) : Z :=
  match s with
  | EmptyString => acc
  | String c r =>
      if isDigit c then parseDigits r (10 * acc + Z.of_nat (code c - 48))%Z else acc
  end.

(** [parseInt] of a string that starts with a decimal digit: the double
    nearest to the value of the leading digits (the engines round a long
    run of digits correctly; the standard lets them drop digits after the
    twentieth). *)
Definition parseInt (s : string) : double := toNumber (parseDigits s 0%Z).

(** The decimal digits of a natural integer. *)
Fixpoint decimalOnto (fuel : nat) (z : Z) (acc : string) : string :=
  match fuel with
  | 0 => acc
  | S f =>
      let acc' := String (ascii_of_nat (48 + Z.to_nat (z mod 10)%Z)) acc in
      if (z <? 10)%Z then acc' else decimalOnto f (z / 10)%Z acc'
  end.

Definition decimal (z : Z) : string :=
  decimalOnto (S (Z.to_nat (Z.log2 z))) z EmptyString.

(** The value of a double that is an integer. *)
Definition integerOf (m : positive) (e : Z) : Z := Z.shiftl (Zpos m) e.

(** The integer [c] is read back as [x]. *)
Definition rounds (x : double) (c : Z) : bool := SFeqb (toNumber c) x.

(** Number::toString picks the decimal with the fewest significant
    digits that is read back as the same double and, among these, the one
    nearest to the value (the even one on a tie).  For the double [x] of
    integral value [v] these are the multiples of [10 ^ j] next to [v],
    for the largest [j] that has one. *)
Fixpoint shortest (x : double) (v : Z) (j : nat) : Z :=
  let p := (10 ^ Z.of_nat j)%Z in
  let lo := (v / p * p)%Z in
  let hi := (lo + p)%Z in
  match (0 <? lo)%Z && rounds x lo, rounds x hi with
  | true, true =>
      if (v - lo <? hi - v)%Z then lo
      else if (hi - v <? v - lo)%Z then hi
      else if Z.even (lo / p) then lo else hi
  | true, false => lo
  | false, true => hi
  | false, false => match j with 0 => v | S j' => shortest x v j' end
  end.

Fixpoint dropZeros (s : string) : string :=
  match s with
  | EmptyString => EmptyString
  | String c r =>
      match dropZeros r with
      | EmptyString => if Ascii.eqb c "0" then EmptyString else String c EmptyString
      | r' => String c r'
      end
  end.

(** The digits in full up to 21 of them, the exponent form beyond. *)
Definition printInteger (c : Z) : string :=
  let digits := decimal c in
  let n := slen digits in
  if n <=? 21 then digits
  else
    match dropZeros digits with
    | EmptyString => digits
    | String d EmptyString => String d ("e+" +:+ decimal (Z.of_nat (n - 1)))
    | String d r => String d ("." +:+ r +:+ "e+" +:+ decimal (Z.of_nat (n - 1)))
    end.

(** Number::toString, as a template literal and [toString()] apply it,
    for the numbers of this program: zero, the integers and what they
    overflow to. *)
Definition numberToString (x : double) : string :=
  match x with
  | S754_zero _ => "0"
  | S754_nan => "NaN"
  | S754_infinity s => (if s then "-" else EmptyString) +:+ "Infinity"
  | S754_finite s m e =>
      let v := integerOf m e in
      (if s then "-" else EmptyString)
      +:+ printInteger (shortest (S754_finite false m e) v (slen (decimal v)))
  end.

(** A counter of the program, printed: the counters count nodes and
    matches from 0 or 1 in steps of 1. *)
Definition counterToString (n : nat) : string := numberToString (toNumber (Z.of_nat n)).

End Js.

(* ================================================================== *)
(** * Regular expressions: a backtracking matcher

    The source's text passes are [String.prototype.replace] calls with
    regular-expression literals.  Each literal is written below as a term
    of [regex]; [run] is the backtracking search ECMAScript prescribes
    (leftmost start, alternatives in order, greedy or lazy repetition,
    numbered capture groups), and [replaceAll] is [replace] with the [g]
    flag.  Every repetition of the source ranges over a single character
    class, so an iteration always consumes a character. *)

Module Re.
Import Js.

Inductive regex : Type :=
| Eps
| Chr (p : ascii -> bool)        (* one character of a class *)
| Str (s : string)               (* a literal run of characters *)
| Seq (r1 r2 : regex)
| Alt (r1 r2 : regex)
| Rep (greedy : bool) (lo : nat) (hi : option nat) (r : regex)
| Grp (n : nat) (r : regex)      (* the n-th capturing group *)
| Ahead (r : regex)              (* (?=r) *)
| Eol.                           (* $ under the m flag *)

(** Captures: group number and captured text, latest first. *)
Definition caps := list (nat * string).

Fixpoint cap (n : nat) (cs : caps) : string :=
  match cs with
  | [] => EmptyString
  | (m, s) :: r => if n =? m then s else cap n r
  end.

Definition result := option (string * caps).

Definition below (hi : option nat) (n : nat) : bool :=
  match hi with None => true | Some h => n <? h end.

(** The repetition [body{lo,hi}]: [n] iterations are done; a greedy
    repetition tries one more before it stops, a lazy one stops first.
    [fuel] is the length of the subject plus one. *)
Fixpoint iterate (body : string -> caps -> (string -> caps -> result) -> result)
    (greedy : bool) (lo : nat) (hi : option nat) (k : string -> caps -> result)
    (fuel n : nat) (s : string) (cs : caps) {struct fuel} : result :=
  match fuel with
  | 0 => None
  | S fuel' =>
      let again (_ : unit) :=
        if below hi n then
          body s cs (fun s1 c1 =>
            if slen s1 <? slen s then iterate body greedy lo hi k fuel' (S n) s1 c1
            else None)
        else None in
      let stop (_ : unit) := if lo <=? n then k s cs else None in
      if greedy then
        match again tt with Some x => Some x | None => stop tt end
      else
        match stop tt with Some x => Some x | None => again tt end
  end.

(** [run r s cs k]: match [r] at the start of [s], then continue with [k]
    on what is left; [None] makes the matcher backtrack. *)
Fixpoint run (r : regex) (s : string) (cs : caps)
    (k : string -> caps -> result) {struct r} : result :=
  match r with
  | Eps => k s cs
  | Chr p =>
      match s with
      | String c s' => if p c then k s' cs else None
      | EmptyString => None
      end
  | Str l => if startsWith l s then k (drop (slen l) s) cs else None
  | Seq r1 r2 => run r1 s cs (fun s1 c1 => run r2 s1 c1 k)
  | Alt r1 r2 =>
      match run r1 s cs k with
      | Some x => Some x
      | None => run r2 s cs k
      end
  | Rep greedy lo hi r1 => iterate (run r1) greedy lo hi k (S (slen s)) 0 s cs
  | Grp n r1 =>
      run r1 s cs (fun s1 c1 => k s1 ((n, take (slen s - slen s1) s) :: c1))
  | Ahead r1 =>
      match run r1 s cs (fun s1 c1 => Some (s1, c1)) with
      | Some (_, c1) => k s c1
      | None => None
      end
  | Eol =>
      match s with
      | EmptyString => k s cs
      | String c _ => if isLineTerminator c then k s cs else None
      end
  end.

(** One attempt at the start of [s]: the text left after the match and
    the captures. *)
Definition matchHere (r : regex) (s : string) : result :=
  run r s [] (fun s1 c1 => Some (s1, c1)).

(** What a replacement function receives: the match, the captures, the
    offset of the match and the whole subject. *)
Record matched := {
  m_text : string;
  m_caps : caps;
  m_offset : nat;
  m_input : string
}.

Definition grp (n : nat) (m : matched) : string := cap n (m_caps m).

(** [subject.replace(/r/g, f)], where the callback [f] may keep a tally
    [st] (a counter, a map) from one match to the next: [s] is the unread
    rest of the subject and [off] its offset. *)
Fixpoint replaceFrom {T : Type} (fuel : nat) (r : regex)
    (f : T -> matched -> string * T)
    (whole : string) (off : nat) (s : string) (st : T) : string * T :=
  match fuel with
  | 0 => (s, st)
  | S fuel' =>
      match matchHere r s with
      | Some (rest, cs) =>
          let len := slen s - slen rest in
          let (out, st1) := f st {| m_text := take len s; m_caps := cs;
                                    m_offset := off; m_input := whole |} in
          match len, s with
          | 0, String c s' =>
              let (tl, st2) := replaceFrom fuel' r f whole (S off) s' st1 in
              (out +:+ String c tl, st2)
          | 0, EmptyString => (out, st1)
          | _, _ =>
              let (tl, st2) := replaceFrom fuel' r f whole (off + len) rest st1 in
              (out +:+ tl, st2)
          end
      | None =>
          match s with
          | EmptyString => (EmptyString, st)
          | String c s' =>
              let (tl, st1) := replaceFrom fuel' r f whole (S off) s' st in
              (String c tl, st1)
          end
      end
  end.

Definition replaceWith {T : Type} (r : regex) (f : T -> matched -> string * T)
    (s : string) (st : T) : string * T :=
  replaceFrom (S (slen s)) r f s 0 s st.

(** [subject.replace(/r/g, f)] for a callback without side effect, or a
    replacement pattern. *)
Definition replaceAll (r : regex) (f : matched -> string) (s : string) : string :=
  fst (replaceWith r (fun (_ : unit) m => (f m, tt)) s tt).

(** [subject.match(/r/)] without the [g] flag: the leftmost match. *)
Fixpoint search (r : regex) (s : string) : option (string * caps) :=
  match matchHere r s with
  | Some (rest, cs) => Some (take (slen s - slen rest) s, cs)
  | None =>
      match s with
      | EmptyString => None
      | String _ s' => search r s'
      end
  end.

(** Character classes. *)
Definition lit (c : ascii) : ascii -> bool := Ascii.eqb c.
Definition isnt (c : ascii) : ascii -> bool := fun x => negb (Ascii.eqb c x).
Fixpoint oneOf (l : string) (x : ascii) : bool :=
  match l with
  | EmptyString => false
  | String c r => Ascii.eqb c x || oneOf r x
  end.
Definition notSpace (x : ascii) : bool := negb (isSpace x).
Definition dot (x : ascii) : bool := negb (isLineTerminator x).
Definition anyChar (x : ascii) : bool := true.

(** Quantifiers. *)
Definition star := Rep true 0 None.
Definition plus := Rep true 1 None.
Definition lazyStar := Rep false 0 None.
Definition lazyPlus := Rep false 1 None.
Definition atLeast (n : nat) := Rep true n None.
Definition between (lo hi : nat) := Rep true lo (Some hi).

Fixpoint seqs (l : list regex) : regex :=
  match l with
  | [] => Eps
  | [r] => r
  | r :: l' => Seq r (seqs l')
  end.

End Re.

(* ================================================================== *)
(** * The Markdown post-processor

    [MarkdownConversionService.postProcessMarkdown]: a chain of
    [replace] calls and a final [trim].  Each pass is one definition, in
    the order of the source; the comment gives the source's literal
    (spaces added inside groups where the literal would end a comment). *)

Module PostProcess.
Import Js Re.

Definition c_lf := Chr (lit LF).
Definition c_ws := Chr isSpace.
Definition c_blank := Chr (oneOf (String " " (String TAB EmptyString))).
Definition fence := Str "```".
Definition lf_fence := Str (String LF "```").

(** /\r\n/g  ->  '\n' *)
Definition re_crlf := Str (String CR (String LF EmptyString)).
Definition normalizeLineEndings := replaceAll re_crlf (fun _ => nl).

(** /\n{3,}/g  ->  '\n\n' *)
Definition re_blankLines := atLeast 3 c_lf.
Definition collapseBlankLines := replaceAll re_blankLines (fun _ => nl +:+ nl).

(** /\n\s*[-*+]\s/g  ->  '\n- ' *)
Definition re_listItem := seqs [c_lf; star c_ws; Chr (oneOf "-*+"); c_ws].
Definition fixListItemSpacing := replaceAll re_listItem (fun _ => nl +:+ "- ").

(** /( \n```[^\n]*\n )( .*? )( \n```\s* )/g  ->  '\n$1$2$3\n' *)
Definition re_codeBlock :=
  seqs [Grp 1 (seqs [lf_fence; star (Chr (isnt LF)); c_lf]);
        Grp 2 (lazyStar (Chr dot));
        Grp 3 (seqs [lf_fence; star c_ws])].
Definition spaceCodeBlocks :=
  replaceAll re_codeBlock (fun m => nl +:+ grp 1 m +:+ grp 2 m +:+ grp 3 m +:+ nl).

(** /\n(#{1,6})\s*([^\n]+)/g  ->  '\n$1 $2' *)
Definition re_heading :=
  seqs [c_lf; Grp 1 (between 1 6 (Chr (lit "#"))); star c_ws;
        Grp 2 (plus (Chr (isnt LF)))].
Definition fixHeadingSpacing :=
  replaceAll re_heading (fun m => nl +:+ grp 1 m +:+ " " +:+ grp 2 m).

(** /[ \t]+$/gm  ->  '' *)
Definition re_trailing := seqs [plus c_blank; Eol].
Definition trimTrailingWhitespace := replaceAll re_trailing (fun _ => EmptyString).

(** /\|[ \t]+/g  ->  '| ' *)
Definition re_pipeLeft := seqs [Chr (lit "|"); plus c_blank].
Definition padAfterPipe := replaceAll re_pipeLeft (fun _ => "| ").

(** /[ \t]+\|/g  ->  ' |' *)
Definition re_pipeRight := seqs [plus c_blank; Chr (lit "|")].
Definition padBeforePipe := replaceAll re_pipeRight (fun _ => " |").

(** /\n\s{2,}[-*+]\s/g  ->  match => the marker re-indented by
    [Math.floor((match.length - 3) / 2) * 2] spaces *)
Definition re_nestedItem := seqs [c_lf; atLeast 2 c_ws; Chr (oneOf "-*+"); c_ws].
Definition fixNestedIndent :=
  replaceAll re_nestedItem (fun m =>
    let indent := ((slen (m_text m) - 3) / 2) * 2 in
    nl +:+ repeat " " indent +:+ "- ").

(** /\n>\s*\n>/g  ->  '\n>\n>' *)
Definition re_quoteGap := seqs [c_lf; Chr (lit ">"); star c_ws; c_lf; Chr (lit ">")].
Definition fixBlockquotes := replaceAll re_quoteGap (fun _ => nl +:+ ">" +:+ nl +:+ ">").

(** /\n([-*_]{3,})\n/g  ->  '\n\n$1\n\n' *)
Definition re_rule := seqs [c_lf; Grp 1 (atLeast 3 (Chr (oneOf "-*_"))); c_lf].
Definition spaceHorizontalRules :=
  replaceAll re_rule (fun m => nl +:+ nl +:+ grp 1 m +:+ nl +:+ nl).

(** /( \n#{1,6} [^\n]+\n )(?=#{1,6} [^\n]+)/g  ->  '$1\n' *)
Definition re_headingPair :=
  seqs [Grp 1 (seqs [c_lf; between 1 6 (Chr (lit "#")); Chr (lit " ");
                     plus (Chr (isnt LF)); c_lf]);
        Ahead (seqs [between 1 6 (Chr (lit "#")); Chr (lit " ");
                     plus (Chr (isnt LF))])].
Definition separateHeadings := replaceAll re_headingPair (fun m => grp 1 m +:+ nl).

(** /\[([^\]]+)\]\(([^)]+)\)/g  ->  (match, text, url) =>
    `[${text.trim()}](${url.trim()})` *)
Definition re_link :=
  seqs [Chr (lit "["); Grp 1 (plus (Chr (isnt "]"))); Chr (lit "]");
        Chr (lit "("); Grp 2 (plus (Chr (isnt ")"))); Chr (lit ")")].
Definition trimLinks :=
  replaceAll re_link (fun m =>
    "[" +:+ trim (grp 1 m) +:+ "](" +:+ trim (grp 2 m) +:+ ")").

(** /`\s+([^`]+)\s+`/g  ->  '`$1`' *)
Definition re_inlineCode :=
  seqs [Chr (lit "`"); plus c_ws; Grp 1 (plus (Chr (isnt "`"))); plus c_ws;
        Chr (lit "`")].
Definition trimInlineCode := replaceAll re_inlineCode (fun m => "`" +:+ grp 1 m +:+ "`").

(** /\d+\.\s+/ and /(\d+)\.\s+/, matched against the previous line *)
Definition re_numbered := seqs [Grp 1 (plus (Chr isDigit)); Chr (lit "."); plus c_ws].

(** /\n\s*\d+\.\s+/g  ->  (match, offset, string) => ... : the number is
    1 after a line that holds no list number, and that line's number plus
    one otherwise; the line is read from the subject of the pass. *)
Definition re_orderedItem :=
  seqs [c_lf; star c_ws; plus (Chr isDigit); Chr (lit "."); plus c_ws].
Definition renumberOrderedLists :=
  replaceAll re_orderedItem (fun m =>
    let prevLine := lastLine (take (m_offset m) (m_input m)) in
    let number :=
      match search re_numbered prevLine with
      | None => toNumber 1
      | Some (_, cs) => numberAdd (parseInt (cap 1 cs)) (toNumber 1)
      end in
    nl +:+ numberToString number +:+ ". ").

(** /```([a-zA-Z0-9]+)/g  ->  (match, lang) => '```' + lang.toLowerCase() *)
Definition re_fenceLang := seqs [fence; Grp 1 (plus (Chr isAlnum))].
Definition lowerFenceLanguage :=
  replaceAll re_fenceLang (fun m => "```" +:+ toLowerCase (grp 1 m)).

(** (\*\*|\*|__|_) *)
Definition delimiter := Alt (Str "**") (Alt (Str "*") (Alt (Str "__") (Str "_"))).

(** /(\S)(\*\*|\*|__|_)(\S)/g  ->  '$1 $2$3' *)
Definition re_emphInner := seqs [Grp 1 (Chr notSpace); Grp 2 delimiter; Grp 3 (Chr notSpace)].
Definition spaceEmphasisInner :=
  replaceAll re_emphInner (fun m => grp 1 m +:+ " " +:+ grp 2 m +:+ grp 3 m).

(** /(\S)(\*\*|\*|__|_)(\s)/g  ->  '$1 $2$3' *)
Definition re_emphClose := seqs [Grp 1 (Chr notSpace); Grp 2 delimiter; Grp 3 c_ws].
Definition spaceEmphasisClose :=
  replaceAll re_emphClose (fun m => grp 1 m +:+ " " +:+ grp 2 m +:+ grp 3 m).

(** /(\s)(\*\*|\*|__|_)(\S)/g  ->  '$1$2 $3' *)
Definition re_emphOpen := seqs [Grp 1 c_ws; Grp 2 delimiter; Grp 3 (Chr notSpace)].
Definition spaceEmphasisOpen :=
  replaceAll re_emphOpen (fun m => grp 1 m +:+ grp 2 m +:+ " " +:+ grp 3 m).

(** /!\[( .*? )\]\(( .*? )\)/g  ->  (match, alt, src) =>
    `![${alt.trim()}](${src.trim()})` *)
Definition re_image :=
  seqs [Str "!["; Grp 1 (lazyStar (Chr dot)); Str "]("; Grp 2 (lazyStar (Chr dot));
        Chr (lit ")")].
Definition trimImages :=
  replaceAll re_image (fun m =>
    "![" +:+ trim (grp 1 m) +:+ "](" +:+ trim (grp 2 m) +:+ ")").

(** /\n\s*[*+]\s+/g  ->  '\n- ' *)
Definition re_bullet := seqs [c_lf; star c_ws; Chr (oneOf "*+"); plus c_ws].
Definition standardizeBullets := replaceAll re_bullet (fun _ => nl +:+ "- ").

(** /([^\n])\n```/g  ->  '$1\n\n```' *)
Definition re_beforeFence := seqs [Grp 1 (Chr (isnt LF)); lf_fence].
Definition blankBeforeFence :=
  replaceAll re_beforeFence (fun m => grp 1 m +:+ nl +:+ nl +:+ "```").

(** /```\n([^\n])/g  ->  '```\n\n$1' *)
Definition re_afterFence := seqs [fence; c_lf; Grp 1 (Chr (isnt LF))].
Definition blankAfterFence :=
  replaceAll re_afterFence (fun m => "```" +:+ nl +:+ nl +:+ grp 1 m).

(** The passes, in the order the source chains them. *)
Definition passes : list (string -> string) :=
  [ normalizeLineEndings; collapseBlankLines; fixListItemSpacing;
    spaceCodeBlocks; fixHeadingSpacing; trimTrailingWhitespace;
    padAfterPipe; padBeforePipe; fixNestedIndent; fixBlockquotes;
    spaceHorizontalRules; separateHeadings; trimLinks; trimInlineCode;
    renumberOrderedLists; lowerFenceLanguage; spaceEmphasisInner;
    spaceEmphasisClose; spaceEmphasisOpen; trimImages; standardizeBullets;
    blankBeforeFence; blankAfterFence; trim ].

Definition chain (fs : list (string -> string)) (s : string) : string :=
  fold_left (fun acc f => f acc) fs s.

(** [postProcessMarkdown(markdown)]; [!markdown] holds of the empty
    string. *)
Definition postProcessMarkdown (markdown : string) : string :=
  match markdown with
  | EmptyString => EmptyString
  | _ => chain passes markdown
  end.

End PostProcess.

(* ================================================================== *)
(** * The DOM: a store of nodes

    The source rewrites a document in place and holds nodes by reference:
    a row is moved by [appendChild], a static [NodeList] is walked while
    the tree under it changes.  The store keeps every node under its
    identity (its index), with its child list and parent link.  The
    markup of a tree is the value [html]. *)

Module Dom.
Import Js.

Inductive html : Type :=
| HElem (tag : string) (attrs : list (string * string)) (kids : list html)
| HText (data : string)
| HComment (data : string).

Inductive kind : Type :=
| Element (tag : string)     (* the local name, in lower case *)
| Text (data : string)
| Comment (data : string)
| Fragment.                  (* a DocumentFragment *)

Record node := Node {
  n_kind : kind;
  n_attrs : list (string * string);
  n_kids : list nat;
  n_parent : option nat
}.

(** A reference to a node is its index in the store. *)
Abbreviation ref := nat (only parsing).
Abbreviation dom := (list node) (only parsing).

Definition blankNode (k : kind) : node :=
  {| n_kind := k; n_attrs := []; n_kids := []; n_parent := None |}.

Definition setKids (ks : list ref) (n : node) : node :=
  {| n_kind := n_kind n; n_attrs := n_attrs n; n_kids := ks; n_parent := n_parent n |}.
Definition setParent (p : option ref) (n : node) : node :=
  {| n_kind := n_kind n; n_attrs := n_attrs n; n_kids := n_kids n; n_parent := p |}.
Definition setAttrs (a : list (string * string)) (n : node) : node :=
  {| n_kind := n_kind n; n_attrs := a; n_kids := n_kids n; n_parent := n_parent n |}.

(** Update node [i] in place; nothing happens outside the store. *)
Definition update (i : ref) (f : node -> node) (d : dom) : dom :=
  match d !! i with
  | Some n => <[i := f n]> d
  | None => d
  end.

Definition alloc (n : node) (d : dom) : ref * dom := (length d, d ++ [n]).

Definition kidsOf (d : dom) (i : ref) : list ref :=
  match d !! i with Some n => n_kids n | None => [] end.
Definition parentNode (d : dom) (i : ref) : option ref :=
  match d !! i with Some n => n_parent n | None => None end.
Definition kindOf (d : dom) (i : ref) : option kind :=
  match d !! i with Some n => Some (n_kind n) | None => None end.
Definition attrsOf (d : dom) (i : ref) : list (string * string) :=
  match d !! i with Some n => n_attrs n | None => [] end.

(** [localName] of an element; [None] for the other kinds of node. *)
Definition tagOf (d : dom) (i : ref) : option string :=
  match kindOf d i with Some (Element t) => Some t | _ => None end.
Definition isElement (d : dom) (i : ref) : bool :=
  match tagOf d i with Some _ => true | None => false end.
Definition hasTag (d : dom) (t : string) (i : ref) : bool :=
  match tagOf d i with Some t' => String.eqb t t' | None => false end.

(** [parentElement]: the parent when it is an element. *)
Definition parentElement (d : dom) (i : ref) : option ref :=
  match parentNode d i with
  | Some p => if isElement d p then Some p else None
  | None => None
  end.

Definition firstChild (d : dom) (i : ref) : option ref := head (kidsOf d i).

Fixpoint after (i : ref) (l : list ref) : list ref :=
  match l with
  | [] => []
  | x :: r => if x =? i then r else after i r
  end.

Definition siblingsAfter (d : dom) (i : ref) : list ref :=
  match parentNode d i with
  | Some p => after i (kidsOf d p)
  | None => []
  end.

Definition nextSibling (d : dom) (i : ref) : option ref := head (siblingsAfter d i).
Definition nextElementSibling (d : dom) (i : ref) : option ref :=
  head (filter (fun j => isElement d j = true) (siblingsAfter d i)).

(** ** Attributes *)

Fixpoint lookupAttr (a : string) (l : list (string * string)) : option string :=
  match l with
  | [] => None
  | (k, v) :: r => if String.eqb a k then Some v else lookupAttr a r
  end.

Fixpoint putAttr (a v : string) (l : list (string * string)) : list (string * string) :=
  match l with
  | [] => [(a, v)]
  | (k, w) :: r => if String.eqb a k then (k, v) :: r else (k, w) :: putAttr a v r
  end.

Definition dropAttr (a : string) (l : list (string * string)) : list (string * string) :=
  filter (fun kv => String.eqb a (fst kv) = false) l.

Definition getAttribute (d : dom) (i : ref) (a : string) : option string :=
  lookupAttr a (attrsOf d i).
Definition hasAttribute (d : dom) (i : ref) (a : string) : bool :=
  match getAttribute d i a with Some _ => true | None => false end.
Definition setAttribute (i : ref) (a v : string) (d : dom) : dom :=
  update i (fun n => setAttrs (putAttr a v (n_attrs n)) n) d.
Definition removeAttribute (i : ref) (a : string) (d : dom) : dom :=
  update i (fun n => setAttrs (dropAttr a (n_attrs n)) n) d.

(** The tokens of a [class] attribute, split at ASCII white space. *)
Fixpoint tokens (s : string) (cur : string) : list string :=
  match s with
  | EmptyString => match cur with EmptyString => [] | _ => [srev cur] end
  | String c r =>
      if isAsciiSpace c
      then match cur with
           | EmptyString => tokens r EmptyString
           | _ => srev cur :: tokens r EmptyString
           end
      else tokens r (String c cur)
  end.

Definition classList (d : dom) (i : ref) : list string :=
  match getAttribute d i "class" with
  | Some v => tokens v EmptyString
  | None => []
  end.
Definition hasClass (d : dom) (i : ref) (c : string) : bool :=
  existsb (String.eqb c) (classList d i).

(** ** Walking the tree

    [fuel] bounds the depth; the number of nodes in the store is enough
    for every tree. *)

Fixpoint descendants (fuel : nat) (d : dom) (i : ref) : list ref :=
  match fuel with
  | 0 => []
  | S f => flat_map (fun k => k :: descendants f d k) (kidsOf d i)
  end.

(** The descendants of [i] in tree order. *)
Definition subtree (d : dom) (i : ref) : list ref := descendants (length d) d i.

Fixpoint ancestors (fuel : nat) (d : dom) (i : ref) : list ref :=
  match fuel with
  | 0 => []
  | S f => match parentNode d i with
           | Some p => p :: ancestors f d p
           | None => []
           end
  end.

(** [i] and its ancestors, nearest first. *)
Definition lineage (d : dom) (i : ref) : list ref := i :: ancestors (length d) d i.

Fixpoint textOf (fuel : nat) (d : dom) (i : ref) : string :=
  match fuel with
  | 0 => EmptyString
  | S f =>
      match kindOf d i with
      | Some (Text s) => s
      | Some (Comment _) => EmptyString
      | Some _ => fold_right (fun k acc => textOf f d k +:+ acc) EmptyString (kidsOf d i)
      | None => EmptyString
      end
  end.

(** [node.textContent] (of an element or a fragment: the text of its
    descendants; of a text or comment node: its data). *)
Definition textContent (d : dom) (i : ref) : string :=
  match kindOf d i with
  | Some (Comment s) => s
  | _ => textOf (S (length d)) d i
  end.

(** ** Markup to store and back *)

Fixpoint load (h : html) (parent : option ref) (d : dom) {struct h} : ref * dom :=
  match h with
  | HText s => alloc {| n_kind := Text s; n_attrs := []; n_kids := []; n_parent := parent |} d
  | HComment s => alloc {| n_kind := Comment s; n_attrs := []; n_kids := []; n_parent := parent |} d
  | HElem t a ks =>
      let (i, d1) := alloc {| n_kind := Element t; n_attrs := a; n_kids := [];
                              n_parent := parent |} d in
      let (ids, d2) :=
        (fix loadAll (l : list html) (d : dom) : list ref * dom :=
           match l with
           | [] => ([], d)
           | x :: r =>
               let (j, d') := load x (Some i) d in
               let (js, d'') := loadAll r d' in
               (j :: js, d'')
           end) ks d1 in
      (i, update i (setKids ids) d2)
  end.

Fixpoint loadForest (l : list html) (parent : option ref) (d : dom) : list ref * dom :=
  match l with
  | [] => ([], d)
  | x :: r =>
      let (j, d') := load x parent d in
      let (js, d'') := loadForest r parent d' in
      (j :: js, d'')
  end.

Fixpoint reify (fuel : nat) (d : dom) (i : ref) : html :=
  match fuel with
  | 0 => HText EmptyString
  | S f =>
      match d !! i with
      | Some n =>
          match n_kind n with
          | Element t => HElem t (n_attrs n) (map (reify f d) (n_kids n))
          | Text s => HText s
          | Comment s => HComment s
          | Fragment => HElem "#document-fragment" [] (map (reify f d) (n_kids n))
          end
      | None => HText EmptyString
      end
  end.

(** The tree under [i], as a value. *)
Definition treeOf (d : dom) (i : ref) : html := reify (S (length d)) d i.
Definition forestOf (d : dom) (i : ref) : list html := map (treeOf d) (kidsOf d i).

End Dom.

(* ================================================================== *)
(** * Selectors *)

Module Selector.
Import Js Dom.

(** A compound selector without combinator. *)
Inductive simple : Type :=
| Tag (t : string)                 (* t *)
| Any                              (* * *)
| TagClass (t c : string)          (* t.c *)
| TagAttr (t a : string).          (* t[a] *)

Inductive complex : Type :=
| Desc (s : simple)                (* s, anywhere under the scope *)
| ChildOf (p : string) (s : simple) (* p > s *)
| ScopeChild (s : simple).         (* :scope > s *)

(** A selector list: the alternatives between commas. *)
Definition selector := list complex.

Definition matchesSimple (d : dom) (s : simple) (i : ref) : bool :=
  match s with
  | Tag t => hasTag d t i
  | Any => isElement d i
  | TagClass t c => hasTag d t i && hasClass d i c
  | TagAttr t a => hasTag d t i && hasAttribute d i a
  end.

Definition matchesComplex (d : dom) (scope : ref) (c : complex) (i : ref) : bool :=
  match c with
  | Desc s => matchesSimple d s i
  | ChildOf p s =>
      matchesSimple d s i &&
      match parentNode d i with Some q => hasTag d p q | None => false end
  | ScopeChild s =>
      matchesSimple d s i &&
      match parentNode d i with Some q => q =? scope | None => false end
  end.

Definition matches (d : dom) (scope : ref) (sel : selector) (i : ref) : bool :=
  existsb (fun c => matchesComplex d scope c i) sel.

(** [scope.querySelectorAll(sel)]: a static list, in tree order. *)
Definition querySelectorAll (d : dom) (scope : ref) (sel : selector) : list ref :=
  filter (fun i => matches d scope sel i = true) (subtree d scope).

(** [scope.querySelector(sel)] *)
Definition querySelector (d : dom) (scope : ref) (sel : selector) : option ref :=
  head (querySelectorAll d scope sel).

(** [e.closest(sel)]: [e] or its nearest ancestor that matches. *)
Definition closest (d : dom) (e : ref) (sel : selector) : option ref :=
  head (filter (fun i => matches d e sel i = true) (lineage d e)).

Definition tag (t : string) : selector := [Desc (Tag t)].
Definition tags (ts : list string) : selector := map (fun t => Desc (Tag t)) ts.

End Selector.

(* ================================================================== *)
(** * Effects: the store, the error log, exceptions, unbounded loops *)

Module Eff.
Import Js Dom.

(** An entry of [recentErrors] (utils/errorHandler.ts); the time stamp and
    the page URL are the browser's and are left out. *)
Record errorLog := {
  e_category : string;
  e_message : string;
  e_error : string
}.

Definition MAX_ERROR_LOGS : nat := 10.
Definition MARKDOWN_CONVERSION : string := "markdown-conversion".

Record state := {
  s_dom : dom;                          (* the nodes the page holds *)
  s_errors : list errorLog;             (* recentErrors *)
  s_preserved : list (string * string)  (* this._preservedContent, in insertion order *)
}.

Definition withDom (d : dom) (s : state) : state :=
  {| s_dom := d; s_errors := s_errors s; s_preserved := s_preserved s |}.
Definition withErrors (e : list errorLog) (s : state) : state :=
  {| s_dom := s_dom s; s_errors := e; s_preserved := s_preserved s |}.
Definition withPreserved (p : list (string * string)) (s : state) : state :=
  {| s_dom := s_dom s; s_errors := s_errors s; s_preserved := p |}.

(** How a call ends: with a value, with an exception, or not at all
    within the steps allowed to its [while] loops. *)
Inductive res (A : Type) : Type :=
| Ok (a : A) (s : state)
| Throw (e : string) (s : state)
| OutOfFuel.
Arguments Ok {A} a s.
Arguments Throw {A} e s.
Arguments OutOfFuel {A}.

Definition M (A : Type) : Type := state -> res A.

Definition ret {A} (a : A) : M A := fun s => Ok a s.
Definition bind {A B} (m : M A) (k : A -> M B) : M B :=
  fun s => match m s with
           | Ok a s' => k a s'
           | Throw e s' => Throw e s'
           | OutOfFuel => OutOfFuel
           end.
Definition throw {A} (e : string) : M A := fun s => Throw e s.
Definition diverge {A} : M A := fun _ => OutOfFuel.

(** [try { m } catch (error) { h error }] *)
Definition tryCatch {A} (m : M A) (h : string -> M A) : M A :=
  fun s => match m s with
           | Throw e s' => h e s'
           | r => r
           end.

Declare Scope eff_scope.
Delimit Scope eff_scope with eff.
Notation "'do' x <- m ; k" := (bind m (fun x => k))
  (at level 10, x name, m at level 100, k at level 200) : eff_scope.
Local Open Scope eff_scope.

Definition getDom : M dom := fun s => Ok (s_dom s) s.
Definition putDom (d : dom) : M unit := fun s => Ok tt (withDom d s).
Definition modifyDom (f : dom -> dom) : M unit := fun s => Ok tt (withDom (f (s_dom s)) s).
(** Read the store. *)
Definition ask {A} (f : dom -> A) : M A := fun s => Ok (f (s_dom s)) s.
(** Allocate in the store. *)
Definition fresh (f : dom -> ref * dom) : M ref :=
  fun s => let (i, d) := f (s_dom s) in Ok i (withDom d s).

(** [list.forEach(f)] over a static list. *)
Fixpoint forEach {A} (l : list A) (f : A -> M unit) : M unit :=
  match l with
  | [] => ret tt
  | x :: r => do _ <- f x; forEach r f
  end.

(** [when c m]: [if (c) { m }] *)
Definition when (c : bool) (m : M unit) : M unit := if c then m else ret tt.

(** [logError(category, message, error)]: push on [recentErrors], drop the
    oldest entry past [MAX_ERROR_LOGS]. *)
Definition logError (category message error : string) : M unit :=
  fun s =>
    let l := s_errors s ++ [{| e_category := category; e_message := message;
                               e_error := error |}] in
    let l' := if MAX_ERROR_LOGS <? length l then tail l else l in
    Ok tt (withErrors l' s).

(** ** DOM mutation *)

Definition createElement (t : string) : M ref :=
  fresh (alloc (blankNode (Element t))).
Definition createTextNode (s : string) : M ref :=
  fresh (alloc (blankNode (Text s))).
Definition createDocumentFragment : M ref :=
  fresh (alloc (blankNode Fragment)).

Definition without (i : ref) (l : list ref) : list ref :=
  filter (fun j => j ≠ i) l.

Fixpoint insAt (r i : ref) (l : list ref) : list ref :=
  match l with
  | [] => [i]
  | x :: l' => if x =? r then i :: x :: l' else x :: insAt r i l'
  end.

(** [l] with [i] put before [before], or last. *)
Definition insBefore (before : option ref) (i : ref) (l : list ref) : list ref :=
  match before with
  | None => l ++ [i]
  | Some r => insAt r i l
  end.

(** Take [i] out of its parent's child list. *)
Definition unlink (i : ref) (d : dom) : dom :=
  match parentNode d i with
  | Some p => update i (setParent None) (update p (fun n => setKids (without i (n_kids n)) n) d)
  | None => d
  end.

(** Put the parentless [i] under [p], before [before]. *)
Definition link (p : ref) (before : option ref) (i : ref) (d : dom) : dom :=
  update i (setParent (Some p))
    (update p (fun n => setKids (insBefore before i (n_kids n)) n) d).

Definition canHaveChildren (d : dom) (p : ref) : bool :=
  match kindOf d p with
  | Some (Element _) | Some Fragment => true
  | _ => false
  end.

Definition isInclusiveAncestor (d : dom) (a x : ref) : bool :=
  existsb (Nat.eqb a) (lineage d x).

(** The nodes an insertion of [i] inserts: the children of a fragment, or
    the node itself. *)
Definition payload (d : dom) (i : ref) : list ref :=
  match kindOf d i with
  | Some Fragment => kidsOf d i
  | _ => [i]
  end.

Definition insertAll (p : ref) (before : option ref) (l : list ref) (d : dom) : dom :=
  fold_left (fun d i => link p before i (unlink i d)) l d.

(** [p.insertBefore(i, before)], with the DOM's validity checks. *)
Definition insertBefore (p i : ref) (before : option ref) : M unit :=
  do d <- getDom;
  if negb (canHaveChildren d p) then throw "HierarchyRequestError"
  else if isInclusiveAncestor d i p then throw "HierarchyRequestError"
  else
    match before with
    | Some r =>
        if negb (bool_decide (parentNode d r = Some p)) then throw "NotFoundError"
        else
          let before' := if r =? i then nextSibling d i else Some r in
          putDom (insertAll p before' (payload d i) d)
    | None => putDom (insertAll p None (payload d i) d)
    end.

(** [p.appendChild(i)] *)
Definition appendChild (p i : ref) : M unit := insertBefore p i None.

(** [p.removeChild(i)] *)
Definition removeChild (p i : ref) : M unit :=
  do d <- getDom;
  if bool_decide (parentNode d i = Some p) then putDom (unlink i d)
  else throw "NotFoundError".

(** [p.replaceChild(i, old)] *)
Definition replaceChild (p i old : ref) : M unit :=
  do d <- getDom;
  if negb (canHaveChildren d p) then throw "HierarchyRequestError"
  else if isInclusiveAncestor d i p then throw "HierarchyRequestError"
  else if negb (bool_decide (parentNode d old = Some p)) then throw "NotFoundError"
  else
    let next := nextSibling d old in
    let before := match next with
                  | Some r => if r =? i then nextSibling d i else next
                  | None => None
                  end in
    putDom (insertAll p before (payload d i) (unlink old d)).

(** [i.cloneNode(true)]: a parentless copy of the tree under [i]. *)
Definition cloneNode (i : ref) : M ref :=
  fresh (fun d => load (treeOf d i) None d).

Definition clearKids (i : ref) (d : dom) : dom :=
  update i (setKids []) (fold_left (fun d k => update k (setParent None) d) (kidsOf d i) d).

(** [i.textContent = s] *)
Definition setTextContent (i : ref) (s : string) : M unit :=
  do _ <- modifyDom (clearKids i);
  match s with
  | EmptyString => ret tt
  | _ =>
      do t <- fresh (alloc {| n_kind := Text s; n_attrs := []; n_kids := [];
                           n_parent := Some i |});
      modifyDom (update i (setKids [t]))
  end.

End Eff.

(* ================================================================== *)
(** * What the browser and the Turndown library provide

    The HTML parser and serializer behind [innerHTML] and [outerHTML],
    computed styles, and the Turndown converter with its rules are
    collaborators of the code under study.  The embedding takes them as
    the fields of [Host]; every theorem that does not name a host holds
    for all of them. *)

Module Platform.
Import Js Dom Eff.
Local Open Scope eff_scope.

Record Host := {
  (** The fragment parser: the context element's tag, then the markup. *)
  parseHTML : string -> string -> list html;
  (** The fragment serializer. *)
  serializeHTML : list html -> string;
  (** [window.getComputedStyle(cell).textAlign] *)
  computedTextAlign : dom -> ref -> string;
  (** [turndownService.turndown(html)] with the rules the service
      configures: the Markdown, or the exception it throws. *)
  turndown : string -> string + string
}.

Section WithHost.
Context (H : Host).

(** [i.innerHTML] *)
Definition innerHTML (d : dom) (i : ref) : string :=
  serializeHTML H (forestOf d i).

(** [i.outerHTML] *)
Definition outerHTML (d : dom) (i : ref) : string :=
  serializeHTML H [treeOf d i].

Definition contextTag (d : dom) (i : ref) : string :=
  match tagOf d i with Some t => t | None => "div" end.

(** [i.innerHTML = markup] *)
Definition setInnerHTML (i : ref) (markup : string) : M unit :=
  do _ <- modifyDom (clearKids i);
  do d <- getDom;
  let (ids, d') := loadForest (parseHTML H (contextTag d i) markup) (Some i) d in
  putDom (update i (setKids ids) d').

(** [i.outerHTML = markup]: nothing happens to a node without parent. *)
Definition setOuterHTML (i : ref) (markup : string) : M unit :=
  do d <- getDom;
  match parentNode d i with
  | None => ret tt
  | Some p =>
      do frag <- createDocumentFragment;
      do d <- getDom;
      let (ids, d') := loadForest (parseHTML H (contextTag d p) markup) (Some frag) d in
      do _ <- putDom (update frag (setKids ids) d');
      replaceChild p frag i
  end.

(** [const container = document.createElement('div');
     container.innerHTML = html] *)
Definition container (markup : string) : M ref :=
  do c <- createElement "div";
  do _ <- setInnerHTML c markup;
  ret c.

End WithHost.
End Platform.

(* ================================================================== *)
(** * services/complexStructureService.ts *)

Module ComplexStructure.
Import Js Dom Selector Eff Platform.
Local Open Scope eff_scope.

Record TableOptions := {
  alignCells : bool;
  minColumnWidth : nat;
  maxColumnWidth : nat;
  preserveTableClasses : bool
}.

Definition DEFAULT_TABLE_OPTIONS : TableOptions :=
  {| alignCells := true; minColumnWidth := 5; maxColumnWidth := 50;
     preserveTableClasses := true |}.

Section WithHost.
Context (H : Host).

(** The first row has no [th]: clone it, turn every [td] of the clone
    into a [th] and put the clone into [thead]. *)
Definition convertHeaderRow (firstRow : ref) : M ref :=
  do headerRow <- cloneNode firstRow;
  do d <- getDom;
  let headerCells := querySelectorAll d headerRow (tag "td") in
  do _ <- forEach headerCells (fun cell =>
    do th <- createElement "th";
    do d <- getDom;
    do _ <- setInnerHTML H th (innerHTML H d cell);
    do d <- getDom;
    match parentNode d cell with
    | Some p => replaceChild p th cell
    | None => ret tt
    end);
  ret headerRow.

(** [normalizeTableStructure(table)] *)
Definition normalizeTableStructure (table : ref) : M unit :=
  do d <- getDom;
  let found := querySelector d table (tag "thead") in
  let rows := querySelectorAll d table (tag "tr") in
  do thead <-
    match found, rows with
    | None, firstRow :: _ =>
        do thead <- createElement "thead";
        do d <- getDom;
        let hasTh := bool_decide (querySelector d firstRow (tag "th") ≠ None) in
        if hasTh then
          do _ <- appendChild thead firstRow;
          do d <- getDom;
          do _ <- insertBefore table thead (firstChild d table);
          ret (Some thead)
        else
          do headerRow <- convertHeaderRow firstRow;
          do _ <- appendChild thead headerRow;
          do d <- getDom;
          do _ <- insertBefore table thead (firstChild d table);
          ret (Some thead)
    | _, _ => ret found
    end;
  do d <- getDom;
  match querySelector d table (tag "tbody") with
  | Some _ => ret tt
  | None =>
      do newTbody <- createElement "tbody";
      do _ <- forEach rows (fun row =>
        do d <- getDom;
        if bool_decide (parentElement d row ≠ thead)
        then appendChild newTbody row
        else ret tt);
      appendChild table newTbody
  end.

(** [processTableAlignments(table)] *)
Definition processTableAlignments (table : ref) : M unit :=
  do d <- getDom;
  forEach (querySelectorAll d table (tags ["th"; "td"])) (fun cell =>
    do d <- getDom;
    let textAlign := computedTextAlign H d cell in
    do _ <-
      (if String.eqb textAlign "center" then modifyDom (setAttribute cell "data-align" "center")
       else if String.eqb textAlign "right" then modifyDom (setAttribute cell "data-align" "right")
       else if String.eqb textAlign "left" then modifyDom (setAttribute cell "data-align" "left")
       else ret tt);
    do d <- getDom;
    match getAttribute d cell "align" with
    | Some alignAttr =>
        if negb (hasAttribute d cell "data-align") && negb (String.eqb alignAttr "")
        then modifyDom (setAttribute cell "data-align" alignAttr)
        else ret tt
    | None => ret tt
    end).

Definition keptAttributes : list string := ["data-align"; "rowspan"; "colspan"].

(** [cleanupTableAttributes(table)] *)
Definition cleanupTableAttributes (table : ref) : M unit :=
  do d <- getDom;
  forEach (querySelectorAll d table [Desc Any]) (fun element =>
    do d <- getDom;
    forEach (map fst (attrsOf d element)) (fun name =>
      if negb (existsb (String.eqb name) keptAttributes)
      then modifyDom (removeAttribute element name)
      else ret tt)).

(** [processTable(tableElement, options)] *)
Definition processTable (tableElement : ref) (options : TableOptions) : M ref :=
  tryCatch
    (do tableClone <- cloneNode tableElement;
     do _ <- normalizeTableStructure tableClone;
     do _ <- when (alignCells options) (processTableAlignments tableClone);
     do _ <- when (negb (preserveTableClasses options)) (cleanupTableAttributes tableClone);
     ret tableClone)
    (fun error =>
     do _ <- logError MARKDOWN_CONVERSION "Failed to process complex table" error;
     ret tableElement).

(** [markNestedLevels(listElement, level)]; [depth] bounds the recursion
    by the depth of the tree. *)
Fixpoint markNestedLevels (depth : nat) (listElement : ref) (level : nat) : M unit :=
  match depth with
  | 0 => diverge
  | S depth' =>
      do _ <- modifyDom (setAttribute listElement "data-list-level" (counterToString level));
      do d <- getDom;
      forEach (querySelectorAll d listElement [ScopeChild (Tag "li")]) (fun item =>
        do _ <- modifyDom (setAttribute item "data-list-level" (counterToString level));
        do d <- getDom;
        forEach (querySelectorAll d item [ScopeChild (Tag "ul"); ScopeChild (Tag "ol")])
          (fun nestedList => markNestedLevels depth' nestedList (level + 1)))
  end.

(** [processNestedList(listElement)] *)
Definition processNestedList (listElement : ref) : M ref :=
  tryCatch
    (do listClone <- cloneNode listElement;
     do d <- getDom;
     do _ <- markNestedLevels (S (length d)) listClone 0;
     ret listClone)
    (fun error =>
     do _ <- logError MARKDOWN_CONVERSION "Failed to process nested list" error;
     ret listElement).

(** [processDefinitionList(dlElement)] *)
Definition processDefinitionList (dlElement : ref) : M ref :=
  tryCatch
    (do dlClone <- cloneNode dlElement;
     do d <- getDom;
     let terms := querySelectorAll d dlClone (tag "dt") in
     let descriptions := querySelectorAll d dlClone (tag "dd") in
     do _ <- forEach terms (fun term =>
       modifyDom (setAttribute term "data-def-term" "true"));
     do _ <- forEach descriptions (fun desc =>
       modifyDom (setAttribute desc "data-def-desc" "true"));
     ret dlClone)
    (fun error =>
     do _ <- logError MARKDOWN_CONVERSION "Failed to process definition list" error;
     ret dlElement).

(** [markNestedBlockquotes(blockquoteElement, level)] *)
Fixpoint markNestedBlockquotes (depth : nat) (blockquoteElement : ref) (level : nat) : M unit :=
  match depth with
  | 0 => diverge
  | S depth' =>
      do _ <- modifyDom (setAttribute blockquoteElement "data-quote-level" (counterToString level));
      do d <- getDom;
      forEach (querySelectorAll d blockquoteElement [ScopeChild (Tag "blockquote")])
        (fun quote => markNestedBlockquotes depth' quote (level + 1))
  end.

(** [processBlockquote(blockquoteElement)] *)
Definition processBlockquote (blockquoteElement : ref) : M ref :=
  tryCatch
    (do bqClone <- cloneNode blockquoteElement;
     do d <- getDom;
     do _ <- markNestedBlockquotes (S (length d)) bqClone 0;
     ret bqClone)
    (fun error =>
     do _ <- logError MARKDOWN_CONVERSION "Failed to process blockquote" error;
     ret blockquoteElement).

End WithHost.
End ComplexStructure.

(* ================================================================== *)
(** * services/markdownConversionService.ts *)

Module MarkdownConversion.
Import Js Re Dom Selector Eff Platform ComplexStructure.
Local Open Scope eff_scope.

Record MarkdownOptions := {
  headingStyle : string;
  hr : string;
  bulletListMarker : string;
  codeBlockStyle : string;
  fence : string;
  emDelimiter : string;
  strongDelimiter : string;
  linkStyle : string;
  linkReferenceStyle : string;
  preserveImageSize : bool;
  preserveRelativeLinks : bool;
  preserveTableAlignment : bool;
  preserveFrontMatter : bool;
  tableOptions : TableOptions;
  processComplexStructures : bool
}.

Definition DEFAULT_MARKDOWN_OPTIONS : MarkdownOptions :=
  {| headingStyle := "atx"; hr := "---"; bulletListMarker := "-";
     codeBlockStyle := "fenced"; fence := "```"; emDelimiter := "*";
     strongDelimiter := "**"; linkStyle := "inlined";
     linkReferenceStyle := "full"; preserveImageSize := true;
     preserveRelativeLinks := true; preserveTableAlignment := true;
     preserveFrontMatter := true; tableOptions := DEFAULT_TABLE_OPTIONS;
     processComplexStructures := true |}.

(** ** [String.prototype.replace] with a string pattern *)

(** The replacement text with its [$$], [$&], [$`] and [$'] patterns
    expanded; a string pattern has no groups, so [$1] stays as it is. *)
Fixpoint expand (repl matched before rest : string) : string :=
  match repl with
  | EmptyString => EmptyString
  | String a tl =>
      if Ascii.eqb a "$" then
        match tl with
        | String c r =>
            if Ascii.eqb c "$" then String "$" (expand r matched before rest)
            else if Ascii.eqb c "&" then matched +:+ expand r matched before rest
            else if Ascii.eqb c "`" then before +:+ expand r matched before rest
            else if Ascii.eqb c "'" then rest +:+ expand r matched before rest
            else String "$" (expand tl matched before rest)
        | EmptyString => String "$" EmptyString
        end
      else String a (expand tl matched before rest)
  end.

(** [s.replace(pattern, repl)]: the first occurrence only. *)
Definition replaceFirst (pattern repl s : string) : string :=
  match indexOf pattern s with
  | Some i =>
      let before := take i s in
      let rest := drop (i + slen pattern) s in
      before +:+ expand repl pattern before rest +:+ rest
  | None => s
  end.

(** ** The placeholder map: a [Map], in insertion order *)

Definition pmap := list (string * string).

Fixpoint mapSet (k v : string) (m : pmap) : pmap :=
  match m with
  | [] => [(k, v)]
  | (k', v') :: r => if String.eqb k k' then (k', v) :: r else (k', v') :: mapSet k v r
  end.

(** The tally of the extraction callbacks: the map and
    [placeholderCounter]. *)
Definition tally := (pmap * nat)%type.

Definition placeholder (prefix : string) (value : matched -> string) :
    tally -> matched -> string * tally :=
  fun '(m, counter) mt =>
    let name := prefix +:+ counterToString counter in
    (name, (mapSet name (value mt) m, S counter)).

(** /\$([^$]+)\$/g *)
Definition inlineMathRegex :=
  seqs [Chr (lit "$"); Grp 1 (plus (Chr (isnt "$"))); Chr (lit "$")].

(** /\$\$([\s\S]+?)\$\$/g *)
Definition blockMathRegex :=
  seqs [Str "$$"; Grp 1 (lazyPlus (Chr anyChar)); Str "$$"].

(** /<!--\s*@preserve\s*( [\s\S]*? )-->/g *)
Definition commentRegex :=
  seqs [Str "<!--"; star (Chr isSpace); Str "@preserve"; star (Chr isSpace);
        Grp 1 (lazyStar (Chr anyChar)); Str "-->"].

(** A literal under the [i] flag. *)
Fixpoint anyCase (s : string) : regex :=
  match s with
  | EmptyString => Eps
  | String c r => Seq (Chr (fun x => Ascii.eqb (lowerChar x) (lowerChar c))) (anyCase r)
  end.

(** /<!--\s*front-matter\s*\n( [\s\S]*? )\n-->/i *)
Definition frontMatterRegex :=
  seqs [Str "<!--"; star (Chr isSpace); anyCase "front-matter"; star (Chr isSpace);
        Chr (lit LF); Grp 1 (lazyStar (Chr anyChar)); Str (String LF "-->")].

(** pre.mermaid, pre.math, pre.graphviz, pre[data-preserve] *)
Definition specialBlocks : selector :=
  [Desc (TagClass "pre" "mermaid"); Desc (TagClass "pre" "math");
   Desc (TagClass "pre" "graphviz"); Desc (TagAttr "pre" "data-preserve")].

Definition quot : string := ch QUOT.

(** The three characters the source writes before a citation, held as
    the bytes of the file. *)
Definition citationMark : string :=
  String (ascii_of_nat 195) (String (ascii_of_nat 162) (String (ascii_of_nat 226)
  (String (ascii_of_nat 130) (String (ascii_of_nat 172) (String (ascii_of_nat 226)
  (String (ascii_of_nat 128) (String (ascii_of_nat 157) EmptyString))))))).

(** [x || fallback] for a string that may be missing. *)
Definition orElse (x : option string) (fallback : string) : string :=
  match x with
  | Some EmptyString | None => fallback
  | Some v => v
  end.

(** [i.parentNode?.f(i)] *)
Definition withParent (i : ref) (f : ref -> M unit) : M unit :=
  do d <- getDom;
  match parentNode d i with
  | Some p => f p
  | None => ret tt
  end.

Section Service.
Context (H : Host) (options : MarkdownOptions).
(** The iterations granted to a [while] loop; a loop that needs more does
    not end within them. *)
Context (steps : nat).

(** [extractFrontMatter(html)] *)
Definition extractFrontMatter (html : string) : M (string * option string) :=
  if negb (preserveFrontMatter options) then ret (html, None)
  else
    tryCatch
      (match search frontMatterRegex html with
       | None => ret (html, None)
       | Some (whole, cs) =>
           let frontMatter := trim (cap 1 cs) in
           let processedHtml := replaceFirst whole EmptyString html in
           ret (processedHtml, Some frontMatter)
       end)
      (fun error =>
       do _ <- logError MARKDOWN_CONVERSION "Failed to extract front matter" error;
       ret (html, None)).

(** The [catch] of [preserveSpecialContent]: it returns the local [html]
    as it stands when the exception is thrown. *)
Definition preserveFailed (html : string) (error : string) : M string :=
  do _ <- logError MARKDOWN_CONVERSION "Failed to preserve special content" error;
  ret html.

(** [preserveSpecialContent(html)].  The three [replace] calls rewrite the
    local string [html]; the special blocks are replaced in [container];
    the value returned is [container.innerHTML]. *)
Definition preserveSpecialContent (html : string) : M string :=
  match html with
  | EmptyString => ret EmptyString
  | _ =>
      tryCatch
        (do container <- container H html;
         let t0 : tally := ([], 0) in
         let (html1, t1) :=
           replaceWith inlineMathRegex (placeholder "MATH_PLACEHOLDER_" m_text) html t0 in
         let (html2, t2) :=
           replaceWith blockMathRegex (placeholder "MATH_BLOCK_PLACEHOLDER_" m_text) html1 t1 in
         tryCatch
           (do d <- getDom;
            let blocks := querySelectorAll d container specialBlocks in
            do t3 <-
              fold_left (fun (acc : M tally) block =>
                do t <- acc;
                let '(m, counter) := t in
                let name := "SPECIAL_BLOCK_PLACEHOLDER_" +:+ counterToString counter in
                do d <- getDom;
                let m' := mapSet name (outerHTML H d block) m in
                do _ <- setOuterHTML H block name;
                ret (m', S counter)) blocks (ret t2);
            let (html3, t4) :=
              replaceWith commentRegex
                (placeholder "COMMENT_PLACEHOLDER_" (fun mt => trim (grp 1 mt))) html2 t3 in
            do _ <- (fun s => Ok tt (withPreserved (fst t4) s));
            do d <- getDom;
            ret (innerHTML H d container))
           (preserveFailed html2))
        (preserveFailed html)
  end.

(** [restoreSpecialContent(markdown)] *)
Definition restoreEntry (result : string) (entry : string * string) : M string :=
  let (name, originalContent) := entry in
  if startsWith "MATH_PLACEHOLDER_" name then
    ret (replaceFirst name originalContent result)
  else if startsWith "MATH_BLOCK_PLACEHOLDER_" name then
    ret (replaceFirst name (nl +:+ nl +:+ originalContent +:+ nl +:+ nl) result)
  else if startsWith "SPECIAL_BLOCK_PLACEHOLDER_" name then
    do div <- container H originalContent;
    do d <- getDom;
    match querySelector d div (tag "pre") with
    | Some pre =>
        let lang :=
          orElse (head (filter (fun c => existsb (String.eqb c) ["mermaid"; "math"; "graphviz"] = true)
                               (classList d pre))) EmptyString in
        let content := textContent d pre in
        ret (replaceFirst name
               (nl +:+ nl +:+ "```" +:+ lang +:+ nl +:+ content +:+ nl +:+ "```" +:+ nl +:+ nl)
               result)
    | None => ret (replaceFirst name originalContent result)
    end
  else if startsWith "COMMENT_PLACEHOLDER_" name then
    ret (replaceFirst name ("<!-- " +:+ originalContent +:+ " -->") result)
  else ret result.

Definition restoreSpecialContent (markdown : string) : M string :=
  fun s =>
    match markdown, s_preserved s with
    | EmptyString, _ | _, [] => Ok markdown s
    | _, entries =>
        (do result <-
           fold_left (fun (acc : M string) entry =>
             do r <- acc; restoreEntry r entry) entries (ret markdown);
         do _ <- (fun s => Ok tt (withPreserved [] s));
         ret result) s
    end.

(** *** [handleUnusualStructures]: definition lists *)

(** [while (desc.firstChild) {
       paragraph.appendChild(desc.firstChild.cloneNode(true)); }] *)
Fixpoint cloneDescriptionContent (n : nat) (desc paragraph : ref) : M unit :=
  do d <- getDom;
  match firstChild d desc with
  | None => ret tt
  | Some first =>
      match n with
      | 0 => diverge
      | S n' =>
          do copy <- cloneNode first;
          do _ <- appendChild paragraph copy;
          cloneDescriptionContent n' desc paragraph
      end
  end.

(** [while (desc && desc.tagName.toLowerCase() === 'dd') { ... }] *)
Fixpoint pairDescriptions (n : nat) (term fragment : ref) (desc : option ref) : M unit :=
  do d <- getDom;
  match desc with
  | None => ret tt
  | Some dd =>
      if negb (hasTag d "dd" dd) then ret tt
      else
        match n with
        | 0 => diverge
        | S n' =>
            do boldTerm <- createElement "strong";
            do d <- getDom;
            do _ <- setTextContent boldTerm (textContent d term);
            do paragraph <- createElement "p";
            do _ <- appendChild paragraph boldTerm;
            do colon <- createTextNode ": ";
            do _ <- appendChild paragraph colon;
            do _ <- cloneDescriptionContent steps dd paragraph;
            do _ <- appendChild fragment paragraph;
            do d <- getDom;
            let nextDesc := nextElementSibling d dd in
            do _ <- withParent dd (fun p => removeChild p dd);
            pairDescriptions n' term fragment nextDesc
        end
  end.

(** The callback of [terms.forEach]: the paragraphs of one term, then the
    term is removed. *)
Definition rewriteTerm (fragment term : ref) : M unit :=
  do d <- getDom;
  do _ <- pairDescriptions steps term fragment (nextElementSibling d term);
  withParent term (fun p => removeChild p term).

Definition rewriteDefinitionList (dl : ref) : M unit :=
  do d <- getDom;
  let terms := querySelectorAll d dl (tag "dt") in
  do fragment <- createDocumentFragment;
  do _ <- forEach terms (rewriteTerm fragment);
  do _ <- withParent dl (fun p => insertBefore p fragment (Some dl));
  withParent dl (fun p => removeChild p dl).

Definition rewriteDefinitionLists (container : ref) : M unit :=
  do d <- getDom;
  forEach (querySelectorAll d container (tag "dl")) rewriteDefinitionList.

(** *** details / summary *)

(** [while (details.firstChild) { ... }] *)
Fixpoint moveDetailsContent (n : nat) (details blockquote : ref) (summary : option ref) : M unit :=
  do d <- getDom;
  match firstChild d details with
  | None => ret tt
  | Some first =>
      match n with
      | 0 => diverge
      | S n' =>
          do _ <- (if bool_decide (Some first ≠ summary)
                   then appendChild blockquote first
                   else removeChild details first);
          moveDetailsContent n' details blockquote summary
      end
  end.

Definition rewriteDetails (details : ref) : M unit :=
  do blockquote <- createElement "blockquote";
  do d <- getDom;
  let summary := querySelector d details (tag "summary") in
  let title := orElse (option_map (textContent d) summary) "Details" in
  do strongTitle <- createElement "strong";
  do _ <- setTextContent strongTitle title;
  do _ <- appendChild blockquote strongTitle;
  do br <- createElement "br";
  do _ <- appendChild blockquote br;
  do _ <- moveDetailsContent steps details blockquote summary;
  withParent details (fun p => replaceChild p blockquote details).

Definition rewriteAllDetails (container : ref) : M unit :=
  do d <- getDom;
  forEach (querySelectorAll d container (tag "details")) rewriteDetails.

(** *** figure / figcaption *)

Definition rewriteFigure (figure : ref) : M unit :=
  do d <- getDom;
  match querySelector d figure (tag "img"), querySelector d figure (tag "figcaption") with
  | Some img, Some figCaption =>
      let alt := orElse (getAttribute d img "alt") EmptyString in
      do _ <- when (String.eqb (trim alt) EmptyString)
                (modifyDom (setAttribute img "alt" (textContent d figCaption)));
      do wrapper <- createElement "p";
      do copy <- cloneNode img;
      do _ <- appendChild wrapper copy;
      do br <- createElement "br";
      do _ <- appendChild wrapper br;
      do caption <- createElement "em";
      do d <- getDom;
      do _ <- setTextContent caption (textContent d figCaption);
      do _ <- appendChild wrapper caption;
      withParent figure (fun p => replaceChild p wrapper figure)
  | _, _ => ret tt
  end.

Definition rewriteFigures (container : ref) : M unit :=
  do d <- getDom;
  forEach (querySelectorAll d container (tag "figure")) rewriteFigure.

(** *** list items outside a list, and text after a nested list *)

(** body > li, div > li, p > li *)
Definition orphanItems : selector :=
  [ChildOf "body" (Tag "li"); ChildOf "div" (Tag "li"); ChildOf "p" (Tag "li")].

Definition adoptListItem (li : ref) : M unit :=
  do d <- getDom;
  do parentList <- createElement (if hasClass d li "ol-item" then "ol" else "ul");
  do _ <- withParent li (fun p => insertBefore p parentList (Some li));
  appendChild parentList li.

(** li > ul, li > ol *)
Definition nestedListSelector : selector :=
  [ChildOf "li" (Tag "ul"); ChildOf "li" (Tag "ol")].

(** [while (nextSibling) { ... fragment.appendChild(currentSibling); }] *)
Fixpoint moveFollowing (n : nat) (fragment : ref) (nextSib : option ref) : M unit :=
  match nextSib with
  | None => ret tt
  | Some current =>
      match n with
      | 0 => diverge
      | S n' =>
          do d <- getDom;
          let next := nextSibling d current in
          do _ <- appendChild fragment current;
          moveFollowing n' fragment next
      end
  end.

Definition wrapTextAfterNestedList (nestedList : ref) : M unit :=
  do d <- getDom;
  match parentElement d nestedList with
  | None => ret tt
  | Some parent =>
      do fragment <- createDocumentFragment;
      do d <- getDom;
      do _ <- moveFollowing steps fragment (nextSibling d nestedList);
      do d <- getDom;
      if 0 <? length (kidsOf d fragment) then
        do wrapper <- createElement "span";
        do _ <- appendChild wrapper fragment;
        appendChild parent wrapper
      else ret tt
  end.

Definition rewriteLists (container : ref) : M unit :=
  do d <- getDom;
  do _ <- forEach (querySelectorAll d container orphanItems) adoptListItem;
  do d <- getDom;
  forEach (querySelectorAll d container nestedListSelector) wrapTextAfterNestedList.

(** *** citations in block quotes *)

Definition moveCitation (blockquote cite : ref) : M unit :=
  do em <- createElement "em";
  do d <- getDom;
  do _ <- setTextContent em (citationMark +:+ " " +:+ textContent d cite);
  do br <- createElement "br";
  do _ <- appendChild blockquote br;
  do _ <- appendChild blockquote em;
  withParent cite (fun p => removeChild p cite).

Definition rewriteBlockquotes (container : ref) : M unit :=
  do d <- getDom;
  forEach (querySelectorAll d container (tag "blockquote")) (fun blockquote =>
    do d <- getDom;
    forEach (querySelectorAll d blockquote (tag "cite")) (moveCitation blockquote)).

(** *** iframe, video, audio *)

Definition anchor (label url : string) : string :=
  "<strong>" +:+ label +:+ "</strong> <a href=" +:+ quot +:+ url +:+ quot +:+ ">"
  +:+ url +:+ "</a>".

Definition rewriteIframe (iframe : ref) : M unit :=
  do d <- getDom;
  let src := orElse (getAttribute d iframe "src") EmptyString in
  match src with
  | EmptyString => ret tt
  | _ =>
      do wrapper <- createElement "div";
      do _ <- modifyDom (setAttribute wrapper "class" "embedded-content");
      do p <- createElement "p";
      do _ <- setInnerHTML H p (anchor "Embedded content:" src);
      do d <- getDom;
      do _ <-
        match getAttribute d iframe "title" with
        | Some EmptyString | None => ret tt
        | Some title =>
            do description <- createElement "p";
            do _ <- setInnerHTML H description ("<em>" +:+ title +:+ "</em>");
            appendChild wrapper description
        end;
      do _ <- appendChild wrapper p;
      withParent iframe (fun parent => replaceChild parent wrapper iframe)
  end.

(** [sources.length > 0 ? sources[0].getAttribute('src') || '' : ''] *)
Definition firstSourceUrl (d : dom) (media : ref) : string :=
  match querySelectorAll d media (tag "source") with
  | source :: _ => orElse (getAttribute d source "src") EmptyString
  | [] => EmptyString
  end.

Definition rewriteVideo (video : ref) : M unit :=
  do wrapper <- createElement "div";
  do _ <- modifyDom (setAttribute wrapper "class" "video-content");
  do d <- getDom;
  let poster := getAttribute d video "poster" in
  let sourceUrl := firstSourceUrl d video in
  do _ <-
    match poster with
    | Some EmptyString | None => ret tt
    | Some url =>
        setInnerHTML H wrapper
          ("<p><img src=" +:+ quot +:+ url +:+ quot +:+ " alt=" +:+ quot
           +:+ "Video thumbnail" +:+ quot +:+ "></p>")
    end;
  do _ <-
    match sourceUrl with
    | EmptyString => ret tt
    | _ =>
        do link <- createElement "p";
        do _ <- setInnerHTML H link (anchor "Video:" sourceUrl);
        appendChild wrapper link
    end;
  withParent video (fun parent => replaceChild parent wrapper video).

Definition audioUnavailable : string :=
  "<p><em>Audio content (source not available)</em></p>".

Definition rewriteAudio (audio : ref) : M unit :=
  do wrapper <- createElement "div";
  do _ <- modifyDom (setAttribute wrapper "class" "audio-content");
  do d <- getDom;
  let sourceUrl := firstSourceUrl d audio in
  do _ <-
    match sourceUrl with
    | EmptyString => setInnerHTML H wrapper audioUnavailable
    | _ => setInnerHTML H wrapper ("<p>" +:+ anchor "Audio:" sourceUrl +:+ "</p>")
    end;
  withParent audio (fun parent => replaceChild parent wrapper audio).

Definition rewriteMedia (container : ref) : M unit :=
  do d <- getDom;
  do _ <- forEach (querySelectorAll d container (tag "iframe")) rewriteIframe;
  do d <- getDom;
  do _ <- forEach (querySelectorAll d container (tag "video")) rewriteVideo;
  do d <- getDom;
  forEach (querySelectorAll d container (tag "audio")) rewriteAudio.

(** The rewrites of [handleUnusualStructures], on the parsed container. *)
Definition rewriteUnusualStructures (container : ref) : M unit :=
  do _ <- rewriteDefinitionLists container;
  do _ <- rewriteAllDetails container;
  do _ <- rewriteFigures container;
  do _ <- rewriteLists container;
  do _ <- rewriteBlockquotes container;
  rewriteMedia container.

(** [handleUnusualStructures(html)] *)
Definition handleUnusualStructures (html : string) : M string :=
  match html with
  | EmptyString => ret EmptyString
  | _ =>
      tryCatch
        (do container <- container H html;
         do _ <- rewriteUnusualStructures container;
         do d <- getDom;
         ret (innerHTML H d container))
        (fun error =>
         do _ <- logError MARKDOWN_CONVERSION "Failed to process unusual HTML structures" error;
         ret html)
  end.

(** [node.parentNode?.replaceChild(processed, node)] after
    [processed = process(node)] *)
Definition replaceBy (process : ref -> M ref) (node : ref) : M unit :=
  do processed <- process node;
  withParent node (fun p => replaceChild p processed node).

(** The passes of [preProcessComplexStructures], on the parsed
    container. *)
Definition normalizeStructures (container : ref) : M unit :=
  do d <- getDom;
  do _ <- forEach (querySelectorAll d container (tag "table"))
            (replaceBy (fun table => processTable H table (tableOptions options)));
  do d <- getDom;
  do _ <- forEach (querySelectorAll d container (tags ["ul"; "ol"])) (fun list =>
    do d <- getDom;
    let nested :=
      match parentElement d list with
      | Some p => bool_decide (closest d p (tags ["ul"; "ol"]) ≠ None)
      | None => false
      end in
    if negb nested then replaceBy processNestedList list else ret tt);
  do d <- getDom;
  do _ <- forEach (querySelectorAll d container (tag "dl")) (replaceBy processDefinitionList);
  do d <- getDom;
  forEach (querySelectorAll d container (tag "blockquote")) (fun bq =>
    do d <- getDom;
    let nested :=
      match parentElement d bq with
      | Some p => bool_decide (closest d p (tag "blockquote") ≠ None)
      | None => false
      end in
    if negb nested then replaceBy processBlockquote bq else ret tt).

(** [preProcessComplexStructures(html)] *)
Definition preProcessComplexStructures (html : string) : M string :=
  tryCatch
    (do container <- container H html;
     do _ <- normalizeStructures container;
     do d <- getDom;
     ret (innerHTML H d container))
    (fun error =>
     do _ <- logError MARKDOWN_CONVERSION "Failed to pre-process complex structures" error;
     ret html).

(** [this.turndownService.turndown(html)] *)
Definition callTurndown (html : string) : M string :=
  match turndown H html with
  | inl markdown => ret markdown
  | inr error => throw error
  end.

Definition conversionFailed (html : string) : string :=
  "<!-- Markdown conversion failed -->" +:+ nl +:+ nl +:+ html.

(** [convertToMarkdown(html)] *)
Definition convertToMarkdown (html : string) : M string :=
  tryCatch
    (if String.eqb (trim html) EmptyString then ret EmptyString
     else
       do extracted <- extractFrontMatter html;
       let (processedHtml, frontMatter) := extracted in
       do _ <- (fun s => Ok tt (withPreserved [] s));
       do htmlWithPreservedContent <- preserveSpecialContent processedHtml;
       do htmlWithProcessedStructures <- handleUnusualStructures htmlWithPreservedContent;
       do htmlToConvert <-
         (if processComplexStructures options
          then preProcessComplexStructures htmlWithProcessedStructures
          else ret htmlWithProcessedStructures);
       do markdown <- callTurndown htmlToConvert;
       do markdownWithRestoredContent <- restoreSpecialContent markdown;
       let cleanedMarkdown := PostProcess.postProcessMarkdown markdownWithRestoredContent in
       match frontMatter with
       | Some EmptyString | None => ret cleanedMarkdown
       | Some fm =>
           ret ("---" +:+ nl +:+ fm +:+ nl +:+ "---" +:+ nl +:+ nl +:+ cleanedMarkdown)
       end)
    (fun error =>
     do _ <- logError MARKDOWN_CONVERSION "Failed to convert HTML to Markdown" error;
     ret (conversionFailed html)).

End Service.
End MarkdownConversion.

(* ================================================================== *)
(** * A small browser, for running the code on concrete markup

    A fragment parser for markup whose elements are closed explicitly
    (start and end tags, void elements, quoted or bare attributes,
    comments, the five usual character references, the [tbody] the HTML
    parser supplies for a [tr] placed directly in a [table]) and the HTML
    fragment serializer.  It is used for the worked examples only. *)

Module MiniBrowser.
Import Js Dom Platform.

Definition voidElements : list string :=
  ["area"; "base"; "br"; "col"; "embed"; "hr"; "img"; "input"; "link"; "meta";
   "source"; "track"; "wbr"].
Definition isVoid (t : string) : bool := existsb (String.eqb t) voidElements.

(** ** Serializer *)

Fixpoint escape (inAttr : bool) (s : string) : string :=
  match s with
  | EmptyString => EmptyString
  | String c r =>
      let rest := escape inAttr r in
      if Ascii.eqb c "&" then "&amp;" +:+ rest
      else if code c =? 160 then "&nbsp;" +:+ rest
      else if inAttr && Ascii.eqb c QUOT then "&quot;" +:+ rest
      else if negb inAttr && Ascii.eqb c "<" then "&lt;" +:+ rest
      else if negb inAttr && Ascii.eqb c ">" then "&gt;" +:+ rest
      else String c rest
  end.

Definition serializeAttrs (l : list (string * string)) : string :=
  fold_right (fun kv acc =>
    " " +:+ fst kv +:+ "=" +:+ ch QUOT +:+ escape true (snd kv) +:+ ch QUOT +:+ acc)
    EmptyString l.

Fixpoint serialize (h : html) : string :=
  match h with
  | HText s => escape false s
  | HComment s => "<!--" +:+ s +:+ "-->"
  | HElem t a ks =>
      "<" +:+ t +:+ serializeAttrs a +:+ ">" +:+
      (if isVoid t then EmptyString
       else fold_right (fun k acc => serialize k +:+ acc) EmptyString ks
            +:+ "</" +:+ t +:+ ">")
  end.

Definition serializeForest (l : list html) : string :=
  fold_right (fun k acc => serialize k +:+ acc) EmptyString l.

(** ** Tokenizer *)

Inductive token : Type :=
| TStart (t : string) (a : list (string * string))
| TEnd (t : string)
| TComment (s : string)
| TText (s : string).

Definition isLetter (c : ascii) : bool := isUpper c || isLower c.

Fixpoint span (p : ascii -> bool) (s : string) : string * string :=
  match s with
  | EmptyString => (EmptyString, EmptyString)
  | String c r =>
      if p c then let (a, b) := span p r in (String c a, b)
      else (EmptyString, s)
  end.

Definition references : list (string * string) :=
  [("&amp;", "&"); ("&lt;", "<"); ("&gt;", ">"); ("&quot;", ch QUOT);
   ("&#39;", "'"); ("&nbsp;", ch (ascii_of_nat 160))].

Fixpoint decodeAt (l : list (string * string)) (s : string) : option (string * string) :=
  match l with
  | [] => None
  | (name, value) :: r =>
      if startsWith name s then Some (value, drop (slen name) s) else decodeAt r s
  end.

Fixpoint decode (fuel : nat) (s : string) : string :=
  match fuel, s with
  | 0, _ => s
  | _, EmptyString => EmptyString
  | S f, String c r =>
      match decodeAt references s with
      | Some (v, rest) => v +:+ decode f rest
      | None => String c (decode f r)
      end
  end.

Definition unescape (s : string) : string := decode (slen s) s.

Definition nameChar (c : ascii) : bool :=
  negb (isAsciiSpace c || Ascii.eqb c "=" || Ascii.eqb c ">" || Ascii.eqb c "/").

Fixpoint skipSpace (s : string) : string :=
  match s with
  | EmptyString => EmptyString
  | String c r => if isAsciiSpace c then skipSpace r else s
  end.

Definition hasAttr (a : string) (l : list (string * string)) : bool :=
  existsb (fun kv => String.eqb a (fst kv)) l.

(** The attributes of a start tag, up to its [>]; what follows the tag. *)
Fixpoint attributes (fuel : nat) (s : string) (acc : list (string * string)) :
    list (string * string) * string :=
  match fuel with
  | 0 => (rev acc, EmptyString)
  | S f =>
      match skipSpace s with
      | EmptyString => (rev acc, EmptyString)
      | String c r =>
          if Ascii.eqb c ">" then (rev acc, r)
          else if Ascii.eqb c "/" then attributes f r acc
          else
            let (name, s1) := span nameChar (String c r) in
            let name := toLowerCase name in
            match skipSpace s1 with
            | String "=" s2 =>
                let s3 := skipSpace s2 in
                let (value, s4) :=
                  match s3 with
                  | String q body =>
                      if Ascii.eqb q QUOT || Ascii.eqb q "'" then
                        let (v, rest) := span (fun x => negb (Ascii.eqb x q)) body in
                        (v, drop 1 rest)
                      else span (fun x => negb (isAsciiSpace x || Ascii.eqb x ">")) s3
                  | EmptyString => (EmptyString, EmptyString)
                  end in
                attributes f s4
                  (if hasAttr name acc then acc else (name, unescape value) :: acc)
            | s2 =>
                match name with
                | EmptyString => attributes f (drop 1 s2) acc
                | _ => attributes f s2
                         (if hasAttr name acc then acc else (name, EmptyString) :: acc)
                end
            end
      end
  end.

Fixpoint tokenize (fuel : nat) (s : string) : list token :=
  match fuel with
  | 0 => []
  | S f =>
      match s with
      | EmptyString => []
      | String c r =>
          if startsWith "<!--" s then
            let body := drop 4 s in
            match indexOf "-->" body with
            | Some i => TComment (take i body) :: tokenize f (drop (i + 3) body)
            | None => [TComment body]
            end
          else if Ascii.eqb c "<" then
            match r with
            | String "/" (String l _ as name) =>
                if isLetter l then
                  let (t, rest) := span (fun x => negb (Ascii.eqb x ">")) name in
                  TEnd (toLowerCase (fst (span nameChar t))) :: tokenize f (drop 1 rest)
                else TText "<" :: tokenize f r
            | String l _ =>
                if isLetter l then
                  let (t, s1) := span nameChar r in
                  let (a, rest) := attributes (S (slen s1)) s1 [] in
                  TStart (toLowerCase t) a :: tokenize f rest
                else TText "<" :: tokenize f r
            | EmptyString => [TText "<"]
            end
          else
            let (t, rest) := span (fun x => negb (Ascii.eqb x "<")) s in
            TText (unescape t) :: tokenize f rest
      end
  end.

(** ** Tree construction *)

(** An open element: tag, attributes, children so far (latest first). *)
Definition frame := (string * list (string * string) * list html)%type.

Definition addChild (h : html) (kids : list html) : list html :=
  match h, kids with
  | HText a, HText b :: r => HText (b +:+ a) :: r
  | _, _ => h :: kids
  end.

Definition addNode (h : html) (stack : list frame) (top : list html) :
    list frame * list html :=
  match stack with
  | (t, a, ks) :: r => ((t, a, addChild h ks) :: r, top)
  | [] => ([], addChild h top)
  end.

Definition closeFrame (stack : list frame) (top : list html) : list frame * list html :=
  match stack with
  | (t, a, ks) :: r => addNode (HElem t a (rev ks)) r top
  | [] => ([], top)
  end.

Definition isOpen (t : string) (stack : list frame) : bool :=
  existsb (fun f => String.eqb t (fst (fst f))) stack.

Fixpoint closeUntil (n : nat) (t : string) (stack : list frame) (top : list html) :
    list frame * list html :=
  match n, stack with
  | S n', (t', _, _) :: _ =>
      if String.eqb t t' then closeFrame stack top
      else let (st, tp) := closeFrame stack top in closeUntil n' t st tp
  | _, _ => (stack, top)
  end.

Fixpoint closeAll (n : nat) (stack : list frame) (top : list html) : list html :=
  match n, stack with
  | S n', _ :: _ => let (st, tp) := closeFrame stack top in closeAll n' st tp
  | _, _ => rev top
  end.

Definition currentTag (stack : list frame) : string :=
  match stack with (t, _, _) :: _ => t | [] => EmptyString end.

Fixpoint build (toks : list token) (stack : list frame) (top : list html) : list html :=
  match toks with
  | [] => closeAll (length stack) stack top
  | TText s :: r => let (st, tp) := addNode (HText s) stack top in build r st tp
  | TComment s :: r => let (st, tp) := addNode (HComment s) stack top in build r st tp
  | TStart t a :: r =>
      if isVoid t then
        let (st, tp) := addNode (HElem t a []) stack top in build r st tp
      else if String.eqb t "tr" && String.eqb (currentTag stack) "table" then
        build r ((t, a, []) :: ("tbody", [], []) :: stack) top
      else build r ((t, a, []) :: stack) top
  | TEnd t :: r =>
      if isOpen t stack then
        let (st, tp) := closeUntil (length stack) t stack top in build r st tp
      else build r stack top
  end.

Definition parse (context markup : string) : list html :=
  build (tokenize (S (slen markup)) markup) [] [].

(** A host made of the small browser and a given converter.  A cloned
    table is in no document, so no style is computed for its cells. *)
Definition host (converter : string -> string + string) : Host :=
  {| parseHTML := parse;
     serializeHTML := serializeForest;
     computedTextAlign := fun _ _ => EmptyString;
     turndown := converter |}.

(** The converter replaced by a probe that hands its input back: the
    result of a conversion then shows the markup the converter was
    given. *)
Definition probe : Host := host inl.

End MiniBrowser.

(* ================================================================== *)
(** * Properties of the post-processor *)

Module PostProcessFacts.
Import Js Re PostProcess.

(** ** Strings the passes leave alone

    A regular expression that cannot match without consuming a character
    of a class [p] finds nothing in a string free of [p]. *)

Fixpoint mentions (p : ascii -> bool) (s : string) : bool :=
  match s with
  | EmptyString => false
  | String c r => p c || mentions p r
  end.

Definition allChars : list ascii := map ascii_of_nat (seq 0 256).

(** Every character of class [q] is of class [p]. *)
Definition within (q p : ascii -> bool) : bool :=
  forallb (fun c => implb (q c) (p c)) allChars.

(** [needs p r]: every match of [r] consumes a character of class [p]. *)
Fixpoint needs (p : ascii -> bool) (r : regex) : bool :=
  match r with
  | Eps | Eol => false
  | Chr q => within q p
  | Str l => mentions p l
  | Seq r1 r2 => needs p r1 || needs p r2
  | Alt r1 r2 => needs p r1 && needs p r2
  | Rep _ lo _ r1 => (1 <=? lo) && needs p r1
  | Grp _ r1 => needs p r1
  | Ahead r1 => needs p r1
  end.

(** [calm Q r]: consuming a character by [r] keeps a string in [Q]. *)
Fixpoint calm (Q : string -> Prop) (r : regex) : Prop :=
  match r with
  | Eps | Eol | Ahead _ => True
  | Chr q => forall c s, Q (String c s) -> q c = true -> Q s
  | Str l => forall s, Q s -> startsWith l s = true -> Q (drop (slen l) s)
  | Seq r1 r2 | Alt r1 r2 => calm Q r1 /\ calm Q r2
  | Rep _ _ _ r1 | Grp _ r1 => calm Q r1
  end.

(** The characters that start a Markdown construct for some pass. *)
Definition special : ascii -> bool :=
  oneOf (String CR (String LF "|[`*_")).

(** A string no pass touches: no special character, no white space at
    either end. *)
Definition lastChar (s : string) : option ascii :=
  match srev s with String c _ => Some c | EmptyString => None end.
(** Not empty, on one line, and not ending in a blank. *)
Definition openEnded (s : string) : Prop :=
  mentions isLineTerminator s = false /\
  exists c, lastChar s = Some c /\ isSpace c = false.
Definition firstChar (s : string) : option ascii :=
  match s with String c _ => Some c | EmptyString => None end.
Definition edgeOk (o : option ascii) : bool :=
  match o with Some c => negb (isSpace c) | None => true end.

Definition inert (s : string) : bool :=
  negb (mentions special s) && edgeOk (firstChar s) && edgeOk (lastChar s).


Lemma within_sound q p c : within q p = true -> q c = true -> p c = true.
Proof.
  unfold within. rewrite forallb_forall. intros Hall Hq.
  assert (Hin : In c allChars).
  { unfold allChars. rewrite <- (ascii_nat_embedding c).
    apply in_map, in_seq. pose proof (nat_ascii_bounded c). lia. }
  specialize (Hall c Hin). rewrite Hq in Hall. exact Hall.
Qed.

Lemma mentions_drop p n s : mentions p s = false -> mentions p (drop n s) = false.
Proof.
  revert s. induction n as [|n IH]; intros [|c s] Hs; simpl; auto.
  simpl in Hs. apply orb_false_iff in Hs as [_ Hs]. auto.
Qed.

Lemma mentions_startsWith p l s :
  startsWith l s = true -> mentions p l = true -> mentions p s = true.
Proof.
  revert s. induction l as [|a l IH]; intros [|b s]; simpl; try discriminate.
  destruct (Ascii.eqb_spec a b) as [->|]; [|discriminate].
  intros Hs Hl. apply orb_true_iff in Hl as [Hl|Hl].
  - rewrite Hl. reflexivity.
  - rewrite (IH s Hs Hl). apply orb_true_r.
Qed.

Section Matcher.
Context (Q : string -> Prop).

Lemma iterate_calm body g lo hi k :
  (forall s cs k',
      (forall s' cs', Q s' -> k' s' cs' = None) -> Q s -> body s cs k' = None) ->
  (forall s' cs', Q s' -> k s' cs' = None) ->
  forall fuel n s cs, Q s -> iterate body g lo hi k fuel n s cs = None.
Proof.
  intros Hbody Hk. induction fuel as [|fuel IH]; intros n s cs Hs; [reflexivity|].
  cbn [iterate]. cbv zeta beta.
  match goal with
  | |- context [body s cs ?K] =>
      assert (Hagain : body s cs K = None)
  end.
  { apply Hbody; auto. intros s' cs' Hs'.
    destruct (slen s' <? slen s); auto. }
  rewrite Hagain, (Hk s cs Hs).
  destruct g, (below hi n), (lo <=? n); reflexivity.
Qed.

(** A continuation that fails on [Q] makes the whole match fail on [Q]. *)
Lemma run_calm r :
  calm Q r ->
  forall s cs k,
    (forall s' cs', Q s' -> k s' cs' = None) -> Q s -> run r s cs k = None.
Proof.
  induction r as [| q | l | r1 IH1 r2 IH2 | r1 IH1 r2 IH2
                 | g lo hi r1 IH1 | n r1 IH1 | r1 IH1 |];
    simpl; intros Hc s cs k Hk Hs.
  - auto.
  - destruct s as [|c s]; [reflexivity|].
    destruct (q c) eqn:Hq; [|reflexivity]. eauto.
  - destruct (startsWith l s) eqn:Hl; [|reflexivity]. eauto.
  - destruct Hc as [Hc1 Hc2]. apply IH1; [exact Hc1| |exact Hs].
    intros s' cs' Hs'. apply IH2; auto.
  - destruct Hc as [Hc1 Hc2]. rewrite IH1, IH2; auto.
  - exact (iterate_calm (run r1) g lo hi k (IH1 Hc) Hk (S (slen s)) 0 s cs Hs).
  - apply IH1; auto.
  - destruct (run r1 s cs (fun s1 c1 => Some (s1, c1))) as [[? c1]|]; auto.
  - destruct s as [|c s]; auto. destruct (isLineTerminator c); auto.
Qed.

End Matcher.

Lemma calm_free p r : calm (fun s => mentions p s = false) r.
Proof.
  induction r as [| q | l | r1 IH1 r2 IH2 | r1 IH1 r2 IH2
                 | g lo hi r1 IH1 | n r1 IH1 | r1 IH1 |]; simpl; auto.
  - intros c s Hs _. simpl in Hs. apply orb_false_iff in Hs as [_ Hs]. exact Hs.
  - intros s Hs _. apply mentions_drop, Hs.
Qed.

(** A regular expression that needs a character of class [p] fails on a
    string without one. *)
Lemma needs_sound p r :
  needs p r = true ->
  forall s cs k, mentions p s = false -> run r s cs k = None.
Proof.
  induction r as [| q | l | r1 IH1 r2 IH2 | r1 IH1 r2 IH2
                 | g lo hi r1 IH1 | n r1 IH1 | r1 IH1 |];
    simpl; intros Hn s cs k Hs; try discriminate.
  - destruct s as [|c s]; [reflexivity|].
    destruct (q c) eqn:Hq; [|reflexivity].
    simpl in Hs. rewrite (within_sound _ _ _ Hn Hq) in Hs. discriminate.
  - destruct (startsWith l s) eqn:Hl; [|reflexivity].
    rewrite (mentions_startsWith _ _ _ Hl Hn) in Hs. discriminate.
  - apply orb_true_iff in Hn as [Hn|Hn].
    + apply IH1; auto.
    + apply (run_calm (fun s => mentions p s = false)); auto using calm_free.
  - apply andb_true_iff in Hn as [Hn1 Hn2]. rewrite IH1, IH2; auto.
  - apply andb_true_iff in Hn as [Hlo Hn].
    destruct lo as [|lo]; [discriminate|].
    match goal with
    | |- context [run r1 s cs ?K] => rewrite (IH1 Hn s cs K Hs)
    end.
    destruct g, (below hi 0); reflexivity.
  - apply IH1; auto.
  - rewrite IH1; auto.
Qed.

(** A pass that finds no match anywhere returns its subject. *)
Lemma replaceFrom_quiet {T : Type} r (f : T -> matched -> string * T) whole :
  forall s fuel off st,
    (forall n, matchHere r (drop n s) = None) ->
    slen s < fuel ->
    replaceFrom fuel r f whole off s st = (s, st).
Proof.
  induction s as [|c s IH]; intros fuel off st Hq Hf;
    (destruct fuel as [|fuel]; [simpl in Hf; lia|]); simpl.
  - pose proof (Hq 0) as H0. simpl in H0. rewrite H0. reflexivity.
  - pose proof (Hq 0) as H0. simpl in H0. rewrite H0.
    rewrite IH; [reflexivity| |simpl in Hf; lia].
    intros n. apply (Hq (S n)).
Qed.

Lemma replaceAll_quiet r f s :
  (forall n, matchHere r (drop n s) = None) -> replaceAll r f s = s.
Proof.
  intros Hq. unfold replaceAll, replaceWith.
  rewrite replaceFrom_quiet; auto.
Qed.

Lemma replaceAll_needs p r f s :
  needs p r = true -> mentions p s = false -> replaceAll r f s = s.
Proof.
  intros Hn Hs. apply replaceAll_quiet. intros n.
  apply needs_sound with (p := p); auto using mentions_drop.
Qed.

(** ** Reversal and trimming *)

Lemma append_nil_r s : s +:+ EmptyString = s.
Proof. induction s as [|c s IH]; simpl; [reflexivity|]. f_equal. exact IH. Qed.

Lemma append_assoc a b c : (a +:+ b) +:+ c = a +:+ (b +:+ c).
Proof. induction a as [|x a IH]; simpl; [reflexivity|]. f_equal. exact IH. Qed.

Lemma rev_onto_app s acc : rev_onto s acc = srev s +:+ acc.
Proof.
  unfold srev. revert acc. induction s as [|c s IH]; intros acc; simpl; [reflexivity|].
  rewrite IH, (IH (String c EmptyString)), append_assoc. reflexivity.
Qed.

Lemma srev_cons c s : srev (String c s) = srev s +:+ ch c.
Proof. unfold srev at 1. simpl. apply rev_onto_app. Qed.

Lemma srev_app a b : srev (a +:+ b) = srev b +:+ srev a.
Proof.
  induction a as [|c a IH]; simpl.
  - symmetry. apply append_nil_r.
  - rewrite !srev_cons, IH, append_assoc. reflexivity.
Qed.

Lemma srev_involutive s : srev (srev s) = s.
Proof.
  induction s as [|c s IH]; [reflexivity|].
  rewrite srev_cons, srev_app, IH. reflexivity.
Qed.

Lemma lastChar_cons c s :
  lastChar (String c s) = match s with EmptyString => Some c | _ => lastChar s end.
Proof.
  unfold lastChar. rewrite srev_cons. destruct s as [|x s]; [reflexivity|].
  rewrite srev_cons. destruct (srev s); reflexivity.
Qed.

Lemma trim_edges s :
  edgeOk (firstChar s) = true -> edgeOk (lastChar s) = true -> trim s = s.
Proof.
  intros Hf Hl. unfold trim.
  assert (Hs : trimStart s = s).
  { destruct s as [|c s]; [reflexivity|]. simpl in *.
    destruct (isSpace c); [discriminate|reflexivity]. }
  rewrite Hs. unfold trimEnd. unfold lastChar in Hl.
  destruct (srev s) as [|c r] eqn:Hr.
  - simpl. rewrite <- (srev_involutive s), Hr. reflexivity.
  - simpl in *. destruct (isSpace c); [discriminate|].
    rewrite <- Hr. apply srev_involutive.
Qed.

(** ** The pass that strips trailing blanks *)

Lemma openEnded_tail c s :
  openEnded (String c s) -> s = EmptyString \/ openEnded s.
Proof.
  intros [Hm [x [Hx Hsp]]]. destruct s as [|y s]; [left; reflexivity|right].
  simpl in Hm. apply orb_false_iff in Hm as [_ Hm].
  rewrite lastChar_cons in Hx. split; [exact Hm|eauto].
Qed.

Lemma openEnded_drop n : forall s,
  openEnded s -> drop n s = EmptyString \/ openEnded (drop n s).
Proof.
  induction n as [|n IH]; intros s Hs; [right; exact Hs|].
  destruct s as [|c s]; [left; reflexivity|]. simpl.
  destruct (openEnded_tail _ _ Hs) as [->|Hs']; [left; destruct n; reflexivity|auto].
Qed.

Lemma blank_is_space c :
  oneOf (String " " (String TAB EmptyString)) c = true -> isSpace c = true.
Proof.
  unfold oneOf. rewrite orb_false_r. intros Hc. apply orb_true_iff in Hc as [Hc|Hc];
    apply Ascii.eqb_eq in Hc; subst c; reflexivity.
Qed.

Lemma trailing_quiet s :
  openEnded s -> forall n, matchHere re_trailing (drop n s) = None.
Proof.
  intros Hs n. destruct (openEnded_drop n s Hs) as [->|Ht]; [reflexivity|].
  unfold matchHere, re_trailing. cbn [seqs run].
  apply (run_calm openEnded); [| |exact Ht].
  - cbn. intros c t Hq Hc. destruct (openEnded_tail _ _ Hq) as [->|]; [|assumption].
    destruct Hq as [_ [x [Hx Hsp]]]. rewrite lastChar_cons in Hx.
    injection Hx as <-. rewrite (blank_is_space _ Hc) in Hsp. discriminate.
  - intros t cs [Hm [x [Hx _]]]. destruct t as [|c t]; [discriminate|].
    simpl in Hm. apply orb_false_iff in Hm as [Hc _]. simpl. rewrite Hc. reflexivity.
Qed.

(** ** The chain on an inert string *)

Lemma inert_free x : inert x = true -> mentions special x = false.
Proof.
  unfold inert. intros Hx. apply andb_true_iff in Hx as [Hx _].
  apply andb_true_iff in Hx as [Hx _]. apply negb_true_iff in Hx. exact Hx.
Qed.

Lemma mentions_weaken (p q : ascii -> bool) s :
  (forall c, p c = true -> q c = true) -> mentions q s = false -> mentions p s = false.
Proof.
  intros Hpq. induction s as [|c s IH]; simpl; [reflexivity|].
  intros Hq. apply orb_false_iff in Hq as [Hc Hs]. rewrite (IH Hs), orb_false_r.
  destruct (p c) eqn:Hp; [|reflexivity]. rewrite (Hpq c Hp) in Hc. discriminate.
Qed.

Lemma inert_openEnded x : inert x = true -> x = EmptyString \/ openEnded x.
Proof.
  intros Hx. destruct x as [|c x]; [left; reflexivity|right].
  pose proof (inert_free _ Hx) as Hm. unfold inert in Hx.
  apply andb_true_iff in Hx as [_ Hl]. split.
  - apply mentions_weaken with (q := special); [|exact Hm].
    intros a Ha. apply (within_sound isLineTerminator special); [|exact Ha].
    vm_compute. reflexivity.
  - destruct (lastChar (String c x)) as [y|] eqn:Hy.
    + exists y. split; [reflexivity|]. simpl in Hl. apply negb_true_iff in Hl. exact Hl.
    + unfold lastChar in Hy. rewrite srev_cons in Hy.
      destruct (srev x); discriminate.
Qed.

Ltac quiet_pass Hm :=
  apply (replaceAll_needs special); [vm_compute; reflexivity | exact Hm].

Lemma passes_fix_inert x :
  inert x = true -> Forall (fun f : string -> string => f x = x) passes.
Proof.
  intros Hx. pose proof (inert_free _ Hx) as Hm.
  unfold passes.
  repeat match goal with
         | |- Forall _ (_ :: _) => constructor
         | |- Forall _ [] => constructor
         end;
    try (quiet_pass Hm).
  - unfold trimTrailingWhitespace. apply replaceAll_quiet.
    destruct (inert_openEnded _ Hx) as [->|Ho]; [intros [|n]; reflexivity|].
    apply trailing_quiet, Ho.
  - unfold inert in Hx. apply andb_true_iff in Hx as [Hx Hl].
    apply andb_true_iff in Hx as [_ Hf]. apply trim_edges; assumption.
Qed.

Lemma chain_fixed (fs : list (string -> string)) x :
  Forall (fun f : string -> string => f x = x) fs -> chain fs x = x.
Proof.
  unfold chain. induction 1 as [|f fs Hf _ IH]; simpl; [reflexivity|].
  rewrite Hf. exact IH.
Qed.

Lemma postProcess_fixes_inert x : inert x = true -> postProcessMarkdown x = x.
Proof.
  intros Hx. destruct x as [|c x]; [reflexivity|].
  unfold postProcessMarkdown. apply chain_fixed, passes_fix_inert, Hx.
Qed.

(** Where no pass finds anything the post-processing is the identity: on
    every string that holds no CR, LF, vertical bar, opening bracket,
    backtick, asterisk or underscore and that neither starts nor ends with
    white space. *)
Theorem postProcess_idempotent_on_plain_text (x : string) :
  inert x = true ->
  postProcessMarkdown x = x /\
  postProcessMarkdown (postProcessMarkdown x) = postProcessMarkdown x.
Proof.
  intros Hx. pose proof (postProcess_fixes_inert x Hx) as Hfix.
  split; [exact Hfix|]. rewrite Hfix. exact Hfix.
Qed.

Lemma postProcess_idempotent_on_plain_text_witness :
  inert "Hello world, x + y = z." = true /\
  postProcessMarkdown "Hello world, x + y = z." = "Hello world, x + y = z." /\
  postProcessMarkdown (postProcessMarkdown "Hello world, x + y = z.")
  = postProcessMarkdown "Hello world, x + y = z.".
Proof.
  split; [vm_compute; reflexivity|].
  apply (postProcess_idempotent_on_plain_text "Hello world, x + y = z.").
  vm_compute. reflexivity.
Defined.

(** A second way to leave work for a second run: in [a_b_c] the first
    run spaces the first underscore only (the match consumes the [b] the
    second one needs before it), and a second run spaces the other. *)
Lemma postProcess_not_idempotent :
  postProcessMarkdown "a_b_c" = "a _ b_c" /\
  postProcessMarkdown (postProcessMarkdown "a_b_c") = "a _ b _ c" /\
  postProcessMarkdown (postProcessMarkdown "a_b_c") <> postProcessMarkdown "a_b_c".
Proof.
  split; [vm_compute; reflexivity|].
  split; [vm_compute; reflexivity|].
  vm_compute. discriminate.
Qed.

(** What Turndown gives for [a<br><br><br>b]: every [br] is two spaces and
    a line break. *)
Definition hardBreaks : string :=
  "a  " +:+ nl +:+ "  " +:+ nl +:+ "  " +:+ nl +:+ "b".

(** C2: one run of the post-processing is not a fixed point.  The pass
    that removes more than two consecutive line breaks runs before the pass
    that trims the trailing white space of the lines; on [hardBreaks] the
    first finds nothing, the second empties the two lines of spaces, and
    the result of the run holds three consecutive line breaks, which a
    second run removes. *)
Theorem postProcess_leaves_three_line_breaks :
  collapseBlankLines hardBreaks = hardBreaks /\
  postProcessMarkdown hardBreaks = ("a" +:+ nl +:+ nl +:+ nl +:+ "b") /\
  postProcessMarkdown (postProcessMarkdown hardBreaks) = ("a" +:+ nl +:+ nl +:+ "b") /\
  postProcessMarkdown (postProcessMarkdown hardBreaks) <> postProcessMarkdown hardBreaks.
Proof.
  split; [vm_compute; reflexivity|].
  split; [vm_compute; reflexivity|].
  split; [vm_compute; reflexivity|].
  vm_compute. discriminate.
Qed.

End PostProcessFacts.

(* ================================================================== *)
(** * Properties of the conversion pipeline *)

Module PipelineFacts.
Import Js Re Dom Selector Eff Platform ComplexStructure MarkdownConversion MiniBrowser.
Local Open Scope eff_scope.

(** A page that holds no node yet, an empty error log, an empty
    placeholder map. *)
Definition emptyPage : state := {| s_dom := []; s_errors := []; s_preserved := [] |}.

(** The value a call returns, when it returns. *)
Definition returned {A} (r : res A) : option A :=
  match r with Ok a _ => Some a | _ => None end.

(** The state a call ends in. *)
Definition final {A} (r : res A) : option state :=
  match r with Ok _ s | Throw _ s => Some s | OutOfFuel => None end.

Definition lines (l : list string) : string :=
  match l with
  | [] => EmptyString
  | x :: r => fold_left (fun acc y => acc +:+ nl +:+ y) r x
  end.

(** ** Blank input *)

Fixpoint onlyWhitespace (s : string) : bool :=
  match s with
  | EmptyString => true
  | String c r => isSpace c && onlyWhitespace r
  end.

Lemma trim_onlyWhitespace s : onlyWhitespace s = true -> trim s = EmptyString.
Proof.
  intros Hs. unfold trim.
  assert (Ht : trimStart s = EmptyString).
  { induction s as [|c s IH]; [reflexivity|]. simpl in *.
    apply andb_true_iff in Hs as [Hc Hs]. rewrite Hc. auto. }
  rewrite Ht. reflexivity.
Qed.

(** C10.  On an input that is empty or holds white space only,
    [convertToMarkdown] returns the empty string and leaves the state as
    it found it: nothing is logged, the placeholder map is not touched,
    no node is created; no fallback comment and no front-matter fence is
    produced. *)
Theorem convertToMarkdown_blank (H : Host) (options : MarkdownOptions) (steps : nat)
    (html : string) (s : state) :
  onlyWhitespace html = true ->
  convertToMarkdown H options steps html s = Ok EmptyString s.
Proof.
  intros Hb. unfold convertToMarkdown, tryCatch.
  rewrite (trim_onlyWhitespace html Hb). reflexivity.
Qed.

Definition busyPage : state :=
  {| s_dom := [blankNode (Element "div")];
     s_errors := [{| e_category := "ui"; e_message := "earlier"; e_error := "x" |}];
     s_preserved := [("MATH_PLACEHOLDER_0", "$a$")] |}.

Lemma convertToMarkdown_blank_witness :
  onlyWhitespace (" " +:+ nl +:+ ch TAB +:+ " ") = true /\
  convertToMarkdown probe DEFAULT_MARKDOWN_OPTIONS 0 (" " +:+ nl +:+ ch TAB +:+ " ") busyPage
  = Ok EmptyString busyPage.
Proof.
  split; [reflexivity|].
  apply (convertToMarkdown_blank probe DEFAULT_MARKDOWN_OPTIONS 0). reflexivity.
Defined.

(** ** Nested lists *)

(** What Turndown's list rules give for a list nested three deep: the
    marker and three spaces, four more spaces of indentation per level. *)
Definition nestedListMarkdown : string :=
  lines ["-   a"; "    -   b"; "        -   c"].

Definition nestedListHtml : string :=
  "<ul><li>a<ul><li>b<ul><li>c</li></ul></li></ul></li></ul>".

(** C7 at a list nested three deep.  The pass for list item spacing
    replaces a line break, any white space and a marker by a line break
    and [- ]: the indentation of every nested marker is gone before the
    pass that computes nested indentation runs, and the result has all
    three markers in the first column. *)
Lemma nested_list_markers_flattened :
  returned (convertToMarkdown (host (fun _ => inl nestedListMarkdown))
              DEFAULT_MARKDOWN_OPTIONS 10 nestedListHtml emptyPage)
  = Some (lines ["-   a"; "-   b"; "-   c"]) /\
  PostProcess.fixListItemSpacing nestedListMarkdown = lines ["-   a"; "-   b"; "-   c"] /\
  PostProcess.postProcessMarkdown (lines ["- a"; "  - b"; "    - c"])
  = lines ["- a"; "- b"; "- c"].
Proof. repeat split; vm_compute; reflexivity. Qed.

(** ** Inline math *)

(** At [<p>$x+y=z$</p>] the extraction records the expression under
    [MATH_PLACEHOLDER_0], but the string it returns is the markup of the
    container, which was parsed before the replacement: the expression is
    still in it and the placeholder is not. *)
Lemma inline_math_not_replaced :
  match preserveSpecialContent probe "<p>$x+y=z$</p>" emptyPage with
  | Ok out s =>
      out = "<p>$x+y=z$</p>" /\
      s_preserved s = [("MATH_PLACEHOLDER_0", "$x+y=z$")] /\
      includes "MATH_PLACEHOLDER_0" out = false
  | _ => False
  end.
Proof. vm_compute. repeat split; reflexivity. Qed.

(** ** The option [processComplexStructures] *)

(** The pipeline of [convertToMarkdown] around a given preparation of the
    markup for the tree converter: front matter, special content, the
    preparation, the converter, restoration, post-processing. *)
Definition pipelineWith (prepare : string -> M string) (H : Host)
    (options : MarkdownOptions) (html : string) : M string :=
  tryCatch
    (if String.eqb (trim html) EmptyString then ret EmptyString
     else
       do extracted <- extractFrontMatter options html;
       let (processedHtml, frontMatter) := extracted in
       do _ <- (fun s => Ok tt (withPreserved [] s));
       do htmlWithPreservedContent <- preserveSpecialContent H processedHtml;
       do htmlToConvert <- prepare htmlWithPreservedContent;
       do markdown <- callTurndown H htmlToConvert;
       do markdownWithRestoredContent <- restoreSpecialContent H markdown;
       let cleanedMarkdown := PostProcess.postProcessMarkdown markdownWithRestoredContent in
       match frontMatter with
       | Some EmptyString | None => ret cleanedMarkdown
       | Some fm =>
           ret ("---" +:+ nl +:+ fm +:+ nl +:+ "---" +:+ nl +:+ nl +:+ cleanedMarkdown)
       end)
    (fun error =>
     do _ <- logError MARKDOWN_CONVERSION "Failed to convert HTML to Markdown" error;
     ret (conversionFailed html)).

(** The specification's reading of the option when it is off: neither
    the Structure Normalizer nor the Unusual-Structure Rewriter runs. *)
Definition convertUnprepared := pipelineWith ret.

(** The Unusual-Structure Rewriter alone prepares the markup. *)
Definition convertRewritten (H : Host) (options : MarkdownOptions) (steps : nat) :=
  pipelineWith (handleUnusualStructures H steps) H options.

(** Rewriter, then Structure Normalizer. *)
Definition convertRewrittenAndNormalized (H : Host) (options : MarkdownOptions)
    (steps : nat) :=
  pipelineWith (fun html =>
    do rewritten <- handleUnusualStructures H steps html;
    preProcessComplexStructures H options rewritten) H options.

Definition optionsOff : MarkdownOptions :=
  {| headingStyle := "atx"; hr := "---"; bulletListMarker := "-";
     codeBlockStyle := "fenced"; fence := "```"; emDelimiter := "*";
     strongDelimiter := "**"; linkStyle := "inlined";
     linkReferenceStyle := "full"; preserveImageSize := true;
     preserveRelativeLinks := true; preserveTableAlignment := true;
     preserveFrontMatter := true; tableOptions := DEFAULT_TABLE_OPTIONS;
     processComplexStructures := false |}.

Definition detailsHtml : string := "<details><summary>More</summary>text</details>".

(** C5, as the code has it.  The option gates the Structure Normalizer
    only: when it is off the markup goes from the Unusual-Structure
    Rewriter straight to the tree converter, when it is on the Structure
    Normalizer runs after the rewriter.  The rewriter runs in both
    cases. *)
Theorem processComplexStructures_gates_normalizer_only (H : Host)
    (options : MarkdownOptions) (steps : nat) (html : string) (s : state) :
  convertToMarkdown H options steps html s =
  if processComplexStructures options
  then convertRewrittenAndNormalized H options steps html s
  else convertRewritten H options steps html s.
Proof.
  unfold convertToMarkdown, convertRewrittenAndNormalized, convertRewritten,
    pipelineWith, tryCatch, bind.
  destruct (processComplexStructures options);
    destruct (String.eqb (trim html) EmptyString); try reflexivity;
    destruct (extractFrontMatter options html s) as [[h0 fm] s1|e s1|]; try reflexivity;
    destruct (preserveSpecialContent H h0 (withPreserved [] s1)) as [h1 s2|e s2|];
    try reflexivity;
    destruct (handleUnusualStructures H steps h1 s2) as [h2 s3|e s3|]; reflexivity.
Qed.

(** C5, as the specification states it, fails: with the option off, a
    [details] element still reaches the tree converter rewritten as a
    block quote, where the pipeline without rewriter would hand it over
    as it is. *)
Lemma rewriter_runs_with_option_off :
  processComplexStructures optionsOff = false /\
  returned (convertToMarkdown probe optionsOff 10 detailsHtml emptyPage)
  = Some "<blockquote><strong>More</strong><br>text</blockquote>" /\
  returned (convertUnprepared probe optionsOff detailsHtml emptyPage)
  = Some detailsHtml.
Proof. repeat split; vm_compute; reflexivity. Qed.

End PipelineFacts.

(* ================================================================== *)
(** * Reasoning about the store *)

Module StoreFacts.
Import Js Dom Selector Eff.
Local Open Scope eff_scope.

Lemma lookup_update i f (d : dom) j :
  update i f d !! j = if decide (i = j) then f <$> d !! j else d !! j.
Proof.
  unfold update. destruct (d !! i) as [n|] eqn:Hi.
  - destruct (decide (i = j)) as [<-|Hne].
    + rewrite list_lookup_insert_eq by (eapply lookup_lt_Some; eauto).
      rewrite Hi. reflexivity.
    + apply list_lookup_insert_ne, Hne.
  - destruct (decide (i = j)) as [<-|Hne]; [rewrite Hi|]; reflexivity.
Qed.

Lemma lookup_update_ne i f (d : dom) j : i ≠ j -> update i f d !! j = d !! j.
Proof. intros Hne. rewrite lookup_update. destruct (decide (i = j)); congruence. Qed.

Lemma lookup_update_eq i f (d : dom) n :
  d !! i = Some n -> update i f d !! i = Some (f n).
Proof.
  intros Hi. rewrite lookup_update, Hi. destruct (decide (i = i)); [reflexivity|congruence].
Qed.

Lemma length_update i f (d : dom) : length (update i f d) = length d.
Proof. unfold update. destruct (d !! i); [apply length_insert|reflexivity]. Qed.

Lemma update_app_r (d : dom) n ext f :
  update (length d) f (d ++ n :: ext) = d ++ f n :: ext.
Proof.
  unfold update. rewrite lookup_app_r by lia. rewrite Nat.sub_diag. simpl.
  replace (length d) with (length d + 0) at 1 by lia.
  rewrite insert_app_r. reflexivity.
Qed.

(** Induction on markup, with the hypothesis for every child. *)
Lemma html_ind2 (P : html -> Prop) :
  (forall t a ks, Forall P ks -> P (HElem t a ks)) ->
  (forall s, P (HText s)) ->
  (forall s, P (HComment s)) ->
  forall h, P h.
Proof.
  intros HE HT HC. fix IH 1. intros [t a ks|s|s]; [|apply HT|apply HC].
  apply HE. induction ks as [|k ks IHks]; constructor; [apply IH|exact IHks].
Qed.

(** Loading only appends to the store; the root comes first, under the
    parent given. *)
Definition appends (h : html) : Prop :=
  forall p d, exists n ext,
    load h p d = (length d, d ++ n :: ext) /\ n_parent n = p /\ n_kind n ≠ Fragment.

Lemma loadForest_appends ks :
  Forall appends ks ->
  forall p d, exists ids ext, loadForest ks p d = (ids, d ++ ext).
Proof.
  induction 1 as [|k ks Hk _ IH]; intros p d; simpl.
  - exists [], []. rewrite app_nil_r. reflexivity.
  - destruct (Hk p d) as (n & ext & -> & _ & _).
    destruct (IH p (d ++ n :: ext)) as (ids & ext' & ->).
    eexists _, _. rewrite <- app_assoc. reflexivity.
Qed.

Lemma load_children t a ks p d :
  load (HElem t a ks) p d =
  let (i, d1) := alloc {| n_kind := Element t; n_attrs := a; n_kids := [];
                          n_parent := p |} d in
  let (ids, d2) := loadForest ks (Some i) d1 in
  (i, update i (setKids ids) d2).
Proof.
  simpl.
  match goal with
  | |- (let (_, _) := ?F ks ?d1 in _) = _ =>
      assert (Heq : forall l d', F l d' = loadForest l (Some (length d)) d')
  end.
  { induction l as [|x l IHl]; intros d'; simpl; [reflexivity|].
    destruct (load x (Some (length d)) d') as [j d'']. rewrite IHl. reflexivity. }
  rewrite Heq. reflexivity.
Qed.

Lemma load_appends h : appends h.
Proof.
  induction h as [t a ks IH|s|s] using html_ind2; intros p d.
  - rewrite load_children. unfold alloc.
    destruct (loadForest_appends ks IH (Some (length d)) (d ++ [blankNode (Element t)]))
      as (ids & ext & _).
    destruct (loadForest_appends ks IH (Some (length d))
                (d ++ [{| n_kind := Element t; n_attrs := a; n_kids := [];
                          n_parent := p |}])) as (ids' & ext' & ->).
    rewrite <- app_assoc. simpl. rewrite update_app_r.
    eexists _, _. split; [reflexivity|]. split; [reflexivity|discriminate].
  - simpl. unfold alloc. eexists _, []. split; [reflexivity|]. split; [reflexivity|discriminate].
  - simpl. unfold alloc. eexists _, []. split; [reflexivity|]. split; [reflexivity|discriminate].
Qed.

(** [cloneNode] returns a fresh root without parent and leaves the nodes
    already in the store as they are. *)
Lemma cloneNode_ok i s :
  exists n ext,
    cloneNode i s = Ok (length (s_dom s)) (withDom (s_dom s ++ n :: ext) s) /\
    n_parent n = None /\ n_kind n ≠ Fragment.
Proof.
  unfold cloneNode, fresh.
  destruct (load_appends (treeOf (s_dom s) i) None (s_dom s)) as (n & ext & -> & Hp & Hk).
  eauto.
Qed.

(** Appending a parentless node to a parentless element. *)
Lemma appendChild_parentless p i s t n :
  tagOf (s_dom s) p = Some t ->
  parentNode (s_dom s) p = None ->
  s_dom s !! i = Some n -> n_parent n = None -> n_kind n ≠ Fragment ->
  i ≠ p ->
  appendChild p i s = Ok tt (withDom (link p None i (s_dom s)) s).
Proof.
  intros Ht Hp Hi Hpar Hk Hne.
  unfold appendChild, insertBefore, bind, getDom.
  assert (Hc : canHaveChildren (s_dom s) p = true).
  { unfold canHaveChildren. unfold tagOf in Ht.
    destruct (kindOf (s_dom s) p) as [[]|]; try discriminate; reflexivity. }
  assert (Ha : isInclusiveAncestor (s_dom s) i p = false).
  { unfold isInclusiveAncestor, lineage.
    assert (Hanc : ancestors (length (s_dom s)) (s_dom s) p = []).
    { destruct (length (s_dom s)); simpl; [reflexivity|]. rewrite Hp. reflexivity. }
    rewrite Hanc. simpl. rewrite orb_false_r. apply Nat.eqb_neq, Hne. }
  rewrite Hc, Ha. simpl. unfold putDom. f_equal. f_equal.
  unfold insertAll, payload, kindOf. rewrite Hi. simpl.
  assert (Hu : unlink i (s_dom s) = s_dom s).
  { unfold unlink, parentNode. rewrite Hi, Hpar. reflexivity. }
  destruct (n_kind n); try contradiction; simpl; rewrite Hu; reflexivity.
Qed.

(** The state in which the copying loop of the definition-list rewrite
    cannot end: the description has a child, and the paragraph is a
    parentless element other than the description. *)
Definition stuck (desc paragraph : ref) (d : dom) : Prop :=
  (exists c, firstChild d desc = Some c) /\
  (exists t, tagOf d paragraph = Some t) /\
  parentNode d paragraph = None /\
  desc ≠ paragraph.

Lemma stuck_preserved desc paragraph d n ext :
  stuck desc paragraph d -> n_parent n = None ->
  stuck desc paragraph (link paragraph None (length d) (d ++ n :: ext)).
Proof.
  intros ([c Hc] & [t Ht] & Hp & Hne) Hn.
  assert (Hd : exists nd, d !! desc = Some nd).
  { unfold firstChild, kidsOf in Hc. destruct (d !! desc); [eauto|discriminate]. }
  assert (Hq : exists np, d !! paragraph = Some np).
  { unfold tagOf, kindOf in Ht. destruct (d !! paragraph); [eauto|discriminate]. }
  destruct Hd as [nd Hd], Hq as [np Hq].
  pose proof (lookup_lt_Some _ _ _ Hd) as Hld.
  pose proof (lookup_lt_Some _ _ _ Hq) as Hlq.
  unfold link.
  assert (Hdesc : forall f g,
    update (length d) f (update paragraph g (d ++ n :: ext)) !! desc = Some nd).
  { intros f g. rewrite !lookup_update_ne by lia.
    rewrite lookup_app_l by lia. exact Hd. }
  assert (Hpar : forall f g,
    update (length d) f (update paragraph g (d ++ n :: ext)) !! paragraph = Some (g np)).
  { intros f g. rewrite lookup_update_ne by lia.
    apply lookup_update_eq. rewrite lookup_app_l by lia. exact Hq. }
  repeat split.
  - exists c. unfold firstChild, kidsOf in *. rewrite Hdesc. rewrite Hd in Hc. exact Hc.
  - exists t. unfold tagOf, kindOf in *. rewrite Hpar. rewrite Hq in Ht. exact Ht.
  - unfold parentNode in *. rewrite Hpar. rewrite Hq in Hp. exact Hp.
  - exact Hne.
Qed.

(** ** Parent links *)

(** Every parent link of the store points to another node of the
    store. *)
Definition parentsInside (d : dom) : bool :=
  forallb (fun i => match parentNode d i with
                    | Some q => (q <? length d) && negb (q =? i)
                    | None => true
                    end) (seq 0 (length d)).

Lemma parentsInside_lookup d i n q :
  parentsInside d = true -> d !! i = Some n -> n_parent n = Some q ->
  q < length d /\ q ≠ i.
Proof.
  unfold parentsInside. rewrite forallb_forall. intros Hall Hi Hq.
  assert (Hin : In i (seq 0 (length d))).
  { apply in_seq. pose proof (lookup_lt_Some _ _ _ Hi). lia. }
  specialize (Hall i Hin). unfold parentNode in Hall. rewrite Hi, Hq in Hall.
  apply andb_true_iff in Hall as [H1 H2].
  apply Nat.ltb_lt in H1. apply negb_true_iff, Nat.eqb_neq in H2. auto.
Qed.

(** The ancestors of a node of [d] are nodes of [d], whatever is
    allocated after it. *)
Lemma ancestors_inside d ext fuel :
  parentsInside d = true ->
  forall i, i < length d -> Forall (fun j => j < length d) (ancestors fuel (d ++ ext) i).
Proof.
  intros Hd. induction fuel as [|fuel IH]; intros i Hi; simpl; [constructor|].
  unfold parentNode. rewrite lookup_app_l by exact Hi.
  destruct (d !! i) as [n|] eqn:Hn; [|constructor].
  destruct (n_parent n) as [q|] eqn:Hq; [|constructor].
  pose proof (parentsInside_lookup d i n q Hd Hn Hq) as [Hlt _].
  constructor; [exact Hlt|apply IH, Hlt].
Qed.

Lemma fresh_not_ancestor d ext i :
  parentsInside d = true -> i < length d ->
  isInclusiveAncestor (d ++ ext) (length d) i = false.
Proof.
  intros Hd Hi. unfold isInclusiveAncestor, lineage. simpl.
  apply orb_false_iff. split; [apply Nat.eqb_neq; lia|].
  pose proof (ancestors_inside d ext (length (d ++ ext)) Hd i Hi) as Hall.
  induction Hall as [|j l Hj _ IH]; simpl; [reflexivity|].
  rewrite IH, orb_false_r. apply Nat.eqb_neq. lia.
Qed.

(** Appending a freshly created element to an element of the store. *)
Lemma appendChild_fresh d k p s t :
  s_dom s = d ++ [blankNode (Element k)] ->
  parentsInside d = true ->
  tagOf d p = Some t ->
  appendChild p (length d) s = Ok tt (withDom (link p None (length d) (s_dom s)) s).
Proof.
  intros Hs Hd Ht.
  assert (Hp : p < length d).
  { unfold tagOf, kindOf in Ht. destruct (d !! p) eqn:Hp; [|discriminate].
    eapply lookup_lt_Some; eauto. }
  unfold appendChild, insertBefore, bind, getDom. rewrite Hs.
  assert (Hc : canHaveChildren (d ++ [blankNode (Element k)]) p = true).
  { unfold canHaveChildren, kindOf. rewrite lookup_app_l by exact Hp.
    unfold tagOf, kindOf in Ht. destruct (d !! p) as [n|]; [|discriminate].
    destruct (n_kind n); try discriminate; reflexivity. }
  rewrite Hc, fresh_not_ancestor by assumption. simpl. unfold putDom.
  f_equal. f_equal. unfold insertAll, payload, kindOf.
  rewrite lookup_app_r by lia. rewrite Nat.sub_diag. simpl.
  unfold unlink, parentNode. rewrite lookup_app_r by lia. rewrite Nat.sub_diag.
  reflexivity.
Qed.

Lemma kidsOf_link_append d k p n :
  d !! p = Some n -> p < length d ->
  kidsOf (link p None (length d) (d ++ [blankNode (Element k)])) p
  = n_kids n ++ [length d].
Proof.
  intros Hp Hlt. unfold link, kidsOf.
  rewrite lookup_update_ne by lia.
  erewrite lookup_update_eq by (rewrite lookup_app_l by lia; exact Hp).
  reflexivity.
Qed.

(** ** A store that is a forest, and what stays true when it grows *)

(** Every child reference points into the store. *)
Definition kidsInside (d : dom) : bool :=
  forallb (fun n => forallb (fun k => k <? length d) (n_kids n)) d.

(** The store is deep enough for every tree in it: one more level of
    descent finds nothing new. *)
Definition steady (d : dom) : bool :=
  forallb (fun i => bool_decide (descendants (S (length d)) d i
                                 = descendants (length d) d i))
          (seq 0 (length d)).

(** [d'] holds the nodes of [d] unchanged (and maybe more). *)
Definition extends (d d' : dom) : Prop :=
  forall j, j < length d -> d' !! j = d !! j.

Lemma extends_length d d' : extends d d' -> length d <= length d'.
Proof.
  intros He. destruct (decide (length d <= length d')) as [|Hn]; [assumption|].
  exfalso. assert (Hlt : length d' < length d) by lia.
  specialize (He (length d') Hlt).
  rewrite lookup_ge_None_2 in He by lia.
  symmetry in He. apply lookup_ge_None_1 in He. lia.
Qed.

Lemma extends_app d ext : extends d (d ++ ext).
Proof. intros j Hj. apply lookup_app_l, Hj. Qed.

Lemma extends_update d d' i f :
  extends d d' -> length d <= i -> extends d (update i f d').
Proof. intros He Hi j Hj. rewrite lookup_update_ne by lia. apply He, Hj. Qed.

Lemma kidsInside_lookup d i n k :
  kidsInside d = true -> d !! i = Some n -> In k (n_kids n) -> k < length d.
Proof.
  unfold kidsInside. rewrite forallb_forall. intros Hall Hi Hk.
  assert (Hin : In n d).
  { apply list_elem_of_In. eapply list_elem_of_lookup_2; eauto. }
  specialize (Hall n Hin). rewrite forallb_forall in Hall.
  apply Nat.ltb_lt, Hall, Hk.
Qed.

Lemma kidsOf_extends d d' i : extends d d' -> i < length d -> kidsOf d' i = kidsOf d i.
Proof. intros He Hi. unfold kidsOf. rewrite (He i Hi). reflexivity. Qed.

Lemma kidsOf_inside d i k :
  kidsInside d = true -> In k (kidsOf d i) -> k < length d.
Proof.
  intros Hd Hk. unfold kidsOf in Hk. destruct (d !! i) as [n|] eqn:Hn; [|destruct Hk].
  eapply kidsInside_lookup; eauto.
Qed.

Lemma flat_map_ext_in {A B} (f g : A -> list B) l :
  (forall x, In x l -> f x = g x) -> flat_map f l = flat_map g l.
Proof.
  induction l as [|x l IH]; intros Hfg; simpl; [reflexivity|].
  rewrite Hfg by (left; reflexivity). rewrite IH; [reflexivity|].
  intros y Hy. apply Hfg. right. exact Hy.
Qed.

Lemma descendants_extends d d' :
  kidsInside d = true -> extends d d' ->
  forall fuel i, i < length d -> descendants fuel d' i = descendants fuel d i.
Proof.
  intros Hd He. induction fuel as [|fuel IH]; intros i Hi; simpl; [reflexivity|].
  rewrite (kidsOf_extends d d' i He Hi).
  apply flat_map_ext_in. intros k Hk. rewrite IH; [reflexivity|].
  eapply kidsOf_inside; eauto.
Qed.

Lemma descendants_inside d :
  kidsInside d = true ->
  forall fuel i, Forall (fun j => j < length d) (descendants fuel d i).
Proof.
  intros Hd. induction fuel as [|fuel IH]; intros i; simpl; [constructor|].
  assert (Hk : Forall (fun k => k < length d) (kidsOf d i)).
  { apply Forall_forall. intros k Hk. apply list_elem_of_In in Hk.
    eapply kidsOf_inside; eauto. }
  induction Hk as [|k l Hk _ IHl]; simpl; [constructor|].
  constructor; [exact Hk|]. apply Forall_app. split; [apply IH|exact IHl].
Qed.

Lemma steady_lookup d i :
  steady d = true -> descendants (S (length d)) d i = descendants (length d) d i.
Proof.
  intros Hs. destruct (decide (i < length d)) as [Hi|Hi].
  - unfold steady in Hs. rewrite forallb_forall in Hs.
    specialize (Hs i). rewrite bool_decide_eq_true in Hs.
    apply Hs, in_seq. lia.
  - assert (Hk : kidsOf d i = []).
    { unfold kidsOf. rewrite lookup_ge_None_2 by lia. reflexivity. }
    simpl. rewrite Hk. destruct (length d); simpl; [reflexivity|].
    rewrite Hk. reflexivity.
Qed.

Lemma descendants_steady d :
  steady d = true ->
  forall m i, descendants (length d + m) d i = descendants (length d) d i.
Proof.
  intros Hs. induction m as [|m IH]; intros i.
  - rewrite Nat.add_0_r. reflexivity.
  - rewrite Nat.add_succ_r. simpl.
    rewrite <- (steady_lookup d i Hs). simpl.
    apply flat_map_ext_in. intros k _. rewrite IH. reflexivity.
Qed.

(** The subtree of a node of a forest is the same in every store that
    extends it. *)
Lemma subtree_extends d d' i :
  kidsInside d = true -> steady d = true -> extends d d' -> i < length d ->
  subtree d' i = subtree d i.
Proof.
  intros Hd Hs He Hi. unfold subtree.
  rewrite (descendants_extends d d' Hd He) by exact Hi.
  pose proof (extends_length d d' He) as Hl.
  replace (length d') with (length d + (length d' - length d)) by lia.
  apply descendants_steady, Hs.
Qed.

Lemma matches_extends d d' scope sel i :
  parentsInside d = true -> extends d d' -> i < length d ->
  matches d' scope sel i = matches d scope sel i.
Proof.
  intros Hp He Hi. unfold matches.
  assert (Hs : forall s, matchesSimple d' s i = matchesSimple d s i).
  { intros []; unfold matchesSimple, hasTag, isElement, tagOf, kindOf, hasClass,
      classList, hasAttribute, getAttribute, attrsOf;
      rewrite (He i Hi); reflexivity. }
  assert (Hq : forall p,
    match parentNode d' i with Some q => hasTag d' p q | None => false end
    = match parentNode d i with Some q => hasTag d p q | None => false end).
  { intros p. unfold parentNode. rewrite (He i Hi).
    destruct (d !! i) as [n|] eqn:Hn; [|reflexivity].
    destruct (n_parent n) as [q|] eqn:Hnq; [|reflexivity].
    unfold hasTag, tagOf, kindOf.
    rewrite (He q (proj1 (parentsInside_lookup d i n q Hp Hn Hnq))). reflexivity. }
  induction sel as [|c sel IH]; simpl; [reflexivity|]. rewrite IH. f_equal.
  destruct c; simpl; rewrite ?Hs, ?Hq; try reflexivity.
  unfold parentNode. rewrite (He i Hi). reflexivity.
Qed.

Lemma filter_ext_Forall {A} (R P Q : A -> Prop)
    `{!forall x, Decision (P x)} `{!forall x, Decision (Q x)} (l : list A) :
  Forall R l -> (forall x, R x -> (P x <-> Q x)) -> filter P l = filter Q l.
Proof.
  induction 1 as [|x l Hx _ IH]; intros Hpq; [reflexivity|].
  rewrite !filter_cons, IH by exact Hpq.
  destruct (decide (P x)) as [Hp|Hp], (decide (Q x)) as [Hq|Hq]; try reflexivity;
    exfalso; apply (Hpq x Hx) in Hp || apply (Hpq x Hx) in Hq; contradiction.
Qed.

(** A query under a node of a forest gives the same list in every store
    that extends it. *)
Lemma querySelectorAll_extends d d' scope sel :
  kidsInside d = true -> parentsInside d = true -> steady d = true ->
  extends d d' -> scope < length d ->
  querySelectorAll d' scope sel = querySelectorAll d scope sel.
Proof.
  intros Hk Hp Hs He Hi. unfold querySelectorAll.
  rewrite (subtree_extends d d' scope Hk Hs He Hi).
  apply (filter_ext_Forall (fun j => j < length d)).
  - apply descendants_inside, Hk.
  - intros j Hj. rewrite (matches_extends d d' scope sel j Hp He Hj). reflexivity.
Qed.

(** ** Replacing a child *)

(** [l] with [w] in the place of [a]. *)
Definition substitute (a w : ref) (l : list ref) : list ref :=
  map (fun x => if x =? a then w else x) l.

Lemma without_absent a l : ~ In a l -> without a l = l.
Proof.
  unfold without. induction l as [|x l IH]; intros Ha; [reflexivity|].
  rewrite filter_cons. destruct (decide (x ≠ a)) as [Hx|Hx].
  - rewrite IH; [reflexivity|]. intros Hin. apply Ha. right. exact Hin.
  - exfalso. apply Ha. left. destruct (decide (x = a)); [assumption|contradiction].
Qed.

Lemma substitute_absent a w l : ~ In a l -> substitute a w l = l.
Proof.
  unfold substitute. induction l as [|x l IH]; intros Ha; simpl; [reflexivity|].
  rewrite IH by (intros Hin; apply Ha; right; exact Hin).
  destruct (Nat.eqb_spec x a) as [->|]; [|reflexivity].
  exfalso. apply Ha. left. reflexivity.
Qed.

Lemma head_after_In a l y : head (after a l) = Some y -> In y l.
Proof.
  induction l as [|x l IH]; simpl; [discriminate|].
  destruct (x =? a).
  - destruct l as [|z l]; simpl; [discriminate|]. intros [= ->]. right. left. reflexivity.
  - intros Hy. right. apply IH, Hy.
Qed.

Lemma head_after_NoDup a l y :
  List.NoDup (a :: l) -> head (after a l) = Some y -> False.
Proof.
  intros Hnd. induction l as [|x l IH]; simpl; [discriminate|].
  inversion Hnd as [|? ? Ha Hl]; subst.
  destruct (Nat.eqb_spec x a) as [->|Hx].
  - exfalso. apply Ha. left. reflexivity.
  - apply IH. constructor.
    + intros Hin. apply Ha. right. exact Hin.
    + inversion Hl; assumption.
Qed.

(** Taking [a] out of a list without repetition and putting [w] before
    what followed [a] puts [w] in the place of [a]. *)
Lemma replace_in_place a w l :
  List.NoDup l -> In a l ->
  insBefore (head (after a l)) w (without a l) = substitute a w l.
Proof.
  induction l as [|x l IH]; intros Hnd Ha; [destruct Ha|].
  inversion Hnd as [|? ? Hx Hl]; subst.
  destruct (decide (x = a)) as [->|Hne].
  - simpl. rewrite Nat.eqb_refl. unfold without. rewrite filter_cons.
    destruct (decide (a ≠ a)) as [Hc|_]; [contradiction|].
    fold (without a l). rewrite (without_absent a l Hx), (substitute_absent a w l Hx).
    destruct l as [|y l]; [reflexivity|]. simpl. rewrite Nat.eqb_refl. reflexivity.
  - destruct Ha as [Ha|Ha]; [contradiction|].
    simpl. destruct (Nat.eqb_spec x a) as [|_]; [contradiction|].
    unfold without. rewrite filter_cons.
    destruct (decide (x ≠ a)) as [_|Hc]; [|contradiction].
    fold (without a l). rewrite <- (IH Hl Ha).
    destruct (head (after a l)) as [y|] eqn:Hy; simpl; [|reflexivity].
    destruct (Nat.eqb_spec x y) as [->|]; [|reflexivity].
    exfalso. apply Hx. eapply head_after_In. exact Hy.
Qed.

(** ** Reading back what was loaded *)

Fixpoint height (h : html) : nat :=
  match h with
  | HElem _ _ ks => S (fold_right (fun k m => Nat.max (height k) m) 0 ks)
  | _ => 1
  end.

Lemma height_children ks f :
  fold_right (fun k m => Nat.max (height k) m) 0 ks <= f <->
  Forall (fun k => height k <= f) ks.
Proof.
  induction ks as [|k ks IH]; simpl.
  - split; [constructor|lia].
  - rewrite Forall_cons_iff, <- IH. lia.
Qed.

(** [d'] holds the nodes of [d] from [lo] on unchanged. *)
Definition agrees (lo : nat) (d d' : dom) : Prop :=
  forall j, lo <= j -> j < length d -> d' !! j = d !! j.

Lemma agrees_length lo d d' : agrees lo d d' -> lo < length d -> length d <= length d'.
Proof.
  intros Ha Hlo. destruct (lookup_lt_is_Some_2 d (length d - 1)) as [n Hn]; [lia|].
  rewrite <- (Ha (length d - 1)) in Hn by lia.
  apply lookup_lt_Some in Hn. lia.
Qed.

Lemma agrees_app lo d ext d' : agrees lo (d ++ ext) d' -> agrees lo d d'.
Proof.
  intros Ha j Hlo Hj. rewrite (Ha j Hlo) by (rewrite length_app; lia).
  apply lookup_app_l, Hj.
Qed.

Lemma agrees_from lo lo' d d' : agrees lo d d' -> lo <= lo' -> agrees lo' d d'.
Proof. intros Ha Hle j Hlo Hj. apply Ha; lia. Qed.

(** Loading appends the tree to the store, root first; read back from any
    store that kept these nodes, the root gives the tree again. *)
Definition loads (h : html) : Prop :=
  forall p d, exists n ext,
    load h p d = (length d, d ++ n :: ext) /\
    height h <= length (n :: ext) /\
    forall d' fuel, agrees (length d) (d ++ n :: ext) d' -> height h <= fuel ->
                    reify fuel d' (length d) = h.

Lemma loadForest_loads ks :
  Forall loads ks ->
  forall p d, exists ids ext,
    loadForest ks p d = (ids, d ++ ext) /\
    Forall (fun k => height k <= length ext) ks /\
    forall d' fuel, agrees (length d) (d ++ ext) d' ->
                    Forall (fun k => height k <= fuel) ks ->
                    map (reify fuel d') ids = ks.
Proof.
  induction 1 as [|k ks Hk _ IH]; intros p d; simpl.
  - exists [], []. rewrite app_nil_r.
    split; [reflexivity|]. split; [constructor|reflexivity].
  - destruct (Hk p d) as (n & ext & -> & Hh & Hread).
    destruct (IH p (d ++ n :: ext)) as (ids & ext' & -> & Hhs & Hreads).
    exists (length d :: ids), ((n :: ext) ++ ext'). rewrite <- app_assoc.
    split; [reflexivity|]. split.
    + constructor; [rewrite length_app; lia|].
      eapply Forall_impl; [exact Hhs|]. intros x Hx. simpl in Hx.
      rewrite length_app. lia.
    + intros d' fuel Ha Hf. apply Forall_cons_iff in Hf as [Hfk Hfks]. simpl. f_equal.
      * apply Hread; [|exact Hfk]. eapply agrees_app. rewrite <- app_assoc. exact Ha.
      * apply Hreads; [|exact Hfks]. rewrite <- app_assoc.
        eapply agrees_from; [exact Ha|]. rewrite length_app. lia.
Qed.

Lemma load_loads h : loads h.
Proof.
  induction h as [t a ks IH|s|s] using html_ind2; intros p d.
  - rewrite load_children. unfold alloc.
    set (n0 := {| n_kind := Element t; n_attrs := a; n_kids := []; n_parent := p |}).
    destruct (loadForest_loads ks IH (Some (length d)) (d ++ [n0]))
      as (ids & ext & Hl & Hhs & Hreads).
    rewrite Hl, <- app_assoc. simpl app. rewrite update_app_r.
    exists (setKids ids n0), ext. split; [reflexivity|]. split.
    + cbn [height length]. apply le_n_S, height_children, Hhs.
    + intros d' fuel Ha Hf. cbn [height] in Hf.
      destruct fuel as [|fuel]; [lia|]. apply le_S_n, height_children in Hf.
      cbn [reify].
      rewrite (Ha (length d)) by (rewrite ?length_app; simpl; lia).
      rewrite lookup_app_r by lia. rewrite Nat.sub_diag. cbn.
      f_equal. apply Hreads; [|exact Hf].
      intros j Hlo Hj. rewrite length_app in Hlo, Hj. simpl in Hlo, Hj.
      rewrite Ha by (rewrite ?length_app in *; simpl in *; lia).
      rewrite <- app_assoc. rewrite !lookup_app_r by lia.
      destruct (j - length d) as [|k] eqn:Hjk; [lia|reflexivity].
  - simpl. unfold alloc. eexists _, []. split; [reflexivity|]. split; [simpl; lia|].
    intros d' fuel Ha Hf. destruct fuel as [|fuel]; [simpl in Hf; lia|]. cbn [reify].
    rewrite (Ha (length d)) by (rewrite ?length_app; simpl; lia).
    rewrite lookup_app_r by lia. rewrite Nat.sub_diag. reflexivity.
  - simpl. unfold alloc. eexists _, []. split; [reflexivity|]. split; [simpl; lia|].
    intros d' fuel Ha Hf. destruct fuel as [|fuel]; [simpl in Hf; lia|]. cbn [reify].
    rewrite (Ha (length d)) by (rewrite ?length_app; simpl; lia).
    rewrite lookup_app_r by lia. rewrite Nat.sub_diag. reflexivity.
Qed.

(** The children loaded under a node read back as the markup loaded. *)
Lemma loadForest_read ks p d ids ext d' :
  loadForest ks p d = (ids, d ++ ext) ->
  agrees (length d) (d ++ ext) d' ->
  map (treeOf d') ids = ks.
Proof.
  intros Hl Ha.
  destruct (loadForest_loads ks) with (p := p) (d := d) as (ids' & ext' & Hl' & Hh & Hread).
  { apply Forall_forall. intros h _. apply load_loads. }
  rewrite Hl in Hl'. injection Hl' as -> Hext. apply app_inv_head in Hext. subst ext'.
  apply Hread; [exact Ha|].
  destruct ext as [|n ext].
  - eapply Forall_impl; [exact Hh|]. simpl. intros; lia.
  - assert (length (d ++ n :: ext) <= length d').
    { apply agrees_length with (lo := length d); [exact Ha|]. rewrite length_app. simpl. lia. }
    rewrite length_app in *. eapply Forall_impl; [exact Hh|]. simpl. intros x Hx.
    simpl in *. lia.
Qed.

(** The nodes of a store after [old], a child of [p], gave its place to the
    parentless [w]. *)
Lemma replaced_lookup (D : dom) p old w nx j :
  parentNode D old = Some p -> p ≠ old -> p ≠ w -> old ≠ w ->
  link p nx w (unlink old D) !! j =
  if decide (j = w) then setParent (Some p) <$> D !! w
  else if decide (j = old) then setParent None <$> D !! old
  else if decide (j = p)
       then (fun n => setKids (insBefore nx w (without old (n_kids n))) n) <$> D !! p
       else D !! j.
Proof.
  intros Hpar Hpo Hpw How. unfold link, unlink. rewrite Hpar.
  rewrite !lookup_update.
  repeat (destruct (decide _) as [?|?]; subst; try congruence);
    try (destruct (D !! _); reflexivity).
Qed.

(** ** Text content, and stores deep enough for it *)

(** The nodes [m] levels under [i]. *)
Fixpoint frontier (m : nat) (d : dom) (i : ref) : list ref :=
  match m with
  | 0 => [i]
  | S m' => flat_map (frontier m' d) (kidsOf d i)
  end.

(** No tree of the store is as deep as the store is long. *)
Definition shallow (d : dom) : bool :=
  forallb (fun i => match frontier (length d) d i with [] => true | _ => false end)
          (seq 0 (length d)).

Lemma shallow_lookup d i : shallow d = true -> i < length d -> frontier (length d) d i = [].
Proof.
  unfold shallow. rewrite forallb_forall. intros Hs Hi.
  specialize (Hs i). rewrite in_seq in Hs.
  destruct (frontier (length d) d i); [reflexivity|].
  discriminate Hs. lia.
Qed.

Lemma flat_map_nil {A B} (f : A -> list B) l x :
  flat_map f l = [] -> In x l -> f x = [].
Proof.
  induction l as [|y l IH]; simpl; [intros _ []|].
  intros Hnil [->|Hin]; apply app_eq_nil in Hnil as [Hy Hl]; [exact Hy|apply IH; assumption].
Qed.

Lemma fold_right_ext_in {A B} (f g : A -> B -> B) (b : B) l :
  (forall x acc, In x l -> f x acc = g x acc) -> fold_right f b l = fold_right g b l.
Proof.
  induction l as [|x l IH]; intros Hfg; simpl; [reflexivity|].
  rewrite IH by (intros; apply Hfg; right; assumption).
  apply Hfg. left. reflexivity.
Qed.

Lemma textOf_extends d d' :
  kidsInside d = true -> extends d d' ->
  forall fuel i, i < length d -> textOf fuel d' i = textOf fuel d i.
Proof.
  intros Hk He. induction fuel as [|fuel IH]; intros i Hi; [reflexivity|].
  cbn [textOf]. unfold kindOf. rewrite (He i Hi).
  rewrite (kidsOf_extends d d' i He Hi).
  destruct (d !! i) as [n|] eqn:Hn; [|reflexivity].
  destruct (n_kind n); try reflexivity;
    apply fold_right_ext_in; intros k acc Hin; rewrite IH; try reflexivity;
    apply (kidsOf_inside d i k Hk Hin).
Qed.

Lemma textOf_shallow d :
  forall f i m, frontier f d i = [] -> textOf (f + m) d i = textOf f d i.
Proof.
  induction f as [|f IH]; intros i m Hf; [discriminate|].
  cbn [frontier] in Hf. cbn [Nat.add textOf].
  destruct (kindOf d i) as [[]|]; try reflexivity;
    apply fold_right_ext_in; intros k acc Hin; rewrite IH; try reflexivity;
    apply (flat_map_nil _ _ k Hf Hin).
Qed.

(** What [textContent] reads under a node does not depend on the nodes
    created since. *)
Lemma textContent_extends d d' i :
  kidsInside d = true -> shallow d = true -> extends d d' -> i < length d ->
  textContent d' i = textContent d i.
Proof.
  intros Hk Hs He Hi. unfold textContent, kindOf. rewrite (He i Hi).
  pose proof (extends_length d d' He) as Hl.
  pose proof (shallow_lookup d i Hs Hi) as Hf.
  rewrite (textOf_extends d d' Hk He) by exact Hi.
  replace (S (length d')) with (length d + (S (length d') - length d)) by lia.
  replace (S (length d)) with (length d + 1) by lia.
  rewrite !(textOf_shallow d (length d) i) by exact Hf. reflexivity.
Qed.

(** ** Nodes created after those of a store *)

Lemma lookup_app_plus (d ext : dom) k : (d ++ ext) !! (length d + k) = ext !! k.
Proof. rewrite lookup_app_r by lia. f_equal. lia. Qed.

Lemma update_app_l i f (d ext : dom) :
  i < length d -> update i f (d ++ ext) = update i f d ++ ext.
Proof.
  intros Hi. unfold update. rewrite lookup_app_l by exact Hi.
  destruct (d !! i) as [n|]; [|reflexivity].
  apply insert_app_l, Hi.
Qed.

Lemma update_app_plus k f (d ext : dom) :
  update (length d + k) f (d ++ ext) = d ++ update k f ext.
Proof.
  unfold update. rewrite lookup_app_plus.
  destruct (ext !! k) as [n|]; [|reflexivity].
  apply insert_app_r.
Qed.

Lemma appendChild_under p i s n :
  canHaveChildren (s_dom s) p = true ->
  parentNode (s_dom s) p = None ->
  s_dom s !! i = Some n -> n_parent n = None -> n_kind n ≠ Fragment ->
  i ≠ p ->
  appendChild p i s = Ok tt (withDom (link p None i (s_dom s)) s).
Proof.
  intros Hc Hp Hi Hpar Hk Hne.
  unfold appendChild, insertBefore, bind, getDom.
  assert (Ha : isInclusiveAncestor (s_dom s) i p = false).
  { unfold isInclusiveAncestor, lineage.
    assert (Hanc : ancestors (length (s_dom s)) (s_dom s) p = []).
    { destruct (length (s_dom s)); simpl; [reflexivity|]. rewrite Hp. reflexivity. }
    rewrite Hanc. simpl. rewrite orb_false_r. apply Nat.eqb_neq, Hne. }
  rewrite Hc, Ha. simpl. unfold putDom. f_equal. f_equal.
  unfold insertAll, payload, kindOf. rewrite Hi. simpl.
  assert (Hu : unlink i (s_dom s) = s_dom s).
  { unfold unlink, parentNode. rewrite Hi, Hpar. reflexivity. }
  destruct (n_kind n); try contradiction; simpl; rewrite Hu; reflexivity.
Qed.

Lemma withDom_withDom d d' s : withDom d (withDom d' s) = withDom d s.
Proof. reflexivity. Qed.

Lemma setKids_same n : n_kids n = [] -> setKids [] n = n.
Proof. destruct n; simpl; intros ->; reflexivity. Qed.

(** An element just created has no children to clear. *)
Lemma clearKids_fresh (d : dom) wn :
  n_kids wn = [] -> clearKids (length d) (d ++ [wn]) = d ++ [wn].
Proof.
  intros Hkids. unfold clearKids, kidsOf. rewrite lookup_app_r by lia.
  rewrite Nat.sub_diag. simpl. rewrite Hkids. simpl.
  rewrite update_app_r, setKids_same by exact Hkids. reflexivity.
Qed.

End StoreFacts.

(* ================================================================== *)
(** * The definition-list rewrite does not end on a description with
      content *)

Module DefinitionListFacts.
Import Js Re Dom Selector Eff Platform ComplexStructure MarkdownConversion MiniBrowser.
Import StoreFacts PipelineFacts.
Local Open Scope eff_scope.

(** Each turn of the loop appends a copy of the description's first child
    to the paragraph and leaves the description as it is: whatever the
    number of turns granted, the loop uses them all. *)
Lemma cloneDescriptionContent_diverges desc paragraph n :
  forall s, stuck desc paragraph (s_dom s) ->
            cloneDescriptionContent n desc paragraph s = OutOfFuel.
Proof.
  induction n as [|n IH]; intros s Hs;
    pose proof Hs as ([c Hc] & [t Ht] & Hp & Hne).
  - simpl. unfold bind, getDom. rewrite Hc. reflexivity.
  - simpl. unfold bind at 1. unfold getDom. rewrite Hc.
    destruct (cloneNode_ok c s) as (n0 & ext & Hclone & Hpar & Hk).
    unfold bind at 1. rewrite Hclone.
    assert (Hlt : paragraph < length (s_dom s)).
    { unfold tagOf, kindOf in Ht.
      destruct (s_dom s !! paragraph) eqn:Hq; [|discriminate].
      eapply lookup_lt_Some; eauto. }
    unfold bind at 1.
    rewrite (appendChild_parentless paragraph (length (s_dom s)) _ t n0); simpl.
    + apply IH. simpl. apply stuck_preserved; assumption.
    + unfold tagOf, kindOf in *. rewrite lookup_app_l by lia. exact Ht.
    + unfold parentNode in *. rewrite lookup_app_l by lia. exact Hp.
    + rewrite lookup_app_r by lia. rewrite Nat.sub_diag. reflexivity.
    + exact Hpar.
    + exact Hk.
    + lia.
Qed.

(** ** Running a call on a concrete page *)

Lemma bind_ok {A B} (m : M A) (k : A -> M B) s a s' :
  m s = Ok a s' -> bind m k s = k a s'.
Proof. intros Hm. unfold bind. rewrite Hm. reflexivity. Qed.

Lemma bind_diverges {A B} (m : M A) (k : A -> M B) s :
  m s = OutOfFuel -> bind m k s = OutOfFuel.
Proof. intros Hm. unfold bind. rewrite Hm. reflexivity. Qed.

Lemma tryCatch_diverges {A} (m : M A) h s :
  m s = OutOfFuel -> tryCatch m h s = OutOfFuel.
Proof. intros Hm. unfold tryCatch. rewrite Hm. reflexivity. Qed.

(** One step of a call that does not end, for the variable [n] that
    bounds its loops: a first part that does not mention [n] is run, one
    that does is entered. *)
Ltac enter n :=
  lazymatch goal with
  | |- tryCatch _ _ _ = OutOfFuel => apply tryCatch_diverges
  | |- bind ?m ?k ?s = OutOfFuel =>
      lazymatch m with
      | context [n] => apply bind_diverges
      | _ =>
          let r := eval vm_compute in (m s) in
          lazymatch r with
          | Ok ?a ?s' =>
              rewrite (bind_ok m k s a s') by (vm_compute; reflexivity); cbv beta
          end
      end
  end.

Definition dlHtml : string := "<dl><dt>Term</dt><dd>Def</dd></dl>".

(** Evaluate the list a [forEach] walks, the condition of an [if], the
    sibling a loop starts from. *)
Ltac walk :=
  lazymatch goal with
  | |- forEach ?l ?f ?s = _ =>
      let l' := eval vm_compute in l in
      change (forEach l f s) with (forEach l' f s); cbn [forEach]
  end.
Ltac decide_if :=
  lazymatch goal with
  | |- (if ?c then _ else _) _ = _ =>
      let c' := eval vm_compute in c in
      change c with c'; cbv iota
  end.

Ltac sibling :=
  lazymatch goal with
  | |- pairDescriptions ?a ?b ?t ?f ?o ?s = _ =>
      let o' := eval vm_compute in o in
      change (pairDescriptions a b t f o s) with (pairDescriptions a b t f o' s)
  end.

Ltac stuck_here :=
  apply cloneDescriptionContent_diverges;
  split; [eexists; vm_compute; reflexivity|];
  split; [eexists; vm_compute; reflexivity|];
  split; [vm_compute; reflexivity|vm_compute; discriminate].

(** C1 at the specification's own definition list.  Whatever the number
    of turns granted to its loops, [convertToMarkdown] neither returns nor
    throws on [<dl><dt>Term</dt><dd>Def</dd></dl>]: the rewrite of
    definition lists, which runs whatever the options, copies the first
    child of the description without ever removing it. *)
Theorem convertToMarkdown_does_not_return (steps : nat) :
  convertToMarkdown probe DEFAULT_MARKDOWN_OPTIONS steps dlHtml emptyPage = OutOfFuel.
Proof.
  unfold convertToMarkdown. enter steps.
  change (String.eqb (trim dlHtml) EmptyString) with false. cbv iota.
  enter steps. cbv beta iota zeta. enter steps. enter steps.
  enter steps.
  unfold handleUnusualStructures. cbv iota. enter steps. enter steps. enter steps.
  unfold rewriteUnusualStructures. enter steps.
  unfold rewriteDefinitionLists. enter steps. walk. enter steps.
  unfold rewriteDefinitionList. enter steps. cbv zeta. enter steps. enter steps.
  walk. enter steps. unfold rewriteTerm. enter steps. enter steps. sibling.
  destruct steps as [|n]; [vm_compute; reflexivity|].
  cbn [pairDescriptions]. enter n. cbv iota. decide_if.
  repeat enter n. stuck_here.
Qed.

(** A definition list whose description holds the inline expression of
    the specification. *)
Definition mathDlHtml : string := "<dl><dt>Sum</dt><dd>$x+y=z$</dd></dl>".

(** C3 at [<dl><dt>Sum</dt><dd>$x+y=z$</dd></dl>], markup that holds the
    expression [$x+y=z$].  Whatever the number of turns granted to its
    loops, [convertToMarkdown] does not return: there is no output for the
    expression to appear in.  The expression is the content of a
    description, and the rewrite of definition lists copies the first
    child of a description without ever removing it. *)
Theorem inline_math_in_description_has_no_output (steps : nat) :
  includes "$x+y=z$" mathDlHtml = true /\
  convertToMarkdown probe DEFAULT_MARKDOWN_OPTIONS steps mathDlHtml emptyPage = OutOfFuel.
Proof.
  split; [vm_compute; reflexivity|].
  unfold convertToMarkdown. enter steps.
  change (String.eqb (trim mathDlHtml) EmptyString) with false. cbv iota.
  enter steps. cbv beta iota zeta. enter steps. enter steps.
  enter steps.
  unfold handleUnusualStructures. cbv iota. enter steps. enter steps. enter steps.
  unfold rewriteUnusualStructures. enter steps.
  unfold rewriteDefinitionLists. enter steps. walk. enter steps.
  unfold rewriteDefinitionList. enter steps. cbv zeta. enter steps. enter steps.
  walk. enter steps. unfold rewriteTerm. enter steps. enter steps. sibling.
  destruct steps as [|n]; [vm_compute; reflexivity|].
  cbn [pairDescriptions]. enter n. cbv iota. decide_if.
  repeat enter n. stuck_here.
Qed.

(** ** One turn of the loop over a term's descriptions *)

Lemma after_In i l x : In x (after i l) -> In x l.
Proof.
  induction l as [|y l IH]; simpl; [intros []|].
  destruct (y =? i); intros Hx; right; [exact Hx|apply IH, Hx].
Qed.

(** The next element sibling is read from the node, its parent and the
    kinds of its siblings. *)
Lemma nextElementSibling_agrees (d d' : dom) i q :
  d' !! i = d !! i -> parentNode d i = Some q -> d' !! q = d !! q ->
  (forall k, In k (kidsOf d q) -> kindOf d' k = kindOf d k) ->
  nextElementSibling d' i = nextElementSibling d i.
Proof.
  intros Hi Hq Hdq Hkinds.
  unfold nextElementSibling, siblingsAfter.
  assert (Hq' : parentNode d' i = Some q) by (unfold parentNode in *; rewrite Hi; exact Hq).
  rewrite Hq, Hq'.
  assert (Hkids : kidsOf d' q = kidsOf d q) by (unfold kidsOf; rewrite Hdq; reflexivity).
  rewrite Hkids. f_equal.
  apply (filter_ext_Forall (fun k => In k (kidsOf d q))).
  - apply Forall_forall. intros k Hk. apply list_elem_of_In in Hk. eapply after_In, Hk.
  - intros k Hk. unfold isElement, tagOf. rewrite (Hkinds k Hk). reflexivity.
Qed.

(** The text node of a [strong] element, if its text is not empty. *)
Definition textUnder (strong : ref) (text : string) : list node :=
  match text with
  | EmptyString => []
  | _ => [{| n_kind := Text text; n_attrs := []; n_kids := []; n_parent := Some strong |}]
  end.

(** The nodes of [<p><strong>text</strong>: </p>], created after [b]
    nodes, under [fragment]. *)
Definition paragraphNodes (b : nat) (text : string) (fragment : ref) : list node :=
  let c := length (textUnder b text) in
  {| n_kind := Element "strong"; n_attrs := [];
     n_kids := map (fun _ => b + 1) (textUnder b text); n_parent := Some (b + (1 + c)) |}
  :: textUnder b text
  ++ [ {| n_kind := Element "p"; n_attrs := []; n_kids := [b; b + (2 + c)];
          n_parent := Some fragment |};
       {| n_kind := Text ": "; n_attrs := []; n_kids := [];
          n_parent := Some (b + (1 + c)) |} ].

(** The store after a turn for the description [dd] of a term that reads
    [text]: the paragraph is new and the last child of [fragment], [dd] is taken out
    of its parent. *)
Definition paired (text : string) (d : dom) (fragment dd parent : ref) : dom :=
  let paragraph := length d + (1 + length (textUnder (length d) text)) in
  update dd (setParent None)
    (update parent (fun n => setKids (without dd (n_kids n)) n)
       (update fragment (fun n => setKids (n_kids n ++ [paragraph]) n) d))
  ++ paragraphNodes (length d) text fragment.

Lemma setTextContent_fresh (d : dom) wn text s :
  s_dom s = d ++ [wn] -> n_kids wn = [] ->
  setTextContent (length d) text s
  = Ok tt (withDom (d ++ setKids (map (fun _ => length d + 1) (textUnder (length d) text)) wn
                      :: textUnder (length d) text) s).
Proof.
  intros Hs Hkids. unfold setTextContent, bind, modifyDom.
  rewrite Hs, (clearKids_fresh d wn Hkids).
  destruct text as [|c text].
  - unfold ret. cbn [textUnder map]. rewrite setKids_same by exact Hkids. reflexivity.
  - unfold fresh, alloc. cbn [s_dom withDom]. cbv iota beta.
    rewrite length_app. cbn [length]. rewrite <- app_assoc. cbn [app].
    rewrite update_app_r. reflexivity.
Qed.

Lemma cloneDescriptionContent_empty n desc paragraph s :
  firstChild (s_dom s) desc = None ->
  cloneDescriptionContent n desc paragraph s = Ok tt s.
Proof.
  intros Hf. destruct n; cbn [cloneDescriptionContent]; unfold bind, getDom;
    rewrite Hf; reflexivity.
Qed.

(** Linking a node created after those of [d] under a node of [d]. *)
Lemma link_into (d ext : dom) p k :
  p < length d ->
  link p None (length d + k) (d ++ ext)
  = update p (fun n => setKids (n_kids n ++ [length d + k]) n) d
    ++ update k (setParent (Some p)) ext.
Proof.
  intros Hp. unfold link. cbn [insBefore]. rewrite update_app_l by exact Hp.
  pose proof (update_app_plus k (setParent (Some p))
                (update p (fun n => setKids (n_kids n ++ [length d + k]) n) d) ext) as Hu.
  rewrite length_update in Hu. exact Hu.
Qed.

(** Linking a node created after those of [d] under another one. *)
Lemma link_among (d ext : dom) kp ki :
  link (length d + kp) None (length d + ki) (d ++ ext)
  = d ++ update ki (setParent (Some (length d + kp)))
           (update kp (fun n => setKids (n_kids n ++ [length d + ki]) n) ext).
Proof. unfold link. cbn [insBefore]. rewrite !update_app_plus. reflexivity. Qed.

Lemma link_first (d ext : dom) kp :
  link (length d + kp) None (length d) (d ++ ext)
  = d ++ update 0 (setParent (Some (length d + kp)))
           (update kp (fun n => setKids (n_kids n ++ [length d]) n) ext).
Proof.
  pose proof (link_among d ext kp 0) as Hl. rewrite Nat.add_0_r in Hl. exact Hl.
Qed.

Lemma kindOf_app_l (d ext : dom) i : i < length d -> kindOf (d ++ ext) i = kindOf d i.
Proof. intros Hi. unfold kindOf. rewrite lookup_app_l by exact Hi. reflexivity. Qed.

Lemma parentNode_app_l (d ext : dom) i :
  i < length d -> parentNode (d ++ ext) i = parentNode d i.
Proof. intros Hi. unfold parentNode. rewrite lookup_app_l by exact Hi. reflexivity. Qed.

(** Look a node up among those created after the nodes of [d]. *)
Ltac look :=
  cbn [s_dom withDom];
  first [rewrite lookup_app_plus | rewrite lookup_app_r by lia; rewrite Nat.sub_diag];
  reflexivity.

Ltac tidy := cbn [setParent setKids setAttrs blankNode n_kind n_attrs n_kids n_parent app].

(** [parent.appendChild(child)] for a parentless [parent], run. *)
Ltac append_under :=
  unfold bind at 1;
  erewrite appendChild_under;
    [|unfold canHaveChildren; cbn [s_dom withDom];
      first [unfold kindOf; look
            |rewrite kindOf_app_l by lia;
             match goal with Hkind : kindOf _ _ = Some _ |- _ => rewrite Hkind end;
             reflexivity]
     |cbn [s_dom withDom];
      first [unfold parentNode; look|rewrite parentNode_app_l by lia; eassumption]
     |look|reflexivity|discriminate|lia];
  cbn [s_dom withDom]; rewrite withDom_withDom.

Ltac settle :=
  repeat match goal with
  | |- context [update ?k ?f (?x :: ?l)] =>
      let r := eval cbn in (update k f (x :: l)) in
      change (update k f (x :: l)) with r
  end.

(** After nodes were created and one of them was put under [fragment]:
    what [dd] and its siblings are has not changed. *)
Section Linked.
Context (d ext : dom) (fragment dd parent : ref) (g : node -> list ref).
Context (Hdlt : dd < length d) (Hplt : parent < length d).
Context (Hkin : forall k, In k (kidsOf d parent) -> k < length d).
Context (Hpar : parentNode d dd = Some parent).
Context (Hpf : parent ≠ fragment) (Hdf : dd ≠ fragment).

Local Abbreviation D := (update fragment (fun n => setKids (g n) n) d ++ ext).

Lemma linked_bounds : dd < length d /\ parent < length d.
Proof using All. split; assumption. Qed.

Lemma linked_lookup j : j < length d -> j ≠ fragment -> D !! j = d !! j.
Proof using All.
  intros Hj Hne. rewrite lookup_app_l by (rewrite length_update; lia).
  apply lookup_update_ne. lia.
Qed.

Lemma parentNode_linked : parentNode D dd = Some parent.
Proof using All.
  unfold parentNode. rewrite linked_lookup; [exact Hpar| |exact Hdf].
  apply linked_bounds.
Qed.

Lemma nextElementSibling_linked : nextElementSibling D dd = nextElementSibling d dd.
Proof using All.
  apply (nextElementSibling_agrees d D dd parent).
  - apply linked_lookup; assumption.
  - exact Hpar.
  - apply linked_lookup; assumption.
  - intros k Hin. pose proof (Hkin k Hin) as Hklt.
    unfold kindOf. rewrite lookup_app_l by (rewrite length_update; lia).
    rewrite lookup_update. destruct (decide (fragment = k)); [|reflexivity].
    destruct (d !! k); reflexivity.
Qed.

(** [dd.parentNode?.removeChild(dd)] *)
Lemma removeChild_linked s :
  withParent dd (fun p => removeChild p dd) (withDom D s)
  = Ok tt (withDom
             (update dd (setParent None)
                (update parent (fun n => setKids (without dd (n_kids n)) n)
                   (update fragment (fun n => setKids (g n) n) d)) ++ ext) s).
Proof using All.
  unfold withParent. unfold bind at 1. unfold getDom at 1. cbn [s_dom withDom].
  rewrite parentNode_linked. unfold removeChild, bind, getDom. cbn [s_dom withDom].
  rewrite parentNode_linked, bool_decide_eq_true_2 by reflexivity.
  unfold putDom. rewrite withDom_withDom. unfold unlink. rewrite parentNode_linked.
  rewrite !update_app_l by (rewrite ?length_update; lia). reflexivity.
Qed.

End Linked.

(** The rest of a turn, once the [strong] element holds the term's text. *)
Ltac finish_turn d dd parent Hplt Hkin Hpar Hne Hdf Hdlt Hempty :=
  unfold bind at 1; cbn [s_dom withDom]; rewrite withDom_withDom;
    rewrite length_app, <- app_assoc; cbn [length app];
  append_under; rewrite link_first; settle;
  unfold bind at 1; unfold createTextNode, fresh, alloc; cbn [s_dom withDom];
    rewrite withDom_withDom, length_app, <- app_assoc; cbn [length app];
  append_under; rewrite link_among; settle;
  unfold bind at 1;
    rewrite cloneDescriptionContent_empty
      by (cbn [s_dom withDom]; unfold firstChild;
          rewrite (kidsOf_extends d _ dd (extends_app d _) Hdlt), Hempty; reflexivity);
  append_under; rewrite link_into by lia; settle;
  unfold bind at 1; unfold getDom at 1; cbn [s_dom withDom];
  rewrite (nextElementSibling_linked d _ _ dd parent _ Hdlt Hplt Hkin Hpar Hne Hdf);
  unfold bind at 1;
  rewrite (removeChild_linked d _ _ dd parent _ Hdlt Hplt Hkin Hpar Hne Hdf);
  reflexivity.

Lemma pairDescriptions_turn steps n term fragment dd parent text s :
  let d := s_dom s in
  hasTag d "dd" dd = true -> kidsOf d dd = [] ->
  parentNode d dd = Some parent -> parent < length d -> parent ≠ dd ->
  (forall k, In k (kidsOf d parent) -> k < length d) ->
  parent ≠ fragment ->
  kindOf d fragment = Some Fragment -> parentNode d fragment = None ->
  textContent (d ++ [blankNode (Element "strong")]) term = text ->
  pairDescriptions steps (S n) term fragment (Some dd) s
  = pairDescriptions steps n term fragment (nextElementSibling d dd)
      (withDom (paired text d fragment dd parent) s).
Proof.
  intros d Hdd Hempty Hpar Hplt Hpdd Hkin Hne Hfrag Hfpar Htext.
  assert (Hdf : dd ≠ fragment).
  { intros ->. unfold hasTag, tagOf in Hdd. rewrite Hfrag in Hdd. discriminate. }
  assert (Hcan : canHaveChildren d fragment = true)
    by (unfold canHaveChildren; rewrite Hfrag; reflexivity).
  assert (Hdlt : dd < length d).
  { unfold hasTag, tagOf, kindOf in Hdd. destruct (d !! dd) eqn:E; [|discriminate].
    eapply lookup_lt_Some; exact E. }
  assert (Hflt : fragment < length d).
  { unfold kindOf in Hfrag. destruct (d !! fragment) eqn:E; [|discriminate].
    eapply lookup_lt_Some; exact E. }
  cbn [pairDescriptions]. unfold bind at 1. unfold getDom at 1. fold d. rewrite Hdd.
  cbn [negb].
  unfold bind at 1. unfold createElement, fresh, alloc. fold d. cbv iota beta.
  unfold bind at 1. unfold getDom at 1. cbn [s_dom withDom].
  rewrite Htext.
  unfold bind at 1.
  rewrite (setTextContent_fresh d (blankNode (Element "strong")) text)
    by reflexivity.
  rewrite withDom_withDom.
  unfold paired, paragraphNodes. cbv zeta.
  destruct text as [|c text];
    cbn [textUnder map length app setKids blankNode n_kind n_attrs n_kids n_parent
         Init.Nat.add].
  - finish_turn d dd parent Hplt Hkin Hpar Hne Hdf Hdlt Hempty.
  - finish_turn d dd parent Hplt Hkin Hpar Hne Hdf Hdlt Hempty.
Qed.

Lemma pairDescriptions_none steps n term fragment desc s :
  match desc with
  | Some e => hasTag (s_dom s) "dd" e = false
  | None => True
  end ->
  pairDescriptions steps n term fragment desc s = Ok tt s.
Proof.
  intros Hd. destruct n; cbn [pairDescriptions]; unfold bind, getDom;
    (destruct desc as [e|]; [rewrite Hd|]); reflexivity.
Qed.

(** The markup of a term's text: nothing for the empty string. *)
Definition termMarkup (text : string) : list html :=
  match text with
  | EmptyString => []
  | _ => [HText text]
  end.

Lemma reify_element f (D : dom) i n t :
  D !! i = Some n -> n_kind n = Element t ->
  reify (S f) D i = HElem t (n_attrs n) (map (reify f D) (n_kids n)).
Proof. intros Hi Hk. cbn [reify]. rewrite Hi, Hk. reflexivity. Qed.

Lemma reify_text f (D : dom) i n t :
  D !! i = Some n -> n_kind n = Text t -> reify (S f) D i = HText t.
Proof. intros Hi Hk. cbn [reify]. rewrite Hi, Hk. reflexivity. Qed.

Lemma paired_new text d fragment dd parent k :
  paired text d fragment dd parent !! (length d + k)
  = paragraphNodes (length d) text fragment !! k.
Proof.
  unfold paired. cbv zeta.
  match goal with
  | |- (?U ++ _) !! _ = _ =>
      assert (Hl : length U = length d) by (rewrite !length_update; reflexivity);
      rewrite <- Hl at 1; apply lookup_app_plus
  end.
Qed.

Lemma paired_first text d fragment dd parent :
  paired text d fragment dd parent !! length d
  = paragraphNodes (length d) text fragment !! 0.
Proof.
  pose proof (paired_new text d fragment dd parent 0) as Hn.
  rewrite Nat.add_0_r in Hn. exact Hn.
Qed.

Lemma paired_old text d fragment dd parent j :
  j < length d ->
  paired text d fragment dd parent !! j
  = update dd (setParent None)
      (update parent (fun n => setKids (without dd (n_kids n)) n)
         (update fragment
            (fun n => setKids (n_kids n ++ [length d + (1
                                 + length (textUnder (length d) text))]) n)
            d)) !! j.
Proof.
  intros Hj. unfold paired. cbv zeta. apply lookup_app_l. rewrite !length_update. exact Hj.
Qed.

Lemma paired_length text d fragment dd parent :
  length (paired text d fragment dd parent)
  = length d + (3 + length (textUnder (length d) text)).
Proof.
  unfold paired, paragraphNodes. cbv zeta.
  rewrite length_app, !length_update. cbn [length]. rewrite length_app. cbn [length]. lia.
Qed.

(** The paragraph of a turn reads [<p><strong>text</strong>: </p>]. *)
Definition termParagraph (text : string) : html :=
  HElem "p" [] [HElem "strong" [] (termMarkup text); HText ": "].

Lemma paired_paragraph text d fragment dd parent fuel :
  reify (S (S (S fuel))) (paired text d fragment dd parent)
        (length d + (1 + length (textUnder (length d) text)))
  = termParagraph text.
Proof.
  unfold termParagraph.
  destruct text as [|c text];
    cbn [textUnder length termMarkup Init.Nat.add].
  - erewrite reify_element;
      [|rewrite (paired_new EmptyString d fragment dd parent 1); reflexivity|reflexivity].
    cbn [n_attrs n_kids map textUnder length Init.Nat.add].
    erewrite reify_element;
      [|rewrite (paired_first EmptyString d fragment dd parent); reflexivity|reflexivity].
    erewrite reify_text;
      [|rewrite (paired_new EmptyString d fragment dd parent 2); reflexivity|reflexivity].
    reflexivity.
  - erewrite reify_element;
      [|rewrite (paired_new (String c text) d fragment dd parent 2); reflexivity|reflexivity].
    cbn [n_attrs n_kids map textUnder length Init.Nat.add].
    erewrite reify_element;
      [|rewrite (paired_first (String c text) d fragment dd parent); reflexivity|reflexivity].
    cbn [n_attrs n_kids map textUnder length Init.Nat.add].
    erewrite reify_text;
      [|rewrite (paired_new (String c text) d fragment dd parent 1); reflexivity|reflexivity].
    erewrite reify_text;
      [|rewrite (paired_new (String c text) d fragment dd parent 3); reflexivity|reflexivity].
    reflexivity.
Qed.

(** C6, as the specification states it, fails: a term followed by two
    descriptions gets two paragraphs, and a term that no description
    follows gets none. *)
Lemma two_paragraphs_for_one_term_and_none_for_another :
  returned (handleUnusualStructures probe 5
              "<dl><dt>T</dt><dd></dd><dd></dd><dt>U</dt></dl>" emptyPage)
  = Some "<p><strong>T</strong>: </p><p><strong>T</strong>: </p>".
Proof. vm_compute. reflexivity. Qed.

End DefinitionListFacts.

(* ================================================================== *)
(** * Table normalization *)

Module TableFacts.
Import Js Re Dom Selector Eff Platform ComplexStructure MarkdownConversion MiniBrowser.
Import StoreFacts PipelineFacts.
Local Open Scope eff_scope.

(** C9, as the code has it.  For a table without rows,
    [normalizeTableStructure] raises no exception, creates no header
    section and moves no node.  A table that holds a body section is left
    exactly as it is; a table that holds none gets a new, empty body
    section as its last child, and nothing else changes. *)
Theorem normalize_table_without_rows (H : Host) (table : ref) (s : state) (t : string) :
  tagOf (s_dom s) table = Some t ->
  parentsInside (s_dom s) = true ->
  querySelectorAll (s_dom s) table (tag "tr") = [] ->
  exists s',
    normalizeTableStructure H table s = Ok tt s' /\
    match querySelector (s_dom s) table (tag "tbody") with
    | Some _ => s' = s
    | None =>
        let tbody := length (s_dom s) in
        s' = withDom (link table None tbody
                        (s_dom s ++ [blankNode (Element "tbody")])) s /\
        kidsOf (s_dom s') table = kidsOf (s_dom s) table ++ [tbody] /\
        s_dom s' !! tbody
        = Some {| n_kind := Element "tbody"; n_attrs := []; n_kids := [];
                  n_parent := Some table |} /\
        forall j, j ≠ table -> j ≠ tbody -> s_dom s' !! j = s_dom s !! j
    end.
Proof.
  intros Ht Hd Hrows.
  assert (Hn : exists n, s_dom s !! table = Some n).
  { unfold tagOf, kindOf in Ht. destruct (s_dom s !! table); [eauto|discriminate]. }
  destruct Hn as [n Hn]. pose proof (lookup_lt_Some _ _ _ Hn) as Hlt.
  unfold normalizeTableStructure. unfold bind at 1. unfold getDom at 1.
  rewrite Hrows.
  unfold bind at 1.
  match goal with
  | |- context [match ?m s with _ => _ end] =>
      replace (m s) with (Ok (querySelector (s_dom s) table (tag "thead")) s)
        by (destruct (querySelector (s_dom s) table (tag "thead")); reflexivity)
  end.
  unfold bind at 1. unfold getDom at 1.
  destruct (querySelector (s_dom s) table (tag "tbody")) as [b|] eqn:Hb.
  - exists s. split; reflexivity.
  - eexists. split.
    + unfold bind at 1. unfold createElement, fresh, alloc. simpl.
      unfold bind at 1. unfold ret at 1.
      apply (appendChild_fresh (s_dom s) "tbody" table _ t); [reflexivity|exact Hd|exact Ht].
    + simpl. split; [reflexivity|]. split; [|split].
      * rewrite (kidsOf_link_append _ _ _ n Hn Hlt). unfold kidsOf. rewrite Hn. reflexivity.
      * unfold link.
        rewrite (lookup_update_eq _ _ _ (blankNode (Element "tbody"))); [reflexivity|].
        rewrite lookup_update_ne by lia. rewrite lookup_app_r by lia.
        rewrite Nat.sub_diag. reflexivity.
      * intros j Hj1 Hj2. unfold link. rewrite !lookup_update_ne by lia.
        destruct (decide (j < length (s_dom s))) as [Hj|Hj].
        -- apply lookup_app_l, Hj.
        -- rewrite !lookup_ge_None_2; [reflexivity|lia|].
           rewrite length_app. simpl. lia.
Qed.

(** A page that holds a container with one empty table. *)
Definition emptyTablePage : state :=
  {| s_dom := [ {| n_kind := Element "div"; n_attrs := []; n_kids := [1];
                   n_parent := None |};
                {| n_kind := Element "table"; n_attrs := []; n_kids := [];
                   n_parent := Some 0 |} ];
     s_errors := []; s_preserved := [] |}.

Lemma normalize_table_without_rows_witness :
  exists s',
    normalizeTableStructure probe 1 emptyTablePage = Ok tt s' /\
    match querySelector (s_dom emptyTablePage) 1 (tag "tbody") with
    | Some _ => s' = emptyTablePage
    | None =>
        let tbody := length (s_dom emptyTablePage) in
        s' = withDom (link 1 None tbody
                        (s_dom emptyTablePage ++ [blankNode (Element "tbody")]))
               emptyTablePage /\
        kidsOf (s_dom s') 1 = kidsOf (s_dom emptyTablePage) 1 ++ [tbody] /\
        s_dom s' !! tbody
        = Some {| n_kind := Element "tbody"; n_attrs := []; n_kids := [];
                  n_parent := Some 1 |} /\
        forall j, j ≠ 1 -> j ≠ tbody -> s_dom s' !! j = s_dom emptyTablePage !! j
    end.
Proof.
  apply (normalize_table_without_rows probe 1 emptyTablePage "table");
    vm_compute; reflexivity.
Defined.

(** C9, as the specification states it, fails: the empty table comes out
    of the Structure Normalizer with a body section it did not have. *)
Lemma empty_table_gets_body_section :
  returned (preProcessComplexStructures probe DEFAULT_MARKDOWN_OPTIONS
              "<table></table>" emptyPage)
  = Some "<table><tbody></tbody></table>" /\
  match normalizeTableStructure probe 1 emptyTablePage with
  | Ok _ s' => forestOf (s_dom s') 0 = [HElem "table" [] [HElem "tbody" [] []]]
  | _ => False
  end.
Proof. split; vm_compute; reflexivity. Qed.

Definition plainTableHtml : string :=
  "<table><tr><td>A</td><td>B</td></tr><tr><td>1</td><td>2</td></tr></table>".

(** C4 at the table of the specification's second example.  The first row
    has no header cell: its copy, with the cells turned into header cells,
    goes into the new header section, and the row itself stays in the body
    section.  A first row that holds a header cell is moved. *)
Lemma header_row_also_in_body :
  returned (preProcessComplexStructures probe DEFAULT_MARKDOWN_OPTIONS
              plainTableHtml emptyPage)
  = Some ("<table><thead><tr><th>A</th><th>B</th></tr></thead>"
          +:+ "<tbody><tr><td>A</td><td>B</td></tr><tr><td>1</td><td>2</td></tr></tbody>"
          +:+ "</table>") /\
  returned (preProcessComplexStructures probe DEFAULT_MARKDOWN_OPTIONS
              "<table><tr><th>A</th><th>B</th></tr><tr><td>1</td><td>2</td></tr></table>"
              emptyPage)
  = Some ("<table><thead><tr><th>A</th><th>B</th></tr></thead>"
          +:+ "<tbody><tr><td>1</td><td>2</td></tr></tbody></table>").
Proof. split; vm_compute; reflexivity. Qed.

End TableFacts.

(* ================================================================== *)
(** * Embedded media without a URL *)

Module MediaFacts.
Import Js Re Dom Selector Eff Platform ComplexStructure MarkdownConversion MiniBrowser.
Import StoreFacts PipelineFacts.
Local Open Scope eff_scope.

Lemma querySelectorAll_inside d scope sel :
  kidsInside d = true ->
  Forall (fun j => j < length d) (querySelectorAll d scope sel).
Proof.
  intros Hk. unfold querySelectorAll.
  apply Forall_forall. intros j Hj.
  apply list_elem_of_filter in Hj as [_ Hj].
  pose proof (descendants_inside d Hk (length d) scope) as Hf.
  rewrite Forall_forall in Hf. apply Hf, Hj.
Qed.

Lemma firstSourceUrl_extends d d' media :
  kidsInside d = true -> parentsInside d = true -> steady d = true ->
  extends d d' -> media < length d ->
  firstSourceUrl d' media = firstSourceUrl d media.
Proof.
  intros Hk Hp Hs He Hi. unfold firstSourceUrl.
  rewrite (querySelectorAll_extends d d' media _ Hk Hp Hs He Hi).
  pose proof (querySelectorAll_inside d media (tag "source") Hk) as Hf.
  destruct (querySelectorAll d media (tag "source")) as [|source l]; [reflexivity|].
  inversion Hf as [|? ? Hsrc _]; subst.
  unfold getAttribute, attrsOf. rewrite (He source Hsrc). reflexivity.
Qed.

(** [wrapper.innerHTML = markup] for the element just created: the parsed
    nodes are added after it, and become its children. *)
Lemma setInnerHTML_fresh (H : Host) d wn t markup s :
  s_dom s = d ++ [wn] -> n_kids wn = [] -> n_kind wn = Element t ->
  exists ids ext,
    setInnerHTML H (length d) markup s
    = Ok tt (withDom (d ++ setKids ids wn :: ext) s) /\
    loadForest (parseHTML H t markup) (Some (length d)) (d ++ [wn])
    = (ids, d ++ wn :: ext).
Proof.
  intros Hs Hkids Hkind.
  destruct (loadForest_appends (parseHTML H t markup))
    with (p := Some (length d)) (d := d ++ [wn]) as (ids & ext & Hload).
  { apply Forall_forall. intros h _. apply load_appends. }
  exists ids, ext. rewrite <- app_assoc in Hload. simpl in Hload. split; [|exact Hload].
  unfold setInnerHTML, bind, modifyDom, getDom, putDom. simpl.
  assert (Hclear : clearKids (length d) (s_dom s) = d ++ [wn]).
  { rewrite Hs. apply clearKids_fresh, Hkids. }
  rewrite Hclear.
  assert (Htag : contextTag (d ++ [wn]) (length d) = t).
  { unfold contextTag, tagOf, kindOf. rewrite lookup_app_r by lia.
    rewrite Nat.sub_diag. simpl. rewrite Hkind. reflexivity. }
  rewrite Htag, Hload, update_app_r. reflexivity.
Qed.

(** [parent.replaceChild(wrapper, old)] for a wrapper created after the
    nodes of [d], still without parent: [old] is unlinked and the wrapper
    linked before what followed [old]. *)
Lemma replaceChild_fresh d wn ext old p no np t tp s :
  s_dom s = d ++ wn :: ext ->
  kidsInside d = true -> parentsInside d = true ->
  n_parent wn = None -> n_kind wn = Element t ->
  d !! old = Some no -> n_parent no = Some p ->
  d !! p = Some np -> n_kind np = Element tp ->
  replaceChild p (length d) old s
  = Ok tt (withDom (link p (head (after old (n_kids np))) (length d)
                      (unlink old (s_dom s))) s).
Proof.
  intros Hs Hk Hp Hwp Hwk Ho Hop Hnp Hnpk.
  destruct (parentsInside_lookup d old no p Hp Ho Hop) as [Hplt Hpne].
  assert (Holt : old < length d) by (eapply lookup_lt_Some; exact Ho).
  assert (Hlo : s_dom s !! old = Some no) by (rewrite Hs, lookup_app_l by lia; exact Ho).
  assert (Hlp : s_dom s !! p = Some np) by (rewrite Hs, lookup_app_l by lia; exact Hnp).
  assert (Hlw : s_dom s !! length d = Some wn).
  { rewrite Hs, lookup_app_r by lia. rewrite Nat.sub_diag. reflexivity. }
  unfold replaceChild, bind, getDom.
  assert (Hc : canHaveChildren (s_dom s) p = true).
  { unfold canHaveChildren, kindOf. rewrite Hlp, Hnpk. reflexivity. }
  rewrite Hc. cbn [negb].
  assert (Ha : isInclusiveAncestor (s_dom s) (length d) p = false).
  { rewrite Hs. apply fresh_not_ancestor; assumption. }
  rewrite Ha.
  assert (Hpar : parentNode (s_dom s) old = Some p).
  { unfold parentNode. rewrite Hlo. exact Hop. }
  rewrite bool_decide_eq_true_2 by exact Hpar. cbn [negb].
  assert (Hnext : nextSibling (s_dom s) old = head (after old (n_kids np))).
  { unfold nextSibling, siblingsAfter, kidsOf. rewrite Hpar, Hlp. reflexivity. }
  rewrite Hnext.
  assert (Hbefore :
    match head (after old (n_kids np)) with
    | Some r => if r =? length d then nextSibling (s_dom s) (length d)
                else head (after old (n_kids np))
    | None => None
    end = head (after old (n_kids np))).
  { destruct (head (after old (n_kids np))) as [r|] eqn:Hr; [|reflexivity].
    apply head_after_In in Hr.
    pose proof (kidsInside_lookup d p np r Hk Hnp Hr) as Hrlt.
    destruct (Nat.eqb_spec r (length d)); [lia|reflexivity]. }
  rewrite Hbefore.
  assert (Hpay : payload (s_dom s) (length d) = [length d]).
  { unfold payload, kindOf. rewrite Hlw, Hwk. reflexivity. }
  rewrite Hpay. unfold insertAll, putDom. cbn [fold_left].
  assert (Hun : unlink (length d) (unlink old (s_dom s)) = unlink old (s_dom s)).
  { unfold unlink at 1. unfold parentNode at 1. unfold unlink. rewrite Hpar.
    rewrite !lookup_update_ne by lia. rewrite Hlw, Hwp. reflexivity. }
  rewrite Hun. reflexivity.
Qed.

(** The wrapper [rewriteAudio] creates. *)
Definition audioWrapper (parent : option ref) (kids : list ref) : node :=
  {| n_kind := Element "div"; n_attrs := [("class", "audio-content")];
     n_kids := kids; n_parent := parent |}.

(** The store after [rewriteAudio] on an [audio] element for which no
    source URL is found. *)
Lemma rewriteAudio_store (H : Host) (s : state) (audio p : ref) (na np : node) (tp : string) :
  let d := s_dom s in
  kidsInside d = true -> parentsInside d = true -> steady d = true ->
  d !! audio = Some na -> n_parent na = Some p ->
  d !! p = Some np -> n_kind np = Element tp ->
  firstSourceUrl d audio = EmptyString ->
  exists ids ext,
    loadForest (parseHTML H "div" audioUnavailable) (Some (length d))
               (d ++ [audioWrapper None []])
    = (ids, d ++ audioWrapper None [] :: ext) /\
    rewriteAudio H audio s
    = Ok tt (withDom (link p (head (after audio (n_kids np))) (length d)
                        (unlink audio (d ++ audioWrapper None ids :: ext))) s).
Proof.
  intros d Hk Hp Hs Ha Hap Hnp Hnpk Hurl.
  assert (Halt : audio < length d) by (eapply lookup_lt_Some; exact Ha).
  destruct (setInnerHTML_fresh H d (audioWrapper None []) "div" audioUnavailable
              (withDom (d ++ [audioWrapper None []]) s))
    as (ids & ext & Hset & Hload); [reflexivity..|].
  exists ids, ext. split; [exact Hload|].
  unfold rewriteAudio.
  unfold bind at 1. unfold createElement, fresh, alloc. fold d. cbv iota beta.
  unfold bind at 1. unfold modifyDom.
  assert (Hattr : setAttribute (length d) "class" "audio-content"
                    (s_dom (withDom (d ++ [blankNode (Element "div")]) s))
                  = d ++ [audioWrapper None []]).
  { unfold setAttribute. cbn [s_dom withDom]. rewrite update_app_r. reflexivity. }
  rewrite Hattr, withDom_withDom.
  unfold bind at 1. unfold getDom. cbn [s_dom withDom].
  rewrite (firstSourceUrl_extends d (d ++ [audioWrapper None []]) audio Hk Hp Hs
             (extends_app d _) Halt), Hurl.
  unfold bind at 1. rewrite Hset, withDom_withDom.
  unfold withParent, bind, getDom. cbn [s_dom withDom].
  assert (Hpar : parentNode (d ++ setKids ids (audioWrapper None []) :: ext) audio = Some p).
  { unfold parentNode. rewrite lookup_app_l by lia. fold d in Ha. rewrite Ha. exact Hap. }
  rewrite Hpar.
  erewrite (replaceChild_fresh d (setKids ids (audioWrapper None [])) ext audio p na np
              "div" tp); try eassumption; try reflexivity.
Qed.

(** C8, as the code has it.  An [iframe] without [src] (or with an empty
    one) is left where it is: [rewriteIframe] changes nothing.  An [audio]
    element under an element [p], for which no source URL is found (no
    [source] descendant, or a first one without [src]), is replaced by the
    note: [rewriteAudio] puts a new [div class="audio-content"] in the
    place of [audio] among the children of [p], the markup
    [<p><em>Audio content (source not available)</em></p>], as the parser
    reads it, is the content of that [div], [audio] is detached, and no
    other node of the page changes. *)
Theorem media_without_url (H : Host) (s : state) (iframe audio p : ref) (tp : string) :
  let d := s_dom s in
  kidsInside d = true -> parentsInside d = true -> steady d = true ->
  orElse (getAttribute d iframe "src") EmptyString = EmptyString ->
  parentNode d audio = Some p -> tagOf d p = Some tp ->
  In audio (kidsOf d p) -> List.NoDup (kidsOf d p) ->
  firstSourceUrl d audio = EmptyString ->
  rewriteIframe H iframe s = Ok tt s /\
  exists d',
    rewriteAudio H audio s = Ok tt (withDom d' s) /\
    let wrapper := length d in
    kidsOf d' p = substitute audio wrapper (kidsOf d p) /\
    parentNode d' wrapper = Some p /\
    tagOf d' wrapper = Some "div" /\
    attrsOf d' wrapper = [("class", "audio-content")] /\
    forestOf d' wrapper = parseHTML H "div" audioUnavailable /\
    parentNode d' audio = None /\
    forall j, j < length d -> j ≠ p -> j ≠ audio -> d' !! j = d !! j.
Proof.
  intros d Hk Hp Hs Hsrc Hpar Htag Hin Hnd Hurl. split.
  { unfold rewriteIframe, bind, getDom. fold d. rewrite Hsrc. reflexivity. }
  unfold parentNode in Hpar. destruct (d !! audio) as [na|] eqn:Ha; [|discriminate].
  unfold tagOf, kindOf in Htag. unfold kidsOf in Hin, Hnd |- *.
  destruct (d !! p) as [np|] eqn:Hnp; [|discriminate].
  assert (Hnpk : n_kind np = Element tp).
  { destruct (n_kind np); try discriminate. congruence. }
  destruct (rewriteAudio_store H s audio p na np tp Hk Hp Hs Ha Hpar Hnp Hnpk Hurl)
    as (ids & ext & Hload & Hrun).
  fold d in Hload, Hrun.
  destruct (parentsInside_lookup d audio na p Hp Ha Hpar) as [Hplt Hpne].
  assert (Halt : audio < length d) by (eapply lookup_lt_Some; exact Ha).
  set (D := d ++ audioWrapper None ids :: ext) in *.
  assert (HDa : D !! audio = Some na) by (unfold D; rewrite lookup_app_l by lia; exact Ha).
  assert (HDp : D !! p = Some np) by (unfold D; rewrite lookup_app_l by lia; exact Hnp).
  assert (HDw : D !! length d = Some (audioWrapper None ids)).
  { unfold D. rewrite lookup_app_r by lia. rewrite Nat.sub_diag. reflexivity. }
  assert (HDpar : parentNode D audio = Some p) by (unfold parentNode; rewrite HDa; exact Hpar).
  pose proof (replaced_lookup D p audio (length d) (head (after audio (n_kids np)))) as Hlook.
  specialize (fun j => Hlook j HDpar ltac:(lia) ltac:(lia) ltac:(lia)).
  eexists. split; [exact Hrun|]. cbv zeta.
  assert (Hw := Hlook (length d)). rewrite decide_True in Hw by reflexivity.
  rewrite HDw in Hw. cbn [fmap option_fmap option_map] in Hw.
  assert (Hpp := Hlook p).
  rewrite decide_False, decide_False, decide_True in Hpp by (reflexivity || lia).
  rewrite HDp in Hpp. cbn [fmap option_fmap option_map] in Hpp.
  assert (Haa := Hlook audio).
  rewrite decide_False, decide_True in Haa by (reflexivity || lia).
  rewrite HDa in Haa. cbn [fmap option_fmap option_map] in Haa.
  split; [|split; [|split; [|split; [|split; [|split]]]]].
  - unfold kidsOf. rewrite Hpp. cbn [setKids n_kids].
    apply replace_in_place; assumption.
  - unfold parentNode. rewrite Hw. reflexivity.
  - unfold tagOf, kindOf. rewrite Hw. reflexivity.
  - unfold attrsOf. rewrite Hw. reflexivity.
  - unfold forestOf, kidsOf. rewrite Hw. cbn [setParent audioWrapper n_kids].
    apply (loadForest_read _ (Some (length d)) (d ++ [audioWrapper None []]) ids ext).
    + rewrite <- app_assoc. exact Hload.
    + intros j Hlo Hj. rewrite length_app in Hlo. simpl in Hlo.
      rewrite Hlook, !decide_False by lia. unfold D.
      rewrite <- app_assoc. rewrite !lookup_app_r by lia.
      destruct (j - length d) as [|k] eqn:Hjk; [lia|reflexivity].
  - unfold parentNode. rewrite Haa. reflexivity.
  - intros j Hj Hjp Hja. rewrite Hlook, !decide_False by lia.
    unfold D. apply lookup_app_l, Hj.
Qed.

(** The page [<iframe></iframe><audio></audio>], parsed into a container. *)
Definition mediaPage : state :=
  {| s_dom := [ {| n_kind := Element "div"; n_attrs := []; n_kids := [1; 2];
                   n_parent := None |};
                {| n_kind := Element "iframe"; n_attrs := []; n_kids := [];
                   n_parent := Some 0 |};
                {| n_kind := Element "audio"; n_attrs := []; n_kids := [];
                   n_parent := Some 0 |} ];
     s_errors := []; s_preserved := [] |}.

Lemma media_without_url_witness :
  (getAttribute (s_dom mediaPage) 1 "src" = None /\
   firstSourceUrl (s_dom mediaPage) 2 = EmptyString) /\
  rewriteIframe probe 1 mediaPage = Ok tt mediaPage /\
  exists d',
    rewriteAudio probe 2 mediaPage = Ok tt (withDom d' mediaPage) /\
    kidsOf d' 0 = [1; 3] /\
    parentNode d' 3 = Some 0 /\
    tagOf d' 3 = Some "div" /\
    attrsOf d' 3 = [("class", "audio-content")] /\
    forestOf d' 3 = parseHTML probe "div" audioUnavailable /\
    parentNode d' 2 = None /\
    forall j, j < 3 -> j ≠ 0 -> j ≠ 2 -> d' !! j = s_dom mediaPage !! j.
Proof.
  split; [split; vm_compute; reflexivity|].
  apply (media_without_url probe mediaPage 1 2 0 "div");
    try (vm_compute; reflexivity).
  - right. left. reflexivity.
  - repeat constructor; simpl; lia.
Defined.

(** C8, as the specification states it, fails: an [iframe] without [src] is
    handed on as it is, and a [video] without poster and source becomes an
    empty [div]; neither gets a note. *)
Lemma iframe_and_video_without_url_get_no_note :
  returned (handleUnusualStructures probe 0 "<iframe></iframe>" emptyPage)
  = Some "<iframe></iframe>" /\
  returned (handleUnusualStructures probe 0 "<video></video>" emptyPage)
  = Some ("<div class=" +:+ quot +:+ "video-content" +:+ quot +:+ "></div>").
Proof. split; vm_compute; reflexivity. Qed.

End MediaFacts.

(* ================================================================== *)
(** * The boundary of the pipeline and the error log *)

Module BoundaryFacts.
Import Js Re Dom Selector Eff Platform ComplexStructure MarkdownConversion MiniBrowser.
Import StoreFacts PipelineFacts MediaFacts.
Local Open Scope eff_scope.

(** The boundary of the pipeline: whatever the host, the options, the
    markup and the page, [convertToMarkdown] raises nothing.  It returns a
    string, or it does not end. *)
Theorem convertToMarkdown_raises_nothing (H : Host) (options : MarkdownOptions)
    (steps : nat) (html : string) (s : state) :
  (exists markdown s', convertToMarkdown H options steps html s = Ok markdown s') \/
  convertToMarkdown H options steps html s = OutOfFuel.
Proof.
  unfold convertToMarkdown, tryCatch.
  match goal with
  | |- context [match ?m s with _ => _ end] => destruct (m s) as [a s'|e s'|]
  end.
  - left. eauto.
  - left. unfold bind, logError, ret. eauto.
  - right. reflexivity.
Qed.

(** [logError] keeps the ten most recent entries: the new entry is the
    last one, and the oldest is dropped when the log was full.  It changes
    neither the page nor the preserved content, and raises nothing. *)
Theorem logError_keeps_recent (category message error : string) (s : state) :
  length (s_errors s) <= MAX_ERROR_LOGS ->
  exists s',
    logError category message error s = Ok tt s' /\
    length (s_errors s') <= MAX_ERROR_LOGS /\
    last (s_errors s') = Some {| e_category := category; e_message := message;
                                 e_error := error |} /\
    (length (s_errors s) < MAX_ERROR_LOGS ->
     s_errors s' = s_errors s ++ [{| e_category := category; e_message := message;
                                     e_error := error |}]) /\
    (length (s_errors s) = MAX_ERROR_LOGS ->
     s_errors s' = tail (s_errors s) ++ [{| e_category := category; e_message := message;
                                            e_error := error |}]) /\
    s_dom s' = s_dom s /\ s_preserved s' = s_preserved s.
Proof.
  intros Hlen. unfold logError. eexists. split; [reflexivity|].
  cbn [s_errors withErrors s_dom s_preserved].
  set (entry := {| e_category := category; e_message := message; e_error := error |}).
  rewrite length_app. cbn [length]. unfold MAX_ERROR_LOGS in *.
  destruct (Nat.ltb_spec 10 (length (s_errors s) + 1)) as [Hfull|Hroom].
  - assert (Hten : length (s_errors s) = 10) by lia.
    destruct (s_errors s) as [|x l]; [discriminate|]. cbn [app tail length] in *.
    split; [rewrite length_app; cbn [length]; lia|].
    split; [apply last_snoc|].
    split; [intros; lia|].
    split; [reflexivity|]. split; reflexivity.
  - split; [rewrite length_app; cbn [length]; lia|].
    split; [apply last_snoc|].
    split; [reflexivity|].
    split; [intros; lia|]. split; reflexivity.
Qed.

Definition fullLog : state :=
  {| s_dom := [];
     s_errors := List.repeat {| e_category := "ui"; e_message := "m"; e_error := "e" |} 10;
     s_preserved := [] |}.

Lemma logError_keeps_recent_witness :
  length (s_errors fullLog) <= MAX_ERROR_LOGS /\
  exists s',
    logError MARKDOWN_CONVERSION "Failed to convert HTML to Markdown" "boom" fullLog
    = Ok tt s' /\
    length (s_errors s') <= MAX_ERROR_LOGS /\
    last (s_errors s') = Some {| e_category := MARKDOWN_CONVERSION;
                                 e_message := "Failed to convert HTML to Markdown";
                                 e_error := "boom" |} /\
    (length (s_errors fullLog) < MAX_ERROR_LOGS ->
     s_errors s' = s_errors fullLog
                   ++ [{| e_category := MARKDOWN_CONVERSION;
                          e_message := "Failed to convert HTML to Markdown";
                          e_error := "boom" |}]) /\
    (length (s_errors fullLog) = MAX_ERROR_LOGS ->
     s_errors s' = tail (s_errors fullLog)
                   ++ [{| e_category := MARKDOWN_CONVERSION;
                          e_message := "Failed to convert HTML to Markdown";
                          e_error := "boom" |}]) /\
    s_dom s' = s_dom fullLog /\ s_preserved s' = s_preserved fullLog.
Proof.
  split; [vm_compute; lia|].
  apply (logError_keeps_recent MARKDOWN_CONVERSION "Failed to convert HTML to Markdown"
           "boom" fullLog).
  vm_compute. lia.
Defined.

(** The container of a rewrite holds what the parser reads in the markup. *)
Lemma container_reads (H : Host) (html : string) (s : state) :
  exists s1,
    container H html s = Ok (length (s_dom s)) s1 /\
    forestOf (s_dom s1) (length (s_dom s)) = parseHTML H "div" html /\
    s_errors s1 = s_errors s /\ s_preserved s1 = s_preserved s.
Proof.
  set (d := s_dom s).
  destruct (setInnerHTML_fresh H d (blankNode (Element "div")) "div" html
              (withDom (d ++ [blankNode (Element "div")]) s))
    as (ids & ext & Hset & Hload); [reflexivity..|].
  eexists. split.
  - unfold container. unfold bind at 1. unfold createElement, fresh, alloc. fold d.
    cbv iota beta. unfold bind at 1. rewrite Hset. reflexivity.
  - cbn [s_dom withDom s_errors s_preserved]. split; [|split; reflexivity].
    unfold forestOf, kidsOf. rewrite lookup_app_r by lia. rewrite Nat.sub_diag.
    cbn [lookup list_lookup setKids n_kids].
    apply (loadForest_read _ (Some (length d)) (d ++ [blankNode (Element "div")]) ids ext).
    + rewrite <- app_assoc. exact Hload.
    + intros j Hlo Hj. rewrite length_app in Hlo. simpl in Hlo.
      rewrite <- app_assoc. rewrite !lookup_app_r by lia.
      destruct (j - length d) as [|k] eqn:Hjk; [lia|reflexivity].
Qed.




End BoundaryFacts.

(* ================================================================== *)
(** * The rest of the error handler (utils/errorHandler.ts) *)

Module ErrorHandler.
Import Js Dom Eff.
Local Open Scope eff_scope.

(** [getRecentErrors()]: a copy of [recentErrors]. *)
Definition getRecentErrors : M (list errorLog) := fun s => Ok (s_errors s) s.

(** [clearErrors()]: [recentErrors.length = 0]. *)
Definition clearErrors : M unit := fun s => Ok tt (withErrors [] s).

(** [logError] for an entry given as a record. *)
Definition logEntry (e : errorLog) : M unit :=
  logError (e_category e) (e_message e) (e_error e).

End ErrorHandler.

Module ErrorHandlerFacts.
Import Js Dom Eff ErrorHandler.
Local Open Scope eff_scope.

(** The last [n] elements of a list. *)
Definition lastN {A} (n : nat) (l : list A) : list A := skipn (length l - n) l.

Lemma logEntry_step e s :
  length (s_errors s) <= MAX_ERROR_LOGS ->
  logEntry e s = Ok tt (withErrors (lastN MAX_ERROR_LOGS (s_errors s ++ [e])) s).
Proof.
  intros Hlen. unfold logEntry, logError, lastN, MAX_ERROR_LOGS in *.
  destruct e as [c m x]. cbn [e_category e_message e_error].
  rewrite length_app. cbn [length].
  destruct (Nat.ltb_spec 10 (length (s_errors s) + 1)) as [Hfull|Hroom].
  - replace (length (s_errors s) + 1 - 10) with 1 by lia.
    destruct (s_errors s ++ [{| e_category := c; e_message := m; e_error := x |}]);
      reflexivity.
  - replace (length (s_errors s) + 1 - 10) with 0 by lia. reflexivity.
Qed.

Lemma lastN_length {A} n (l : list A) : length (lastN n l) <= n.
Proof. unfold lastN. rewrite length_skipn. lia. Qed.

Lemma lastN_app {A} n (l r : list A) : lastN n (lastN n l ++ r) = lastN n (l ++ r).
Proof.
  unfold lastN. rewrite !length_app, length_skipn.
  destruct (Nat.le_gt_cases (length l) n) as [Hle|Hgt].
  - replace (length l - n) with 0 by lia. rewrite Nat.sub_0_r. reflexivity.
  - rewrite (skipn_app (length l + length r - n) l).
    replace (length l - (length l - n) + length r - n) with (length r) by lia.
    rewrite skipn_app, length_skipn.
    rewrite skipn_skipn.
    replace (length r + (length l - n)) with (length l + length r - n) by lia.
    replace (length r - (length l - (length l - n)))
      with (length l + length r - n - length l) by lia.
    reflexivity.
Qed.

(** Logging a run of errors, on a log within its bound, leaves the last
    ten of what the log held and what was logged, oldest first. *)
Lemma logEntries_from (entries : list errorLog) :
  forall s, length (s_errors s) <= MAX_ERROR_LOGS ->
  forEach entries logEntry s
  = Ok tt (withErrors (lastN MAX_ERROR_LOGS (s_errors s ++ entries)) s).
Proof.
  induction entries as [|e entries IH]; intros s Hlen.
  - cbn [forEach]. unfold ret, lastN. rewrite app_nil_r.
    replace (length (s_errors s) - MAX_ERROR_LOGS) with 0 by lia.
    destruct s; reflexivity.
  - cbn [forEach]. unfold bind. rewrite (logEntry_step e s Hlen).
    rewrite IH by (cbn [s_errors withErrors]; apply lastN_length).
    cbn [s_errors withErrors]. rewrite lastN_app, <- app_assoc. reflexivity.
Qed.

(** The error log is a queue of the ten most recent errors.  After
    [clearErrors()], whatever was logged before, and any run of
    [logError] calls, [getRecentErrors()] returns the last ten entries
    logged (all of them when there are fewer), oldest first; nothing else
    of the state changes. *)
Theorem recent_errors_are_the_last_ten (entries : list errorLog) (s : state) :
  (do _ <- clearErrors; do _ <- forEach entries logEntry; getRecentErrors) s
  = Ok (lastN MAX_ERROR_LOGS entries) (withErrors (lastN MAX_ERROR_LOGS entries) s).
Proof.
  unfold bind at 1. unfold clearErrors. unfold bind.
  rewrite logEntries_from by (cbn [s_errors withErrors length]; unfold MAX_ERROR_LOGS; lia).
  unfold getRecentErrors. reflexivity.
Qed.

End ErrorHandlerFacts.

(* ================================================================== *)
(** * More on the post-processor *)

Module PostProcessEdges.
Import Js Re PostProcess PostProcessFacts.

Lemma trimStart_edge s : edgeOk (firstChar (trimStart s)) = true.
Proof.
  induction s as [|c s IH]; [reflexivity|]. cbn [trimStart].
  destruct (isSpace c) eqn:Hc; [exact IH|]. cbn. rewrite Hc. reflexivity.
Qed.

Lemma trimStart_snoc a c :
  trimStart (a +:+ ch c)
  = match trimStart a with
    | EmptyString => if isSpace c then EmptyString else ch c
    | t => t +:+ ch c
    end.
Proof.
  induction a as [|x a IH]; cbn [String.append trimStart ch].
  - destruct (isSpace c); reflexivity.
  - destruct (isSpace x); [exact IH|reflexivity].
Qed.

(** [trimEnd], read from the front. *)
Lemma trimEnd_cons c r :
  trimEnd (String c r)
  = match trimEnd r with
    | EmptyString => if isSpace c then EmptyString else ch c
    | t => String c t
    end.
Proof.
  unfold trimEnd. rewrite srev_cons, trimStart_snoc.
  destruct (trimStart (srev r)) as [|x t] eqn:Ht.
  - destruct (isSpace c); reflexivity.
  - rewrite srev_app, (srev_cons x t). destruct (srev t); reflexivity.
Qed.

Lemma trimEnd_first c r :
  isSpace c = false -> firstChar (trimEnd (String c r)) = Some c.
Proof.
  intros Hc. rewrite trimEnd_cons, Hc. destruct (trimEnd r); reflexivity.
Qed.

Lemma trimEnd_last s : edgeOk (lastChar (trimEnd s)) = true.
Proof.
  unfold trimEnd, lastChar. rewrite srev_involutive.
  apply (trimStart_edge (srev s)).
Qed.

Lemma trim_first s : edgeOk (firstChar (trim s)) = true.
Proof.
  unfold trim. pose proof (trimStart_edge s) as He.
  destruct (trimStart s) as [|c r]; [reflexivity|].
  cbn in He. apply negb_true_iff in He.
  rewrite (trimEnd_first c r He). cbn. rewrite He. reflexivity.
Qed.

(** The value [postProcessMarkdown] returns neither starts nor ends with
    white space, whatever it is given: trimming it again changes
    nothing. *)
Theorem postProcessMarkdown_is_trimmed (markdown : string) :
  let result := postProcessMarkdown markdown in
  edgeOk (firstChar result) = true /\
  edgeOk (lastChar result) = true /\
  trim result = result.
Proof.
  cbv zeta.
  assert (Hedges : edgeOk (firstChar (postProcessMarkdown markdown)) = true /\
                   edgeOk (lastChar (postProcessMarkdown markdown)) = true).
  { unfold postProcessMarkdown. destruct markdown as [|c r]; [split; reflexivity|].
    unfold chain, passes. cbn [fold_left].
    split; [apply trim_first|apply trimEnd_last]. }
  destruct Hedges as [Hf Hl]. split; [exact Hf|]. split; [exact Hl|].
  apply trim_edges; assumption.
Qed.

End PostProcessEdges.

(* ================================================================== *)
(** * Restoring the preserved content *)

Module RestoreFacts.
Import Js Re Dom Selector Eff Platform ComplexStructure MarkdownConversion MiniBrowser.
Import PostProcessFacts StoreFacts PipelineFacts MediaFacts BoundaryFacts.
Local Open Scope eff_scope.

(** ** Placeholders that do not occur *)

Lemma replaceFirst_absent pattern repl s :
  includes pattern s = false -> replaceFirst pattern repl s = s.
Proof.
  unfold includes, replaceFirst. destruct (indexOf pattern s); [discriminate|reflexivity].
Qed.

(** The log and the placeholder map are the same in both states. *)
Definition sameRecords (s s' : state) : Prop :=
  s_errors s' = s_errors s /\ s_preserved s' = s_preserved s.

Lemma restoreEntry_absent (H : Host) result entry s :
  includes (fst entry) result = false ->
  exists s', restoreEntry H result entry s = Ok result s' /\ sameRecords s s'.
Proof.
  intros Habs. destruct entry as [name original]. cbn [fst] in Habs.
  unfold restoreEntry.
  destruct (startsWith "MATH_PLACEHOLDER_" name);
    [rewrite replaceFirst_absent by exact Habs; exists s; split; [reflexivity|split; reflexivity]|].
  destruct (startsWith "MATH_BLOCK_PLACEHOLDER_" name);
    [rewrite replaceFirst_absent by exact Habs; exists s; split; [reflexivity|split; reflexivity]|].
  destruct (startsWith "SPECIAL_BLOCK_PLACEHOLDER_" name).
  - destruct (container_reads H original s) as (s1 & Hc & _ & He & Hp).
    exists s1. split; [|split; assumption].
    unfold bind at 1. rewrite Hc. unfold bind, getDom.
    destruct (querySelector (s_dom s1) (length (s_dom s)) (tag "pre"));
      rewrite replaceFirst_absent by exact Habs; reflexivity.
  - destruct (startsWith "COMMENT_PLACEHOLDER_" name);
      [rewrite replaceFirst_absent by exact Habs|];
      exists s; split; [reflexivity|split; reflexivity|reflexivity|split; reflexivity].
Qed.

Lemma restoreEntries_absent (H : Host) markdown entries :
  Forall (fun entry => includes (fst entry) markdown = false) entries ->
  forall (acc : M string) s,
    (exists s1, acc s = Ok markdown s1 /\ sameRecords s s1) ->
    exists s',
      fold_left (fun (acc : M string) entry => do r <- acc; restoreEntry H r entry)
                entries acc s = Ok markdown s' /\ sameRecords s s'.
Proof.
  induction 1 as [|entry entries Habs _ IH]; intros acc s Hacc; [exact Hacc|].
  cbn [fold_left]. apply IH.
  destruct Hacc as (s1 & Hs1 & He1 & Hp1).
  destruct (restoreEntry_absent H markdown entry s1 Habs) as (s2 & Hs2 & He2 & Hp2).
  exists s2. split; [unfold bind; rewrite Hs1; exact Hs2|].
  split; congruence.
Qed.

(** When none of the recorded placeholders occurs in the Markdown,
    [restoreSpecialContent] returns the Markdown as it is.  The map is
    emptied, unless the Markdown is the empty string: then the function
    returns before it touches the map.  The error log is not written. *)
Theorem restoreSpecialContent_without_placeholders (H : Host) (markdown : string)
    (s : state) :
  Forall (fun entry => includes (fst entry) markdown = false) (s_preserved s) ->
  exists s',
    restoreSpecialContent H markdown s = Ok markdown s' /\
    s_errors s' = s_errors s /\
    s_preserved s' = match markdown with
                     | EmptyString => s_preserved s
                     | _ => []
                     end.
Proof.
  intros Habs. unfold restoreSpecialContent.
  destruct markdown as [|c r]; [exists s; split; [reflexivity|split; reflexivity]|].
  destruct (s_preserved s) as [|entry entries] eqn:Hmap.
  - exists s. split; [reflexivity|]. split; [reflexivity|exact Hmap].
  - destruct (restoreEntries_absent H (String c r) (entry :: entries) Habs
                (ret (String c r)) s) as (s1 & Hs1 & He1 & Hp1).
    { exists s. split; [reflexivity|split; reflexivity]. }
    exists (withPreserved [] s1). split; [|split; [exact He1|reflexivity]].
    unfold bind at 1. rewrite Hs1. reflexivity.
Qed.

Definition mathRecorded : state :=
  {| s_dom := []; s_errors := [];
     s_preserved := [("MATH_PLACEHOLDER_0", "$x+y=z$");
                     ("SPECIAL_BLOCK_PLACEHOLDER_1", "<pre class=math>a</pre>")] |}.

Lemma restoreSpecialContent_without_placeholders_witness :
  exists s',
    restoreSpecialContent probe "$x+y=z$" mathRecorded = Ok "$x+y=z$" s' /\
    s_errors s' = s_errors mathRecorded /\
    s_preserved s' = [].
Proof.
  apply (restoreSpecialContent_without_placeholders probe "$x+y=z$" mathRecorded).
  repeat constructor.
Defined.

(** ** Placeholders that occur *)

(** A replacement text without replacement pattern: no [$] before [$],
    [&], a backtick or a quote. *)
Fixpoint patternFree (repl : string) : bool :=
  match repl with
  | EmptyString => true
  | String a tl =>
      if Ascii.eqb a "$" then
        match tl with
        | String c _ => negb (oneOf "$&`'" c) && patternFree tl
        | EmptyString => true
        end
      else patternFree tl
  end.

Lemma expand_patternFree repl matched before rest :
  patternFree repl = true -> expand repl matched before rest = repl.
Proof.
  induction repl as [|a tl IH]; [reflexivity|]. cbn [patternFree expand].
  destruct (Ascii.eqb a "$") eqn:Ha.
  - apply Ascii.eqb_eq in Ha. subst a. destruct tl as [|c r]; [reflexivity|].
    intros Hp. apply andb_prop in Hp as [Hc Hp]. apply negb_true_iff in Hc.
    cbn [oneOf] in Hc. rewrite !orb_false_iff in Hc. destruct Hc as (H1 & H2 & H3 & H4 & _).
    rewrite (Ascii.eqb_sym c "$"), H1, (Ascii.eqb_sym c "&"), H2,
            (Ascii.eqb_sym c "`"), H3, (Ascii.eqb_sym c "'"), H4.
    rewrite IH by exact Hp. reflexivity.
  - intros Hp. rewrite IH by exact Hp. reflexivity.
Qed.

Lemma expand_app a b matched before rest :
  mentions (lit "$") a = false ->
  expand (a +:+ b) matched before rest = a +:+ expand b matched before rest.
Proof.
  induction a as [|x a IH]; [reflexivity|]. cbn [mentions String.append expand].
  unfold lit at 1. intros Hm. apply orb_false_iff in Hm as [Hx Hm].
  rewrite (Ascii.eqb_sym x "$"), Hx, IH by exact Hm. reflexivity.
Qed.

(** A placeholder of inline math is replaced, at its first occurrence, by
    the expression recorded for it. *)
Theorem restoreSpecialContent_inline_math (H : Host) (markdown name original : string)
    (i : nat) (s : state) :
  s_preserved s = [(name, original)] ->
  startsWith "MATH_PLACEHOLDER_" name = true ->
  indexOf name markdown = Some i ->
  markdown <> EmptyString ->
  patternFree original = true ->
  restoreSpecialContent H markdown s
  = Ok (take i markdown +:+ original +:+ drop (i + slen name) markdown)
       (withPreserved [] s).
Proof.
  intros Hmap Hname Hi Hne Hfree. unfold restoreSpecialContent. rewrite Hmap.
  destruct markdown as [|c r]; [contradiction|].
  cbn [fold_left]. unfold bind at 1. unfold bind at 1. unfold ret at 1.
  unfold restoreEntry. rewrite Hname. unfold ret at 1.
  unfold replaceFirst. rewrite Hi, expand_patternFree by exact Hfree.
  reflexivity.
Qed.

Definition inlineRecorded : state :=
  {| s_dom := []; s_errors := [];
     s_preserved := [("MATH_PLACEHOLDER_0", "$x+y=z$")] |}.

Lemma restoreSpecialContent_inline_math_witness :
  restoreSpecialContent probe "Sum: MATH_PLACEHOLDER_0." inlineRecorded
  = Ok "Sum: $x+y=z$." (withPreserved [] inlineRecorded).
Proof.
  apply (restoreSpecialContent_inline_math probe "Sum: MATH_PLACEHOLDER_0."
           "MATH_PLACEHOLDER_0" "$x+y=z$" 5 inlineRecorded);
    try (vm_compute; reflexivity).
  discriminate.
Defined.

Lemma block_is_not_inline name :
  startsWith "MATH_BLOCK_PLACEHOLDER_" name = true ->
  startsWith "MATH_PLACEHOLDER_" name = false.
Proof.
  destruct name as [|c1 [|c2 [|c3 [|c4 [|c5 [|c6 r]]]]]]; cbn [startsWith];
    try discriminate;
    repeat match goal with
           | |- context [Ascii.eqb ?a ?b] =>
               destruct (Ascii.eqb_spec a b); subst; try discriminate
           end;
    reflexivity.
Qed.

(** A placeholder of block math is replaced by the expression between
    two blank lines, but not by the expression as recorded: [replace]
    reads each [$$] of the replacement text as the pattern for one [$], so
    the block [$$body$$] comes back as [$body$]. *)
Theorem restoreSpecialContent_block_math (H : Host) (markdown name body : string)
    (i : nat) (s : state) :
  s_preserved s = [(name, "$$" +:+ body +:+ "$$")] ->
  startsWith "MATH_BLOCK_PLACEHOLDER_" name = true ->
  indexOf name markdown = Some i ->
  markdown <> EmptyString ->
  mentions (lit "$") body = false ->
  restoreSpecialContent H markdown s
  = Ok (take i markdown
        +:+ (nl +:+ nl +:+ "$" +:+ body +:+ "$" +:+ nl +:+ nl)
        +:+ drop (i + slen name) markdown)
       (withPreserved [] s).
Proof.
  intros Hmap Hname Hi Hne Hbody. unfold restoreSpecialContent. rewrite Hmap.
  destruct markdown as [|c r]; [contradiction|].
  cbn [fold_left]. unfold bind at 1. unfold bind at 1. unfold ret at 1.
  unfold restoreEntry. rewrite (block_is_not_inline name Hname), Hname. unfold ret at 1.
  unfold replaceFirst. rewrite Hi.
  assert (Hexp : forall m b t,
    expand (nl +:+ nl +:+ ("$$" +:+ body +:+ "$$") +:+ nl +:+ nl) m b t
    = nl +:+ nl +:+ "$" +:+ body +:+ "$" +:+ nl +:+ nl).
  { intros m b t. cbn [nl ch String.append expand].
    change (Ascii.eqb LF "$") with false. cbv iota.
    change (Ascii.eqb "$" "$") with true. cbv iota.
    rewrite append_assoc, expand_app by exact Hbody. reflexivity. }
  rewrite Hexp. reflexivity.
Qed.

Definition blockRecorded : state :=
  {| s_dom := []; s_errors := [];
     s_preserved := [("MATH_BLOCK_PLACEHOLDER_0", "$$E=mc^2$$")] |}.

Lemma restoreSpecialContent_block_math_witness :
  restoreSpecialContent probe "See MATH_BLOCK_PLACEHOLDER_0 above" blockRecorded
  = Ok ("See " +:+ (nl +:+ nl +:+ "$" +:+ "E=mc^2" +:+ "$" +:+ nl +:+ nl) +:+ " above")
       (withPreserved [] blockRecorded).
Proof.
  apply (restoreSpecialContent_block_math probe "See MATH_BLOCK_PLACEHOLDER_0 above"
           "MATH_BLOCK_PLACEHOLDER_0" "E=mc^2" 4 blockRecorded);
    try (vm_compute; reflexivity).
  discriminate.
Defined.

End RestoreFacts.

(* ================================================================== *)
(** * The attribute passes of the Structure Normalizer *)

Module AttributePassFacts.
Import Js Re Dom Selector Eff Platform ComplexStructure MarkdownConversion MiniBrowser.
Import StoreFacts PipelineFacts.
Local Open Scope eff_scope.

(** ** [cleanupTableAttributes] *)

(** An attribute [cleanupTableAttributes] keeps. *)
Definition isKept (kv : string * string) : bool :=
  existsb (String.eqb (fst kv)) keptAttributes.

(** The attributes left when those named in [names] were looked at. *)
Definition strip (names : list string) (attrs : list (string * string)) :
    list (string * string) :=
  filter (fun kv => isKept kv || negb (existsb (String.eqb (fst kv)) names) = true) attrs.

Lemma filter_filter_bool {A} (p q : A -> bool) (l : list A) :
  filter (fun x => p x = true) (filter (fun x => q x = true) l)
  = filter (fun x => q x && p x = true) l.
Proof.
  induction l as [|x l IH]; [reflexivity|].
  rewrite (filter_cons (fun x => q x = true)), (filter_cons (fun x => q x && p x = true)).
  destruct (decide (q x = true)) as [Hq|Hq].
  - rewrite filter_cons, IH.
    destruct (decide (p x = true)) as [Hp|Hp];
      destruct (decide (q x && p x = true)) as [Hqp|Hqp]; try reflexivity;
      exfalso; rewrite Hq in Hqp; simpl in Hqp; congruence.
  - rewrite IH. destruct (decide (q x && p x = true)) as [Hqp|Hqp]; [|reflexivity].
    apply andb_prop in Hqp as [Hq' _]. congruence.
Qed.

Lemma filter_ext_bool {A} (p q : A -> bool) (l : list A) :
  (forall x, In x l -> p x = q x) ->
  filter (fun x => p x = true) l = filter (fun x => q x = true) l.
Proof.
  intros Hpq. apply (filter_ext_Forall (fun x => In x l)).
  - apply Forall_forall. intros x Hx. apply list_elem_of_In, Hx.
  - intros x Hx. rewrite (Hpq x Hx). reflexivity.
Qed.

Lemma filter_all_bool {A} (p : A -> bool) (l : list A) :
  (forall x, In x l -> p x = true) -> filter (fun x => p x = true) l = l.
Proof.
  induction l as [|x l IH]; intros Hp; [reflexivity|].
  rewrite filter_cons. destruct (decide (p x = true)) as [_|Hx].
  - rewrite IH; [reflexivity|]. intros y Hy. apply Hp. right. exact Hy.
  - exfalso. apply Hx, Hp. left. reflexivity.
Qed.

Lemma strip_nil attrs : strip [] attrs = attrs.
Proof.
  unfold strip. apply filter_all_bool. intros kv _. cbn [existsb negb].
  apply orb_true_r.
Qed.

Lemma strip_kept name names attrs :
  existsb (String.eqb name) keptAttributes = true ->
  strip (name :: names) attrs = strip names attrs.
Proof.
  intros Hk. unfold strip. apply filter_ext_bool. intros kv _. cbn [existsb].
  destruct (String.eqb_spec (fst kv) name) as [He|Hne]; [|reflexivity].
  unfold isKept. rewrite He, Hk. reflexivity.
Qed.

Lemma strip_dropped name names attrs :
  strip names (dropAttr name attrs) = 
  filter (fun kv => negb (String.eqb name (fst kv))
                    && (isKept kv || negb (existsb (String.eqb (fst kv)) names)) = true)
         attrs.
Proof.
  unfold strip, dropAttr.
  rewrite <- (filter_filter_bool _ (fun kv => negb (String.eqb name (fst kv)))).
  f_equal. apply (filter_ext_Forall (fun _ => True)).
  - apply Forall_forall. intros; exact I.
  - intros kv _. destruct (String.eqb name (fst kv)); simpl; split; congruence.
Qed.

Lemma strip_removed name names attrs :
  existsb (String.eqb name) keptAttributes = false ->
  strip names (dropAttr name attrs) = strip (name :: names) attrs.
Proof.
  intros Hk. rewrite strip_dropped. unfold strip. apply filter_ext_bool.
  intros kv _. cbn [existsb]. rewrite (String.eqb_sym name (fst kv)).
  destruct (String.eqb_spec (fst kv) name) as [He|Hne]; cbn [negb andb orb].
  - unfold isKept. rewrite He, Hk. reflexivity.
  - reflexivity.
Qed.

Lemma strip_all attrs :
  strip (map fst attrs) attrs = filter (fun kv => isKept kv = true) attrs.
Proof.
  unfold strip. apply filter_ext_bool. intros kv Hin.
  assert (Hex : existsb (String.eqb (fst kv)) (map fst attrs) = true).
  { apply existsb_exists. exists (fst kv). split; [apply in_map, Hin|apply String.eqb_refl]. }
  rewrite Hex. cbn [negb]. apply orb_false_r.
Qed.

Lemma withDom_same s : withDom (s_dom s) s = s.
Proof. destruct s; reflexivity. Qed.

Lemma update_ext_at i f g (d : dom) :
  (forall n, d !! i = Some n -> f n = g n) -> update i f d = update i g d.
Proof.
  intros Hfg. unfold update. destruct (d !! i) as [n|] eqn:Hn; [|reflexivity].
  rewrite (Hfg n eq_refl). reflexivity.
Qed.

Lemma update_same i f (d : dom) :
  (forall n, d !! i = Some n -> f n = n) -> update i f d = d.
Proof.
  intros Hf. unfold update. destruct (d !! i) as [n|] eqn:Hn; [|reflexivity].
  rewrite (Hf n eq_refl). apply list_insert_id, Hn.
Qed.

Lemma update_update i f g (d : dom) :
  update i f (update i g d) = update i (fun n => f (g n)) d.
Proof.
  apply list_eq. intros j. rewrite !lookup_update.
  destruct (decide (i = j)) as [<-|Hne]; [|reflexivity].
  destruct (d !! i); reflexivity.
Qed.

Lemma setAttrs_same n : setAttrs (n_attrs n) n = n.
Proof. destruct n; reflexivity. Qed.

(** The loop over the names of one element's attributes. *)
Lemma removeNames_ok (element : ref) (names : list string) :
  forall s,
    forEach names (fun name =>
      if negb (existsb (String.eqb name) keptAttributes)
      then modifyDom (removeAttribute element name)
      else ret tt) s
    = Ok tt (withDom (update element (fun n => setAttrs (strip names (n_attrs n)) n)
                        (s_dom s)) s).
Proof.
  induction names as [|name names IH]; intros s.
  - cbn [forEach]. unfold ret. rewrite update_same, withDom_same; [reflexivity|].
    intros n _. rewrite strip_nil. apply setAttrs_same.
  - cbn [forEach]. unfold bind.
    destruct (existsb (String.eqb name) keptAttributes) eqn:Hk; cbn [negb].
    + unfold ret at 1. rewrite IH. f_equal. f_equal.
      apply update_ext_at. intros n _. rewrite (strip_kept name names _ Hk). reflexivity.
    + unfold modifyDom at 1. rewrite IH. cbn [s_dom withDom]. rewrite withDom_withDom.
      f_equal. f_equal. unfold removeAttribute. rewrite update_update.
      apply update_ext_at. intros n _. cbn [setAttrs n_attrs n_kind n_kids n_parent].
      rewrite (strip_removed name names _ Hk). reflexivity.
Qed.

(** What the pass leaves of an element. *)
Definition cleaned (n : node) : node :=
  setAttrs (filter (fun kv => isKept kv = true) (n_attrs n)) n.

Lemma cleaned_idempotent n : cleaned (cleaned n) = cleaned n.
Proof.
  unfold cleaned, setAttrs. cbn [n_attrs n_kind n_kids n_parent].
  rewrite filter_filter_bool.
  rewrite (filter_ext_bool (fun kv => isKept kv && isKept kv) isKept)
    by (intros kv _; apply andb_diag).
  reflexivity.
Qed.

Lemma cleanElement_ok (element : ref) s :
  (do d <- getDom;
   forEach (map fst (attrsOf d element)) (fun name =>
     if negb (existsb (String.eqb name) keptAttributes)
     then modifyDom (removeAttribute element name)
     else ret tt)) s
  = Ok tt (withDom (update element cleaned (s_dom s)) s).
Proof.
  unfold bind, getDom. rewrite removeNames_ok. f_equal. f_equal.
  apply update_ext_at. intros n Hn. unfold cleaned, attrsOf. rewrite Hn, strip_all.
  reflexivity.
Qed.

Lemma forEach_updates {A} (l : list A) (f : A -> M unit) (g : A -> dom -> dom) :
  (forall x s, f x s = Ok tt (withDom (g x (s_dom s)) s)) ->
  forall s, forEach l f s = Ok tt (withDom (fold_left (fun d x => g x d) l (s_dom s)) s).
Proof.
  intros Hf. induction l as [|x l IH]; intros s.
  - cbn [forEach fold_left]. unfold ret. rewrite withDom_same. reflexivity.
  - cbn [forEach fold_left]. unfold bind. rewrite Hf, IH.
    cbn [s_dom withDom]. rewrite withDom_withDom. reflexivity.
Qed.

Lemma fold_update_lookup (f : node -> node) (l : list ref) :
  (forall n, f (f n) = f n) ->
  forall (d : dom) j,
    fold_left (fun d e => update e f d) l d !! j
    = (fun n => if bool_decide (j ∈ l) then f n else n) <$> d !! j.
Proof.
  intros Hf. induction l as [|e l IH]; intros d j.
  - cbn [fold_left]. rewrite bool_decide_eq_false_2 by apply not_elem_of_nil.
    destruct (d !! j); reflexivity.
  - cbn [fold_left]. rewrite IH, lookup_update.
    destruct (decide (e = j)) as [<-|Hne].
    + rewrite (bool_decide_eq_true_2 (e ∈ e :: l)) by (apply elem_of_cons; left; reflexivity).
      destruct (d !! e) as [n|]; [|reflexivity]. cbn.
      destruct (bool_decide (e ∈ l)); [rewrite Hf|]; reflexivity.
    + destruct (d !! j) as [n|]; [|reflexivity]. cbn. f_equal.
      destruct (decide (j ∈ l)) as [Hin|Hout].
      * rewrite !bool_decide_eq_true_2; [reflexivity|apply elem_of_cons; right; exact Hin|exact Hin].
      * rewrite !bool_decide_eq_false_2; [reflexivity| |exact Hout].
        intros Hin. apply elem_of_cons in Hin as [->|Hin]; [apply Hne; reflexivity|contradiction].
Qed.

(** [cleanupTableAttributes] never fails and changes attributes only, and
    only those of the elements under the table: each of them is left
    with its [data-align], [rowspan] and [colspan] attributes, in their
    order, and every other node of the page, the table element itself
    among them, is as it was. *)
Theorem cleanupTableAttributes_strips (table : ref) (s : state) :
  exists d',
    cleanupTableAttributes table s = Ok tt (withDom d' s) /\
    forall j,
      d' !! j
      = (fun n => if bool_decide (j ∈ querySelectorAll (s_dom s) table [Desc Any])
                  then cleaned n else n) <$> s_dom s !! j.
Proof.
  eexists. split.
  - unfold cleanupTableAttributes. unfold bind at 1. unfold getDom at 1.
    apply (forEach_updates _ _ (fun e d => update e cleaned d)).
    intros e s0. apply cleanElement_ok.
  - intros j. apply fold_update_lookup, cleaned_idempotent.
Qed.

(** ** [processTableAlignments] *)

Lemma fold_updates_lookup (f : ref -> node -> node) (l : list ref) :
  (forall e n, f e (f e n) = f e n) ->
  forall (d : dom) j,
    fold_left (fun d e => update e (f e) d) l d !! j
    = (fun n => if bool_decide (j ∈ l) then f j n else n) <$> d !! j.
Proof.
  intros Hf. induction l as [|e l IH]; intros d j.
  - cbn [fold_left]. rewrite bool_decide_eq_false_2 by apply not_elem_of_nil.
    destruct (d !! j); reflexivity.
  - cbn [fold_left]. rewrite IH, lookup_update.
    destruct (decide (e = j)) as [<-|Hne].
    + rewrite (bool_decide_eq_true_2 (e ∈ e :: l)) by (apply elem_of_cons; left; reflexivity).
      destruct (d !! e) as [n|]; [|reflexivity]. cbn.
      destruct (bool_decide (e ∈ l)); [rewrite Hf|]; reflexivity.
    + destruct (d !! j) as [n|]; [|reflexivity]. cbn. f_equal.
      destruct (decide (j ∈ l)) as [Hin|Hout].
      * rewrite !bool_decide_eq_true_2;
          [reflexivity|apply elem_of_cons; right; exact Hin|exact Hin].
      * rewrite !bool_decide_eq_false_2; [reflexivity| |exact Hout].
        intros Hin. apply elem_of_cons in Hin as [->|Hin]; [apply Hne; reflexivity|contradiction].
Qed.

(** A computed [text-align] the pass acts on. *)
Definition isAlignment (style : string) : bool :=
  String.eqb style "center" || String.eqb style "right" || String.eqb style "left".

(** The attributes of a cell after the pass, for the computed
    [text-align] [style]. *)
Definition alignedAttrs (style : string) (attrs : list (string * string)) :
    list (string * string) :=
  if isAlignment style then putAttr "data-align" style attrs
  else
    match lookupAttr "align" attrs, lookupAttr "data-align" attrs with
    | Some EmptyString, _ | None, _ | Some _, Some _ => attrs
    | Some alignAttr, None => putAttr "data-align" alignAttr attrs
    end.

Definition aligned (style : string) (n : node) : node :=
  setAttrs (alignedAttrs style (n_attrs n)) n.

Lemma lookupAttr_putAttr a v l : lookupAttr a (putAttr a v l) = Some v.
Proof.
  induction l as [|[k w] l IH]; cbn [putAttr lookupAttr].
  - rewrite String.eqb_refl. reflexivity.
  - destruct (String.eqb a k) eqn:Hk; cbn [lookupAttr]; rewrite Hk; [reflexivity|exact IH].
Qed.

Lemma lookupAttr_putAttr_ne a b v l :
  String.eqb a b = false -> lookupAttr a (putAttr b v l) = lookupAttr a l.
Proof.
  intros Hab. induction l as [|[k w] l IH]; cbn [putAttr lookupAttr].
  - rewrite Hab. reflexivity.
  - destruct (String.eqb b k) eqn:Hk; cbn [lookupAttr].
    + apply String.eqb_eq in Hk. subst k. rewrite Hab. reflexivity.
    + rewrite IH. reflexivity.
Qed.

Lemma putAttr_putAttr a v l : putAttr a v (putAttr a v l) = putAttr a v l.
Proof.
  induction l as [|[k w] l IH]; cbn [putAttr].
  - rewrite String.eqb_refl. reflexivity.
  - destruct (String.eqb a k) eqn:Hk; cbn [putAttr]; rewrite Hk; [reflexivity|].
    rewrite IH. reflexivity.
Qed.

Lemma alignedAttrs_idempotent style attrs :
  alignedAttrs style (alignedAttrs style attrs) = alignedAttrs style attrs.
Proof.
  unfold alignedAttrs. destruct (isAlignment style); [apply putAttr_putAttr|].
  destruct (lookupAttr "align" attrs) as [[|c a]|] eqn:Ha;
    [rewrite Ha; reflexivity| |rewrite Ha; reflexivity].
  destruct (lookupAttr "data-align" attrs) eqn:Hd; [rewrite Ha, Hd; reflexivity|].
  rewrite lookupAttr_putAttr_ne by reflexivity. rewrite Ha, lookupAttr_putAttr. reflexivity.
Qed.

Lemma aligned_idempotent style n : aligned style (aligned style n) = aligned style n.
Proof.
  unfold aligned, setAttrs. cbn [n_attrs n_kind n_kids n_parent].
  rewrite alignedAttrs_idempotent. reflexivity.
Qed.

Lemma attrsOf_update i f (d : dom) n :
  d !! i = Some n -> attrsOf (update i f d) i = n_attrs (f n).
Proof. intros Hn. unfold attrsOf. rewrite (lookup_update_eq i f d n Hn). reflexivity. Qed.

(** The store after the pass looked at one cell whose computed
    [text-align] is [style]. *)
Definition alignStep (style : string) (cell : ref) (d : dom) : dom :=
  let d1 := if isAlignment style then setAttribute cell "data-align" style d else d in
  match getAttribute d1 cell "align" with
  | Some alignAttr =>
      if negb (hasAttribute d1 cell "data-align") && negb (String.eqb alignAttr "")
      then setAttribute cell "data-align" alignAttr d1
      else d1
  | None => d1
  end.

Lemma alignStep_update style cell (d : dom) :
  alignStep style cell d = update cell (aligned style) d.
Proof.
  unfold alignStep, aligned, alignedAttrs, setAttribute, getAttribute, hasAttribute,
    getAttribute.
  destruct (d !! cell) as [n|] eqn:Hn.
  - destruct (isAlignment style) eqn:Hs.
    + rewrite (attrsOf_update cell _ d n Hn). cbn [setAttrs n_attrs].
      rewrite lookupAttr_putAttr. cbn [negb andb].
      destruct (lookupAttr "align" (putAttr "data-align" style (n_attrs n)));
        apply update_ext_at; intros n0 Hn0; reflexivity.
    + unfold attrsOf. rewrite Hn.
      destruct (lookupAttr "align" (n_attrs n)) as [[|c a]|] eqn:Ha.
      * rewrite andb_false_r. symmetry. apply update_same.
        intros n0 Hn0. rewrite Hn in Hn0. injection Hn0 as <-. rewrite Ha.
        apply setAttrs_same.
      * destruct (lookupAttr "data-align" (n_attrs n)) eqn:Hd; cbn [negb andb].
        -- symmetry. apply update_same.
           intros n0 Hn0. rewrite Hn in Hn0. injection Hn0 as <-. rewrite Ha, Hd.
           apply setAttrs_same.
        -- apply update_ext_at. intros n0 Hn0. rewrite Hn in Hn0. injection Hn0 as <-.
           rewrite Ha, Hd. reflexivity.
      * symmetry. apply update_same.
        intros n0 Hn0. rewrite Hn in Hn0. injection Hn0 as <-. rewrite Ha.
        apply setAttrs_same.
  - assert (Hu : forall f, update cell f d = d)
      by (intros f; unfold update; rewrite Hn; reflexivity).
    rewrite !Hu. destruct (isAlignment style); unfold attrsOf; rewrite Hn; reflexivity.
Qed.

Section Alignments.
Context (H : Host).

(** The callback of [cells.forEach]. *)
Lemma alignCell_ok (cell : ref) (s : state) :
  (do d <- getDom;
   let textAlign := computedTextAlign H d cell in
   do _ <-
     (if String.eqb textAlign "center" then modifyDom (setAttribute cell "data-align" "center")
      else if String.eqb textAlign "right" then modifyDom (setAttribute cell "data-align" "right")
      else if String.eqb textAlign "left" then modifyDom (setAttribute cell "data-align" "left")
      else ret tt);
   do d <- getDom;
   match getAttribute d cell "align" with
   | Some alignAttr =>
       if negb (hasAttribute d cell "data-align") && negb (String.eqb alignAttr "")
       then modifyDom (setAttribute cell "data-align" alignAttr)
       else ret tt
   | None => ret tt
   end) s
  = Ok tt (withDom (alignStep (computedTextAlign H (s_dom s) cell) cell (s_dom s)) s).
Proof using Type.
  unfold bind at 1. unfold getDom at 1. cbv zeta.
  set (style := computedTextAlign H (s_dom s) cell).
  assert (Hfirst :
    (if String.eqb style "center" then modifyDom (setAttribute cell "data-align" "center")
     else if String.eqb style "right" then modifyDom (setAttribute cell "data-align" "right")
     else if String.eqb style "left" then modifyDom (setAttribute cell "data-align" "left")
     else ret tt) s
    = Ok tt (withDom (if isAlignment style
                      then setAttribute cell "data-align" style (s_dom s)
                      else s_dom s) s)).
  { unfold isAlignment.
    destruct (String.eqb_spec style "center") as [->|_]; [reflexivity|].
    destruct (String.eqb_spec style "right") as [->|_]; [reflexivity|].
    destruct (String.eqb_spec style "left") as [->|_]; [reflexivity|].
    cbn [orb]. unfold ret. rewrite withDom_same. reflexivity. }
  unfold bind at 1. rewrite Hfirst. unfold bind, getDom. cbn [s_dom withDom].
  unfold alignStep. cbv zeta.
  destruct (getAttribute _ cell "align") as [alignAttr|]; [|reflexivity].
  destruct (negb _ && negb _); [|reflexivity].
  unfold modifyDom. cbn [s_dom withDom]. rewrite withDom_withDom. reflexivity.
Qed.

(** [processTableAlignments] never fails and touches nothing but the
    [data-align] attribute of the [th] and [td] elements under the table.
    When the computed [text-align] of a cell, which the pass does not
    change, is [center], [right] or [left], the attribute is set to it,
    whatever it was; otherwise a cell that has no [data-align] and has a
    non-empty [align] attribute gets the value of [align], and every
    other cell is left as it is. *)
Theorem processTableAlignments_sets_data_align (style : ref -> string)
    (table : ref) (s : state) :
  (forall d cell, computedTextAlign H d cell = style cell) ->
  exists d',
    processTableAlignments H table s = Ok tt (withDom d' s) /\
    forall j,
      d' !! j
      = (fun n => if bool_decide (j ∈ querySelectorAll (s_dom s) table (tags ["th"; "td"]))
                  then aligned (style j) n else n) <$> s_dom s !! j.
Proof using Type.
  intros Hstyle. eexists. split.
  - unfold processTableAlignments. unfold bind at 1. unfold getDom at 1.
    apply (forEach_updates _ _ (fun cell d => update cell (aligned (style cell)) d)).
    intros cell s0. rewrite alignCell_ok, Hstyle, alignStep_update. reflexivity.
  - intros j. apply fold_updates_lookup. intros e n. apply aligned_idempotent.
Qed.

End Alignments.

(** A host for which the cell [3] is centred. *)
Definition centred : Host :=
  {| parseHTML := parseHTML probe; serializeHTML := serializeHTML probe;
     computedTextAlign := fun _ cell => if cell =? 3 then "center" else EmptyString;
     turndown := turndown probe |}.

(** [<table><tr><td align="right">a</td><td data-align="left">b</td></tr></table>] *)
Definition alignedTablePage : state :=
  {| s_dom := [ {| n_kind := Element "table"; n_attrs := []; n_kids := [1];
                   n_parent := None |};
                {| n_kind := Element "tr"; n_attrs := []; n_kids := [2; 3];
                   n_parent := Some 0 |};
                {| n_kind := Element "td"; n_attrs := [("align", "right")];
                   n_kids := []; n_parent := Some 1 |};
                {| n_kind := Element "td"; n_attrs := [("data-align", "left")];
                   n_kids := []; n_parent := Some 1 |} ];
     s_errors := []; s_preserved := [] |}.

Lemma processTableAlignments_sets_data_align_witness :
  exists d',
    processTableAlignments centred 0 alignedTablePage = Ok tt (withDom d' alignedTablePage) /\
    forall j,
      d' !! j
      = (fun n => if bool_decide
                       (j ∈ querySelectorAll (s_dom alignedTablePage) 0 (tags ["th"; "td"]))
                  then aligned (if j =? 3 then "center" else EmptyString) n else n)
        <$> s_dom alignedTablePage !! j.
Proof.
  apply (processTableAlignments_sets_data_align centred
           (fun cell => if cell =? 3 then "center" else EmptyString) 0 alignedTablePage).
  intros d cell. reflexivity.
Defined.

End AttributePassFacts.

(* ================================================================== *)
(** * The pipeline on prose: markup without lists, tables, quotes and
      embedded media *)

Module ProseFacts.
Import Js Re Dom Selector Eff Platform ComplexStructure MarkdownConversion MiniBrowser.
Import PostProcessFacts StoreFacts PipelineFacts MediaFacts BoundaryFacts RestoreFacts.
Local Open Scope eff_scope.

(** ** Selectors read on markup *)

(** [matchesSimple], for an element of tag [t] with attributes [a]. *)
Definition simpleHolds (s : simple) (t : string) (a : list (string * string)) : bool :=
  match s with
  | Tag t' => String.eqb t' t
  | Any => true
  | TagClass t' c =>
      String.eqb t' t &&
      existsb (String.eqb c)
              (match lookupAttr "class" a with
               | Some v => tokens v EmptyString
               | None => []
               end)
  | TagAttr t' x =>
      String.eqb t' t && match lookupAttr x a with Some _ => true | None => false end
  end.

Definition simpleOf (c : complex) : simple :=
  match c with Desc s | ChildOf _ s | ScopeChild s => s end.

(** An element of tag [t] with attributes [a] may match one of the
    selectors [sels], wherever it is placed. *)
Definition mayMatch (sels : list selector) (t : string) (a : list (string * string)) : bool :=
  existsb (fun sel => existsb (fun c => simpleHolds (simpleOf c) t a) sel) sels.

(** No element of the markup satisfies [p]. *)
Fixpoint treeFree (p : string -> list (string * string) -> bool) (h : html) : bool :=
  match h with
  | HElem t a ks => negb (p t a) && forallb (treeFree p) ks
  | _ => true
  end.

Definition forestFree (p : string -> list (string * string) -> bool) (f : list html) : bool :=
  forallb (treeFree p) f.

(** The same of a node of the store. *)
Definition nodeFree (p : string -> list (string * string) -> bool) (d : dom) (e : ref) : bool :=
  match d !! e with
  | Some n => match n_kind n with
              | Element t => negb (p t (n_attrs n))
              | _ => true
              end
  | None => true
  end.

Lemma matchesSimple_holds (d : dom) s e :
  matchesSimple d s e = true ->
  exists n t, d !! e = Some n /\ n_kind n = Element t /\ simpleHolds s t (n_attrs n) = true.
Proof.
  unfold matchesSimple, hasTag, isElement, tagOf, kindOf, hasClass, classList,
    hasAttribute, getAttribute, attrsOf.
  destruct (d !! e) as [n|]; [|destruct s; discriminate].
  destruct (n_kind n) as [t| | |] eqn:Hk; try (destruct s; discriminate).
  intros Hm. exists n, t. split; [reflexivity|]. split; [assumption|].
  destruct s; exact Hm.
Qed.

Lemma matches_mayMatch sels (d : dom) scope sel e :
  In sel sels -> nodeFree (mayMatch sels) d e = true -> matches d scope sel e = false.
Proof.
  intros Hin Hfree. destruct (matches d scope sel e) eqn:Hm; [|reflexivity].
  unfold matches in Hm. apply existsb_exists in Hm as (c & Hc & Hm).
  assert (Hs : matchesSimple d (simpleOf c) e = true).
  { destruct c; cbn [matchesComplex simpleOf] in *; try exact Hm;
      apply andb_prop in Hm as [Hm _]; exact Hm. }
  destruct (matchesSimple_holds d _ e Hs) as (n & t & Hn & Hk & Hh).
  unfold nodeFree in Hfree. rewrite Hn, Hk in Hfree. apply negb_true_iff in Hfree.
  rewrite <- Hfree. symmetry. unfold mayMatch. apply existsb_exists. exists sel.
  split; [exact Hin|]. apply existsb_exists. exists c. split; assumption.
Qed.

Lemma query_free sels (d : dom) c sel :
  In sel sels -> forallb (nodeFree (mayMatch sels) d) (subtree d c) = true ->
  querySelectorAll d c sel = [].
Proof.
  unfold querySelectorAll. intros Hin Hfree.
  induction (subtree d c) as [|e l IH]; [reflexivity|].
  cbn [forallb] in Hfree. apply andb_prop in Hfree as [He Hl].
  rewrite filter_cons, (matches_mayMatch sels d c sel e Hin He).
  destruct (decide (false = true)); [discriminate|]. apply IH, Hl.
Qed.

(** Markup free of [p] is loaded as nodes free of [p]. *)
Lemma loadForest_free_step p ks :
  Forall (fun h => forall par (d : dom) i D,
            load h par d = (i, D) -> treeFree p h = true ->
            forall d' fuel, agrees (length d) D d' ->
              forallb (nodeFree p d') (i :: descendants fuel d' i) = true) ks ->
  forall par (d : dom) ids D,
    loadForest ks par d = (ids, D) -> forallb (treeFree p) ks = true ->
    forall d' fuel, agrees (length d) D d' ->
      forallb (nodeFree p d') (flat_map (fun k => k :: descendants fuel d' k) ids) = true.
Proof.
  induction 1 as [|h ks Hh Hks IH]; intros par d ids D Hload Hfree d' fuel Hagree.
  - cbn [loadForest] in Hload. injection Hload as <- <-. reflexivity.
  - cbn [loadForest] in Hload.
    destruct (load_appends h par d) as (n & ext & Hl & _ & _). rewrite Hl in Hload.
    destruct (loadForest_appends ks) with (p := par) (d := d ++ n :: ext)
      as (js & ext' & Hls).
    { apply Forall_forall. intros x _. apply load_appends. }
    rewrite Hls in Hload. injection Hload as <- <-.
    cbn [forallb] in Hfree. apply andb_prop in Hfree as [Hfh Hfks].
    cbn [flat_map]. rewrite forallb_app. apply andb_true_intro. split.
    + apply (Hh par d (length d) (d ++ n :: ext) Hl Hfh).
      eapply agrees_app. exact Hagree.
    + apply (IH par (d ++ n :: ext) js _ Hls Hfks).
      eapply agrees_from; [exact Hagree|]. rewrite length_app. lia.
Qed.

Lemma load_free p h :
  forall par (d : dom) i D,
    load h par d = (i, D) -> treeFree p h = true ->
    forall d' fuel, agrees (length d) D d' ->
      forallb (nodeFree p d') (i :: descendants fuel d' i) = true.
Proof.
  induction h as [t a ks IH|x|x] using html_ind2; intros par d i D Hload Hfree d' fuel Hagree.
  - rewrite load_children in Hload. unfold alloc in Hload.
    set (n0 := {| n_kind := Element t; n_attrs := a; n_kids := []; n_parent := par |}) in *.
    destruct (loadForest_appends ks) with (p := Some (length d)) (d := d ++ [n0])
      as (ids & ext & Hls).
    { apply Forall_forall. intros x _. apply load_appends. }
    rewrite Hls in Hload. rewrite <- app_assoc in Hload. cbn [app] in Hload.
    rewrite update_app_r in Hload. injection Hload as <- <-.
    cbn [treeFree] in Hfree. apply andb_prop in Hfree as [Hp Hks].
    assert (Hi : d' !! length d = Some (setKids ids n0)).
    { rewrite (Hagree (length d)) by (rewrite ?length_app; simpl; lia).
      rewrite lookup_app_r by lia. rewrite Nat.sub_diag. reflexivity. }
    cbn [forallb]. apply andb_true_intro. split.
    + unfold nodeFree. rewrite Hi. exact Hp.
    + destruct fuel as [|fuel]; [reflexivity|]. cbn [descendants]. unfold kidsOf.
      rewrite Hi. cbn [setKids n_kids].
      apply (loadForest_free_step p ks IH (Some (length d)) (d ++ [n0]) ids _ Hls Hks).
      intros j Hlo Hj. rewrite length_app in Hlo. simpl in Hlo.
      rewrite Hagree by (rewrite ?length_app in *; simpl in *; lia).
      rewrite <- app_assoc. rewrite !lookup_app_r by lia.
      destruct (j - length d) as [|k] eqn:Hjk; [lia|reflexivity].
  - cbn [load] in Hload. unfold alloc in Hload. injection Hload as <- <-.
    assert (Hi : d' !! length d
                 = Some {| n_kind := Text x; n_attrs := []; n_kids := []; n_parent := par |}).
    { rewrite (Hagree (length d)) by (rewrite ?length_app; simpl; lia).
      rewrite lookup_app_r by lia. rewrite Nat.sub_diag. reflexivity. }
    cbn [forallb]. unfold nodeFree at 1. rewrite Hi. cbn [n_kind andb].
    destruct fuel as [|fuel]; [reflexivity|]. cbn [descendants]. unfold kidsOf.
    rewrite Hi. reflexivity.
  - cbn [load] in Hload. unfold alloc in Hload. injection Hload as <- <-.
    assert (Hi : d' !! length d
                 = Some {| n_kind := Comment x; n_attrs := []; n_kids := []; n_parent := par |}).
    { rewrite (Hagree (length d)) by (rewrite ?length_app; simpl; lia).
      rewrite lookup_app_r by lia. rewrite Nat.sub_diag. reflexivity. }
    cbn [forallb]. unfold nodeFree at 1. rewrite Hi. cbn [n_kind andb].
    destruct fuel as [|fuel]; [reflexivity|]. cbn [descendants]. unfold kidsOf.
    rewrite Hi. reflexivity.
Qed.

Lemma loadForest_free p ks par (d : dom) ids D :
  loadForest ks par d = (ids, D) -> forallb (treeFree p) ks = true ->
  forall d' fuel, agrees (length d) D d' ->
    forallb (nodeFree p d') (flat_map (fun k => k :: descendants fuel d' k) ids) = true.
Proof.
  apply loadForest_free_step. apply Forall_forall. intros h _. apply load_free.
Qed.

(** The container of markup free of [p] holds no element that satisfies
    [p]. *)
Lemma container_free (H : Host) p (html : string) (s s1 : state) (c : ref) :
  container H html s = Ok c s1 ->
  forestFree p (parseHTML H "div" html) = true ->
  forallb (nodeFree p (s_dom s1)) (subtree (s_dom s1) c) = true.
Proof.
  intros Hc Hfree. set (d := s_dom s).
  destruct (setInnerHTML_fresh H d (blankNode (Element "div")) "div" html
              (withDom (d ++ [blankNode (Element "div")]) s))
    as (ids & ext & Hset & Hload); [reflexivity..|].
  unfold container in Hc. unfold bind at 1 in Hc.
  unfold createElement, fresh, alloc in Hc. fold d in Hc. cbv iota beta in Hc.
  unfold bind at 1 in Hc. rewrite Hset in Hc. unfold ret in Hc.
  injection Hc as <- <-. cbn [s_dom withDom].
  unfold subtree. rewrite length_app. cbn [length].
  replace (length d + S (length ext)) with (S (length d + length ext)) by lia.
  cbn [descendants]. unfold kidsOf. rewrite lookup_app_r by lia. rewrite Nat.sub_diag.
  cbn [lookup list_lookup setKids n_kids].
  apply (loadForest_free p _ (Some (length d)) (d ++ [blankNode (Element "div")]) ids
           (d ++ blankNode (Element "div") :: ext) Hload Hfree).
  intros j Hlo Hj. rewrite length_app in Hlo. simpl in Hlo.
  rewrite !lookup_app_r by lia.
  destruct (j - length d) as [|k] eqn:Hjk; [lia|reflexivity].
Qed.

(** ** The three stages that parse the markup *)

(** The selectors of [handleUnusualStructures]. *)
Definition unusualSelectors : list selector :=
  [tag "dl"; tag "details"; tag "figure"; orphanItems; nestedListSelector;
   tag "blockquote"; tag "iframe"; tag "video"; tag "audio"].

(** The selectors of [preProcessComplexStructures]. *)
Definition structuredSelectors : list selector :=
  [tag "table"; tags ["ul"; "ol"]; tag "dl"; tag "blockquote"].

(** [container.innerHTML] of the container parsed from [html]. *)
Definition reparsed (H : Host) (html : string) : string :=
  serializeHTML H (parseHTML H "div" html).

Lemma rewriteUnusualStructures_prose (H : Host) (steps : nat) (c : ref) (s : state) :
  forallb (nodeFree (mayMatch unusualSelectors) (s_dom s)) (subtree (s_dom s) c) = true ->
  rewriteUnusualStructures H steps c s = Ok tt s.
Proof.
  intros Hfree.
  assert (Hq : forall sel, In sel unusualSelectors -> querySelectorAll (s_dom s) c sel = [])
    by (intros sel Hin; apply (query_free unusualSelectors); assumption).
  assert (H1 : rewriteDefinitionLists steps c s = Ok tt s).
  { unfold rewriteDefinitionLists, bind, getDom. rewrite Hq by (cbn; tauto). reflexivity. }
  assert (H2 : rewriteAllDetails steps c s = Ok tt s).
  { unfold rewriteAllDetails, bind, getDom. rewrite Hq by (cbn; tauto). reflexivity. }
  assert (H3 : rewriteFigures c s = Ok tt s).
  { unfold rewriteFigures, bind, getDom. rewrite Hq by (cbn; tauto). reflexivity. }
  assert (H4 : rewriteLists steps c s = Ok tt s).
  { unfold rewriteLists. unfold bind at 1. unfold getDom at 1.
    rewrite Hq by (cbn; tauto). unfold bind at 1. cbn [forEach]. unfold ret at 1.
    unfold bind, getDom. rewrite Hq by (cbn; tauto). reflexivity. }
  assert (H5 : rewriteBlockquotes c s = Ok tt s).
  { unfold rewriteBlockquotes, bind, getDom. rewrite Hq by (cbn; tauto). reflexivity. }
  assert (H6 : rewriteMedia H c s = Ok tt s).
  { unfold rewriteMedia. unfold bind at 1. unfold getDom at 1.
    rewrite Hq by (cbn; tauto). unfold bind at 1. cbn [forEach]. unfold ret at 1.
    unfold bind at 1. unfold getDom at 1.
    rewrite Hq by (cbn; tauto). unfold bind at 1. cbn [forEach]. unfold ret at 1.
    unfold bind, getDom. rewrite Hq by (cbn; tauto). reflexivity. }
  unfold rewriteUnusualStructures, bind. rewrite H1, H2, H3, H4, H5. exact H6.
Qed.

Lemma normalizeStructures_prose (H : Host) (options : MarkdownOptions) (c : ref)
    (s : state) :
  forallb (nodeFree (mayMatch structuredSelectors) (s_dom s)) (subtree (s_dom s) c) = true ->
  normalizeStructures H options c s = Ok tt s.
Proof.
  intros Hfree.
  assert (Hq : forall sel, In sel structuredSelectors -> querySelectorAll (s_dom s) c sel = [])
    by (intros sel Hin; apply (query_free structuredSelectors); assumption).
  unfold normalizeStructures.
  unfold bind at 1. unfold getDom at 1.
  rewrite Hq by (cbn; tauto). unfold bind at 1. cbn [forEach]. unfold ret at 1.
  unfold bind at 1. unfold getDom at 1.
  rewrite Hq by (cbn; tauto). unfold bind at 1. cbn [forEach]. unfold ret at 1.
  unfold bind at 1. unfold getDom at 1.
  rewrite Hq by (cbn; tauto). unfold bind at 1. cbn [forEach]. unfold ret at 1.
  unfold bind, getDom. rewrite Hq by (cbn; tauto). reflexivity.
Qed.

(** A stage that parses the markup into a container, runs a pass that
    finds nothing to do, and serializes the container. *)
Lemma parsed_stage (H : Host) (html : string) (s : state) (pass : ref -> M unit) :
  (forall c s1, container H html s = Ok c s1 -> pass c s1 = Ok tt s1) ->
  exists s1,
    (do c <- container H html;
     do _ <- pass c;
     do d <- getDom;
     ret (innerHTML H d c)) s = Ok (reparsed H html) s1 /\
    sameRecords s s1.
Proof.
  intros Hpass.
  destruct (container_reads H html s) as (s1 & Hc & Hread & He & Hp).
  exists s1. split; [|split; assumption].
  unfold bind at 1. rewrite Hc. unfold bind at 1. rewrite (Hpass _ s1 Hc).
  unfold bind, getDom, ret, innerHTML, reparsed. rewrite Hread. reflexivity.
Qed.

(** On markup in which the parser finds none of the elements it rewrites
    (definition lists, [details], figures, list items and lists, block
    quotes, [iframe], [video], [audio]), [handleUnusualStructures]
    changes nothing of the content: it returns the markup of the container
    as parsed from the markup given, and writes neither to the error log
    nor to the placeholder map. *)
Theorem handleUnusualStructures_on_prose (H : Host) (steps : nat) (html : string)
    (s : state) :
  html <> EmptyString ->
  forestFree (mayMatch unusualSelectors) (parseHTML H "div" html) = true ->
  exists s1,
    handleUnusualStructures H steps html s
    = Ok (serializeHTML H (parseHTML H "div" html)) s1 /\
    s_errors s1 = s_errors s /\ s_preserved s1 = s_preserved s.
Proof.
  intros Hne Hfree.
  destruct (parsed_stage H html s (rewriteUnusualStructures H steps)) as (s1 & Hrun & Hsame).
  { intros c s1 Hc. apply rewriteUnusualStructures_prose.
    apply (container_free H _ _ s s1 c Hc Hfree). }
  exists s1. split; [|exact Hsame].
  unfold handleUnusualStructures. destruct html as [|a html]; [contradiction|].
  unfold tryCatch. rewrite Hrun. reflexivity.
Qed.

Definition proseHtml : string := "<h1>Title</h1><p>Some <b>bold</b> text</p>".

Lemma handleUnusualStructures_on_prose_witness :
  exists s1,
    handleUnusualStructures probe 0 proseHtml busyPage
    = Ok (serializeHTML probe (parseHTML probe "div" proseHtml)) s1 /\
    s_errors s1 = s_errors busyPage /\ s_preserved s1 = s_preserved busyPage.
Proof.
  apply (handleUnusualStructures_on_prose probe 0 proseHtml busyPage).
  - discriminate.
  - vm_compute. reflexivity.
Defined.

(** On markup in which the parser finds no table, list, definition list
    or block quote, [preProcessComplexStructures] changes nothing of the
    content: it returns the markup of the container as parsed from the
    markup given, and writes neither to the error log nor to the
    placeholder map. *)
Theorem preProcessComplexStructures_on_prose (H : Host) (options : MarkdownOptions)
    (html : string) (s : state) :
  forestFree (mayMatch structuredSelectors) (parseHTML H "div" html) = true ->
  exists s1,
    preProcessComplexStructures H options html s
    = Ok (serializeHTML H (parseHTML H "div" html)) s1 /\
    s_errors s1 = s_errors s /\ s_preserved s1 = s_preserved s.
Proof.
  intros Hfree.
  destruct (parsed_stage H html s (normalizeStructures H options)) as (s1 & Hrun & Hsame).
  { intros c s1 Hc. apply normalizeStructures_prose.
    apply (container_free H _ _ s s1 c Hc Hfree). }
  exists s1. split; [|exact Hsame].
  unfold preProcessComplexStructures, tryCatch. rewrite Hrun. reflexivity.
Qed.

Lemma preProcessComplexStructures_on_prose_witness :
  exists s1,
    preProcessComplexStructures probe DEFAULT_MARKDOWN_OPTIONS proseHtml busyPage
    = Ok (serializeHTML probe (parseHTML probe "div" proseHtml)) s1 /\
    s_errors s1 = s_errors busyPage /\ s_preserved s1 = s_preserved busyPage.
Proof.
  apply (preProcessComplexStructures_on_prose probe DEFAULT_MARKDOWN_OPTIONS proseHtml
           busyPage).
  vm_compute. reflexivity.
Defined.


(** ** The whole pipeline *)



Lemma extractFrontMatter_none options html s :
  search frontMatterRegex html = None ->
  extractFrontMatter options html s = Ok (html, None) s.
Proof.
  intros Hnone. unfold extractFrontMatter.
  destruct (preserveFrontMatter options); cbn [negb]; [|reflexivity].
  unfold tryCatch. rewrite Hnone. reflexivity.
Qed.












(** ** When the tree converter fails *)




End ProseFacts.

(* ================================================================== *)
(** * The front-matter comment *)

Module FrontMatterFacts.
Import Js Re Dom Selector Eff Platform ComplexStructure MarkdownConversion MiniBrowser.
Import PostProcessFacts StoreFacts PipelineFacts MediaFacts BoundaryFacts RestoreFacts ProseFacts.
Local Open Scope eff_scope.

(** ** Strings *)

Lemma startsWith_app p s : startsWith p (p +:+ s) = true.
Proof. induction p as [|a p IH]; [reflexivity|]. cbn. rewrite Ascii.eqb_refl. exact IH. Qed.

Lemma drop_app p s : drop (slen p) (p +:+ s) = s.
Proof. induction p as [|a p IH]; [destruct s; reflexivity|]. cbn. exact IH. Qed.

Lemma take_app p s : take (slen p) (p +:+ s) = p.
Proof. induction p as [|a p IH]; [destruct s; reflexivity|]. cbn. f_equal. exact IH. Qed.

Lemma slen_app p s : slen (p +:+ s) = slen p + slen s.
Proof. induction p as [|a p IH]; [reflexivity|]. cbn. f_equal. exact IH. Qed.

Lemma take_app_rest p s : take (slen (p +:+ s) - slen s) (p +:+ s) = p.
Proof.
  rewrite slen_app. replace (slen p + slen s - slen s) with (slen p) by lia. apply take_app.
Qed.

Lemma startsWith_front p q s : startsWith (p +:+ q) s = true -> startsWith p s = true.
Proof.
  revert s. induction p as [|a p IH]; intros s; [reflexivity|].
  destruct s as [|b s]; cbn; [discriminate|].
  destruct (Ascii.eqb a b); [apply IH|discriminate].
Qed.

Lemma includes_cons p a s : includes p (String a s) = false -> includes p s = false.
Proof.
  unfold includes. cbn [indexOf]. destruct (startsWith p (String a s)); [discriminate|].
  destruct (indexOf p s); [discriminate|reflexivity].
Qed.

Lemma includes_startsWith p s : includes p s = false -> startsWith p s = false.
Proof.
  unfold includes. destruct s as [|a s]; cbn [indexOf].
  - destruct (startsWith p EmptyString); [discriminate|reflexivity].
  - destruct (startsWith p (String a s)); [discriminate|reflexivity].
Qed.

(** No text that lacks [p] runs into an occurrence of [p] placed after
    it, for the two delimiters of the comment. *)
Definition apart (p : string) : Prop :=
  forall a b tail, startsWith p (String a b) = false ->
    startsWith p (String a b +:+ p +:+ tail) = false.

Ltac apart_tac :=
  intros a b tail; cbn;
  repeat match goal with
  | |- context [Ascii.eqb ?x ?y] =>
      lazymatch y with
      | Ascii _ _ _ _ _ _ _ _ => fail
      | _ => destruct (Ascii.eqb_spec x y); [subst y|]
      end
  | |- context [match ?b with EmptyString => _ | String _ _ => _ end] =>
      is_var b; destruct b; cbn
  end; try reflexivity; try discriminate; try tauto.

Lemma apart_open : apart "<!--".
Proof. unfold apart. apart_tac. Qed.

Lemma apart_close : apart (String LF "-->").
Proof. unfold apart. apart_tac. Qed.

Lemma includes_app_r p a b : includes p (a +:+ b) = false -> includes p b = false.
Proof.
  induction a as [|x a IH]; [trivial|]. cbn [String.append]. intros Hab.
  apply IH. apply (includes_cons p x). exact Hab.
Qed.

(** ** The matcher on the comment *)

(** A lazy [[\s\S]*?] stops at the first place where what follows it
    matches. *)
Lemma lazy_any_first (k : string -> caps -> result) (tail : string) (cs : caps)
    (x : string * caps) :
  k tail cs = Some x ->
  forall body fuel n,
    slen body < fuel ->
    (forall a b, body = a +:+ b -> b <> EmptyString -> k (b +:+ tail) cs = None) ->
    iterate (run (Chr anyChar)) false 0 None k fuel n (body +:+ tail) cs = Some x.
Proof.
  intros Hk. induction body as [|c body IH]; intros fuel n Hfuel Hearly.
  - destruct fuel as [|fuel]; [unfold slen in Hfuel; cbn in Hfuel; lia|].
    cbn [iterate String.append Nat.leb]. rewrite Hk. reflexivity.
  - destruct fuel as [|fuel]; [unfold slen in Hfuel; cbn in Hfuel; lia|].
    cbn [iterate Nat.leb].
    rewrite (Hearly EmptyString (String c body) eq_refl) by discriminate.
    cbn [below String.append run anyChar].
    replace (slen (body +:+ tail) <? slen (String c (body +:+ tail))) with true
      by (symmetry; apply Nat.ltb_lt; unfold slen; cbn [String.length]; lia).
    apply IH; [unfold slen in *; cbn [String.length] in Hfuel; lia|].
    intros a b -> Hb. apply (Hearly (String c a) b); [reflexivity|exact Hb].
Qed.

(** A greedy [\s*] before one white-space character and a character of
    another kind: it takes the white space, and gives it back when what
    follows does not match. *)
Lemma star_one_space (k : string -> caps -> result) (a b : ascii) (r : string)
    (cs : caps) :
  isSpace a = true -> isSpace b = false ->
  run (star (Chr isSpace)) (String a (String b r)) cs k
  = match k (String b r) cs with
    | Some x => Some x
    | None => k (String a (String b r)) cs
    end.
Proof.
  intros Ha Hb. unfold star, slen. cbn [run String.length iterate below].
  rewrite Ha.
  replace (slen (String b r) <? slen (String a (String b r))) with true
    by (symmetry; apply Nat.ltb_lt; unfold slen; cbn [String.length]; lia).
  unfold slen. cbn [run String.length iterate below]. rewrite Hb. cbn [Nat.leb].
  reflexivity.
Qed.

Lemma run_Seq (r1 r2 : regex) (s : string) (cs : caps) (k : string -> caps -> result) :
  run (Seq r1 r2) s cs k = run r1 s cs (fun s1 c1 => run r2 s1 c1 k).
Proof. reflexivity. Qed.

Lemma run_Chr (p : ascii -> bool) (c : ascii) (s : string) (cs : caps)
    (k : string -> caps -> result) :
  run (Chr p) (String c s) cs k = if p c then k s cs else None.
Proof. reflexivity. Qed.

Lemma run_Grp (n : nat) (r1 : regex) (s : string) (cs : caps)
    (k : string -> caps -> result) :
  run (Grp n r1) s cs k
  = run r1 s cs (fun s1 c1 => k s1 ((n, take (slen s - slen s1) s) :: c1)).
Proof. reflexivity. Qed.

Lemma run_Rep (greedy : bool) (lo : nat) (hi : option nat) (r1 : regex) (s : string)
    (cs : caps) (k : string -> caps -> result) :
  run (Rep greedy lo hi r1) s cs k = iterate (run r1) greedy lo hi k (S (slen s)) 0 s cs.
Proof. reflexivity. Qed.

Lemma run_Str_app (l s : string) (cs : caps) (k : string -> caps -> result) :
  run (Str l) (l +:+ s) cs k = k s cs.
Proof. cbn [run]. rewrite startsWith_app, drop_app. reflexivity. Qed.

Lemma run_word (s : string) (cs : caps) (k : string -> caps -> result) :
  run (anyCase "front-matter") ("front-matter" +:+ s) cs k = k s cs.
Proof. reflexivity. Qed.

Definition opener : string := "<!-- front-matter" +:+ nl.
Definition closer : string := nl +:+ "-->".

Lemma space_is_not_LF (c : ascii) : isSpace c = false -> lit LF c = false.
Proof.
  intros Hc. unfold lit. destruct (Ascii.eqb_spec LF c) as [<-|]; [discriminate|reflexivity].
Qed.

Lemma matchHere_comment (c : ascii) (body after : string) :
  isSpace c = false ->
  includes closer (String c body) = false ->
  matchHere frontMatterRegex (opener +:+ String c body +:+ closer +:+ after)
  = Some (after, [(1, String c body)]).
Proof.
  intros Hc Hbody. unfold matchHere, frontMatterRegex.
  change (opener +:+ String c body +:+ closer +:+ after)
    with ("<!--" +:+ String " " (String "f" ("ront-matter" +:+
            String LF (String c (body +:+ closer +:+ after))))).
  cbn [seqs]. rewrite run_Seq, run_Str_app.
  rewrite run_Seq, star_one_space by reflexivity.
  rewrite run_Seq.
  change (String "f" ("ront-matter" +:+ ?x)) with ("front-matter" +:+ x).
  rewrite run_word.
  rewrite run_Seq, star_one_space by (reflexivity || exact Hc).
  cbv beta. rewrite !run_Seq, !run_Chr, (space_is_not_LF c Hc).
  change (lit LF LF) with true. cbv iota.
  rewrite run_Seq, run_Grp. unfold lazyStar. rewrite run_Rep.
  change (String c (body +:+ closer +:+ after))
    with (String c body +:+ (closer +:+ after)).
  rewrite (lazy_any_first _ (closer +:+ after) [] (after, [(1, String c body)]));
    [reflexivity| | |].
  - change (Str (String LF "-->")) with (Str closer).
    rewrite run_Str_app, take_app_rest. reflexivity.
  - rewrite slen_app. lia.
  - intros a b Hsplit Hb. destruct b as [|x b]; [contradiction|].
    cbn [run]. rewrite Hsplit in Hbody. apply includes_app_r, includes_startsWith in Hbody.
    change closer with (String LF "-->") in *.
    rewrite (apart_close x b after Hbody). reflexivity.
Qed.

(** ** The leftmost match *)

Lemma search_here (r : regex) (s rest : string) (cs : caps) :
  matchHere r s = Some (rest, cs) -> search r s = Some (take (slen s - slen rest) s, cs).
Proof. intros Hm. destruct s; cbn [search]; rewrite Hm; reflexivity. Qed.

Lemma search_after (r : regex) (x : string) :
  forall before,
    (forall a b, before = a +:+ b -> b <> EmptyString -> matchHere r (b +:+ x) = None) ->
    search r (before +:+ x) = search r x.
Proof.
  induction before as [|c before IH]; intros Hearly; [reflexivity|].
  pose proof (Hearly EmptyString (String c before) eq_refl) as Hnow.
  cbn [String.append search] in *. rewrite Hnow by discriminate.
  apply IH. intros a b -> Hb. apply (Hearly (String c a) b); [reflexivity|exact Hb].
Qed.

Lemma indexOf_after (p x : string) :
  forall before,
    (forall a b, before = a +:+ b -> b <> EmptyString -> startsWith p (b +:+ x) = false) ->
    startsWith p x = true ->
    indexOf p (before +:+ x) = Some (slen before).
Proof.
  intros before Hearly Hx. induction before as [|c before IH].
  - destruct x as [|c x]; cbn [String.append indexOf]; rewrite Hx; reflexivity.
  - pose proof (Hearly EmptyString (String c before) eq_refl) as Hnow.
    cbn [String.append indexOf] in *. rewrite Hnow by discriminate.
    rewrite IH; [reflexivity|].
    intros a b -> Hb. apply (Hearly (String c a) b); [reflexivity|exact Hb].
Qed.

Lemma matchHere_needs_opening (s : string) :
  startsWith "<!--" s = false -> matchHere frontMatterRegex s = None.
Proof.
  intros Hs. unfold matchHere, frontMatterRegex. cbn [seqs]. rewrite run_Seq.
  cbn [run]. rewrite Hs. reflexivity.
Qed.

Lemma opening_after (before rest : string) :
  includes "<!--" before = false ->
  forall a b, before = a +:+ b -> b <> EmptyString ->
    startsWith "<!--" (b +:+ "<!--" +:+ rest) = false.
Proof.
  intros Hfree a b -> Hb. destruct b as [|x b]; [contradiction|].
  apply apart_open. apply includes_startsWith, (includes_app_r _ a). exact Hfree.
Qed.

(** The comment that carries the front matter [body]. *)
Definition frontMatterComment (body : string) : string := opener +:+ body +:+ closer.

Section Comment.
Variables (before after body : string) (c : ascii).
Hypothesis Hbefore : includes "<!--" before = false.
Hypothesis Hc : isSpace c = false.
Hypothesis Hbody : includes closer (String c body) = false.

Local Abbreviation comment := (frontMatterComment (String c body)).

Lemma comment_shape :
  comment +:+ after = opener +:+ String c body +:+ closer +:+ after.
Proof. unfold frontMatterComment. rewrite !append_assoc. reflexivity. Qed.

Lemma search_comment :
  search frontMatterRegex (before +:+ comment +:+ after)
  = Some (comment, [(1, String c body)]).
Proof using All.
  rewrite search_after.
  - rewrite comment_shape.
    rewrite (search_here _ _ _ _ (matchHere_comment c body after Hc Hbody)).
    rewrite <- comment_shape, take_app_rest. reflexivity.
  - intros a b Hsplit Hb. apply matchHere_needs_opening.
    rewrite comment_shape. apply (opening_after before _ Hbefore a b Hsplit Hb).
Qed.

Lemma replaceFirst_comment :
  replaceFirst comment EmptyString (before +:+ comment +:+ after) = before +:+ after.
Proof using Hbefore.
  unfold replaceFirst. rewrite indexOf_after.
  - rewrite take_app.
    replace (drop (slen before + slen comment) (before +:+ comment +:+ after)) with after.
    + reflexivity.
    + rewrite <- slen_app, <- append_assoc, drop_app. reflexivity.
  - intros a b Hsplit Hb.
    destruct (startsWith comment (b +:+ comment +:+ after)) eqn:Hst; [|reflexivity].
    apply (startsWith_front "<!--") in Hst.
    rewrite comment_shape in Hst. rewrite <- Hst.
    apply (opening_after before _ Hbefore a b Hsplit Hb).
  - apply startsWith_app.
Qed.

End Comment.

Lemma search_without_opening (html : string) :
  includes "<!--" html = false -> search frontMatterRegex html = None.
Proof.
  induction html as [|a html IH]; intros Hfree.
  - reflexivity.
  - cbn [search]. rewrite (matchHere_needs_opening _ (includes_startsWith _ _ Hfree)).
    apply IH. apply (includes_cons _ a). exact Hfree.
Qed.

(** ** Text that is not blank *)




(** ** What the pipeline does with the comment *)

(** The front matter is read out of its comment, and the comment goes.
    When front matter is to be preserved, and the markup holds the
    comment [<!-- front-matter], a line break, a body that starts with
    a character other than white space and holds no line break
    followed by [-->], a line break and [-->], with no comment opened
    before it, [extractFrontMatter] returns the markup before and after
    the comment, joined, and the trimmed body as the front matter. *)
Theorem extractFrontMatter_reads_comment (options : MarkdownOptions)
    (before after body : string) (c : ascii) (s : state) :
  preserveFrontMatter options = true ->
  includes "<!--" before = false ->
  isSpace c = false ->
  includes closer (String c body) = false ->
  extractFrontMatter options (before +:+ frontMatterComment (String c body) +:+ after) s
  = Ok (before +:+ after, Some (trim (String c body))) s.
Proof.
  intros Hopt Hbefore Hc Hbody.
  unfold extractFrontMatter. rewrite Hopt. cbn [negb]. unfold tryCatch.
  rewrite (search_comment before after body c Hbefore Hc Hbody). cbn [cap Nat.eqb].
  rewrite (replaceFirst_comment before after body c Hbefore). reflexivity.
Qed.

Definition yaml : string := "title: A page" +:+ nl +:+ "tags: [a, b]  ".

Lemma extractFrontMatter_reads_comment_witness :
  extractFrontMatter DEFAULT_MARKDOWN_OPTIONS
    ("<h1>T</h1>" +:+ frontMatterComment yaml +:+ "<p>text</p>") busyPage
  = Ok ("<h1>T</h1>" +:+ "<p>text</p>", Some (trim yaml)) busyPage.
Proof.
  apply (extractFrontMatter_reads_comment DEFAULT_MARKDOWN_OPTIONS "<h1>T</h1>" "<p>text</p>"
           ("itle: A page" +:+ nl +:+ "tags: [a, b]  ") "t" busyPage); reflexivity.
Defined.

(** Markup in which no comment is opened holds no front matter:
    [extractFrontMatter] returns it as it is, whatever the options, and
    logs nothing. *)
Theorem extractFrontMatter_without_comment (options : MarkdownOptions) (html : string)
    (s : state) :
  includes "<!--" html = false ->
  extractFrontMatter options html s = Ok (html, None) s.
Proof.
  intros Hfree. apply extractFrontMatter_none, search_without_opening, Hfree.
Qed.

Lemma extractFrontMatter_without_comment_witness :
  extractFrontMatter DEFAULT_MARKDOWN_OPTIONS proseHtml busyPage = Ok (proseHtml, None) busyPage.
Proof.
  apply (extractFrontMatter_without_comment DEFAULT_MARKDOWN_OPTIONS proseHtml busyPage).
  reflexivity.
Defined.



End FrontMatterFacts.

(* ================================================================== *)
(** * The rewrites of single elements *)

Module RewriterFacts.
Import Js Re Dom Selector Eff Platform ComplexStructure MarkdownConversion MiniBrowser.
Import PostProcessFacts StoreFacts PipelineFacts DefinitionListFacts MediaFacts.
Import AttributePassFacts.
Local Open Scope eff_scope.

(** ** Moving a node *)

Lemma ancestors_agree (d d' : dom) :
  parentsInside d = true ->
  (forall j, j < length d -> parentNode d' j = parentNode d j) ->
  forall fuel i, i < length d -> ancestors fuel d' i = ancestors fuel d i.
Proof.
  intros Hp Hsame. induction fuel as [|fuel IH]; intros i Hi; [reflexivity|].
  cbn [ancestors]. rewrite (Hsame i Hi).
  destruct (parentNode d i) as [q|] eqn:Hq; [|reflexivity].
  unfold parentNode in Hq. destruct (d !! i) as [n|] eqn:Hn; [|discriminate].
  destruct (parentsInside_lookup d i n q Hp Hn Hq) as [Hlt _].
  rewrite (IH q Hlt). reflexivity.
Qed.

(** [p.appendChild(i)] takes [i] out of where it is and puts it last
    under [p], when [p] can have children and is not under [i]. *)
Lemma appendChild_moves (p i : ref) (s : state) (n : node) :
  canHaveChildren (s_dom s) p = true ->
  isInclusiveAncestor (s_dom s) i p = false ->
  s_dom s !! i = Some n -> n_kind n <> Fragment ->
  appendChild p i s = Ok tt (withDom (link p None i (unlink i (s_dom s))) s).
Proof.
  intros Hc Ha Hi Hk. unfold appendChild, insertBefore, bind, getDom.
  rewrite Hc, Ha. cbn [negb].
  assert (Hpay : payload (s_dom s) i = [i]).
  { unfold payload, kindOf. rewrite Hi. destruct (n_kind n); congruence. }
  rewrite Hpay. reflexivity.
Qed.

(** [p.insertBefore(new, old)] for a node just created. *)
Lemma insertBefore_fresh (d : dom) (wn : node) (old p : ref) (no np : node)
    (t tp : string) (s : state) :
  s_dom s = d ++ [wn] ->
  parentsInside d = true ->
  n_parent wn = None -> n_kind wn = Element t ->
  d !! old = Some no -> n_parent no = Some p ->
  d !! p = Some np -> n_kind np = Element tp ->
  insertBefore p (length d) (Some old) s
  = Ok tt (withDom (link p (Some old) (length d) (s_dom s)) s).
Proof.
  intros Hs Hp Hwp Hwk Ho Hop Hnp Hnpk.
  destruct (parentsInside_lookup d old no p Hp Ho Hop) as [Hplt Hpne].
  assert (Holt : old < length d) by (eapply lookup_lt_Some; exact Ho).
  assert (Hlo : s_dom s !! old = Some no) by (rewrite Hs, lookup_app_l by lia; exact Ho).
  assert (Hlp : s_dom s !! p = Some np) by (rewrite Hs, lookup_app_l by lia; exact Hnp).
  assert (Hlw : s_dom s !! length d = Some wn).
  { rewrite Hs, lookup_app_r by lia. rewrite Nat.sub_diag. reflexivity. }
  unfold insertBefore, bind, getDom.
  assert (Hc : canHaveChildren (s_dom s) p = true).
  { unfold canHaveChildren, kindOf. rewrite Hlp, Hnpk. reflexivity. }
  rewrite Hc. cbn [negb].
  assert (Ha : isInclusiveAncestor (s_dom s) (length d) p = false).
  { rewrite Hs. apply fresh_not_ancestor; assumption. }
  rewrite Ha.
  assert (Hpar : parentNode (s_dom s) old = Some p).
  { unfold parentNode. rewrite Hlo. exact Hop. }
  rewrite bool_decide_eq_true_2 by exact Hpar. cbn [negb].
  destruct (Nat.eqb_spec old (length d)) as [Heq|_]; [lia|].
  assert (Hpay : payload (s_dom s) (length d) = [length d]).
  { unfold payload, kindOf. rewrite Hlw, Hwk. reflexivity. }
  rewrite Hpay. unfold insertAll, putDom. cbn [fold_left].
  assert (Hun : unlink (length d) (s_dom s) = s_dom s).
  { unfold unlink, parentNode. rewrite Hlw, Hwp. reflexivity. }
  rewrite Hun. reflexivity.
Qed.

Lemma without_insAt (a w : ref) (l : list ref) :
  List.NoDup l -> In a l -> w <> a -> ~ In w l ->
  without a (insAt a w l) = substitute a w l.
Proof.
  intros Hnd Hin Hwa Hw. induction l as [|x l IH]; [destruct Hin|].
  apply NoDup_cons_iff in Hnd as [Hx Hnd]. cbn [insAt substitute map].
  destruct (Nat.eqb_spec x a) as [->|Hxa].
  - unfold without. rewrite filter_cons_True by exact Hwa.
    rewrite filter_cons_False by (intros Hne; apply Hne; reflexivity).
    f_equal. fold (without a l). rewrite (without_absent a l Hx).
    symmetry. apply (substitute_absent a w l Hx).
  - unfold without. rewrite filter_cons_True by exact Hxa. f_equal.
    apply IH; [exact Hnd| |].
    + destruct Hin as [Heq|Hin]; [contradiction|exact Hin].
    + intros Hin'. apply Hw. right. exact Hin'.
Qed.

(** ** A list item outside a list *)

(** A list item outside a list gets a list of its own.  For an item
    [li] that is a child of the element [parent], [adoptListItem]
    creates a [ul] (an [ol] when the item has the class [ol-item]), puts
    it where the item stood among the children of [parent], and makes the
    item its only child; no other node of the page changes. *)
Theorem adoptListItem_wraps (s : state) (li parent : ref) (nl np : node) (t tp : string) :
  let d := s_dom s in
  let newList := length d in
  kidsInside d = true -> parentsInside d = true ->
  d !! li = Some nl -> n_kind nl = Element t -> n_parent nl = Some parent ->
  d !! parent = Some np -> n_kind np = Element tp ->
  List.NoDup (n_kids np) -> In li (n_kids np) ->
  isInclusiveAncestor d li parent = false ->
  exists d',
    adoptListItem li s = Ok tt (withDom d' s) /\
    length d' = S (length d) /\
    d' !! newList = Some {| n_kind := Element (if hasClass d li "ol-item" then "ol" else "ul");
                         n_attrs := []; n_kids := [li]; n_parent := Some parent |} /\
    d' !! li = Some (setParent (Some newList) nl) /\
    d' !! parent = Some (setKids (substitute li newList (n_kids np)) np) /\
    forall j, j < length d -> j <> li -> j <> parent -> d' !! j = d !! j.
Proof.
  intros d newList Hk Hp Hli Hlik Hlip Hpar Hpark Hnd Hin Hanc.
  destruct (parentsInside_lookup d li nl parent Hp Hli Hlip) as [Hplt Hpne].
  assert (Hlt : li < length d) by (eapply lookup_lt_Some; exact Hli).
  assert (Hnew : ~ In newList (n_kids np)).
  { intros Hin'. pose proof (kidsInside_lookup d parent np newList Hk Hpar Hin'). unfold newList in *. lia. }
  set (kindName := if hasClass d li "ol-item" then "ol" else "ul").
  set (d1 := d ++ [blankNode (Element kindName)]).
  set (d2 := link parent (Some li) newList d1).
  exists (link newList None li (unlink li d2)).
  assert (Hd2 : d2 = update parent (fun n => setKids (insAt li newList (n_kids n)) n) d
                     ++ [setParent (Some parent) (blankNode (Element kindName))]).
  { unfold d2, d1, link, newList. cbn [insBefore].
    rewrite (update_app_l parent _ d _ Hplt).
    rewrite <- (length_update parent (fun n => setKids (insAt li (length d) (n_kids n)) n) d) at 1.
    rewrite update_app_r. reflexivity. }
  assert (Hlen2 : length d2 = S (length d)).
  { rewrite Hd2, length_app, length_update. cbn. lia. }
  assert (H2li : d2 !! li = Some nl).
  { rewrite Hd2, lookup_app_l by (rewrite length_update; lia).
    rewrite lookup_update_ne by exact Hpne. exact Hli. }
  assert (H2p : d2 !! parent = Some (setKids (insAt li newList (n_kids np)) np)).
  { rewrite Hd2, lookup_app_l by (rewrite length_update; lia).
    rewrite (lookup_update_eq _ _ _ _ Hpar). reflexivity. }
  assert (H2l : d2 !! newList = Some (setParent (Some parent) (blankNode (Element kindName)))).
  { rewrite Hd2, lookup_app_r by (rewrite length_update; unfold newList; lia).
    rewrite length_update. unfold newList. rewrite Nat.sub_diag. reflexivity. }
  assert (H2j : forall j, j < length d -> j <> parent -> d2 !! j = d !! j).
  { intros j Hj Hjp. rewrite Hd2, lookup_app_l by (rewrite length_update; lia).
    apply lookup_update_ne. congruence. }
  split.
  { unfold adoptListItem. unfold bind at 1. unfold getDom at 1. fold d. fold kindName.
    unfold bind at 1. unfold createElement, fresh, alloc. fold d. fold d1.
    unfold bind at 1. unfold withParent. unfold bind at 1. unfold getDom at 1.
    cbn [s_dom withDom].
    assert (Hpar1 : parentNode d1 li = Some parent).
    { unfold parentNode, d1. rewrite lookup_app_l by lia. rewrite Hli. exact Hlip. }
    rewrite Hpar1.
    rewrite (insertBefore_fresh d (blankNode (Element kindName)) li parent nl np kindName tp
               (withDom d1 s) eq_refl Hp eq_refl eq_refl Hli Hlip Hpar Hpark).
    cbn [s_dom withDom]. fold newList. fold d2. rewrite withDom_withDom.
    rewrite (appendChild_moves newList li (withDom d2 s) nl).
    - cbn [s_dom withDom]. rewrite withDom_withDom. reflexivity.
    - cbn [s_dom withDom]. unfold canHaveChildren, kindOf. rewrite H2l. reflexivity.
    - cbn [s_dom withDom]. unfold isInclusiveAncestor, lineage. rewrite Hlen2.
      cbn [ancestors existsb]. unfold parentNode at 1. rewrite H2l.
      cbn [setParent n_parent existsb].
      destruct (Nat.eqb_spec li newList) as [Heq|_]; [unfold newList in Heq; lia|].
      cbn [orb]. rewrite (ancestors_agree d d2 Hp); [exact Hanc| |exact Hplt].
      intros j Hj. unfold parentNode.
      destruct (decide (j = parent)) as [->|Hjp]; [rewrite H2p, Hpar; reflexivity|].
      rewrite (H2j j Hj Hjp). reflexivity.
    - exact H2li.
    - rewrite Hlik. discriminate. }
  assert (Hun : unlink li d2
                = update li (setParent None)
                    (update parent (fun n => setKids (without li (n_kids n)) n) d2)).
  { unfold unlink, parentNode. rewrite H2li, Hlip. reflexivity. }
  assert (Hnl : li <> newList) by (unfold newList; lia).
  assert (Hpl : parent <> newList) by (unfold newList; lia).
  rewrite Hun. unfold link. cbn [insBefore].
  split; [rewrite !length_update; exact Hlen2|].
  split.
  { rewrite lookup_update_ne by exact Hnl.
    erewrite lookup_update_eq
      by (rewrite !lookup_update_ne by assumption; exact H2l).
    reflexivity. }
  split.
  { rewrite (lookup_update_eq li _ _ (setParent None nl)); [reflexivity|].
    rewrite lookup_update_ne by congruence.
    rewrite (lookup_update_eq li _ _ nl); [reflexivity|].
    rewrite lookup_update_ne by exact Hpne. exact H2li. }
  split.
  { rewrite !lookup_update_ne by congruence.
    erewrite lookup_update_eq by exact H2p.
    unfold setKids. cbn [n_kind n_attrs n_kids n_parent].
    rewrite (without_insAt li newList (n_kids np) Hnd Hin) by congruence.
    reflexivity. }
  intros j Hj Hjl Hjp.
  rewrite !lookup_update_ne by (unfold newList; congruence || lia).
  apply H2j; assumption.
Qed.

(** The page [<div><li class="ol-item">a</li><p>b</p></div>]. *)
Definition itemPage : state :=
  {| s_dom := [ {| n_kind := Element "div"; n_attrs := []; n_kids := [1; 3];
                   n_parent := None |};
                {| n_kind := Element "li"; n_attrs := [("class", "ol-item")]; n_kids := [2];
                   n_parent := Some 0 |};
                {| n_kind := Text "a"; n_attrs := []; n_kids := []; n_parent := Some 1 |};
                {| n_kind := Element "p"; n_attrs := []; n_kids := [4];
                   n_parent := Some 0 |};
                {| n_kind := Text "b"; n_attrs := []; n_kids := []; n_parent := Some 3 |} ];
     s_errors := []; s_preserved := [] |}.

Lemma adoptListItem_wraps_witness :
  exists d',
    adoptListItem 1 itemPage = Ok tt (withDom d' itemPage) /\
    length d' = 6 /\
    d' !! 5 = Some {| n_kind := Element "ol"; n_attrs := []; n_kids := [1];
                      n_parent := Some 0 |} /\
    d' !! 1 = Some {| n_kind := Element "li"; n_attrs := [("class", "ol-item")];
                      n_kids := [2]; n_parent := Some 5 |} /\
    d' !! 0 = Some {| n_kind := Element "div"; n_attrs := []; n_kids := [5; 3];
                      n_parent := None |} /\
    forall j, j < 5 -> j <> 1 -> j <> 0 -> d' !! j = s_dom itemPage !! j.
Proof.
  apply (adoptListItem_wraps itemPage 1 0
           {| n_kind := Element "li"; n_attrs := [("class", "ol-item")]; n_kids := [2];
              n_parent := Some 0 |}
           {| n_kind := Element "div"; n_attrs := []; n_kids := [1; 3]; n_parent := None |}
           "li" "div"); try (vm_compute; reflexivity).
  - repeat constructor; simpl; lia.
  - left. reflexivity.
Defined.


(** ** The citation of a block quote *)

Lemma created_not_ancestor (d ext : dom) (i k : nat) :
  parentsInside d = true -> i < length d ->
  isInclusiveAncestor (d ++ ext) (length d + k) i = false.
Proof.
  intros Hd Hi. unfold isInclusiveAncestor, lineage. cbn [existsb].
  apply orb_false_iff. split; [apply Nat.eqb_neq; lia|].
  pose proof (ancestors_inside d ext (length (d ++ ext)) Hd i Hi) as Hall.
  induction Hall as [|j l Hj _ IH]; cbn [existsb]; [reflexivity|].
  rewrite IH, orb_false_r. apply Nat.eqb_neq. lia.
Qed.

(** [p.appendChild(i)] for a parentless node [i] created after those of
    [d], under a node [p] of [d]. *)
Lemma appendChild_created (d ext : dom) (p k : nat) (n : node) (s : state) :
  s_dom s = d ++ ext ->
  parentsInside d = true ->
  p < length d -> canHaveChildren d p = true ->
  ext !! k = Some n -> n_parent n = None -> n_kind n <> Fragment ->
  appendChild p (length d + k) s
  = Ok tt (withDom (update p (fun n => setKids (n_kids n ++ [length d + k]) n) d
                    ++ update k (setParent (Some p)) ext) s).
Proof.
  intros Hs Hp Hplt Hc Hk Hpar Hkind.
  rewrite (appendChild_moves p (length d + k) s n).
  - rewrite Hs. unfold unlink, parentNode. rewrite lookup_app_plus, Hk, Hpar.
    rewrite link_into by exact Hplt. reflexivity.
  - rewrite Hs. unfold canHaveChildren in *. rewrite kindOf_app_l by exact Hplt. exact Hc.
  - rewrite Hs. apply created_not_ancestor; assumption.
  - rewrite Hs, lookup_app_plus. exact Hk.
  - exact Hkind.
Qed.

Lemma parentNode_update_kids (d : dom) (p : ref) (g : node -> list ref) (i : ref) :
  parentNode (update p (fun n => setKids (g n) n) d) i = parentNode d i.
Proof.
  unfold parentNode. rewrite lookup_update.
  destruct (decide (p = i)); [|reflexivity].
  destruct (d !! i); reflexivity.
Qed.

Lemma parentsInside_update_kids (d : dom) (p : ref) (g : node -> list ref) :
  parentsInside d = true -> parentsInside (update p (fun n => setKids (g n) n) d) = true.
Proof.
  unfold parentsInside. rewrite length_update. intros Hd.
  rewrite forallb_forall in *. intros i Hi. rewrite parentNode_update_kids. apply Hd, Hi.
Qed.

Lemma canHaveChildren_update_kids (d : dom) (p : ref) (g : node -> list ref) (i : ref) :
  canHaveChildren (update p (fun n => setKids (g n) n) d) i = canHaveChildren d i.
Proof.
  unfold canHaveChildren, kindOf. rewrite lookup_update.
  destruct (decide (p = i)); [|reflexivity].
  destruct (d !! i); reflexivity.
Qed.

Lemma textUnder_mark (i : ref) (x : string) :
  textUnder i (citationMark +:+ x)
  = [{| n_kind := Text (citationMark +:+ x); n_attrs := []; n_kids := [];
        n_parent := Some i |}].
Proof. reflexivity. Qed.

Lemma without_app (a : ref) (l l' : list ref) :
  without a (l ++ l') = without a l ++ without a l'.
Proof. unfold without. apply filter_app. Qed.

(** A citation is moved to the end of its block quote.  For a [cite]
    element with a parent and a [blockquote] element, [moveCitation]
    appends a [br] and an [em] to the block quote, in this order; the
    [em] holds the three characters of the source, a space and the text
    of the citation; the citation is taken out of its parent, and no
    other node of the page changes. *)
Theorem moveCitation_appends (s : state) (blockquote cite q : ref) (nb nc : node)
    (tb : string) :
  let d := s_dom s in
  let em := length d in
  let br := length d + 2 in
  kidsInside d = true -> parentsInside d = true -> shallow d = true ->
  d !! blockquote = Some nb -> n_kind nb = Element tb ->
  d !! cite = Some nc -> n_parent nc = Some q -> cite <> blockquote ->
  exists d',
    moveCitation blockquote cite s = Ok tt (withDom d' s) /\
    kidsOf d' blockquote
    = (if decide (q = blockquote) then without cite (n_kids nb) else n_kids nb)
      ++ [br; em] /\
    treeOf d' br = HElem "br" [] [] /\
    treeOf d' em = HElem "em" [] [HText (citationMark +:+ " " +:+ textContent d cite)] /\
    parentNode d' cite = None /\
    (q <> blockquote -> kidsOf d' q = without cite (kidsOf d q)) /\
    forall j, j < length d -> j <> blockquote -> j <> q -> j <> cite -> d' !! j = d !! j.
Proof.
  intros d em br Hk Hp Hsh Hb Hbk Hc Hcq Hne.
  destruct (parentsInside_lookup d cite nc q Hp Hc Hcq) as [Hqlt Hqne].
  assert (Hblt : blockquote < length d) by (eapply lookup_lt_Some; exact Hb).
  assert (Hclt : cite < length d) by (eapply lookup_lt_Some; exact Hc).
  set (text := citationMark +:+ " " +:+ textContent d cite).
  set (d5 := update blockquote (fun n => setKids (n_kids n ++ [length d + 0]) n)
              (update blockquote (fun n => setKids (n_kids n ++ [length d + 2]) n) d)).
  set (ext5 := [setParent (Some blockquote) (setKids [length d + 1] (blankNode (Element "em")));
                {| n_kind := Text text; n_attrs := []; n_kids := [];
                   n_parent := Some (length d) |};
                setParent (Some blockquote) (blankNode (Element "br"))]).
  assert (Hcan : canHaveChildren d blockquote = true).
  { unfold canHaveChildren, kindOf. rewrite Hb, Hbk. reflexivity. }
  assert (Hlen5 : length d5 = length d) by (unfold d5; rewrite !length_update; reflexivity).
  assert (H5b : d5 !! blockquote
                = Some (setKids (n_kids nb ++ [br; em]) nb)).
  { unfold d5. erewrite lookup_update_eq by (apply lookup_update_eq; exact Hb).
    unfold setKids. cbn [n_kind n_attrs n_kids n_parent]. rewrite <- app_assoc.
    unfold br, em. rewrite Nat.add_0_r. reflexivity. }
  assert (H5j : forall j, j <> blockquote -> d5 !! j = d !! j).
  { intros j Hj. unfold d5. rewrite !lookup_update_ne by congruence. reflexivity. }
  exists (update cite (setParent None)
            (update q (fun n => setKids (without cite (n_kids n)) n) (d5 ++ ext5))).
  split.
  { unfold moveCitation. unfold bind at 1. unfold createElement at 1, fresh, alloc.
    fold d. unfold bind at 1. unfold getDom at 1. cbn [s_dom withDom].
    rewrite (textContent_extends d _ cite Hk Hsh (extends_app d _) Hclt). fold text.
    unfold bind at 1.
    rewrite (setTextContent_fresh d (blankNode (Element "em")) text
               (withDom (d ++ [blankNode (Element "em")]) s) eq_refl eq_refl).
    cbn [s_dom withDom]. rewrite withDom_withDom.
    unfold bind at 1. unfold createElement at 1, fresh, alloc. cbn [s_dom withDom].
    rewrite withDom_withDom, length_app, <- app_assoc.
    unfold text at 1 2. rewrite textUnder_mark. fold text. cbn [length app map].
    unfold bind at 1.
    erewrite (appendChild_created d _ blockquote 2 (blankNode (Element "br")));
      [|cbn [s_dom withDom]; reflexivity|exact Hp|exact Hblt|exact Hcan
       |reflexivity|reflexivity|discriminate].
    cbn [s_dom withDom]. rewrite withDom_withDom. settle.
    unfold bind at 1.
    rewrite <- (Nat.add_0_r (length d)) at 1.
    rewrite <- (length_update blockquote
                  (fun n => setKids (n_kids n ++ [length d + 2]) n) d) at 1.
    erewrite (appendChild_created _ _ blockquote 0
                (setKids [length d + 1] (blankNode (Element "em"))));
      [|cbn [s_dom withDom]; reflexivity
       |apply parentsInside_update_kids; exact Hp
       |rewrite length_update; exact Hblt
       |rewrite canHaveChildren_update_kids; exact Hcan
       |reflexivity|reflexivity|discriminate].
    cbn [s_dom withDom]. rewrite withDom_withDom. settle.
    rewrite length_update. fold d5.
    match goal with |- context [d5 ++ ?e] => change e with ext5 end.
    unfold withParent, bind, getDom. cbn [s_dom withDom].
    assert (Hpar : parentNode (d5 ++ ext5) cite = Some q).
    { unfold parentNode. rewrite lookup_app_l by lia. rewrite (H5j cite Hne), Hc. exact Hcq. }
    rewrite Hpar. unfold removeChild, bind, getDom. cbn [s_dom withDom].
    rewrite bool_decide_eq_true_2 by exact Hpar.
    unfold putDom, unlink. rewrite Hpar. cbn [s_dom withDom]. rewrite withDom_withDom.
    reflexivity. }
  set (D := d5 ++ ext5).
  assert (HDold : forall j, j < length d -> D !! j = d5 !! j).
  { intros j Hj. unfold D. apply lookup_app_l. lia. }
  assert (HDnew : forall k, D !! (length d + k) = ext5 !! k).
  { intros k. unfold D. rewrite <- Hlen5. apply lookup_app_plus. }
  assert (HDlen : length D = S (length d + 2)).
  { unfold D. rewrite length_app, Hlen5. cbn. lia. }
  assert (Hfresh : forall k, cite <> length d + k /\ q <> length d + k) by (intros k; lia).
  split.
  { unfold kidsOf. rewrite lookup_update_ne by exact Hne. rewrite lookup_update.
    destruct (decide (q = blockquote)) as [->|Hqb].
    - rewrite HDold, H5b by exact Hblt. cbn [fmap option_fmap option_map setKids n_kids].
      rewrite without_app. f_equal. unfold without.
      rewrite filter_cons_True by (unfold br; lia).
      rewrite filter_cons_True by (unfold em; lia). reflexivity.
    - rewrite HDold, H5b by exact Hblt. reflexivity. }
  split.
  { unfold treeOf, br.
    rewrite (reify_element _ _ _ (setParent (Some blockquote) (blankNode (Element "br"))) "br");
      [reflexivity| |reflexivity].
    rewrite !lookup_update_ne by apply Hfresh. rewrite HDnew. reflexivity. }
  split.
  { unfold treeOf, em. rewrite !length_update, HDlen.
    rewrite (reify_element _ _ _
               (setParent (Some blockquote)
                  (setKids [length d + 1] (blankNode (Element "em")))) "em");
      [| |reflexivity].
    2: { rewrite !lookup_update_ne by (pose proof (Hfresh 0); lia).
         pose proof (HDnew 0) as Hzero. rewrite Nat.add_0_r in Hzero.
         rewrite Hzero. reflexivity. }
    cbn [setParent setKids blankNode n_attrs n_kids map].
    rewrite (reify_text _ _ _ {| n_kind := Text text; n_attrs := []; n_kids := [];
                                 n_parent := Some (length d) |} text);
      [reflexivity| |reflexivity].
    rewrite !lookup_update_ne by apply Hfresh. rewrite HDnew. reflexivity. }
  split.
  { unfold parentNode. erewrite lookup_update_eq; [reflexivity|].
    rewrite lookup_update_ne by exact Hqne. rewrite HDold, H5j by assumption. exact Hc. }
  split.
  { intros Hqb. unfold kidsOf. rewrite lookup_update_ne by congruence.
    rewrite lookup_update. destruct (decide (q = q)) as [_|Hqq]; [|contradiction].
    rewrite HDold, H5j by assumption. destruct (d !! q); reflexivity. }
  intros j Hj Hjb Hjq Hjc. rewrite !lookup_update_ne by congruence.
  rewrite HDold, H5j by assumption. reflexivity.
Qed.

(** The page [<div><blockquote><p>q</p><cite>A</cite></blockquote></div>]. *)
Definition quotePage : state :=
  {| s_dom := [ {| n_kind := Element "div"; n_attrs := []; n_kids := [1];
                   n_parent := None |};
                {| n_kind := Element "blockquote"; n_attrs := []; n_kids := [2; 4];
                   n_parent := Some 0 |};
                {| n_kind := Element "p"; n_attrs := []; n_kids := [3];
                   n_parent := Some 1 |};
                {| n_kind := Text "q"; n_attrs := []; n_kids := []; n_parent := Some 2 |};
                {| n_kind := Element "cite"; n_attrs := []; n_kids := [5];
                   n_parent := Some 1 |};
                {| n_kind := Text "A"; n_attrs := []; n_kids := []; n_parent := Some 4 |} ];
     s_errors := []; s_preserved := [] |}.

Lemma moveCitation_appends_witness :
  exists d',
    moveCitation 1 4 quotePage = Ok tt (withDom d' quotePage) /\
    kidsOf d' 1 = [2] ++ [8; 6] /\
    treeOf d' 8 = HElem "br" [] [] /\
    treeOf d' 6 = HElem "em" [] [HText (citationMark +:+ " " +:+ "A")] /\
    parentNode d' 4 = None /\
    (1 <> 1 -> kidsOf d' 1 = without 4 (kidsOf (s_dom quotePage) 1)) /\
    forall j, j < 6 -> j <> 1 -> j <> 1 -> j <> 4 -> d' !! j = s_dom quotePage !! j.
Proof.
  apply (moveCitation_appends quotePage 1 4 1
           {| n_kind := Element "blockquote"; n_attrs := []; n_kids := [2; 4];
              n_parent := Some 0 |}
           {| n_kind := Element "cite"; n_attrs := []; n_kids := [5]; n_parent := Some 1 |}
           "blockquote"); try (vm_compute; reflexivity).
  lia.
Defined.


(** ** details and summary *)

(** The content of [details] is ready to be moved under [blockquote]:
    the children [l] of [details] are distinct nodes that have [details]
    as parent, and [blockquote] is a parentless node that takes
    children. *)
Definition movable (D : dom) (details blockquote : ref) (l : list ref) : Prop :=
  kidsOf D details = l /\ List.NoDup l /\
  (forall c, In c l ->
     exists nc, D !! c = Some nc /\ n_parent nc = Some details /\ n_kind nc <> Fragment /\
                c <> blockquote /\ c <> details) /\
  canHaveChildren D blockquote = true /\ parentNode D blockquote = None /\
  blockquote <> details.

(** The children that go under the block quote: all but the summary. *)
Definition kept (summary : option ref) (l : list ref) : list ref :=
  filter (fun c => Some c <> summary) l.

Lemma lookup_unlink (D : dom) (c p : ref) (j : ref) :
  parentNode D c = Some p -> c <> p ->
  unlink c D !! j
  = if decide (j = c) then setParent None <$> D !! j
    else if decide (j = p) then (fun n => setKids (without c (n_kids n)) n) <$> D !! j
    else D !! j.
Proof.
  intros Hpar Hcp. unfold unlink. rewrite Hpar. rewrite !lookup_update.
  destruct (decide (j = c)) as [->|Hjc].
  - destruct (decide (c = c)) as [_|Hcc]; [|contradiction].
    destruct (decide (p = c)) as [Hpc|_]; [congruence|]. reflexivity.
  - destruct (decide (c = j)) as [Hcj|_]; [congruence|].
    destruct (decide (j = p)) as [->|Hjp].
    + destruct (decide (p = p)) as [_|Hpp]; [reflexivity|contradiction].
    + destruct (decide (p = j)) as [Hpj|_]; [congruence|reflexivity].
Qed.

Lemma lookup_link (D : dom) (p i : ref) (before : option ref) (j : ref) :
  i <> p ->
  link p before i D !! j
  = if decide (j = i) then setParent (Some p) <$> D !! j
    else if decide (j = p) then (fun n => setKids (insBefore before i (n_kids n)) n) <$> D !! j
    else D !! j.
Proof.
  intros Hip. unfold link. rewrite !lookup_update.
  destruct (decide (j = i)) as [->|Hji].
  - destruct (decide (i = i)) as [_|Hii]; [|contradiction].
    destruct (decide (p = i)) as [Hpi|_]; [congruence|]. reflexivity.
  - destruct (decide (i = j)) as [Hij|_]; [congruence|].
    destruct (decide (j = p)) as [->|Hjp].
    + destruct (decide (p = p)) as [_|Hpp]; [reflexivity|contradiction].
    + destruct (decide (p = j)) as [Hpj|_]; [congruence|reflexivity].
Qed.

Lemma parentless_lineage (D : dom) (i : ref) :
  parentNode D i = None -> lineage D i = [i].
Proof.
  intros Hpar. unfold lineage. destruct (length D); cbn [ancestors]; [reflexivity|].
  rewrite Hpar. reflexivity.
Qed.

(** One turn of the loop, on the store. *)
Definition moveChild (summary : option ref) (details blockquote c : ref) (D : dom) : dom :=
  if bool_decide (Some c <> summary) then link blockquote None c (unlink c D)
  else unlink c D.

Section Turn.
Context (summary : option ref) (details blockquote c : ref) (l : list ref) (D : dom).
Context (Hready : movable D details blockquote (c :: l)).

Lemma turn_facts :
  exists nc, D !! c = Some nc /\ n_parent nc = Some details /\ n_kind nc <> Fragment /\
             c <> blockquote /\ c <> details /\ ~ In c l /\ parentNode D c = Some details.
Proof using Hready.
  destruct Hready as (_ & Hnd & Hl & _).
  destruct (Hl c (or_introl eq_refl)) as (nc & Hc & Hp & Hk & Hcb & Hcd).
  apply NoDup_cons_iff in Hnd as [Hnin _].
  exists nc. split; [exact Hc|]. split; [exact Hp|]. split; [exact Hk|].
  split; [exact Hcb|]. split; [exact Hcd|]. split; [exact Hnin|].
  unfold parentNode. rewrite Hc. exact Hp.
Qed.

Lemma turn_lookup (j : ref) :
  moveChild summary details blockquote c D !! j
  = if decide (j = c)
    then setParent (if bool_decide (Some c <> summary) then Some blockquote else None)
         <$> D !! j
    else if decide (j = details) then setKids l <$> D !! j
    else if decide (j = blockquote)
    then (fun n => setKids (n_kids n ++ kept summary [c]) n) <$> D !! j
    else D !! j.
Proof using Hready.
  destruct turn_facts as (nc & Hc & Hp & Hk & Hcb & Hcd & Hnin & Hpar).
  destruct Hready as (Hkids & _ & _ & _ & _ & Hbd).
  assert (Hwithout : forall n, D !! details = Some n -> without c (n_kids n) = l).
  { intros n Hn. unfold kidsOf in Hkids. rewrite Hn in Hkids. rewrite Hkids.
    unfold without. rewrite filter_cons_False by (intros Hne; apply Hne; reflexivity).
    apply (without_absent c l Hnin). }
  unfold moveChild, kept. destruct (bool_decide (Some c <> summary)) eqn:Hs.
  - apply bool_decide_eq_true_1 in Hs. rewrite filter_cons_True by exact Hs.
    rewrite (lookup_link _ blockquote c None j Hcb), !(lookup_unlink D c details _ Hpar Hcd).
    destruct (decide (j = c)) as [->|Hjc].
    + rewrite Hc. reflexivity.
    + destruct (decide (j = blockquote)) as [->|Hjb].
      * destruct (decide (blockquote = details)) as [Heq|_]; [contradiction|]. reflexivity.
      * destruct (decide (j = details)) as [->|Hjd]; [|reflexivity].
        destruct (D !! details) as [n|] eqn:Hn; [|reflexivity].
        cbn. rewrite (Hwithout n eq_refl). reflexivity.
  - apply bool_decide_eq_false_1 in Hs. rewrite filter_cons_False by exact Hs.
    rewrite (lookup_unlink D c details _ Hpar Hcd).
    destruct (decide (j = c)) as [->|Hjc]; [reflexivity|].
    destruct (decide (j = details)) as [->|Hjd].
    + destruct (D !! details) as [n|] eqn:Hn; [|reflexivity].
      cbn. rewrite (Hwithout n eq_refl). reflexivity.
    + destruct (decide (j = blockquote)) as [->|Hjb]; [|reflexivity].
      rewrite filter_nil. destruct (D !! blockquote) as [n|]; [|reflexivity].
      cbn. rewrite app_nil_r. destruct n; reflexivity.
Qed.

Lemma turn_movable : movable (moveChild summary details blockquote c D) details blockquote l.
Proof using Hready.
  destruct turn_facts as (nc & Hc & Hp & Hk & Hcb & Hcd & Hnin & Hpar).
  pose proof Hready as (Hkids & Hnd & Hl & Hcan & Hbp & Hbd).
  apply NoDup_cons_iff in Hnd as [_ Hnd].
  assert (Hdet : exists nd, D !! details = Some nd).
  { unfold kidsOf in Hkids. destruct (D !! details) as [nd|]; [eauto|discriminate]. }
  destruct Hdet as (nd & Hdet).
  split; [|split; [exact Hnd|split; [|split; [|split; [|exact Hbd]]]]].
  - unfold kidsOf. rewrite turn_lookup.
    destruct (decide (details = c)) as [Heq|_]; [congruence|].
    destruct (decide (details = details)) as [_|Hdd]; [|contradiction].
    rewrite Hdet. reflexivity.
  - intros c' Hc'. destruct (Hl c' (or_intror Hc')) as (nc' & Hc1 & Hp1 & Hk1 & Hcb1 & Hcd1).
    exists nc'. rewrite turn_lookup.
    destruct (decide (c' = c)) as [->|_]; [contradiction|].
    destruct (decide (c' = details)) as [Heq|_]; [contradiction|].
    destruct (decide (c' = blockquote)) as [Heq|_]; [contradiction|].
    split; [exact Hc1|]. split; [exact Hp1|]. split; [exact Hk1|].
    split; [exact Hcb1|exact Hcd1].
  - unfold canHaveChildren, kindOf in *. rewrite turn_lookup.
    destruct (decide (blockquote = c)) as [Heq|_]; [congruence|].
    destruct (decide (blockquote = details)) as [Heq|_]; [contradiction|].
    destruct (decide (blockquote = blockquote)) as [_|Hbb]; [|contradiction].
    destruct (D !! blockquote); [exact Hcan|discriminate].
  - unfold parentNode in *. rewrite turn_lookup.
    destruct (decide (blockquote = c)) as [Heq|_]; [congruence|].
    destruct (decide (blockquote = details)) as [Heq|_]; [contradiction|].
    destruct (decide (blockquote = blockquote)) as [_|Hbb]; [|contradiction].
    destruct (D !! blockquote); [exact Hbp|reflexivity].
Qed.

Lemma turn_length : length (moveChild summary details blockquote c D) = length D.
Proof using Type.
  unfold moveChild, link, unlink.
  destruct (bool_decide _); destruct (parentNode D c); rewrite ?length_update; reflexivity.
Qed.

End Turn.

Lemma turn_runs (summary : option ref) (details blockquote c : ref) (l : list ref)
    (s : state) :
  movable (s_dom s) details blockquote (c :: l) ->
  (if bool_decide (Some c <> summary) then appendChild blockquote c
   else removeChild details c) s
  = Ok tt (withDom (moveChild summary details blockquote c (s_dom s)) s).
Proof.
  intros Hready.
  destruct (turn_facts details blockquote c l (s_dom s) Hready)
    as (nc & Hc & Hp & Hk & Hcb & Hcd & Hnin & Hpar).
  destruct Hready as (Hkids & _ & _ & Hcan & Hbp & Hbd).
  unfold moveChild. destruct (bool_decide (Some c <> summary)).
  - apply (appendChild_moves blockquote c s nc Hcan); [|exact Hc|exact Hk].
    unfold isInclusiveAncestor. rewrite (parentless_lineage _ _ Hbp). cbn [existsb].
    destruct (Nat.eqb_spec c blockquote); [contradiction|reflexivity].
  - unfold removeChild, bind, getDom. rewrite bool_decide_eq_true_2 by exact Hpar.
    reflexivity.
Qed.

(** The loop [while (details.firstChild)] ends when it is given a step
    for each child: the children other than the summary are then under
    the block quote, after what it held, in their order; the summary, if
    it was a child, has no parent; [details] is empty. *)
Lemma moveDetailsContent_runs (summary : option ref) (details blockquote : ref) :
  forall (l : list ref) (n : nat) (s : state),
    length l <= n ->
    movable (s_dom s) details blockquote l ->
    exists D',
      moveDetailsContent n details blockquote summary s = Ok tt (withDom D' s) /\
      length D' = length (s_dom s) /\
      (forall c, In c l ->
         D' !! c
         = setParent (if bool_decide (Some c <> summary) then Some blockquote else None)
           <$> s_dom s !! c) /\
      D' !! details = setKids [] <$> s_dom s !! details /\
      D' !! blockquote
      = (fun n => setKids (n_kids n ++ kept summary l) n) <$> s_dom s !! blockquote /\
      forall j, ~ In j l -> j <> details -> j <> blockquote -> D' !! j = s_dom s !! j.
Proof.
  induction l as [|c l IH]; intros n s Hn Hready.
  - exists (s_dom s). destruct Hready as (Hkids & _).
    split.
    { destruct n; cbn [moveDetailsContent]; unfold bind, getDom, firstChild;
        rewrite Hkids; destruct s; reflexivity. }
    split; [reflexivity|]. split; [intros c []|].
    split.
    { unfold kidsOf in Hkids. destruct (s_dom s !! details) as [nd|]; [|reflexivity].
      cbn. rewrite (setKids_same nd Hkids). reflexivity. }
    split; [|reflexivity].
    destruct (s_dom s !! blockquote) as [nb|]; [|reflexivity].
    cbn. unfold kept. rewrite ?filter_nil, app_nil_r. destruct nb; reflexivity.
  - destruct n as [|n]; [cbn in Hn; lia|].
    pose proof (turn_runs summary details blockquote c l s Hready) as Hturn.
    pose proof (turn_movable summary details blockquote c l (s_dom s) Hready) as Hnext.
    pose proof (turn_lookup summary details blockquote c l (s_dom s) Hready) as Hlook.
    destruct (turn_facts details blockquote c l (s_dom s) Hready)
      as (nc & Hc & Hp & Hk & Hcb & Hcd & Hnin & Hpar).
    set (D1 := moveChild summary details blockquote c (s_dom s)) in *.
    destruct (IH n (withDom D1 s)) as (D' & Hrun & Hlen & H1 & H2 & H3 & H4).
    { cbn in Hn. lia. }
    { exact Hnext. }
    cbn [s_dom withDom] in *. rewrite withDom_withDom in Hrun.
    assert (Hbd : blockquote <> details) by (destruct Hready as (_ & _ & _ & _ & _ & Hbd); exact Hbd).
    exists D'. split.
    { cbn [moveDetailsContent]. unfold bind at 1. unfold getDom at 1.
      destruct Hready as (Hkids & _). unfold firstChild. rewrite Hkids. cbn [head].
      unfold bind at 1. rewrite Hturn. exact Hrun. }
    split; [rewrite Hlen; apply turn_length|].
    split.
    { intros c' [<-|Hc'].
      - rewrite (H4 c Hnin Hcd Hcb), Hlook.
        destruct (decide (c = c)) as [_|Hcc]; [reflexivity|contradiction].
      - rewrite (H1 c' Hc'), Hlook.
        destruct Hnext as (_ & _ & Hl & _).
        destruct (Hl c' Hc') as (nc' & _ & _ & _ & Hcb' & Hcd').
        destruct (decide (c' = c)) as [->|_]; [contradiction|].
        destruct (decide (c' = details)) as [Heq|_]; [contradiction|].
        destruct (decide (c' = blockquote)) as [Heq|_]; [contradiction|]. reflexivity. }
    split.
    { rewrite H2, Hlook.
      destruct (decide (details = c)) as [Heq|_]; [congruence|].
      destruct (decide (details = details)) as [_|Hdd]; [|contradiction].
      destruct (s_dom s !! details); reflexivity. }
    split.
    { rewrite H3, Hlook.
      destruct (decide (blockquote = c)) as [Heq|_]; [congruence|].
      destruct (decide (blockquote = details)) as [Heq|_]; [contradiction|].
      destruct (decide (blockquote = blockquote)) as [_|Hbb]; [|contradiction].
      destruct (s_dom s !! blockquote) as [nb|]; [|reflexivity].
      cbn [fmap option_fmap option_map]. unfold setKids.
      cbn [n_kids n_kind n_attrs n_parent]. rewrite <- app_assoc. unfold kept.
      rewrite <- filter_app. reflexivity. }
    intros j Hj Hjd Hjb. rewrite H4, Hlook; [|intros Hin; apply Hj; right; exact Hin|exact Hjd|exact Hjb].
    destruct (decide (j = c)) as [->|_]; [exfalso; apply Hj; left; reflexivity|].
    destruct (decide (j = details)) as [Heq|_]; [contradiction|].
    destruct (decide (j = blockquote)) as [Heq|_]; [contradiction|]. reflexivity.
Qed.

Lemma ancestors_avoid (d D : dom) (details : ref) (l : list ref) :
  parentsInside d = true ->
  (forall c, In c l -> parentNode d c = Some details) ->
  (forall j, j < length d -> ~ In j l -> j <> details -> parentNode D j = parentNode d j) ->
  forall fuel i,
    i < length d ->
    (forall f, existsb (Nat.eqb details) (i :: ancestors f d i) = false) ->
    ancestors fuel D i = ancestors fuel d i.
Proof.
  intros Hp Hl Hsame. induction fuel as [|fuel IH]; intros i Hi Hfree; [reflexivity|].
  assert (Hid : i <> details).
  { intros ->. specialize (Hfree 0). cbn in Hfree. rewrite Nat.eqb_refl in Hfree. discriminate. }
  assert (Hil : ~ In i l).
  { intros Hin. specialize (Hfree 1). cbn [ancestors existsb] in Hfree. rewrite (Hl i Hin) in Hfree.
    cbn [existsb] in Hfree. rewrite Nat.eqb_refl, orb_true_r in Hfree. discriminate. }
  cbn [ancestors]. rewrite (Hsame i Hi Hil Hid).
  destruct (parentNode d i) as [q|] eqn:Hq; [|reflexivity].
  assert (Hqlt : q < length d).
  { unfold parentNode in Hq. destruct (d !! i) as [n|] eqn:Hn; [|discriminate].
    apply (parentsInside_lookup d i n q Hp Hn Hq). }
  rewrite (IH q Hqlt); [reflexivity|].
  intros f. specialize (Hfree (S f)). cbn [ancestors existsb] in Hfree. rewrite Hq in Hfree.
  apply orb_false_iff in Hfree as [_ Hfree]. exact Hfree.
Qed.

Lemma title_text (i : ref) (x : option string) :
  textUnder i (orElse x "Details")
  = [{| n_kind := Text (orElse x "Details"); n_attrs := []; n_kids := [];
        n_parent := Some i |}].
Proof. destruct x as [[|a x]|]; reflexivity. Qed.

Lemma update_cons_S (k : nat) (g : node -> node) (x : node) (l : dom) :
  update (S k) g (x :: l) = x :: update k g l.
Proof. unfold update. cbn. destruct (l !! k); reflexivity. Qed.

(** [p.appendChild(i)] for two parentless nodes created after those of
    [d], [p] being the first of them. *)
Lemma appendChild_to_first (d : dom) (np : node) (ext : dom) (k : nat) (ni : node)
    (t : string) (s : state) :
  s_dom s = d ++ np :: ext ->
  n_kind np = Element t -> n_parent np = None ->
  ext !! k = Some ni -> n_parent ni = None -> n_kind ni <> Fragment ->
  appendChild (length d) (length d + S k) s
  = Ok tt (withDom (d ++ setKids (n_kids np ++ [length d + S k]) np
                      :: update k (setParent (Some (length d))) ext) s).
Proof.
  intros Hs Hkind Hpar Hi Hip Hik.
  assert (Hlp : s_dom s !! length d = Some np).
  { rewrite Hs, lookup_app_r by lia. rewrite Nat.sub_diag. reflexivity. }
  rewrite (appendChild_under (length d) (length d + S k) s ni).
  - unfold link. cbn [insBefore]. rewrite Hs, update_app_r, update_app_plus, update_cons_S.
    reflexivity.
  - unfold canHaveChildren, kindOf. rewrite Hlp, Hkind. reflexivity.
  - unfold parentNode. rewrite Hlp. exact Hpar.
  - rewrite Hs, lookup_app_plus. exact Hi.
  - exact Hip.
  - exact Hik.
  - lia.
Qed.

(** The nodes [rewriteDetails] creates after the [b] nodes of the page,
    before the content is moved. *)
Definition detailsNodes (b : nat) (title : string) : list node :=
  [ {| n_kind := Element "blockquote"; n_attrs := []; n_kids := [b + 1; b + 3];
       n_parent := None |};
    {| n_kind := Element "strong"; n_attrs := []; n_kids := [b + 2];
       n_parent := Some b |};
    {| n_kind := Text title; n_attrs := []; n_kids := []; n_parent := Some (b + 1) |};
    {| n_kind := Element "br"; n_attrs := []; n_kids := []; n_parent := Some b |} ].

Lemma rewriteDetails_opening (steps : nat) (details : ref) (s : state) :
  let d := s_dom s in
  let summary := querySelector d details (tag "summary") in
  let title := orElse (option_map (textContent d) summary) "Details" in
  kidsInside d = true -> parentsInside d = true -> steady d = true -> shallow d = true ->
  details < length d ->
  rewriteDetails steps details s
  = (do _ <- moveDetailsContent steps details (length d) summary;
     withParent details (fun p => replaceChild p (length d) details))
      (withDom (d ++ detailsNodes (length d) title) s).
Proof.
  intros d summary title Hk Hp Hst Hsh Hdlt.
  unfold rewriteDetails. unfold bind at 1. unfold createElement at 1, fresh, alloc. fold d.
  unfold bind at 1. unfold getDom at 1. cbn [s_dom withDom].
  unfold querySelector.
  rewrite (querySelectorAll_extends d _ details _ Hk Hp Hst (extends_app d _) Hdlt).
  fold (querySelector d details (tag "summary")). fold summary.
  assert (Htitle : orElse (option_map (textContent (d ++ [blankNode (Element "blockquote")]))
                             summary) "Details" = title).
  { unfold title. destruct summary as [e|] eqn:He; [|reflexivity]. cbn [option_map].
    rewrite (textContent_extends d _ e Hk Hsh (extends_app d _)); [reflexivity|].
    unfold summary, querySelector in He.
    pose proof (querySelectorAll_inside d details (tag "summary") Hk) as Hall.
    destruct (querySelectorAll d details (tag "summary")) as [|x r]; [discriminate|].
    injection He as ->. inversion Hall; assumption. }
  rewrite Htitle.
  unfold bind at 1. unfold createElement at 1, fresh, alloc. cbn [s_dom withDom].
  rewrite withDom_withDom.
  unfold bind at 1.
  rewrite (setTextContent_fresh (d ++ [blankNode (Element "blockquote")])
             (blankNode (Element "strong")) title
             (withDom ((d ++ [blankNode (Element "blockquote")])
                       ++ [blankNode (Element "strong")]) s) eq_refl eq_refl).
  cbn [s_dom withDom]. rewrite withDom_withDom.
  unfold title at 1 2. rewrite title_text. fold title.
  rewrite length_app, <- app_assoc. cbn [length app map].
  unfold bind at 1.
  erewrite (appendChild_to_first d (blankNode (Element "blockquote")) _ 0);
    [|cbn [s_dom withDom]; reflexivity|reflexivity|reflexivity|reflexivity|reflexivity
     |discriminate].
  rewrite withDom_withDom.
  unfold bind at 1. unfold createElement at 1, fresh, alloc. cbn [s_dom withDom].
  rewrite withDom_withDom, length_app, <- app_assoc. cbn [length app].
  unfold bind at 1.
  erewrite (appendChild_to_first d _ _ 2);
    [|cbn [s_dom withDom]; reflexivity|reflexivity|reflexivity|reflexivity|reflexivity
     |discriminate].
  rewrite withDom_withDom.
  replace (length d + 1 + 1) with (length d + 2) by lia. reflexivity.
Qed.

(** A [details] element becomes a block quote.  For a [details]
    element under the element [parent], whose children are given enough
    steps, [rewriteDetails] puts a new [blockquote] in its place; the
    block quote holds a [strong] with the title (the text of the first
    [summary] under [details], or [Details] when there is none or it is
    empty), a [br], and then the children of [details] other than that
    summary, in their order; [details] is left empty and without parent,
    and no other node of the page changes. *)
Theorem rewriteDetails_makes_blockquote (steps : nat) (s : state) (details parent : ref)
    (nd np : node) (tp : string) :
  let d := s_dom s in
  let summary := querySelector d details (tag "summary") in
  let title := orElse (option_map (textContent d) summary) "Details" in
  let blockquote := length d in
  kidsInside d = true -> parentsInside d = true -> steady d = true -> shallow d = true ->
  d !! details = Some nd -> n_parent nd = Some parent ->
  d !! parent = Some np -> n_kind np = Element tp ->
  List.NoDup (n_kids np) -> In details (n_kids np) ->
  List.NoDup (n_kids nd) ->
  (forall c, In c (n_kids nd) ->
     exists nc, d !! c = Some nc /\ n_parent nc = Some details /\ n_kind nc <> Fragment) ->
  (forall fuel, existsb (Nat.eqb details) (ancestors fuel d parent) = false) ->
  length (n_kids nd) <= steps ->
  exists d',
    rewriteDetails steps details s = Ok tt (withDom d' s) /\
    kidsOf d' parent = substitute details blockquote (n_kids np) /\
    d' !! blockquote
    = Some {| n_kind := Element "blockquote"; n_attrs := [];
              n_kids := [blockquote + 1; blockquote + 3] ++ kept summary (n_kids nd);
              n_parent := Some parent |} /\
    (forall k, 0 < k -> d' !! (blockquote + k) = detailsNodes blockquote title !! k) /\
    (forall c, In c (n_kids nd) ->
       d' !! c
       = setParent (if bool_decide (Some c <> summary) then Some blockquote else None)
         <$> d !! c) /\
    d' !! details = Some (setParent None (setKids [] nd)) /\
    forall j, j < length d -> ~ In j (n_kids nd) -> j <> details -> j <> parent ->
      d' !! j = d !! j.
Proof.
  intros d summary title blockquote Hk Hp Hst Hsh Hd Hdp Hpar Hpark Hnp Hinp Hnd Hkids
    Hacyclic Hsteps.
  destruct (parentsInside_lookup d details nd parent Hp Hd Hdp) as [Hplt Hpne].
  assert (Hdlt : details < length d) by (eapply lookup_lt_Some; exact Hd).
  set (D0 := d ++ detailsNodes blockquote title).
  assert (H0old : forall j, j < length d -> D0 !! j = d !! j).
  { intros j Hj. unfold D0. apply lookup_app_l. exact Hj. }
  assert (H0new : forall k, D0 !! (blockquote + k) = detailsNodes blockquote title !! k).
  { intros k. unfold D0, blockquote. apply lookup_app_plus. }
  assert (H0b : D0 !! blockquote = detailsNodes blockquote title !! 0).
  { rewrite <- (H0new 0). f_equal. lia. }
  assert (Hkidlt : forall c, In c (n_kids nd) -> c < length d).
  { intros c Hc. apply (kidsInside_lookup d details nd c Hk Hd Hc). }
  assert (Hready : movable D0 details blockquote (n_kids nd)).
  { split; [unfold kidsOf; rewrite (H0old details Hdlt), Hd; reflexivity|].
    split; [exact Hnd|]. split.
    { intros c Hc. destruct (Hkids c Hc) as (nc & Hc1 & Hc2 & Hc3).
      destruct (parentsInside_lookup d c nc details Hp Hc1 Hc2) as [_ Hne].
      exists nc. rewrite (H0old c (Hkidlt c Hc)).
      split; [exact Hc1|]. split; [exact Hc2|]. split; [exact Hc3|].
      split; [pose proof (Hkidlt c Hc); unfold blockquote; lia|congruence]. }
    split; [unfold canHaveChildren, kindOf; rewrite H0b; reflexivity|].
    split; [unfold parentNode; rewrite H0b; reflexivity|].
    unfold blockquote. lia. }
  destruct (moveDetailsContent_runs summary details blockquote (n_kids nd) steps
              (withDom D0 s) Hsteps Hready) as (D1 & Hloop & Hlen1 & H1c & H1d & H1b & H1j).
  cbn [s_dom withDom] in Hloop, Hlen1, H1c, H1d, H1b, H1j.
  rewrite withDom_withDom in Hloop.
  rewrite (H0old details Hdlt), Hd in H1d. cbn [fmap option_fmap option_map] in H1d.
  rewrite H0b in H1b. cbn [fmap option_fmap option_map detailsNodes lookup list_lookup] in H1b.
  assert (Hbnew : forall j, j < length d -> j <> blockquote) by (intros j Hj; unfold blockquote; lia).
  assert (Hpk : ~ In parent (n_kids nd)).
  { intros Hin. destruct (Hkids parent Hin) as (nc & Hc1 & Hc2 & _).
    specialize (Hacyclic 1). cbn [ancestors existsb] in Hacyclic. unfold parentNode in Hacyclic.
    rewrite Hc1, Hc2 in Hacyclic. cbn [existsb] in Hacyclic.
    rewrite Nat.eqb_refl in Hacyclic. discriminate. }
  assert (H1p : D1 !! parent = Some np).
  { rewrite H1j, H0old by (auto using Hbnew). exact Hpar. }
  assert (Hpar1 : parentNode D1 details = Some parent).
  { unfold parentNode. rewrite H1d. exact Hdp. }
  assert (Hdp' : details <> parent) by congruence.
  set (before := head (after details (n_kids np))).
  assert (Hnext : nextSibling D1 details = before).
  { unfold nextSibling, siblingsAfter, kidsOf. rewrite Hpar1, H1p. reflexivity. }
  assert (Hunb : unlink details D1 !! blockquote = D1 !! blockquote).
  { rewrite (lookup_unlink D1 details parent _ Hpar1 Hdp').
    destruct (decide (blockquote = details)) as [Heq|_]; [exfalso; apply (Hbnew details Hdlt); congruence|].
    destruct (decide (blockquote = parent)) as [Heq|_]; [exfalso; apply (Hbnew parent Hplt); congruence|].
    reflexivity. }
  assert (Hanc : isInclusiveAncestor D1 blockquote parent = false).
  { unfold isInclusiveAncestor, lineage. cbn [existsb].
    destruct (Nat.eqb_spec blockquote parent) as [Heq|_];
      [exfalso; apply (Hbnew parent Hplt); congruence|].
    cbn [orb].
    rewrite (ancestors_avoid d D1 details (n_kids nd) Hp).
    - pose proof (ancestors_inside d [] (length D1) Hp parent Hplt) as Hall.
      rewrite app_nil_r in Hall.
      induction Hall as [|j l Hj _ IH]; cbn [existsb]; [reflexivity|].
      rewrite IH, orb_false_r. apply Nat.eqb_neq. unfold blockquote. lia.
    - intros c Hc. destruct (Hkids c Hc) as (nc & Hc1 & Hc2 & _).
      unfold parentNode. rewrite Hc1. exact Hc2.
    - intros j Hj Hjl Hjd. unfold parentNode.
      rewrite (H1j j Hjl Hjd (Hbnew j Hj)), (H0old j Hj). reflexivity.
    - exact Hplt.
    - intros f. cbn [existsb]. rewrite (Hacyclic f), orb_false_r.
      apply Nat.eqb_neq. exact Hdp'. }
  exists (link parent before blockquote (unlink details D1)).
  split.
  { rewrite (rewriteDetails_opening steps details s Hk Hp Hst Hsh Hdlt).
    fold d. fold summary. fold title. fold blockquote. fold D0.
    unfold bind at 1. rewrite Hloop.
    unfold withParent, bind, getDom. cbn [s_dom withDom]. rewrite Hpar1.
    unfold replaceChild, bind, getDom. cbn [s_dom withDom].
    assert (Hcan : canHaveChildren D1 parent = true).
    { unfold canHaveChildren, kindOf. rewrite H1p, Hpark. reflexivity. }
    rewrite Hcan, Hanc. cbn [negb].
    rewrite bool_decide_eq_true_2 by exact Hpar1. cbn [negb]. rewrite Hnext.
    assert (Hbefore : match before with
                      | Some r => if r =? blockquote then nextSibling D1 blockquote else before
                      | None => None
                      end = before).
    { destruct before as [r|] eqn:Hr; [|reflexivity].
      apply head_after_In in Hr.
      pose proof (kidsInside_lookup d parent np r Hk Hpar Hr) as Hrlt.
      destruct (Nat.eqb_spec r blockquote) as [Heq|_]; [exfalso; apply (Hbnew r Hrlt Heq)|].
      reflexivity. }
    rewrite Hbefore.
    assert (Hpay : payload D1 blockquote = [blockquote]).
    { unfold payload, kindOf. rewrite H1b. reflexivity. }
    rewrite Hpay. unfold insertAll, putDom. cbn [fold_left].
    assert (Hun : unlink blockquote (unlink details D1) = unlink details D1).
    { unfold unlink at 1. unfold parentNode at 1. rewrite Hunb, H1b. reflexivity. }
    rewrite Hun, withDom_withDom. reflexivity. }
  assert (Hbp : blockquote <> parent) by (intros Heq; apply (Hbnew parent Hplt); congruence).
  assert (Hlook : forall j,
            link parent before blockquote (unlink details D1) !! j
            = if decide (j = blockquote) then setParent (Some parent) <$> D1 !! j
              else if decide (j = parent)
              then (fun n => setKids (insBefore before blockquote (without details (n_kids n))) n)
                   <$> D1 !! j
              else if decide (j = details) then setParent None <$> D1 !! j
              else D1 !! j).
  { intros j. rewrite (lookup_link _ parent blockquote before j Hbp).
    rewrite (lookup_unlink D1 details parent _ Hpar1 Hdp').
    destruct (decide (j = blockquote)) as [->|Hjb].
    - destruct (decide (blockquote = details)) as [Heq|_];
        [exfalso; apply (Hbnew details Hdlt); congruence|].
      destruct (decide (blockquote = parent)) as [Heq|_]; [contradiction|]. reflexivity.
    - destruct (decide (j = parent)) as [->|Hjp].
      + destruct (decide (parent = details)) as [Heq|_]; [congruence|].
        destruct (D1 !! parent); reflexivity.
      + destruct (decide (j = details)); reflexivity. }
  split.
  { unfold kidsOf. rewrite Hlook.
    destruct (decide (parent = blockquote)) as [Heq|_]; [congruence|].
    destruct (decide (parent = parent)) as [_|Hpp]; [|contradiction].
    rewrite H1p. cbn [fmap option_fmap option_map setKids n_kids].
    apply replace_in_place; assumption. }
  split.
  { rewrite Hlook. destruct (decide (blockquote = blockquote)) as [_|Hbb]; [|contradiction].
    rewrite H1b. reflexivity. }
  split.
  { intros k Hk0. rewrite Hlook.
    destruct (decide (blockquote + k = blockquote)) as [Heq|_]; [lia|].
    destruct (decide (blockquote + k = parent)) as [Heq|_]; [unfold blockquote in Heq; lia|].
    destruct (decide (blockquote + k = details)) as [Heq|_]; [unfold blockquote in Heq; lia|].
    rewrite H1j, H0new; [reflexivity| | |].
    - intros Hin. pose proof (Hkidlt _ Hin). unfold blockquote in *. lia.
    - unfold blockquote. lia.
    - lia. }
  split.
  { intros c Hc. pose proof (Hkidlt c Hc) as Hclt.
    destruct (Hkids c Hc) as (nc & Hc1 & Hc2 & _).
    destruct (parentsInside_lookup d c nc details Hp Hc1 Hc2) as [_ Hne].
    rewrite Hlook.
    destruct (decide (c = blockquote)) as [Heq|_]; [exfalso; apply (Hbnew c Hclt Heq)|].
    destruct (decide (c = parent)) as [Heq|_]; [exfalso; apply Hpk; rewrite <- Heq; exact Hc|].
    destruct (decide (c = details)) as [Heq|_]; [congruence|].
    rewrite (H1c c Hc), (H0old c Hclt). reflexivity. }
  split.
  { rewrite Hlook.
    destruct (decide (details = blockquote)) as [Heq|_]; [exfalso; apply (Hbnew details Hdlt Heq)|].
    destruct (decide (details = parent)) as [Heq|_]; [contradiction|].
    destruct (decide (details = details)) as [_|Hdd]; [|contradiction].
    rewrite H1d. reflexivity. }
  intros j Hj Hjl Hjd Hjp. rewrite Hlook.
  destruct (decide (j = blockquote)) as [Heq|_]; [exfalso; apply (Hbnew j Hj Heq)|].
  destruct (decide (j = parent)) as [Heq|_]; [contradiction|].
  destruct (decide (j = details)) as [Heq|_]; [contradiction|].
  rewrite (H1j j Hjl Hjd (Hbnew j Hj)). apply H0old, Hj.
Qed.

(** The page
    [<div><details><summary>More</summary><p>x</p></details></div>]. *)
Definition detailsPage : state :=
  {| s_dom := [ {| n_kind := Element "div"; n_attrs := []; n_kids := [1];
                   n_parent := None |};
                {| n_kind := Element "details"; n_attrs := []; n_kids := [2; 4];
                   n_parent := Some 0 |};
                {| n_kind := Element "summary"; n_attrs := []; n_kids := [3];
                   n_parent := Some 1 |};
                {| n_kind := Text "More"; n_attrs := []; n_kids := []; n_parent := Some 2 |};
                {| n_kind := Element "p"; n_attrs := []; n_kids := [5];
                   n_parent := Some 1 |};
                {| n_kind := Text "x"; n_attrs := []; n_kids := []; n_parent := Some 4 |} ];
     s_errors := []; s_preserved := [] |}.

Lemma rewriteDetails_makes_blockquote_witness :
  exists d',
    rewriteDetails 2 1 detailsPage = Ok tt (withDom d' detailsPage) /\
    kidsOf d' 0 = [6] /\
    d' !! 6 = Some {| n_kind := Element "blockquote"; n_attrs := [];
                      n_kids := [7; 9; 4]; n_parent := Some 0 |} /\
    (forall k, 0 < k -> d' !! (6 + k) = detailsNodes 6 "More" !! k) /\
    (forall c, In c [2; 4] ->
       d' !! c = setParent (if bool_decide (Some c <> Some 2) then Some 6 else None)
                 <$> s_dom detailsPage !! c) /\
    d' !! 1 = Some {| n_kind := Element "details"; n_attrs := []; n_kids := [];
                      n_parent := None |} /\
    forall j, j < 6 -> ~ In j [2; 4] -> j <> 1 -> j <> 0 -> d' !! j = s_dom detailsPage !! j.
Proof.
  apply (rewriteDetails_makes_blockquote 2 detailsPage 1 0
           {| n_kind := Element "details"; n_attrs := []; n_kids := [2; 4];
              n_parent := Some 0 |}
           {| n_kind := Element "div"; n_attrs := []; n_kids := [1]; n_parent := None |}
           "div"); try (vm_compute; reflexivity).
  - repeat constructor; simpl; tauto.
  - left. reflexivity.
  - repeat constructor; simpl; intuition lia.
  - intros c [<-|[<-|[]]]; eexists; (split; [reflexivity|split; [reflexivity|discriminate]]).
  - intros [|fuel]; reflexivity.
Defined.


(** ** figure and figcaption *)

(** [D] holds the nodes of [d] with their kind and their children. *)
Definition sameShape (d D : dom) : Prop :=
  forall j, j < length d -> kindOf D j = kindOf d j /\ kidsOf D j = kidsOf d j.

Lemma textOf_sameShape (d D : dom) :
  kidsInside d = true -> sameShape d D ->
  forall fuel i, i < length d -> textOf fuel D i = textOf fuel d i.
Proof.
  intros Hk Hsame. induction fuel as [|fuel IH]; intros i Hi; [reflexivity|].
  cbn [textOf]. destruct (Hsame i Hi) as [-> ->].
  destruct (kindOf d i) as [[]|]; try reflexivity;
    apply fold_right_ext_in; intros k acc Hin; rewrite IH; try reflexivity;
    apply (kidsOf_inside d i k Hk Hin).
Qed.

Lemma textContent_sameShape (d D : dom) (i : ref) :
  kidsInside d = true -> shallow d = true -> sameShape d D ->
  length d <= length D -> i < length d ->
  textContent D i = textContent d i.
Proof.
  intros Hk Hs Hsame Hlen Hi. unfold textContent.
  destruct (Hsame i Hi) as [-> _].
  pose proof (shallow_lookup d i Hs Hi) as Hf.
  rewrite (textOf_sameShape d D Hk Hsame) by exact Hi.
  replace (S (length D)) with (length d + (S (length D) - length d)) by lia.
  replace (S (length d)) with (length d + 1) by lia.
  rewrite !(textOf_shallow d (length d) i) by exact Hf. reflexivity.
Qed.

(** [p.replaceChild(new, old)] for a parentless element [new] created
    after the nodes of the page [d], in a store [D] where the nodes of
    [d] have the parents they had. *)
Lemma replaceChild_created (d D : dom) (p old : ref) (np wn : node) (tp tw : string)
    (s : state) :
  s_dom s = D ->
  kidsInside d = true -> parentsInside d = true ->
  (forall j, j < length d -> parentNode D j = parentNode d j) ->
  p < length d -> old < length d ->
  D !! p = Some np -> n_kind np = Element tp -> kidsOf d p = n_kids np ->
  parentNode D old = Some p ->
  D !! length d = Some wn -> n_kind wn = Element tw -> n_parent wn = None ->
  replaceChild p (length d) old s
  = Ok tt (withDom (link p (head (after old (n_kids np))) (length d) (unlink old D)) s).
Proof.
  intros Hs Hk Hp Hsame Hplt Holt Hnp Hnpk Hkids Hpar Hw Hwk Hwp.
  unfold replaceChild, bind, getDom. rewrite Hs.
  assert (Hc : canHaveChildren D p = true).
  { unfold canHaveChildren, kindOf. rewrite Hnp, Hnpk. reflexivity. }
  rewrite Hc. cbn [negb].
  assert (Ha : isInclusiveAncestor D (length d) p = false).
  { unfold isInclusiveAncestor, lineage. cbn [existsb].
    destruct (Nat.eqb_spec (length d) p) as [Heq|_]; [lia|]. cbn [orb].
    rewrite (ancestors_agree d D Hp Hsame _ p Hplt).
    pose proof (ancestors_inside d [] (length D) Hp p Hplt) as Hall.
    rewrite app_nil_r in Hall.
    induction Hall as [|j l Hj _ IH]; cbn [existsb]; [reflexivity|].
    rewrite IH, orb_false_r. apply Nat.eqb_neq. lia. }
  rewrite Ha. rewrite bool_decide_eq_true_2 by exact Hpar. cbn [negb].
  assert (Hnext : nextSibling D old = head (after old (n_kids np))).
  { unfold nextSibling, siblingsAfter, kidsOf. rewrite Hpar, Hnp. reflexivity. }
  rewrite Hnext.
  assert (Hbefore :
    match head (after old (n_kids np)) with
    | Some r => if r =? length d then nextSibling D (length d)
                else head (after old (n_kids np))
    | None => None
    end = head (after old (n_kids np))).
  { destruct (head (after old (n_kids np))) as [r|] eqn:Hr; [|reflexivity].
    apply head_after_In in Hr. rewrite <- Hkids in Hr.
    pose proof (kidsOf_inside d p r Hk Hr) as Hrlt.
    destruct (Nat.eqb_spec r (length d)); [lia|reflexivity]. }
  rewrite Hbefore.
  assert (Hpay : payload D (length d) = [length d]).
  { unfold payload, kindOf. rewrite Hw, Hwk. reflexivity. }
  rewrite Hpay. unfold insertAll, putDom. cbn [fold_left].
  assert (Hop : old <> p).
  { intros ->. rewrite (Hsame p Hplt) in Hpar. unfold parentNode in Hpar.
    destruct (d !! p) as [n|] eqn:Hn; [|discriminate].
    destruct (parentsInside_lookup d p n p Hp Hn Hpar) as [_ Hne]. contradiction. }
  assert (Hun : unlink (length d) (unlink old D) = unlink old D).
  { unfold unlink at 1. unfold parentNode at 1.
    rewrite (lookup_unlink D old p _ Hpar Hop).
    destruct (decide (length d = old)) as [Heq|_]; [lia|].
    destruct (decide (length d = p)) as [Heq|_]; [lia|].
    rewrite Hw, Hwp. reflexivity. }
  rewrite Hun. reflexivity.
Qed.

(** [i.cloneNode(true)] for an element without children. *)
Lemma cloneNode_leaf (i : ref) (n : node) (t : string) (s : state) :
  s_dom s !! i = Some n -> n_kind n = Element t -> n_kids n = [] ->
  cloneNode i s
  = Ok (length (s_dom s))
       (withDom (s_dom s ++ [{| n_kind := Element t; n_attrs := n_attrs n; n_kids := [];
                                n_parent := None |}]) s).
Proof.
  intros Hi Hk Hkids. unfold cloneNode, fresh, treeOf.
  rewrite (reify_element _ _ i n t Hi Hk), Hkids. cbn [map load alloc].
  rewrite update_app_r. reflexivity.
Qed.

(** The nodes [rewriteFigure] creates after the [b] nodes of the page. *)
Definition figureNodes (b : nat) (attrs : list (string * string)) (caption : string)
    (parent : option ref) : list node :=
  [ {| n_kind := Element "p"; n_attrs := []; n_kids := [b + 1; b + 2; b + 3];
       n_parent := parent |};
    {| n_kind := Element "img"; n_attrs := attrs; n_kids := []; n_parent := Some b |};
    {| n_kind := Element "br"; n_attrs := []; n_kids := []; n_parent := Some b |};
    {| n_kind := Element "em"; n_attrs := [];
       n_kids := map (fun _ => b + 3 + 1) (textUnder (b + 3) caption);
       n_parent := Some b |} ]
  ++ textUnder (b + 3) caption.

(** The attributes of the image once the caption stands in for a
    missing alternative text. *)
Definition captioned (caption : string) (attrs : list (string * string)) :
    list (string * string) :=
  if String.eqb (trim (orElse (lookupAttr "alt" attrs) EmptyString)) EmptyString
  then putAttr "alt" caption attrs else attrs.

Lemma rewriteFigure_opening (s : state) (figure img cap : ref) (ni : node) :
  let d := s_dom s in
  let caption := textContent d cap in
  let d1 := update img (setAttrs (captioned caption (n_attrs ni))) d in
  kidsInside d = true -> shallow d = true ->
  querySelector d figure (tag "img") = Some img ->
  querySelector d figure (tag "figcaption") = Some cap ->
  d !! img = Some ni -> n_kind ni = Element "img" -> n_kids ni = [] ->
  rewriteFigure figure s
  = withParent figure (fun p => replaceChild p (length d) figure)
      (withDom (d1 ++ figureNodes (length d) (captioned caption (n_attrs ni)) caption None) s).
Proof.
  intros d caption d1 Hk Hsh Himg Hcap Hi Hik Hikids.
  assert (Hclt : cap < length d).
  { unfold querySelector in Hcap.
    pose proof (querySelectorAll_inside d figure (tag "figcaption") Hk) as Hall.
    destruct (querySelectorAll d figure (tag "figcaption")) as [|x r]; [discriminate|].
    injection Hcap as ->. inversion Hall; assumption. }
  assert (Hlen1 : length d1 = length d) by (unfold d1; apply length_update).
  assert (H1 : (when (String.eqb (trim (orElse (getAttribute d img "alt") EmptyString))
                        EmptyString)
                  (modifyDom (setAttribute img "alt" caption))) s
               = Ok tt (withDom d1 s)).
  { unfold getAttribute, attrsOf, captioned, d1. fold d. rewrite Hi. unfold captioned.
    destruct (String.eqb _ _).
    - unfold when, modifyDom, setAttribute. fold d. f_equal. f_equal.
      apply update_ext_at. intros n Hn. assert (n = ni) by congruence. subst n. reflexivity.
    - unfold when, ret. f_equal. rewrite update_same; [destruct s; reflexivity|].
      intros n Hn. assert (n = ni) by congruence. subst n. destruct ni; reflexivity. }
  unfold rewriteFigure. unfold bind at 1. unfold getDom at 1. fold d.
  rewrite Himg, Hcap. fold caption. unfold bind at 1. rewrite H1.
  unfold bind at 1. unfold createElement at 1, fresh, alloc. cbn [s_dom withDom].
  rewrite withDom_withDom.
  unfold bind at 1.
  assert (Hi1 : d1 !! img = Some (setAttrs (captioned caption (n_attrs ni)) ni)).
  { unfold d1. apply lookup_update_eq. exact Hi. }
  assert (Hilt : img < length d1) by (eapply lookup_lt_Some; exact Hi1).
  rewrite (cloneNode_leaf img (setAttrs (captioned caption (n_attrs ni)) ni) "img");
    [|cbn [s_dom withDom]; rewrite lookup_app_l by exact Hilt; exact Hi1|exact Hik|exact Hikids].
  cbn [s_dom withDom setAttrs n_attrs]. rewrite withDom_withDom, length_app, <- app_assoc.
  cbn [length app].
  unfold bind at 1.
  erewrite (appendChild_to_first d1 (blankNode (Element "p")) _ 0);
    [|cbn [s_dom withDom]; reflexivity|reflexivity|reflexivity|reflexivity|reflexivity
     |discriminate].
  rewrite withDom_withDom. settle. tidy.
  unfold bind at 1. unfold createElement at 1, fresh, alloc. cbn [s_dom withDom].
  rewrite withDom_withDom, length_app. cbn [length].
  unfold bind at 1.
  replace (length d1 + 2) with (length d1 + S 1) by lia.
  rewrite <- app_assoc. cbn [app].
  erewrite (appendChild_to_first d1 _ _ 1);
    [|cbn [s_dom withDom]; reflexivity|reflexivity|reflexivity|reflexivity|reflexivity
     |discriminate].
  rewrite withDom_withDom. settle. tidy.
  unfold bind at 1. unfold createElement at 1, fresh, alloc. cbn [s_dom withDom].
  rewrite withDom_withDom, length_app. cbn [length].
  unfold bind at 1. unfold getDom at 1. cbn [s_dom withDom].
  match goal with
  | |- context [withDom ((d1 ++ ?front) ++ [?wn]) s] =>
      assert (Htext : textContent ((d1 ++ front) ++ [wn]) cap = caption);
      [|pose proof (setTextContent_fresh (d1 ++ front) wn caption
                      (withDom ((d1 ++ front) ++ [wn]) s) eq_refl eq_refl) as Hset]
  end.
  { apply (textContent_sameShape d _ cap Hk Hsh); [|rewrite !length_app; lia|exact Hclt].
    intros j Hj. unfold kindOf, kidsOf.
    rewrite <- app_assoc, lookup_app_l by lia. unfold d1. rewrite lookup_update.
    destruct (decide (img = j)) as [->|_]; [|split; reflexivity].
    fold d. rewrite Hi. split; reflexivity. }
  rewrite Htext. rewrite length_app in Hset. cbn [length] in Hset.
  unfold bind at 1. rewrite Hset. cbn [s_dom withDom]. rewrite withDom_withDom.
  rewrite <- app_assoc. cbn [app].
  unfold bind at 1.
  replace (length d1 + 3) with (length d1 + S 2) by lia.
  erewrite (appendChild_to_first d1 _ _ 2);
    [|cbn [s_dom withDom]; reflexivity|reflexivity|reflexivity|reflexivity|reflexivity
     |discriminate].
  rewrite withDom_withDom. rewrite Hlen1.
  reflexivity.
Qed.

(** A figure with an image and a caption becomes a paragraph.  When
    [figure] holds an [img] (without children) and a [figcaption], and
    is a child of the element [parent], [rewriteFigure] puts a new [p]
    in its place that holds a copy of the image, a [br] and an [em] with
    the text of the caption; the image, and so its copy, gets the caption
    as [alt] attribute when it has none or a blank one.  The figure is
    left without parent; apart from the [alt] attribute of the image, no
    other node of the page changes. *)
Theorem rewriteFigure_makes_paragraph (s : state) (figure parent img cap : ref)
    (nf np ni : node) (tp : string) :
  let d := s_dom s in
  let caption := textContent d cap in
  let attrs := captioned caption (n_attrs ni) in
  let wrapper := length d in
  kidsInside d = true -> parentsInside d = true -> shallow d = true ->
  querySelector d figure (tag "img") = Some img ->
  querySelector d figure (tag "figcaption") = Some cap ->
  d !! img = Some ni -> n_kind ni = Element "img" -> n_kids ni = [] ->
  d !! figure = Some nf -> n_parent nf = Some parent ->
  d !! parent = Some np -> n_kind np = Element tp ->
  List.NoDup (n_kids np) -> In figure (n_kids np) ->
  exists d',
    rewriteFigure figure s = Ok tt (withDom d' s) /\
    kidsOf d' parent = substitute figure wrapper (n_kids np) /\
    parentNode d' wrapper = Some parent /\
    treeOf d' wrapper
    = HElem "p" [] [HElem "img" attrs []; HElem "br" [] [];
                    HElem "em" [] (termMarkup caption)] /\
    parentNode d' figure = None /\
    forall j, j < length d -> j <> parent -> j <> figure ->
      d' !! j = if decide (j = img) then Some (setAttrs attrs ni) else d !! j.
Proof.
  intros d caption attrs wrapper Hk Hp Hsh Himg Hcap Hi Hik Hikids Hf Hfp Hpar Hpark Hnd Hin.
  destruct (parentsInside_lookup d figure nf parent Hp Hf Hfp) as [Hplt Hpne].
  assert (Hflt : figure < length d) by (eapply lookup_lt_Some; exact Hf).
  set (d1 := update img (setAttrs attrs) d).
  set (D := d1 ++ figureNodes wrapper attrs caption None).
  assert (Hlen1 : length d1 = length d) by (unfold d1; apply length_update).
  assert (H1 : forall j, d1 !! j = if decide (j = img) then Some (setAttrs attrs ni) else d !! j).
  { intros j. unfold d1. rewrite lookup_update.
    destruct (decide (img = j)) as [<-|Hne].
    - destruct (decide (img = img)) as [_|Hii]; [|contradiction]. rewrite Hi. reflexivity.
    - destruct (decide (j = img)) as [Heq|_]; [congruence|reflexivity]. }
  assert (Hold : forall j, j < length d -> D !! j = d1 !! j).
  { intros j Hj. unfold D. apply lookup_app_l. lia. }
  assert (Hnew : forall k, D !! (wrapper + k) = figureNodes wrapper attrs caption None !! k).
  { intros k. unfold D, wrapper. rewrite <- Hlen1. apply lookup_app_plus. }
  assert (Hsame : forall j, j < length d -> parentNode D j = parentNode d j).
  { intros j Hj. unfold parentNode. rewrite (Hold j Hj), H1.
    destruct (decide (j = img)) as [->|_]; [rewrite Hi|]; reflexivity. }
  assert (HDp : exists np1, D !! parent = Some np1 /\ n_kind np1 = Element tp /\
                            n_kids np1 = n_kids np).
  { rewrite (Hold parent Hplt), H1. destruct (decide (parent = img)) as [Heq|_].
    - subst img. assert (ni = np) by congruence. subst ni.
      eexists. split; [reflexivity|]. split; [exact Hpark|reflexivity].
    - exists np. split; [exact Hpar|]. split; [exact Hpark|reflexivity]. }
  destruct HDp as (np1 & HDp & Hnp1k & Hnp1kids).
  assert (HDf : parentNode D figure = Some parent).
  { rewrite (Hsame figure Hflt). unfold parentNode. rewrite Hf. exact Hfp. }
  assert (Hwrap : D !! length d = figureNodes wrapper attrs caption None !! 0).
  { rewrite <- (Hnew 0). f_equal. unfold wrapper. lia. }
  set (before := head (after figure (n_kids np))).
  exists (link parent before wrapper (unlink figure D)).
  split.
  { assert (Hopen : rewriteFigure figure s
                     = withParent figure (fun p => replaceChild p (length d) figure)
                         (withDom D s))
      by exact (rewriteFigure_opening s figure img cap ni Hk Hsh Himg Hcap Hi Hik Hikids).
    rewrite Hopen.
    unfold withParent, bind, getDom. cbn [s_dom withDom]. rewrite HDf.
    erewrite (replaceChild_created d D parent figure np1 _ tp "p" (withDom D s) eq_refl
                Hk Hp Hsame Hplt Hflt HDp Hnp1k);
      [|unfold kidsOf; rewrite Hpar; symmetry; exact Hnp1kids|exact HDf|exact Hwrap
       |reflexivity|reflexivity].
    rewrite withDom_withDom, Hnp1kids. reflexivity. }
  assert (Hwp : wrapper <> parent) by (unfold wrapper; lia).
  assert (Hfp' : figure <> parent) by congruence.
  assert (Hlook : forall j,
            link parent before wrapper (unlink figure D) !! j
            = if decide (j = wrapper) then setParent (Some parent) <$> D !! j
              else if decide (j = parent)
              then (fun n => setKids (insBefore before wrapper (without figure (n_kids n))) n)
                   <$> D !! j
              else if decide (j = figure) then setParent None <$> D !! j
              else D !! j).
  { intros j. rewrite (lookup_link _ parent wrapper before j Hwp).
    rewrite (lookup_unlink D figure parent _ HDf Hfp').
    destruct (decide (j = wrapper)) as [->|Hjw].
    - destruct (decide (wrapper = figure)) as [Heq|_]; [unfold wrapper in Heq; lia|].
      destruct (decide (wrapper = parent)) as [Heq|_]; [contradiction|]. reflexivity.
    - destruct (decide (j = parent)) as [->|Hjp].
      + destruct (decide (parent = figure)) as [Heq|_]; [congruence|].
        destruct (D !! parent); reflexivity.
      + destruct (decide (j = figure)); reflexivity. }
  assert (Hfresh : forall k, 0 < k ->
            link parent before wrapper (unlink figure D) !! (wrapper + k)
            = figureNodes wrapper attrs caption None !! k).
  { intros k Hk0. rewrite Hlook.
    destruct (decide (wrapper + k = wrapper)) as [Heq|_]; [lia|].
    destruct (decide (wrapper + k = parent)) as [Heq|_]; [unfold wrapper in Heq; lia|].
    destruct (decide (wrapper + k = figure)) as [Heq|_]; [unfold wrapper in Heq; lia|].
    apply Hnew. }
  split.
  { unfold kidsOf. rewrite Hlook.
    destruct (decide (parent = wrapper)) as [Heq|_]; [congruence|].
    destruct (decide (parent = parent)) as [_|Hpp]; [|contradiction].
    rewrite HDp. cbn [fmap option_fmap option_map setKids n_kids]. rewrite Hnp1kids.
    apply replace_in_place; assumption. }
  split.
  { unfold parentNode. rewrite Hlook.
    destruct (decide (wrapper = wrapper)) as [_|Hww]; [|contradiction].
    unfold wrapper at 1. rewrite Hwrap. reflexivity. }
  split.
  { unfold treeOf.
    set (d' := link parent before wrapper (unlink figure D)) in *.
    assert (Hlen' : length d'
                    = S (S (length d + 2 + length (textUnder (wrapper + 3) caption)))).
    { unfold d', link, unlink. rewrite HDf, !length_update. unfold D.
      rewrite length_app, Hlen1. unfold figureNodes. rewrite length_app. cbn [length]. lia. }
    rewrite Hlen'.
    rewrite (reify_element _ d' wrapper
               (setParent (Some parent)
                  {| n_kind := Element "p"; n_attrs := [];
                     n_kids := [wrapper + 1; wrapper + 2; wrapper + 3];
                     n_parent := None |}) "p");
      [|rewrite Hlook; destruct (decide (wrapper = wrapper)) as [_|Hww]; [|contradiction];
        unfold wrapper at 1; rewrite Hwrap; reflexivity|reflexivity].
    cbn [setParent n_attrs n_kids map].
    rewrite (reify_element _ d' (wrapper + 1)
               {| n_kind := Element "img"; n_attrs := attrs; n_kids := [];
                  n_parent := Some wrapper |} "img");
      [|rewrite Hfresh by lia; reflexivity|reflexivity].
    rewrite (reify_element _ d' (wrapper + 2)
               {| n_kind := Element "br"; n_attrs := []; n_kids := [];
                  n_parent := Some wrapper |} "br");
      [|rewrite Hfresh by lia; reflexivity|reflexivity].
    rewrite (reify_element _ d' (wrapper + 3)
               {| n_kind := Element "em"; n_attrs := [];
                  n_kids := map (fun _ => wrapper + 3 + 1) (textUnder (wrapper + 3) caption);
                  n_parent := Some wrapper |} "em");
      [|rewrite Hfresh by lia; reflexivity|reflexivity].
    cbn [n_attrs n_kids map]. do 4 f_equal.
    destruct caption as [|a caption'] eqn:Hcaption; [reflexivity|].
    cbn [textUnder map termMarkup length]. apply (f_equal (fun x => HElem "em" [] [x])).
    apply (reify_text _ d' _ {| n_kind := Text (String a caption'); n_attrs := [];
                                n_kids := []; n_parent := Some (wrapper + 3) |});
      [|reflexivity].
    replace (wrapper + 3 + 1) with (wrapper + 4) by lia.
    rewrite Hfresh by lia. reflexivity. }
  split.
  { unfold parentNode. rewrite Hlook.
    destruct (decide (figure = wrapper)) as [Heq|_]; [unfold wrapper in Heq; lia|].
    destruct (decide (figure = parent)) as [Heq|_]; [congruence|].
    destruct (decide (figure = figure)) as [_|Hff]; [|contradiction].
    destruct (D !! figure); reflexivity. }
  intros j Hj Hjp Hjf. rewrite Hlook.
  destruct (decide (j = wrapper)) as [Heq|_]; [unfold wrapper in Heq; lia|].
  destruct (decide (j = parent)) as [Heq|_]; [contradiction|].
  destruct (decide (j = figure)) as [Heq|_]; [contradiction|].
  rewrite (Hold j Hj). apply H1.
Qed.

(** The page
    [<div><figure><img src="a.png"><figcaption>Cap</figcaption></figure></div>]. *)
Definition figurePage : state :=
  {| s_dom := [ {| n_kind := Element "div"; n_attrs := []; n_kids := [1];
                   n_parent := None |};
                {| n_kind := Element "figure"; n_attrs := []; n_kids := [2; 3];
                   n_parent := Some 0 |};
                {| n_kind := Element "img"; n_attrs := [("src", "a.png")]; n_kids := [];
                   n_parent := Some 1 |};
                {| n_kind := Element "figcaption"; n_attrs := []; n_kids := [4];
                   n_parent := Some 1 |};
                {| n_kind := Text "Cap"; n_attrs := []; n_kids := []; n_parent := Some 3 |} ];
     s_errors := []; s_preserved := [] |}.

Lemma rewriteFigure_makes_paragraph_witness :
  exists d',
    rewriteFigure 1 figurePage = Ok tt (withDom d' figurePage) /\
    kidsOf d' 0 = [5] /\
    parentNode d' 5 = Some 0 /\
    treeOf d' 5
    = HElem "p" [] [HElem "img" [("src", "a.png"); ("alt", "Cap")] []; HElem "br" [] [];
                    HElem "em" [] [HText "Cap"]] /\
    parentNode d' 1 = None /\
    forall j, j < 5 -> j <> 0 -> j <> 1 ->
      d' !! j
      = if decide (j = 2)
        then Some {| n_kind := Element "img"; n_attrs := [("src", "a.png"); ("alt", "Cap")];
                     n_kids := []; n_parent := Some 1 |}
        else s_dom figurePage !! j.
Proof.
  apply (rewriteFigure_makes_paragraph figurePage 1 0 2 3
           {| n_kind := Element "figure"; n_attrs := []; n_kids := [2; 3];
              n_parent := Some 0 |}
           {| n_kind := Element "div"; n_attrs := []; n_kids := [1]; n_parent := None |}
           {| n_kind := Element "img"; n_attrs := [("src", "a.png")]; n_kids := [];
              n_parent := Some 1 |}
           "div"); try (vm_compute; reflexivity).
  - repeat constructor; simpl; tauto.
  - left. reflexivity.
Defined.

End RewriterFacts.

(* ================================================================== *)
(** * The rewrite of a definition list, from the first term to the last *)

Module DescriptionPairs.
Import Js Re Dom Selector Eff Platform ComplexStructure MarkdownConversion MiniBrowser.
Import PostProcessFacts StoreFacts PipelineFacts DefinitionListFacts MediaFacts.
Import AttributePassFacts RewriterFacts.
Local Open Scope eff_scope.

(** ** The nodes under a node *)

(** [under d a j]: [j] is [a] or one of its descendants. *)
Inductive under (d : dom) (a : ref) : ref -> Prop :=
| under_self : under d a a
| under_kid (i k : ref) : under d a i -> In k (kidsOf d i) -> under d a k.

Lemma under_inside (d : dom) (a j : ref) :
  kidsInside d = true -> a < length d -> under d a j -> j < length d.
Proof.
  intros Hk Ha Hu. induction Hu as [|i k _ _ Hin]; [exact Ha|].
  apply (kidsOf_inside d i k Hk Hin).
Qed.

Lemma frontier_add (d : dom) (a b : nat) (i : ref) :
  frontier (a + b) d i = flat_map (frontier b d) (frontier a d i).
Proof.
  revert i. induction a as [|a IH]; intros i; cbn [Nat.add frontier flat_map].
  - rewrite app_nil_r. reflexivity.
  - induction (kidsOf d i) as [|k ks IHk]; cbn [flat_map]; [reflexivity|].
    rewrite flat_map_app, IH, IHk. reflexivity.
Qed.

Lemma frontier_kid (d : dom) (m : nat) (a i k : ref) :
  In i (frontier m d a) -> In k (kidsOf d i) -> In k (frontier (m + 1) d a).
Proof.
  intros Hi Hk. rewrite frontier_add. apply in_flat_map. exists i. split; [exact Hi|].
  cbn [frontier]. apply in_flat_map. exists k. split; [exact Hk|left; reflexivity].
Qed.

Lemma under_frontier (d : dom) (a j : ref) :
  under d a j -> exists m, In j (frontier m d a).
Proof.
  intros Hu. induction Hu as [|i k _ [m Hm] Hk].
  - exists 0. left. reflexivity.
  - exists (m + 1). apply (frontier_kid d m a i k Hm Hk).
Qed.

Lemma frontier_cycle (d : dom) (a : ref) (c : nat) :
  In a (frontier c d a) -> forall k, In a (frontier (k * c) d a).
Proof.
  intros Hc. induction k as [|k IH]; cbn [Nat.mul]; [left; reflexivity|].
  rewrite Nat.add_comm, frontier_add. apply in_flat_map. exists a. split; assumption.
Qed.

(** In a store whose trees are finite no node is under one of its
    children. *)
Lemma no_cycle (d : dom) (a j : ref) :
  shallow d = true -> a < length d -> under d a j -> In a (kidsOf d j) -> False.
Proof.
  intros Hs Ha Hu Hk. destruct (under_frontier d a j Hu) as [m Hm].
  pose proof (frontier_kid d m a j a Hm Hk) as Hc.
  pose proof (frontier_cycle d a (m + 1) Hc (length d)) as Hin.
  pose proof (shallow_lookup d a Hs Ha) as Hnil.
  replace (length d * (m + 1)) with (length d + length d * m) in Hin by lia.
  rewrite frontier_add, Hnil in Hin. destruct Hin.
Qed.

(** ** Nodes that keep their kind, attributes and children *)

Definition shaped (d D : dom) (j : ref) : Prop :=
  setParent None <$> D !! j = setParent None <$> d !! j.

Lemma shaped_same (d D : dom) (j : ref) : D !! j = d !! j -> shaped d D j.
Proof. intros H. unfold shaped. rewrite H. reflexivity. Qed.

Lemma shaped_parent (d D : dom) (j : ref) (q : option ref) :
  D !! j = setParent q <$> d !! j -> shaped d D j.
Proof. intros H. unfold shaped. rewrite H. destruct (d !! j); reflexivity. Qed.

Lemma shaped_kind (d D : dom) (j : ref) : shaped d D j -> kindOf D j = kindOf d j.
Proof.
  unfold shaped, kindOf. destruct (D !! j) as [n'|], (d !! j) as [n|]; cbn;
    intros H; try discriminate; [|reflexivity].
  injection H as Hk _ _. rewrite Hk. reflexivity.
Qed.

Lemma shaped_kids (d D : dom) (j : ref) : shaped d D j -> kidsOf D j = kidsOf d j.
Proof.
  unfold shaped, kidsOf. destruct (D !! j) as [n'|], (d !! j) as [n|]; cbn;
    intros H; try discriminate; [|reflexivity].
  injection H as _ _ Hk. exact Hk.
Qed.

Lemma shaped_trans (d D E : dom) (j : ref) : shaped d D j -> shaped D E j -> shaped d E j.
Proof. unfold shaped. intros H1 H2. rewrite H2. exact H1. Qed.

Lemma under_shaped (d D : dom) (a j : ref) :
  (forall i, under d a i -> shaped d D i) -> under D a j -> under d a j.
Proof.
  intros Hsh Hu. induction Hu as [|i k _ IH Hk]; [constructor|].
  apply (under_kid d a i k IH). rewrite <- (shaped_kids d D i (Hsh i IH)). exact Hk.
Qed.

Lemma textOf_under (d D : dom) (a : ref) :
  (forall j, under d a j -> shaped d D j) ->
  forall fuel i, under d a i -> textOf fuel D i = textOf fuel d i.
Proof.
  intros Hsh. induction fuel as [|fuel IH]; intros i Hi; [reflexivity|].
  cbn [textOf]. rewrite (shaped_kind d D i (Hsh i Hi)), (shaped_kids d D i (Hsh i Hi)).
  destruct (kindOf d i) as [[]|]; try reflexivity;
    apply fold_right_ext_in; intros k acc Hin; rewrite IH; try reflexivity;
    apply (under_kid d a i k Hi Hin).
Qed.

(** The text of a node is read from the nodes under it. *)
Lemma textContent_under (d D : dom) (a : ref) :
  shallow d = true -> a < length d -> length d <= length D ->
  (forall j, under d a j -> shaped d D j) ->
  textContent D a = textContent d a.
Proof.
  intros Hs Ha Hlen Hsh. unfold textContent.
  rewrite (shaped_kind d D a (Hsh a (under_self d a))).
  rewrite (textOf_under d D a Hsh) by constructor.
  pose proof (shallow_lookup d a Hs Ha) as Hf.
  replace (S (length D)) with (length d + (S (length D) - length d)) by lia.
  replace (S (length d)) with (length d + 1) by lia.
  rewrite !(textOf_shallow d (length d) a) by exact Hf. reflexivity.
Qed.

(** So is its markup. *)
Lemma reify_under (d D : dom) (a : ref) :
  (forall j, under d a j -> shaped d D j) ->
  forall fuel i, under d a i -> reify fuel D i = reify fuel d i.
Proof.
  intros Hsh. induction fuel as [|fuel IH]; intros i Hi; [reflexivity|].
  cbn [reify]. pose proof (Hsh i Hi) as Hs. pose proof (shaped_kids d D i Hs) as Hkids.
  unfold shaped in Hs. unfold kidsOf in Hkids.
  assert (Hmap : forall l, (forall k, In k l -> In k (kidsOf d i)) ->
                           map (reify fuel D) l = map (reify fuel d) l).
  { intros l Hl. apply map_ext_in. intros k Hk. apply IH.
    apply (under_kid d a i k Hi (Hl k Hk)). }
  unfold kidsOf in Hmap.
  destruct (D !! i) as [n'|], (d !! i) as [n|]; cbn in Hs; try discriminate; [|reflexivity].
  injection Hs as Hkind Hattrs _. rewrite Hkind, Hattrs, Hkids.
  destruct (n_kind n); try reflexivity; rewrite Hmap by (intros k Hk; exact Hk);
    reflexivity.
Qed.

(** ** What the rewrite makes of the children of a list *)

(** The descriptions that follow a term: the [dd] elements at the head of
    the element siblings after it. *)
Fixpoint descriptionsAfter (d : dom) (l : list ref) : nat :=
  match l with
  | [] => 0
  | k :: r =>
      if isElement d k
      then if hasTag d "dd" k then S (descriptionsAfter d r) else 0
      else descriptionsAfter d r
  end.

(** The siblings after a term once its descriptions are taken out. *)
Fixpoint afterRun (d : dom) (l : list ref) : list ref :=
  match l with
  | [] => []
  | k :: r =>
      if isElement d k
      then if hasTag d "dd" k then afterRun d r else k :: r
      else k :: afterRun d r
  end.

(** The text of the term of every pair of a term and a description that
    follows it, in the order of the children [l] of the list. *)
Fixpoint pairedTerms (d : dom) (l : list ref) : list string :=
  match l with
  | [] => []
  | k :: r =>
      (if hasTag d "dt" k then List.repeat (textContent d k) (descriptionsAfter d r) else [])
      ++ pairedTerms d r
  end.

Lemma hasTag_element (d : dom) (t : string) (k : ref) :
  hasTag d t k = true -> isElement d k = true.
Proof. unfold hasTag, isElement. destruct (tagOf d k); [reflexivity|discriminate]. Qed.

Lemma hasTag_other (d : dom) (k : ref) : hasTag d "dd" k = true -> hasTag d "dt" k = false.
Proof.
  unfold hasTag. destruct (tagOf d k) as [t|]; [|discriminate].
  intros H. apply String.eqb_eq in H. subst t. reflexivity.
Qed.

Lemma afterRun_length (d : dom) (l : list ref) : length (afterRun d l) <= length l.
Proof.
  induction l as [|k r IH]; cbn [afterRun length]; [lia|].
  destruct (isElement d k); [destruct (hasTag d "dd" k)|]; cbn [length]; lia.
Qed.

Lemma afterRun_In (d : dom) (l : list ref) (x : ref) : In x (afterRun d l) -> In x l.
Proof.
  induction l as [|k r IH]; cbn [afterRun]; [intros []|].
  destruct (isElement d k); [destruct (hasTag d "dd" k)|].
  - intros H. right. apply IH, H.
  - intros H. exact H.
  - intros [->|H]; [left; reflexivity|right; apply IH, H].
Qed.

Lemma afterRun_NoDup (d : dom) (l : list ref) : List.NoDup l -> List.NoDup (afterRun d l).
Proof.
  induction l as [|k r IH]; cbn [afterRun]; [intros H; exact H|].
  intros Hnd. pose proof Hnd as Hnd'. apply NoDup_cons_iff in Hnd' as [Hk Hr].
  destruct (isElement d k); [destruct (hasTag d "dd" k)|].
  - apply IH, Hr.
  - exact Hnd.
  - apply NoDup_cons_iff. split; [|apply IH, Hr].
    intros Hin. apply Hk, (afterRun_In d r k Hin).
Qed.

Lemma afterRun_terms (d : dom) (l : list ref) :
  filter (fun k => hasTag d "dt" k = true) (afterRun d l)
  = filter (fun k => hasTag d "dt" k = true) l.
Proof.
  induction l as [|k r IH]; cbn [afterRun]; [reflexivity|].
  destruct (isElement d k) eqn:He; [destruct (hasTag d "dd" k) eqn:Hd|].
  - rewrite IH. rewrite (filter_cons_False _ k r); [reflexivity|].
    rewrite (hasTag_other d k Hd). discriminate.
  - reflexivity.
  - rewrite !filter_cons, IH. reflexivity.
Qed.

Lemma pairedTerms_afterRun (d : dom) (l : list ref) :
  pairedTerms d (afterRun d l) = pairedTerms d l.
Proof.
  induction l as [|k r IH]; cbn [afterRun]; [reflexivity|].
  destruct (isElement d k) eqn:He; [destruct (hasTag d "dd" k) eqn:Hd|].
  - rewrite IH. cbn [pairedTerms]. rewrite (hasTag_other d k Hd). reflexivity.
  - reflexivity.
  - cbn [pairedTerms]. rewrite IH.
    assert (Hdt : hasTag d "dt" k = false).
    { destruct (hasTag d "dt" k) eqn:E; [|reflexivity].
      rewrite (hasTag_element d _ k E) in He. discriminate. }
    rewrite Hdt. reflexivity.
Qed.

Lemma after_middle (x : ref) (front post : list ref) :
  ~ In x front -> after x (front ++ x :: post) = post.
Proof.
  induction front as [|y front IH]; intros Hx; cbn [app after].
  - rewrite Nat.eqb_refl. reflexivity.
  - destruct (Nat.eqb_spec y x) as [->|_]; [exfalso; apply Hx; left; reflexivity|].
    apply IH. intros Hin. apply Hx. right. exact Hin.
Qed.

Lemma without_middle (x : ref) (front post : list ref) :
  List.NoDup (front ++ x :: post) -> without x (front ++ x :: post) = front ++ post.
Proof.
  intros Hnd. apply NoDup_remove_2 in Hnd.
  rewrite without_app. unfold without at 2.
  rewrite filter_cons_False by (intros Hne; apply Hne; reflexivity).
  fold (without x post).
  rewrite (without_absent x post) by (intros Hin; apply Hnd, in_or_app; right; exact Hin).
  rewrite (without_absent x front) by (intros Hin; apply Hnd, in_or_app; left; exact Hin).
  reflexivity.
Qed.

(** ** The state of the rewrite of one list *)

Section Rewrite.
Context (d0 : dom) (dl : ref) (nd : node).
Context (Hk0 : kidsInside d0 = true) (Hs0 : shallow d0 = true).
Context (Hdl : d0 !! dl = Some nd).
Context (Hnd : List.NoDup (n_kids nd)).
Context (Hback : forall k, In k (n_kids nd) -> parentNode d0 k = Some dl).
Context (Hempty : forall k, In k (n_kids nd) -> hasTag d0 "dd" k = true -> kidsOf d0 k = []).

(** The fragment is the first node created. *)
Local Abbreviation f := (length d0).

(** [q] is a paragraph of the fragment that reads
    [<p><strong>text</strong>: </p>], made of nodes created by the
    rewrite. *)
Definition isParagraph (D : dom) (q : ref) (text : string) : Prop :=
  parentNode D q = Some f /\
  (forall fuel, reify (S (S (S fuel))) D q = termParagraph text) /\
  (forall j, under D q j -> f < j /\ j < length D).

(** The store [D] in the course of the rewrite: the list holds the
    children [K], those taken out have no parent, the fragment holds the
    paragraphs [F], which read [texts]; the other nodes are as they
    were. *)
Record listed (D : dom) (K F : list ref) (texts : list string) : Prop := Listed {
  l_length : f < length D;
  l_sub : forall k, In k K -> In k (n_kids nd);
  l_nodup : List.NoDup K;
  l_list : D !! dl = Some (setKids K nd);
  l_in : forall k, In k K -> D !! k = d0 !! k;
  l_out : forall k, In k (n_kids nd) -> ~ In k K -> D !! k = setParent None <$> d0 !! k;
  l_off : forall j, j < f -> j <> dl -> ~ In j (n_kids nd) -> D !! j = d0 !! j;
  l_frag : D !! f = Some {| n_kind := Fragment; n_attrs := []; n_kids := F;
                            n_parent := None |};
  l_paras : Forall2 (isParagraph D) F texts;
  l_fresh : List.NoDup F
}.

Lemma list_inside : dl < f.
Proof using All. eapply lookup_lt_Some; exact Hdl. Qed.

Lemma kid_inside (k : ref) : In k (n_kids nd) -> k < f.
Proof using All. intros Hin. apply (kidsInside_lookup d0 dl nd k Hk0 Hdl Hin). Qed.

Lemma kids_of_list : kidsOf d0 dl = n_kids nd.
Proof using All. unfold kidsOf. rewrite Hdl. reflexivity. Qed.

Lemma kid_not_list (k : ref) : In k (n_kids nd) -> k <> dl.
Proof using All.
  intros Hin ->. apply (no_cycle d0 dl dl Hs0 list_inside (under_self d0 dl)).
  rewrite kids_of_list. exact Hin.
Qed.

Lemma listed_shaped (D : dom) (K F : list ref) (texts : list string) (j : ref) :
  listed D K F texts -> j < f -> j <> dl -> shaped d0 D j.
Proof using All.
  intros HL Hj Hne. destruct (in_dec Nat.eq_dec j (n_kids nd)) as [Hin|Hout].
  - destruct (in_dec Nat.eq_dec j K) as [HK|HK].
    + apply shaped_same, (l_in _ _ _ _ HL j HK).
    + apply (shaped_parent d0 D j None), (l_out _ _ _ _ HL j Hin HK).
  - apply shaped_same, (l_off _ _ _ _ HL j Hj Hne Hout).
Qed.

(** The text of a term is what it was before the rewrite. *)
Lemma term_text (D : dom) (K F : list ref) (texts : list string) (t : ref) (ext : dom) :
  listed D K F texts -> In t (n_kids nd) ->
  textContent (D ++ ext) t = textContent d0 t.
Proof using All.
  intros HL Ht. pose proof (l_length _ _ _ _ HL) as Hlen.
  apply textContent_under; [exact Hs0|apply kid_inside, Ht|rewrite length_app; lia|].
  intros j Hu.
  assert (Hj : j < f) by (apply (under_inside d0 t j Hk0 (kid_inside t Ht) Hu)).
  assert (Hne : j <> dl).
  { intros ->. apply (no_cycle d0 t dl Hs0 (kid_inside t Ht) Hu).
    rewrite kids_of_list. exact Ht. }
  unfold shaped. rewrite lookup_app_l by lia.
  apply (listed_shaped D K F texts j HL Hj Hne).
Qed.

Lemma listed_kid (D : dom) (K F : list ref) (texts : list string) (k : ref) :
  listed D K F texts -> In k K ->
  parentNode D k = Some dl /\ kindOf D k = kindOf d0 k /\ kidsOf D k = kidsOf d0 k /\
  k < f /\ k <> dl.
Proof using All.
  intros HL Hk. pose proof (l_sub _ _ _ _ HL k Hk) as Hin.
  pose proof (l_in _ _ _ _ HL k Hk) as Hsame.
  split; [unfold parentNode; rewrite Hsame; apply (Hback k Hin)|].
  split; [unfold kindOf; rewrite Hsame; reflexivity|].
  split; [unfold kidsOf; rewrite Hsame; reflexivity|].
  split; [apply kid_inside, Hin|apply kid_not_list, Hin].
Qed.

Lemma listed_element (D : dom) (K F : list ref) (texts : list string) (l : list ref) :
  listed D K F texts -> (forall k, In k l -> In k (n_kids nd)) ->
  filter (fun j => isElement D j = true) l = filter (fun j => isElement d0 j = true) l.
Proof using All.
  intros HL Hl. apply (filter_ext_Forall (fun k => In k (n_kids nd))).
  - apply Forall_forall. intros k Hk. apply list_elem_of_In in Hk. apply Hl, Hk.
  - intros k Hk. unfold isElement, tagOf.
    rewrite (shaped_kind d0 D k (listed_shaped D K F texts k HL (kid_inside k Hk)
                                   (kid_not_list k Hk))).
    reflexivity.
Qed.

Lemma listed_tag (D : dom) (K F : list ref) (texts : list string) (t : string) (k : ref) :
  listed D K F texts -> In k (n_kids nd) -> hasTag D t k = hasTag d0 t k.
Proof using All.
  intros HL Hk. unfold hasTag, tagOf.
  rewrite (shaped_kind d0 D k (listed_shaped D K F texts k HL (kid_inside k Hk)
                                 (kid_not_list k Hk))).
  reflexivity.
Qed.

(** The start: the fragment is created and holds nothing. *)
Lemma listed_start : listed (d0 ++ [blankNode Fragment]) (n_kids nd) [] [].
Proof using All.
  constructor.
  - rewrite length_app. cbn [length]. lia.
  - intros k Hk. exact Hk.
  - exact Hnd.
  - rewrite lookup_app_l by apply list_inside. rewrite Hdl. destruct nd; reflexivity.
  - intros k Hk. apply lookup_app_l, kid_inside, Hk.
  - intros k Hk Hout. contradiction.
  - intros j Hj _ _. apply lookup_app_l, Hj.
  - rewrite lookup_app_r by lia. rewrite Nat.sub_diag. reflexivity.
  - constructor.
  - constructor.
Qed.

Lemma paragraph_inside (D : dom) (F : list ref) (texts : list string) (q : ref) :
  Forall2 (isParagraph D) F texts -> In q F -> f < q /\ q < length D.
Proof using All.
  intros HF Hq. induction HF as [|q' text F texts Hq' _ IH]; [destruct Hq|].
  destruct Hq as [->|Hq]; [|apply IH, Hq].
  destruct Hq' as (_ & _ & Hnew). apply (Hnew q (under_self D q)).
Qed.

Lemma NoDup_snoc (l : list ref) (x : ref) :
  List.NoDup l -> ~ In x l -> List.NoDup (l ++ [x]).
Proof using Type.
  induction l as [|y l IH]; intros Hl Hfresh; cbn [app].
  - constructor; [intros []|constructor].
  - apply NoDup_cons_iff in Hl as [Hy Hl]. apply NoDup_cons_iff. split.
    + intros Hin. apply in_app_or in Hin as [Hin|[->|[]]]; [apply Hy, Hin|].
      apply Hfresh. left. reflexivity.
    + apply IH; [exact Hl|]. intros Hin. apply Hfresh. right. exact Hin.
Qed.

(** The paragraphs made so far stay as they are when the nodes created
    by the rewrite do. *)
Lemma paragraphs_keep (D D' : dom) (F : list ref) (texts : list string) :
  length D <= length D' ->
  (forall j, f < j -> j < length D -> D' !! j = D !! j) ->
  Forall2 (isParagraph D) F texts -> Forall2 (isParagraph D') F texts.
Proof using All.
  intros Hlen Hsame HF. induction HF as [|q text F texts Hq _ IH]; constructor; [|exact IH].
  destruct Hq as (Hpar & Hread & Hnew).
  assert (Hsh : forall j, under D q j -> shaped D D' j).
  { intros j Hj. destruct (Hnew j Hj) as [H1 H2]. apply shaped_same, Hsame; assumption. }
  split; [|split].
  - destruct (Hnew q (under_self D q)) as [H1 H2].
    unfold parentNode. rewrite (Hsame q H1 H2). exact Hpar.
  - intros fuel. rewrite (reify_under D D' q Hsh) by constructor. apply Hread.
  - intros j Hj. pose proof (under_shaped D D' q j Hsh Hj) as Hj'.
    destruct (Hnew j Hj') as [H1 H2]. split; [exact H1|lia].
Qed.

(** ** One turn of the loop over the descriptions of a term *)

Ltac cases :=
  repeat match goal with
         | |- context [decide ?P] => destruct (decide P); subst; try lia; try congruence
         end;
  try reflexivity.

Lemma paired_lookup (text : string) (D : dom) (dd j : ref) :
  j < length D -> dd <> dl -> dd < f -> 
  paired text D f dd dl !! j
  = if decide (j = dd) then setParent None <$> D !! j
    else if decide (j = dl)
    then (fun n => setKids (without dd (n_kids n)) n) <$> D !! j
    else if decide (j = f)
    then (fun n => setKids (n_kids n
                            ++ [length D + (1 + length (textUnder (length D) text))]) n)
         <$> D !! j
    else D !! j.
Proof using All.
  intros Hj H1 H2. pose proof list_inside as Hl.
  rewrite paired_old by exact Hj. rewrite !lookup_update. cases.
Qed.

Lemma paired_isParagraph (text : string) (D : dom) (dd : ref) :
  f < length D ->
  isParagraph (paired text D f dd dl)
              (length D + (1 + length (textUnder (length D) text))) text.
Proof using All.
  intros Hlen. split; [|split].
  - unfold parentNode. rewrite paired_new. unfold paragraphNodes.
    destruct text; reflexivity.
  - intros fuel. apply paired_paragraph.
  - intros j Hj.
    assert (Hin : length D <= j /\ j < length (paired text D f dd dl)).
    { rewrite paired_length. induction Hj as [|i k _ IH Hk]; [lia|].
      replace i with (length D + (i - length D)) in Hk by lia.
      unfold kidsOf in Hk. rewrite paired_new in Hk. unfold paragraphNodes in Hk.
      destruct text as [|c text]; cbn [textUnder length app map] in *;
        destruct (i - length D) as [|[|[|[|o]]]]; cbn in Hk;
        repeat (destruct Hk as [<-|Hk]; [lia|]); try destruct Hk; lia. }
    lia.
Qed.

Lemma listed_paired (text : string) (D : dom) (front post F : list ref)
    (texts : list string) (dd : ref) :
  listed D (front ++ dd :: post) F texts ->
  listed (paired text D f dd dl) (front ++ post)
         (F ++ [length D + (1 + length (textUnder (length D) text))]) (texts ++ [text]).
Proof using All.
  intros HL. pose proof list_inside as Hl. pose proof (l_length _ _ _ _ HL) as Hlen.
  assert (HddK : In dd (front ++ dd :: post)) by (apply in_elt).
  destruct (listed_kid D _ F texts dd HL HddK) as (Hpar & _ & _ & Hdlt & Hddl).
  pose proof (NoDup_remove_2 _ _ _ (l_nodup _ _ _ _ HL)) as Hfresh.
  assert (Hsub : forall k, In k (front ++ post) -> In k (front ++ dd :: post)).
  { intros k Hk. apply in_app_or in Hk as [Hk|Hk]; apply in_or_app;
      [left|right; right]; exact Hk. }
  constructor.
  - rewrite paired_length. lia.
  - intros k Hk. apply (l_sub _ _ _ _ HL), Hsub, Hk.
  - apply (NoDup_remove_1 _ _ _ (l_nodup _ _ _ _ HL)).
  - rewrite paired_lookup by (assumption || lia). cases.
    rewrite (l_list _ _ _ _ HL). cbn [fmap option_fmap option_map].
    unfold setKids. cbn [n_kids n_kind n_attrs n_parent].
    rewrite (without_middle dd front post (l_nodup _ _ _ _ HL)). reflexivity.
  - intros k Hk. pose proof (Hsub k Hk) as HkK.
    destruct (listed_kid D _ F texts k HL HkK) as (_ & _ & _ & Hklt & Hkdl).
    rewrite paired_lookup by (assumption || lia). cases.
    apply (l_in _ _ _ _ HL k HkK).
  - intros k Hk Hout. pose proof (kid_inside k Hk) as Hklt.
    pose proof (kid_not_list k Hk) as Hkdl.
    rewrite paired_lookup by (assumption || lia). cases.
    + rewrite (l_in _ _ _ _ HL dd HddK). reflexivity.
    + apply (l_out _ _ _ _ HL k Hk). intros HkK.
      apply in_app_or in HkK as [HkK|[->|HkK]];
        [apply Hout, in_or_app; left; exact HkK|congruence
        |apply Hout, in_or_app; right; exact HkK].
  - intros j Hj Hjl Hout. rewrite paired_lookup by (assumption || lia). cases.
    + exfalso. apply Hout, (l_sub _ _ _ _ HL), HddK.
    + apply (l_off _ _ _ _ HL j Hj Hjl Hout).
  - rewrite paired_lookup by (assumption || lia). cases.
    rewrite (l_frag _ _ _ _ HL). reflexivity.
  - apply Forall2_app.
    + apply (paragraphs_keep D); [rewrite paired_length; lia| |apply (l_paras _ _ _ _ HL)].
      intros j Hj1 Hj2. rewrite paired_lookup by (assumption || lia). cases.
    + constructor; [|constructor]. apply paired_isParagraph, Hlen.
  - apply NoDup_snoc; [apply (l_fresh _ _ _ _ HL)|]. intros Hin.
    pose proof (paragraph_inside D F texts _ (l_paras _ _ _ _ HL) Hin). lia.
Qed.

(** The term is taken out of the list. *)
Lemma listed_unlink (D : dom) (front post F : list ref) (texts : list string) (t : ref) :
  listed D (front ++ t :: post) F texts ->
  listed (unlink t D) (front ++ post) F texts.
Proof using All.
  intros HL. pose proof list_inside as Hl. pose proof (l_length _ _ _ _ HL) as Hlen.
  assert (HtK : In t (front ++ t :: post)) by (apply in_elt).
  destruct (listed_kid D _ F texts t HL HtK) as (Hpar & _ & _ & Htlt & Htdl).
  pose proof (NoDup_remove_2 _ _ _ (l_nodup _ _ _ _ HL)) as Hfresh.
  assert (Hsub : forall k, In k (front ++ post) -> In k (front ++ t :: post)).
  { intros k Hk. apply in_app_or in Hk as [Hk|Hk]; apply in_or_app;
      [left|right; right]; exact Hk. }
  assert (Hlength : length (unlink t D) = length D).
  { unfold unlink. rewrite Hpar, !length_update. reflexivity. }
  constructor.
  - rewrite Hlength. exact Hlen.
  - intros k Hk. apply (l_sub _ _ _ _ HL), Hsub, Hk.
  - apply (NoDup_remove_1 _ _ _ (l_nodup _ _ _ _ HL)).
  - rewrite (lookup_unlink D t dl dl Hpar Htdl). cases.
    rewrite (l_list _ _ _ _ HL). cbn [fmap option_fmap option_map].
    unfold setKids. cbn [n_kids n_kind n_attrs n_parent].
    rewrite (without_middle t front post (l_nodup _ _ _ _ HL)). reflexivity.
  - intros k Hk. pose proof (Hsub k Hk) as HkK.
    destruct (listed_kid D _ F texts k HL HkK) as (_ & _ & _ & Hklt & Hkdl).
    rewrite (lookup_unlink D t dl k Hpar Htdl). cases.
    apply (l_in _ _ _ _ HL k HkK).
  - intros k Hk Hout. pose proof (kid_inside k Hk) as Hklt.
    pose proof (kid_not_list k Hk) as Hkdl.
    rewrite (lookup_unlink D t dl k Hpar Htdl). cases.
    + rewrite (l_in _ _ _ _ HL t HtK). reflexivity.
    + apply (l_out _ _ _ _ HL k Hk). intros HkK.
      apply in_app_or in HkK as [HkK|[->|HkK]];
        [apply Hout, in_or_app; left; exact HkK|congruence
        |apply Hout, in_or_app; right; exact HkK].
  - intros j Hj Hjl Hout. rewrite (lookup_unlink D t dl j Hpar Htdl). cases.
    + exfalso. apply Hout, (l_sub _ _ _ _ HL), HtK.
    + apply (l_off _ _ _ _ HL j Hj Hjl Hout).
  - rewrite (lookup_unlink D t dl f Hpar Htdl). cases. apply (l_frag _ _ _ _ HL).
  - apply (paragraphs_keep D); [rewrite Hlength; lia| |apply (l_paras _ _ _ _ HL)].
    intros j Hj1 Hj2. rewrite (lookup_unlink D t dl j Hpar Htdl). cases.
  - apply (l_fresh _ _ _ _ HL).
Qed.

(** ** The loops *)

Lemma next_in_list (D : dom) (front post F : list ref) (texts : list string) (k : ref) :
  listed D (front ++ k :: post) F texts ->
  nextElementSibling D k = head (filter (fun j => isElement d0 j = true) post).
Proof using All.
  intros HL.
  assert (HkK : In k (front ++ k :: post)) by (apply in_elt).
  destruct (listed_kid D _ F texts k HL HkK) as (Hpar & _).
  pose proof (NoDup_remove_2 _ _ _ (l_nodup _ _ _ _ HL)) as Hfresh.
  unfold nextElementSibling, siblingsAfter. rewrite Hpar.
  unfold kidsOf. rewrite (l_list _ _ _ _ HL). cbn [setKids n_kids].
  rewrite after_middle by (intros Hin; apply Hfresh, in_or_app; left; exact Hin).
  rewrite (listed_element D _ F texts post HL); [reflexivity|].
  intros j Hj. apply (l_sub _ _ _ _ HL), in_or_app. right. right. exact Hj.
Qed.

(** The loop over the descriptions that follow the term [t]: a paragraph
    for each of them, in their order. *)
Lemma run_descriptions (steps : nat) (s : state) (t : ref) :
  In t (n_kids nd) ->
  forall post front D F texts n,
    listed D (front ++ post) F texts -> length post <= n ->
    exists D' F',
      pairDescriptions steps n t f
        (head (filter (fun j => isElement d0 j = true) post)) (withDom D s)
      = Ok tt (withDom D' s) /\
      listed D' (front ++ afterRun d0 post) (F ++ F')
             (texts ++ List.repeat (textContent d0 t) (descriptionsAfter d0 post)).
Proof using All.
  intros Ht. induction post as [|k r IH]; intros front D F texts n HL Hlen.
  - exists D, []. split; [apply pairDescriptions_none; exact I|].
    cbn [afterRun descriptionsAfter List.repeat]. rewrite !app_nil_r in *. exact HL.
  - cbn [afterRun descriptionsAfter].
    assert (HkK : In k (front ++ k :: r)) by (apply in_elt).
    pose proof (l_sub _ _ _ _ HL k HkK) as Hkin.
    destruct (isElement d0 k) eqn:He.
    + rewrite filter_cons_True by exact He. cbn [head].
      destruct (hasTag d0 "dd" k) eqn:Hd.
      * destruct n as [|n]; [cbn [length] in Hlen; lia|].
        destruct (listed_kid D _ F texts k HL HkK) as (Hpar & _ & Hkids & Hklt & Hkdl).
        pose proof list_inside as Hl. pose proof (l_length _ _ _ _ HL) as HDlen.
        rewrite (pairDescriptions_turn steps n t f k dl (textContent d0 t)).
        -- cbn [s_dom withDom]. rewrite withDom_withDom.
           rewrite (next_in_list D front r F texts k HL).
           destruct (IH front _ _ _ n (listed_paired (textContent d0 t) D front r F texts k HL))
             as (D' & F' & Hrun & HL'); [cbn [length] in Hlen; lia|].
           exists D', ((length D + (1 + length (textUnder (length D) (textContent d0 t))))
                       :: F').
           split; [exact Hrun|].
           cbn [List.repeat]. rewrite <- !app_assoc in HL'. exact HL'.
        -- cbn [s_dom withDom]. rewrite (listed_tag D _ F texts "dd" k HL Hkin). exact Hd.
        -- cbn [s_dom withDom]. rewrite Hkids. apply (Hempty k Hkin Hd).
        -- exact Hpar.
        -- cbn [s_dom withDom]. lia.
        -- intros Heq. apply Hkdl. symmetry. exact Heq.
        -- cbn [s_dom withDom]. intros j Hj. unfold kidsOf in Hj.
           rewrite (l_list _ _ _ _ HL) in Hj. cbn [setKids n_kids] in Hj.
           pose proof (kid_inside j (l_sub _ _ _ _ HL j Hj)). lia.
        -- lia.
        -- cbn [s_dom withDom]. unfold kindOf. rewrite (l_frag _ _ _ _ HL). reflexivity.
        -- cbn [s_dom withDom]. unfold parentNode. rewrite (l_frag _ _ _ _ HL). reflexivity.
        -- cbn [s_dom withDom]. apply (term_text D _ F texts t _ HL Ht).
      * exists D, []. split.
        -- apply pairDescriptions_none. cbn [s_dom withDom].
           rewrite (listed_tag D _ F texts "dd" k HL Hkin). exact Hd.
        -- cbn [List.repeat]. rewrite !app_nil_r. exact HL.
    + rewrite filter_cons_False by (rewrite He; discriminate).
      replace (front ++ k :: r) with ((front ++ [k]) ++ r) in HL
        by (rewrite <- app_assoc; reflexivity).
      destruct (IH (front ++ [k]) D F texts n HL) as (D' & F' & Hrun & HL');
        [cbn [length] in Hlen; lia|].
      exists D', F'. split; [exact Hrun|].
      rewrite <- app_assoc in HL'. exact HL'.
Qed.

(** The callback of the loop over the terms. *)
Lemma rewriteTerm_runs (steps : nat) (s : state) (t : ref) (pre post : list ref) (D : dom)
    (F : list ref) (texts : list string) :
  listed D (pre ++ t :: post) F texts -> length post <= steps ->
  exists D' F',
    rewriteTerm steps f t (withDom D s) = Ok tt (withDom D' s) /\
    listed D' (pre ++ afterRun d0 post) (F ++ F')
           (texts ++ List.repeat (textContent d0 t) (descriptionsAfter d0 post)).
Proof using All.
  intros HL Hlen.
  assert (HtK : In t (pre ++ t :: post)) by (apply in_elt).
  pose proof (l_sub _ _ _ _ HL t HtK) as Ht.
  unfold rewriteTerm. unfold bind at 1. unfold getDom at 1. cbn [s_dom withDom].
  rewrite (next_in_list D pre post F texts t HL).
  replace (pre ++ t :: post) with ((pre ++ [t]) ++ post) in HL
    by (rewrite <- app_assoc; reflexivity).
  destruct (run_descriptions steps s t Ht post (pre ++ [t]) D F texts steps HL Hlen)
    as (D1 & F1 & Hrun & HL1).
  unfold bind at 1. rewrite Hrun.
  rewrite <- app_assoc in HL1. cbn [app] in HL1.
  assert (Ht1 : In t (pre ++ t :: afterRun d0 post)) by (apply in_elt).
  destruct (listed_kid D1 _ _ _ t HL1 Ht1) as (Hpar & _).
  exists (unlink t D1), F1. split; [|apply listed_unlink, HL1].
  unfold withParent, bind, getDom. cbn [s_dom withDom]. rewrite Hpar.
  unfold removeChild, bind, getDom. cbn [s_dom withDom].
  rewrite bool_decide_eq_true_2 by exact Hpar.
  unfold putDom. rewrite withDom_withDom. reflexivity.
Qed.

(** The loop over the terms. *)
Lemma rewriteTerms_run (steps : nat) (s : state) :
  forall n rest pre D F texts,
    length rest <= n -> length rest <= steps ->
    listed D (pre ++ rest) F texts ->
    exists D' K' F',
      forEach (filter (fun k => hasTag d0 "dt" k = true) rest) (rewriteTerm steps f)
              (withDom D s)
      = Ok tt (withDom D' s) /\
      listed D' K' (F ++ F') (texts ++ pairedTerms d0 rest).
Proof using All.
  induction n as [|n IH]; intros rest pre D F texts Hn Hsteps HL.
  - destruct rest; [|cbn [length] in Hn; lia].
    exists D, (pre ++ []), []. split; [reflexivity|].
    cbn [pairedTerms]. rewrite !app_nil_r in *. exact HL.
  - destruct rest as [|k r].
    + exists D, (pre ++ []), []. split; [reflexivity|].
      cbn [pairedTerms]. rewrite !app_nil_r in *. exact HL.
    + cbn [length] in Hn, Hsteps. cbn [pairedTerms].
      destruct (hasTag d0 "dt" k) eqn:Hdt.
      * rewrite filter_cons_True by exact Hdt. cbn [forEach].
        destruct (rewriteTerm_runs steps s k pre r D F texts HL) as (D1 & F1 & Hrun & HL1);
          [lia|].
        unfold bind at 1. rewrite Hrun.
        pose proof (afterRun_length d0 r) as Hshort.
        destruct (IH (afterRun d0 r) pre D1 _ _ ltac:(lia) ltac:(lia) HL1)
          as (D' & K' & F' & Hloop & HL').
        rewrite afterRun_terms in Hloop. rewrite pairedTerms_afterRun in HL'.
        exists D', K', (F1 ++ F'). split; [exact Hloop|].
        rewrite <- !app_assoc in HL'. exact HL'.
      * rewrite filter_cons_False by (rewrite Hdt; discriminate).
        replace (pre ++ k :: r) with ((pre ++ [k]) ++ r) in HL
          by (rewrite <- app_assoc; reflexivity).
        destruct (IH r (pre ++ [k]) D F texts ltac:(lia) ltac:(lia) HL)
          as (D' & K' & F' & Hloop & HL').
        exists D', K', F'. split; [exact Hloop|]. cbn [app]. exact HL'.
Qed.


End Rewrite.

(** ** The fragment is put in the place of the list *)

Lemma length_unlink (i : ref) (D : dom) : length (unlink i D) = length D.
Proof. unfold unlink. destruct (parentNode D i); rewrite ?length_update; reflexivity. Qed.

Lemma length_link (p i : ref) (before : option ref) (D : dom) :
  length (link p before i D) = length D.
Proof. unfold link. rewrite !length_update. reflexivity. Qed.

Lemma length_insertAll (p : ref) (before : option ref) (l : list ref) :
  forall D, length (insertAll p before l D) = length D.
Proof.
  unfold insertAll. induction l as [|q l IH]; intros D; cbn [fold_left]; [reflexivity|].
  rewrite IH, length_link, length_unlink. reflexivity.
Qed.

(** The children [l] of the fragment [f] are moved under [p]. *)
Lemma insertAll_moves (p f : ref) (before : option ref) :
  p <> f ->
  forall l D,
    List.NoDup l ->
    (forall q, In q l -> parentNode D q = Some f /\ q <> p /\ q <> f) ->
    forall j,
      insertAll p before l D !! j
      = if decide (j = p)
        then (fun n => setKids (fold_left (fun ks q => insBefore before q ks) l (n_kids n)) n)
             <$> D !! j
        else if decide (j = f)
        then (fun n => setKids (fold_left (fun ks q => without q ks) l (n_kids n)) n)
             <$> D !! j
        else if in_dec Nat.eq_dec j l then setParent (Some p) <$> D !! j
        else D !! j.
Proof.
  intros Hpf. induction l as [|q l IH]; intros D Hnd Hl j.
  - cbn [insertAll fold_left]. unfold insertAll. cbn [fold_left].
    destruct (decide (j = p)); [destruct (D !! j) as [[]|]; reflexivity|].
    destruct (decide (j = f)); [destruct (D !! j) as [[]|]; reflexivity|].
    destruct (in_dec Nat.eq_dec j []) as [[]|_]. reflexivity.
  - apply NoDup_cons_iff in Hnd as [Hq Hnd].
    destruct (Hl q (or_introl eq_refl)) as (Hpar & Hqp & Hqf).
    unfold insertAll. cbn [fold_left].
    fold (insertAll p before l (link p before q (unlink q D))).
    assert (Hstep : forall i,
              link p before q (unlink q D) !! i
              = if decide (i = q) then setParent (Some p) <$> D !! i
                else if decide (i = p)
                then (fun n => setKids (insBefore before q (n_kids n)) n) <$> D !! i
                else if decide (i = f)
                then (fun n => setKids (without q (n_kids n)) n) <$> D !! i
                else D !! i).
    { intros i. rewrite (lookup_link _ p q before i Hqp).
      rewrite !(lookup_unlink D q f _ Hpar Hqf).
      repeat match goal with
             | |- context [decide ?P] => destruct (decide P); subst; try congruence
             end; try reflexivity.
      destruct (D !! q) as [[]|]; reflexivity. }
    rewrite IH; [|exact Hnd|].
    + rewrite Hstep.
      destruct (decide (j = p)) as [->|Hjp].
      * destruct (decide (p = q)) as [Heq|_]; [congruence|].
        destruct (D !! p) as [n|]; reflexivity.
      * destruct (decide (j = f)) as [->|Hjf].
        -- destruct (decide (f = q)) as [Heq|_]; [congruence|].
           destruct (D !! f) as [n|]; reflexivity.
        -- destruct (decide (j = q)) as [->|Hjq].
           ++ destruct (in_dec Nat.eq_dec q l) as [Hin|_]; [contradiction|].
              destruct (in_dec Nat.eq_dec q (q :: l)) as [_|Hout];
                [reflexivity|exfalso; apply Hout; left; reflexivity].
           ++ destruct (in_dec Nat.eq_dec j l) as [Hin|Hout];
                destruct (in_dec Nat.eq_dec j (q :: l)) as [Hin'|Hout'];
                try reflexivity.
              ** exfalso. apply Hout'. right. exact Hin.
              ** destruct Hin' as [Heq|Hin']; [congruence|contradiction].
    + intros q' Hq'. destruct (Hl q' (or_intror Hq')) as (Hpar' & Hq'p & Hq'f).
      split; [|split; assumption].
      unfold parentNode. rewrite Hstep.
      destruct (decide (q' = q)) as [->|_]; [contradiction|].
      destruct (decide (q' = p)) as [Heq|_]; [contradiction|].
      destruct (decide (q' = f)) as [Heq|_]; [contradiction|].
      exact Hpar'.
Qed.

Lemma insAt_middle (r q : ref) (a b : list ref) :
  ~ In r a -> insAt r q (a ++ r :: b) = a ++ q :: r :: b.
Proof.
  induction a as [|x a IH]; intros Hr; cbn [app insAt].
  - rewrite Nat.eqb_refl. reflexivity.
  - destruct (Nat.eqb_spec x r) as [->|_]; [exfalso; apply Hr; left; reflexivity|].
    rewrite IH; [reflexivity|]. intros Hin. apply Hr. right. exact Hin.
Qed.

Lemma fold_insAt (r : ref) (l : list ref) :
  ~ In r l ->
  forall a b, ~ In r a ->
    fold_left (fun ks q => insBefore (Some r) q ks) l (a ++ r :: b) = a ++ l ++ r :: b.
Proof.
  induction l as [|q l IH]; intros Hl a b Ha; cbn [fold_left app]; [reflexivity|].
  cbn [insBefore]. rewrite insAt_middle by exact Ha.
  replace (a ++ q :: r :: b) with ((a ++ [q]) ++ r :: b) by (rewrite <- app_assoc; reflexivity).
  rewrite IH.
  - rewrite <- app_assoc. reflexivity.
  - intros Hin. apply Hl. right. exact Hin.
  - intros Hin. apply in_app_or in Hin as [Hin|[->|[]]]; [apply Ha, Hin|].
    apply Hl. left. reflexivity.
Qed.

Lemma fold_without (l : list ref) :
  List.NoDup l -> fold_left (fun ks q => without q ks) l l = [].
Proof.
  induction l as [|q l IH]; intros Hnd; cbn [fold_left]; [reflexivity|].
  apply NoDup_cons_iff in Hnd as [Hq Hnd].
  unfold without at 2. rewrite filter_cons_False by (intros Hne; apply Hne; reflexivity).
  fold (without q l). rewrite (without_absent q l Hq). apply IH, Hnd.
Qed.

Lemma ancestors_old (D : dom) (b : nat) :
  (forall j q, j < b -> parentNode D j = Some q -> q < b) ->
  forall fuel i, i < b -> Forall (fun j => j < b) (ancestors fuel D i).
Proof.
  intros Hold. induction fuel as [|fuel IH]; intros i Hi; cbn [ancestors]; [constructor|].
  destruct (parentNode D i) as [q|] eqn:Hq; [|constructor].
  pose proof (Hold i q Hi Hq) as Hlt. constructor; [exact Hlt|apply IH, Hlt].
Qed.

Lemma not_under_old (D : dom) (b i : nat) :
  (forall j q, j < b -> parentNode D j = Some q -> q < b) -> i < b ->
  isInclusiveAncestor D b i = false.
Proof.
  intros Hold Hi. unfold isInclusiveAncestor, lineage. cbn [existsb].
  apply orb_false_iff. split; [apply Nat.eqb_neq; lia|].
  pose proof (ancestors_old D b Hold (length D) i Hi) as Hall.
  induction Hall as [|j l Hj _ IH]; cbn [existsb]; [reflexivity|].
  rewrite IH, orb_false_r. apply Nat.eqb_neq. lia.
Qed.

(** C6, as the code has it.  The rewrite makes its paragraphs in the loop
    over the descriptions of a term: one for each pair of a term and a
    description that follows it, and none for a term that no description
    follows.  For a list [dl] of the page whose terms are children of the
    list and whose descriptions have no content, [rewriteDefinitionList]
    returns; the list is replaced among the children of its parent by the
    paragraphs, which come in the order of the terms and, for one term, of
    its descriptions, and each of which reads
    [<p><strong>text of the term</strong>: </p>]; the list is left without
    parent, and no node of the page other than the parent, the list and
    the children of the list changes. *)
Theorem rewriteDefinitionList_pairs (steps : nat) (s : state) (dl p : ref) (nd np : node)
    (front back : list ref) :
  let d := s_dom s in
  kidsInside d = true -> parentsInside d = true -> shallow d = true ->
  d !! dl = Some nd -> n_parent nd = Some p ->
  d !! p = Some np -> n_kids np = front ++ dl :: back -> List.NoDup (n_kids np) ->
  canHaveChildren d p = true ->
  List.NoDup (n_kids nd) ->
  (forall k, In k (n_kids nd) -> parentNode d k = Some dl) ->
  (forall k, In k (n_kids nd) -> hasTag d "dd" k = true -> kidsOf d k = []) ->
  querySelectorAll d dl (tag "dt") = filter (fun k => hasTag d "dt" k = true) (n_kids nd) ->
  length (n_kids nd) <= steps ->
  exists d' paragraphs,
    rewriteDefinitionList steps dl s = Ok tt (withDom d' s) /\
    kidsOf d' p = front ++ paragraphs ++ back /\
    map (treeOf d') paragraphs = map termParagraph (pairedTerms d (n_kids nd)) /\
    (forall q, In q paragraphs -> length d < q /\ parentNode d' q = Some p) /\
    parentNode d' dl = None /\
    forall j, j < length d -> j <> p -> j <> dl -> ~ In j (n_kids nd) -> d' !! j = d !! j.
Proof.
  intros d Hk Hp Hs Hdl Hpar Hnp Hkids Hndp Hcan Hnd Hback Hempty Hterms Hsteps.
  destruct (parentsInside_lookup d dl nd p Hp Hdl Hpar) as [Hplt Hpdl].
  assert (Hdlt : dl < length d) by (eapply lookup_lt_Some; exact Hdl).
  assert (Hin : In dl (kidsOf d p)).
  { unfold kidsOf. rewrite Hnp, Hkids. apply in_elt. }
  assert (Hpk : ~ In p (n_kids nd)).
  { intros Hin'. apply (no_cycle d p dl Hs Hplt (under_kid d p p dl (under_self d p) Hin)).
    unfold kidsOf. rewrite Hdl. exact Hin'. }
  destruct (rewriteTerms_run d dl nd Hk Hs Hdl Hnd Hback Hempty steps s
              (length (n_kids nd)) (n_kids nd) [] (d ++ [blankNode Fragment]) [] []
              (le_n _) Hsteps (listed_start d dl nd Hk Hs Hdl Hnd Hback Hempty))
    as (D & K & F & Hloop & HL).
  cbn [app] in HL, Hloop.
  pose proof (l_length _ _ _ _ _ _ _ HL) as HDlen.
  pose proof (l_paras _ _ _ _ _ _ _ HL) as HF.
  assert (HFin : forall q, In q F -> length d < q /\ q < length D).
  { intros q Hq. apply (paragraph_inside d dl nd Hk Hs Hdl Hnd Hback Hempty D F _ q HF Hq). }
  assert (HDp : D !! p = Some np).
  { rewrite (l_off _ _ _ _ _ _ _ HL p Hplt Hpdl Hpk). exact Hnp. }
  assert (HDdl : D !! dl = Some (setKids K nd)) by apply (l_list _ _ _ _ _ _ _ HL).
  assert (HDf : D !! length d
                = Some {| n_kind := Fragment; n_attrs := []; n_kids := F; n_parent := None |})
    by apply (l_frag _ _ _ _ _ _ _ HL).
  assert (Hold : forall j q, j < length d -> parentNode D j = Some q -> q < length d).
  { intros j q Hj Hq. 
    destruct (Nat.eq_dec j dl) as [->|Hjdl].
    - unfold parentNode in Hq. rewrite HDdl in Hq. cbn in Hq. congruence.
    - destruct (in_dec Nat.eq_dec j (n_kids nd)) as [Hjk|Hjk].
      + destruct (in_dec Nat.eq_dec j K) as [HjK|HjK].
        * unfold parentNode in Hq. rewrite (l_in _ _ _ _ _ _ _ HL j HjK) in Hq.
          fold (parentNode d j) in Hq. rewrite (Hback j Hjk) in Hq. congruence.
        * unfold parentNode in Hq. rewrite (l_out _ _ _ _ _ _ _ HL j Hjk HjK) in Hq.
          destruct (d !! j); discriminate.
      + unfold parentNode in Hq. rewrite (l_off _ _ _ _ _ _ _ HL j Hj Hjdl Hjk) in Hq.
        destruct (d !! j) as [n|] eqn:Hn; [|discriminate].
        apply (parentsInside_lookup d j n q Hp Hn Hq). }
  set (D2 := insertAll p (Some dl) F D).
  assert (HD2 : forall j,
            D2 !! j
            = if decide (j = p)
              then (fun n => setKids (fold_left (fun ks q => insBefore (Some dl) q ks) F
                                        (n_kids n)) n) <$> D !! j
              else if decide (j = length d)
              then (fun n => setKids (fold_left (fun ks q => without q ks) F (n_kids n)) n)
                   <$> D !! j
              else if in_dec Nat.eq_dec j F then setParent (Some p) <$> D !! j
              else D !! j).
  { apply insertAll_moves; [lia|apply (l_fresh _ _ _ _ _ _ _ HL)|].
    intros q Hq. destruct (HFin q Hq) as [H1 H2].
    split; [|split; lia].
    clear -HF Hq. induction HF as [|q' text F texts Hq' _ IH]; [destruct Hq|].
    destruct Hq as [->|Hq]; [apply Hq'|apply IH, Hq]. }
  assert (HD2dl : D2 !! dl = Some (setKids K nd)).
  { rewrite HD2. destruct (decide (dl = p)) as [Heq|_]; [congruence|].
    destruct (decide (dl = length d)) as [Heq|_]; [lia|].
    destruct (in_dec Nat.eq_dec dl F) as [Hq|_]; [destruct (HFin dl Hq); lia|]. exact HDdl. }
  assert (Hpar2 : parentNode D2 dl = Some p).
  { unfold parentNode. rewrite HD2dl. exact Hpar. }
  exists (unlink dl D2), F.
  assert (Hlen' : length (unlink dl D2) = length D).
  { rewrite length_unlink. unfold D2. apply length_insertAll. }
  assert (Hfin : forall j,
            unlink dl D2 !! j
            = if decide (j = dl) then setParent None <$> D2 !! j
              else if decide (j = p)
              then (fun n => setKids (without dl (n_kids n)) n) <$> D2 !! j
              else D2 !! j).
  { intros j. apply (lookup_unlink D2 dl p j Hpar2). intros Heq. apply Hpdl. symmetry. exact Heq. }
  split; [|split; [|split; [|split; [|split]]]].
  - unfold rewriteDefinitionList. unfold bind at 1. unfold getDom at 1. fold d.
    rewrite Hterms. cbv zeta.
    unfold bind at 1. unfold createDocumentFragment, fresh, alloc. fold d. cbv iota beta.
    unfold bind at 1. rewrite Hloop.
    assert (HparD : parentNode D dl = Some p) by (unfold parentNode; rewrite HDdl; exact Hpar).
    assert (HcanD : canHaveChildren D p = true).
    { unfold canHaveChildren, kindOf in *. rewrite HDp. rewrite Hnp in Hcan. exact Hcan. }
    unfold bind at 1. unfold withParent at 1. unfold bind at 1. unfold getDom at 1.
    cbn [s_dom withDom]. rewrite HparD.
    unfold insertBefore. unfold bind at 1. unfold getDom at 1. cbn [s_dom withDom].
    rewrite HcanD, (not_under_old D (length d) p Hold Hplt). cbn [negb].
    rewrite bool_decide_eq_true_2 by exact HparD. cbn [negb].
    destruct (Nat.eqb_spec dl (length d)) as [Heq|_]; [lia|].
    assert (Hpay : payload D (length d) = F).
    { unfold payload, kindOf, kidsOf. rewrite HDf. reflexivity. }
    rewrite Hpay. fold D2. unfold putDom. rewrite withDom_withDom.
    unfold withParent, bind, getDom. cbn [s_dom withDom]. rewrite Hpar2.
    unfold removeChild, bind, getDom. cbn [s_dom withDom].
    rewrite bool_decide_eq_true_2 by exact Hpar2.
    unfold putDom. rewrite withDom_withDom. reflexivity.
  - unfold kidsOf. rewrite Hfin.
    destruct (decide (p = dl)) as [Heq|_]; [congruence|].
    destruct (decide (p = p)) as [_|Hne]; [|contradiction].
    rewrite HD2. destruct (decide (p = p)) as [_|Hne]; [|contradiction].
    rewrite HDp. cbn [fmap option_fmap option_map]. unfold setKids.
    cbn [n_kids n_kind n_attrs n_parent]. rewrite Hkids.
    rewrite Hkids in Hndp. apply NoDup_remove_2 in Hndp.
    rewrite fold_insAt;
      [|intros Hq; destruct (HFin dl Hq); lia
       |intros Hq; apply Hndp, in_or_app; left; exact Hq].
    rewrite !without_app. unfold without at 3.
    rewrite filter_cons_False by (intros Hne; apply Hne; reflexivity).
    fold (without dl back).
    rewrite (without_absent dl front) by (intros Hq; apply Hndp, in_or_app; left; exact Hq).
    rewrite (without_absent dl back) by (intros Hq; apply Hndp, in_or_app; right; exact Hq).
    rewrite (without_absent dl F) by (intros Hq; destruct (HFin dl Hq); lia).
    reflexivity.
  - assert (Hsh : forall j, length d < j -> j < length D -> shaped D (unlink dl D2) j).
    { intros j Hj1 Hj2. rewrite <- Hlen' in Hj2. unfold shaped. rewrite Hfin.
      destruct (decide (j = dl)) as [Heq|_]; [lia|].
      destruct (decide (j = p)) as [Heq|_]; [lia|].
      rewrite HD2.
      destruct (decide (j = p)) as [Heq|_]; [lia|].
      destruct (decide (j = length d)) as [Heq|_]; [lia|].
      destruct (in_dec Nat.eq_dec j F); [|reflexivity].
      destruct (D !! j); reflexivity. }
    set (E := unlink dl D2) in *. clearbody E. clear -HF Hsh Hlen' HDlen.
    induction HF as [|q text F texts Hq _ IH]; cbn [map]; [reflexivity|].
    rewrite IH. f_equal.
    destruct Hq as (_ & Hread & Hnew).
    unfold treeOf. rewrite Hlen'.
    destruct (Hnew q (under_self D q)) as [H1 H2].
    replace (S (length D)) with (S (S (S (length D - 2)))) by lia.
    rewrite (reify_under D E q) by
      (try constructor; intros j Hj; destruct (Hnew j Hj); apply Hsh; assumption).
    apply Hread.
  - intros q Hq. destruct (HFin q Hq) as [H1 H2]. split; [exact H1|].
    unfold parentNode. rewrite Hfin.
    destruct (decide (q = dl)) as [Heq|_]; [lia|].
    destruct (decide (q = p)) as [Heq|_]; [lia|].
    rewrite HD2.
    destruct (decide (q = p)) as [Heq|_]; [lia|].
    destruct (decide (q = length d)) as [Heq|_]; [lia|].
    destruct (in_dec Nat.eq_dec q F) as [_|Hout]; [|contradiction].
    destruct (D !! q) as [n|] eqn:Hn; [reflexivity|].
    apply lookup_ge_None in Hn. lia.
  - unfold parentNode. rewrite Hfin.
    destruct (decide (dl = dl)) as [_|Hne]; [|contradiction].
    rewrite HD2dl. reflexivity.
  - intros j Hj Hjp Hjdl Hjk. rewrite Hfin.
    destruct (decide (j = dl)) as [Heq|_]; [contradiction|].
    destruct (decide (j = p)) as [Heq|_]; [contradiction|].
    rewrite HD2.
    destruct (decide (j = p)) as [Heq|_]; [contradiction|].
    destruct (decide (j = length d)) as [Heq|_]; [lia|].
    destruct (in_dec Nat.eq_dec j F) as [Hq|_]; [destruct (HFin j Hq); lia|].
    apply (l_off _ _ _ _ _ _ _ HL j Hj Hjdl Hjk).
Qed.

(** The page [<div><dl><dt>T</dt><dd></dd> <dd></dd><dt>U</dt><dd></dd></dl><p></p></div>]. *)
Definition listPage : state :=
  {| s_dom := [ {| n_kind := Element "div"; n_attrs := []; n_kids := [1; 10];
                   n_parent := None |};
                {| n_kind := Element "dl"; n_attrs := []; n_kids := [2; 4; 5; 6; 7; 9];
                   n_parent := Some 0 |};
                {| n_kind := Element "dt"; n_attrs := []; n_kids := [3];
                   n_parent := Some 1 |};
                {| n_kind := Text "T"; n_attrs := []; n_kids := []; n_parent := Some 2 |};
                {| n_kind := Element "dd"; n_attrs := []; n_kids := [];
                   n_parent := Some 1 |};
                {| n_kind := Text " "; n_attrs := []; n_kids := []; n_parent := Some 1 |};
                {| n_kind := Element "dd"; n_attrs := []; n_kids := [];
                   n_parent := Some 1 |};
                {| n_kind := Element "dt"; n_attrs := []; n_kids := [8];
                   n_parent := Some 1 |};
                {| n_kind := Text "U"; n_attrs := []; n_kids := []; n_parent := Some 7 |};
                {| n_kind := Element "dd"; n_attrs := []; n_kids := [];
                   n_parent := Some 1 |};
                {| n_kind := Element "p"; n_attrs := []; n_kids := []; n_parent := Some 0 |} ];
     s_errors := []; s_preserved := [] |}.

Lemma rewriteDefinitionList_pairs_witness :
  exists d' paragraphs,
    rewriteDefinitionList 6 1 listPage = Ok tt (withDom d' listPage) /\
    kidsOf d' 0 = [] ++ paragraphs ++ [10] /\
    map (treeOf d') paragraphs = map termParagraph ["T"; "T"; "U"] /\
    (forall q, In q paragraphs -> 11 < q /\ parentNode d' q = Some 0) /\
    parentNode d' 1 = None /\
    forall j, j < 11 -> j <> 0 -> j <> 1 -> ~ In j [2; 4; 5; 6; 7; 9] ->
              d' !! j = s_dom listPage !! j.
Proof.
  apply (rewriteDefinitionList_pairs 6 listPage 1 0
           {| n_kind := Element "dl"; n_attrs := []; n_kids := [2; 4; 5; 6; 7; 9];
              n_parent := Some 0 |}
           {| n_kind := Element "div"; n_attrs := []; n_kids := [1; 10]; n_parent := None |}
           [] [10]); try (vm_compute; reflexivity).
  - repeat constructor; simpl; intuition lia.
  - repeat constructor; simpl; intuition lia.
  - intros k Hk. simpl in Hk. intuition (subst; reflexivity).
  - intros k Hk. simpl in Hk. intuition (subst; try reflexivity; discriminate).
Defined.

End DescriptionPairs.

(* ================================================================== *)
(** * The page is left alone

    The services work on copies: a container parsed from the markup, a
    clone of the element given.  The nodes that were in the store before
    a call are those of the page; what follows shows that the calls
    leave them as they were. *)

Module FrameFacts.
Import Js Re Dom Selector Eff Platform ComplexStructure MarkdownConversion MiniBrowser.
Import PostProcessFacts StoreFacts PipelineFacts DefinitionListFacts MediaFacts.
Local Open Scope eff_scope.

Section Frame.
Context (d : dom).

(** The nodes created since point to nodes created since. *)
Definition newer (D : dom) : Prop :=
  forall j n, D !! j = Some n -> length d <= j ->
    Forall (fun k => length d <= k) (n_kids n) /\
    (forall q, n_parent n = Some q -> length d <= q).

(** [D] holds the nodes of [d], unchanged, and after them nodes that
    do not point back to those. *)
Definition framed (D : dom) : Prop := extends d D /\ newer D.

Lemma framed_start : framed d.
Proof using Type.
  split; [intros j Hj; reflexivity|].
  intros j n Hn Hj. apply lookup_lt_Some in Hn. lia.
Qed.

Lemma framed_length (D : dom) : framed D -> length d <= length D.
Proof using Type. intros [He _]. apply extends_length, He. Qed.

Lemma framed_update (D : dom) (i : ref) (f : node -> node) :
  framed D -> length d <= i ->
  (forall n, D !! i = Some n ->
     Forall (fun k => length d <= k) (n_kids n) ->
     (forall q, n_parent n = Some q -> length d <= q) ->
     Forall (fun k => length d <= k) (n_kids (f n)) /\
     (forall q, n_parent (f n) = Some q -> length d <= q)) ->
  framed (update i f D).
Proof using Type.
  intros [He Hn] Hi Hf. split; [apply extends_update; assumption|].
  intros j n Hj Hlj. rewrite lookup_update in Hj.
  destruct (decide (i = j)) as [<-|Hne]; [|apply (Hn j n Hj Hlj)].
  destruct (D !! i) as [n0|] eqn:Hn0; [|discriminate].
  injection Hj as <-. destruct (Hn i n0 Hn0 Hi) as [Hk Hp].
  apply (Hf n0 eq_refl Hk Hp).
Qed.

Lemma framed_app (D ext : dom) :
  framed D ->
  Forall (fun n => Forall (fun k => length d <= k) (n_kids n) /\
                   (forall q, n_parent n = Some q -> length d <= q)) ext ->
  framed (D ++ ext).
Proof using Type.
  intros HD Hext. pose proof (framed_length D HD) as Hlen. destruct HD as [He Hn]. split.
  - intros j Hj. rewrite lookup_app_l by lia. apply He, Hj.
  - intros j n Hj Hlj. destruct (decide (j < length D)) as [Hlt|Hge].
    + rewrite lookup_app_l in Hj by exact Hlt. apply (Hn j n Hj Hlj).
    + rewrite lookup_app_r in Hj by lia. rewrite Forall_forall in Hext.
      apply Hext. eapply list_elem_of_lookup_2. exact Hj.
Qed.

Lemma framed_alloc (D : dom) (k : kind) : framed D -> framed (D ++ [blankNode k]).
Proof using Type.
  intros HD. apply framed_app; [exact HD|]. constructor; [|constructor].
  split; [constructor|discriminate].
Qed.

Lemma framed_setAttrs (D : dom) (i : ref) (g : node -> list (string * string)) :
  framed D -> length d <= i -> framed (update i (fun n => setAttrs (g n) n) D).
Proof using Type.
  intros HD Hi. apply framed_update; [exact HD|exact Hi|].
  intros n _ Hk Hp. split; assumption.
Qed.

Lemma framed_setParent (D : dom) (i : ref) (p : option ref) :
  framed D -> length d <= i -> (forall q, p = Some q -> length d <= q) ->
  framed (update i (setParent p) D).
Proof using Type.
  intros HD Hi Hp. apply framed_update; [exact HD|exact Hi|].
  intros n _ Hk _. split; [exact Hk|exact Hp].
Qed.

Lemma framed_setKids (D : dom) (i : ref) (g : node -> list ref) :
  framed D -> length d <= i ->
  (forall n, Forall (fun k => length d <= k) (n_kids n) ->
             Forall (fun k => length d <= k) (g n)) ->
  framed (update i (fun n => setKids (g n) n) D).
Proof using Type.
  intros HD Hi Hg. apply framed_update; [exact HD|exact Hi|].
  intros n _ Hk Hp. split; [apply Hg, Hk|exact Hp].
Qed.

(** ** What is read from a node created since *)

Lemma kidsOf_new (D : dom) (i : ref) :
  framed D -> length d <= i -> Forall (fun k => length d <= k) (kidsOf D i).
Proof using Type.
  intros [_ Hn] Hi. unfold kidsOf. destruct (D !! i) as [n|] eqn:Hi'; [|constructor].
  apply (Hn i n Hi' Hi).
Qed.

Lemma parentNode_new (D : dom) (i q : ref) :
  framed D -> length d <= i -> parentNode D i = Some q -> length d <= q.
Proof using Type.
  intros [_ Hn] Hi. unfold parentNode. destruct (D !! i) as [n|] eqn:Hi'; [|discriminate].
  apply (Hn i n Hi' Hi).
Qed.

Lemma descendants_new (D : dom) :
  framed D ->
  forall fuel i, length d <= i -> Forall (fun k => length d <= k) (descendants fuel D i).
Proof using Type.
  intros HD. induction fuel as [|fuel IH]; intros i Hi; cbn [descendants]; [constructor|].
  pose proof (kidsOf_new D i HD Hi) as Hk.
  induction Hk as [|k l Hk _ IHl]; cbn [flat_map]; [constructor|].
  constructor; [exact Hk|]. apply Forall_app. split; [apply IH, Hk|exact IHl].
Qed.

Lemma querySelectorAll_new (D : dom) (scope : ref) (sel : selector) :
  framed D -> length d <= scope ->
  Forall (fun k => length d <= k) (querySelectorAll D scope sel).
Proof using Type.
  intros HD Hs. unfold querySelectorAll. apply Forall_forall. intros j Hj.
  apply list_elem_of_filter in Hj as [_ Hj].
  pose proof (descendants_new D HD (length D) scope Hs) as Hf.
  rewrite Forall_forall in Hf. apply Hf, Hj.
Qed.

Lemma querySelector_new (D : dom) (scope : ref) (sel : selector) (x : ref) :
  framed D -> length d <= scope -> querySelector D scope sel = Some x -> length d <= x.
Proof using Type.
  intros HD Hs. unfold querySelector.
  pose proof (querySelectorAll_new D scope sel HD Hs) as Hall.
  destruct (querySelectorAll D scope sel) as [|y l]; [discriminate|].
  intros [= <-]. inversion Hall; assumption.
Qed.

Lemma firstChild_new (D : dom) (i c : ref) :
  framed D -> length d <= i -> firstChild D i = Some c -> length d <= c.
Proof using Type.
  intros HD Hi. unfold firstChild. pose proof (kidsOf_new D i HD Hi) as Hall.
  destruct (kidsOf D i) as [|y l]; [discriminate|].
  intros [= <-]. inversion Hall; assumption.
Qed.

Lemma after_new (i : ref) (l : list ref) :
  Forall (fun k => length d <= k) l -> Forall (fun k => length d <= k) (after i l).
Proof using Type.
  induction 1 as [|x l Hx Hl IH]; cbn [after]; [constructor|].
  destruct (x =? i); [exact Hl|exact IH].
Qed.

Lemma siblingsAfter_new (D : dom) (i : ref) :
  framed D -> length d <= i -> Forall (fun k => length d <= k) (siblingsAfter D i).
Proof using Type.
  intros HD Hi. unfold siblingsAfter. destruct (parentNode D i) as [p|] eqn:Hp; [|constructor].
  apply after_new, kidsOf_new; [exact HD|]. apply (parentNode_new D i p HD Hi Hp).
Qed.

Lemma nextSibling_new (D : dom) (i x : ref) :
  framed D -> length d <= i -> nextSibling D i = Some x -> length d <= x.
Proof using Type.
  intros HD Hi. unfold nextSibling. pose proof (siblingsAfter_new D i HD Hi) as Hall.
  destruct (siblingsAfter D i) as [|y l]; [discriminate|].
  intros [= <-]. inversion Hall; assumption.
Qed.

Lemma nextElementSibling_new (D : dom) (i x : ref) :
  framed D -> length d <= i -> nextElementSibling D i = Some x -> length d <= x.
Proof using Type.
  intros HD Hi. unfold nextElementSibling. intros Hx.
  pose proof (siblingsAfter_new D i HD Hi) as Hall. rewrite Forall_forall in Hall.
  apply Hall.
  destruct (filter _ (siblingsAfter D i)) as [|y l] eqn:Hf; [discriminate|].
  injection Hx as ->.
  assert (Hin : x ∈ filter (fun j => isElement D j = true) (siblingsAfter D i)).
  { rewrite Hf. apply elem_of_cons. left. reflexivity. }
  apply list_elem_of_filter in Hin as [_ Hin]. exact Hin.
Qed.

Lemma parentElement_new (D : dom) (i q : ref) :
  framed D -> length d <= i -> parentElement D i = Some q -> length d <= q.
Proof using Type.
  intros HD Hi. unfold parentElement. destruct (parentNode D i) as [p|] eqn:Hp; [|discriminate].
  destruct (isElement D p); [|discriminate]. intros [= <-].
  apply (parentNode_new D i p HD Hi Hp).
Qed.


(** ** Moving nodes created since *)

Lemma framed_unlink (D : dom) (i : ref) :
  framed D -> length d <= i -> framed (unlink i D).
Proof using Type.
  intros HD Hi. unfold unlink. destruct (parentNode D i) as [p|] eqn:Hp; [|exact HD].
  apply framed_setParent; [|exact Hi|discriminate].
  apply framed_setKids; [exact HD|apply (parentNode_new D i p HD Hi Hp)|].
  intros n Hk. unfold without. rewrite Forall_forall in *. intros k Hin.
  apply list_elem_of_filter in Hin as [_ Hin]. apply Hk, Hin.
Qed.

Lemma insAt_new (r i : ref) (l : list ref) :
  length d <= i -> Forall (fun k => length d <= k) l ->
  Forall (fun k => length d <= k) (insAt r i l).
Proof using Type.
  intros Hi. induction 1 as [|x l Hx Hl IH]; cbn [insAt].
  - constructor; [exact Hi|constructor].
  - destruct (x =? r).
    + constructor; [exact Hi|]. constructor; assumption.
    + constructor; assumption.
Qed.

Lemma insBefore_new (b : option ref) (i : ref) (l : list ref) :
  length d <= i -> Forall (fun k => length d <= k) l ->
  Forall (fun k => length d <= k) (insBefore b i l).
Proof using Type.
  intros Hi Hl. destruct b as [r|]; cbn [insBefore].
  - apply insAt_new; assumption.
  - apply Forall_app. split; [exact Hl|]. constructor; [exact Hi|constructor].
Qed.

Lemma framed_link (D : dom) (p : ref) (b : option ref) (i : ref) :
  framed D -> length d <= p -> length d <= i -> framed (link p b i D).
Proof using Type.
  intros HD Hp Hi. unfold link.
  apply framed_setParent; [|exact Hi|intros q [= <-]; exact Hp].
  apply framed_setKids; [exact HD|exact Hp|].
  intros n Hk. apply insBefore_new; assumption.
Qed.

Lemma framed_insertAll (p : ref) (b : option ref) (l : list ref) :
  length d <= p -> Forall (fun k => length d <= k) l ->
  forall D, framed D -> framed (insertAll p b l D).
Proof using Type.
  intros Hp. unfold insertAll. induction 1 as [|x l Hx _ IH]; intros D HD; cbn [fold_left].
  - exact HD.
  - apply IH. apply framed_link; [|exact Hp|exact Hx]. apply framed_unlink; assumption.
Qed.

Lemma payload_new (D : dom) (i : ref) :
  framed D -> length d <= i -> Forall (fun k => length d <= k) (payload D i).
Proof using Type.
  intros HD Hi. unfold payload.
  destruct (kindOf D i) as [[]|]; try (constructor; [exact Hi|constructor]).
  apply kidsOf_new; assumption.
Qed.

Lemma framed_orphans (l : list ref) :
  Forall (fun k => length d <= k) l ->
  forall D, framed D -> framed (fold_left (fun D k => update k (setParent None) D) l D).
Proof using Type.
  induction 1 as [|k l Hk _ IH]; intros D HD; cbn [fold_left]; [exact HD|].
  apply IH. apply framed_setParent; [exact HD|exact Hk|discriminate].
Qed.

Lemma framed_clearKids (D : dom) (i : ref) :
  framed D -> length d <= i -> framed (clearKids i D).
Proof using Type.
  intros HD Hi. unfold clearKids.
  apply (framed_setKids _ i (fun _ => [])); [|exact Hi|constructor].
  apply framed_orphans; [apply kidsOf_new; assumption|exact HD].
Qed.

(** ** Loading markup *)

Definition loadsNewer (h : html) : Prop :=
  forall p D, framed D -> (forall q, p = Some q -> length d <= q) ->
    length d <= fst (load h p D) /\ framed (snd (load h p D)).

Lemma loadForest_newer (ks : list html) :
  Forall loadsNewer ks ->
  forall p D, framed D -> (forall q, p = Some q -> length d <= q) ->
    Forall (fun k => length d <= k) (fst (loadForest ks p D)) /\
    framed (snd (loadForest ks p D)).
Proof using Type.
  induction 1 as [|k ks Hk _ IH]; intros p D HD Hp; cbn [loadForest].
  - split; [constructor|exact HD].
  - destruct (Hk p D HD Hp) as [Hi HD1].
    destruct (load k p D) as [j D1]. cbn [fst snd] in Hi, HD1.
    destruct (IH p D1 HD1 Hp) as [Hids HD2].
    destruct (loadForest ks p D1) as [js D2]. cbn [fst snd] in *.
    split; [constructor; assumption|exact HD2].
Qed.

Lemma load_newer (h : html) : loadsNewer h.
Proof using Type.
  induction h as [t a ks IH|x|x] using html_ind2; intros p D HD Hp.
  - rewrite load_children. unfold alloc.
    pose proof (framed_length D HD) as Hlen.
    assert (HD1 : framed (D ++ [{| n_kind := Element t; n_attrs := a; n_kids := [];
                                   n_parent := p |}])).
    { apply framed_app; [exact HD|]. constructor; [|constructor].
      split; [constructor|exact Hp]. }
    destruct (loadForest_newer ks IH (Some (length D)) _ HD1) as [Hids HD2].
    { intros q [= <-]. exact Hlen. }
    destruct (loadForest ks (Some (length D)) _) as [ids D2]. cbn [fst snd] in *.
    split; [exact Hlen|].
    apply (framed_setKids _ _ (fun _ => ids)); [exact HD2|exact Hlen|].
    intros _ _. exact Hids.
  - cbn [load]. unfold alloc. cbn [fst snd]. split; [apply framed_length, HD|].
    apply framed_app; [exact HD|]. constructor; [|constructor].
    split; [constructor|exact Hp].
  - cbn [load]. unfold alloc. cbn [fst snd]. split; [apply framed_length, HD|].
    apply framed_app; [exact HD|]. constructor; [|constructor].
    split; [constructor|exact Hp].
Qed.

Lemma loadForest_framed (ks : list html) (p : option ref) (D : dom) :
  framed D -> (forall q, p = Some q -> length d <= q) ->
  Forall (fun k => length d <= k) (fst (loadForest ks p D)) /\
  framed (snd (loadForest ks p D)).
Proof using Type.
  apply loadForest_newer. apply Forall_forall. intros h _. apply load_newer.
Qed.

(** ** Calls that keep to the nodes created since *)

Context (loops : bool).

(** The outcome of a call leaves the page alone; with [loops] off, the
    call has returned or thrown. *)
Definition fine {A} (good : A -> Prop) (r : res A) : Prop :=
  match r with
  | Ok a s' => framed (s_dom s') /\ good a
  | Throw _ s' => framed (s_dom s')
  | OutOfFuel => loops = true
  end.

Definition keeps {A} (good : A -> Prop) (m : M A) : Prop :=
  forall s, framed (s_dom s) -> fine good (m s).

Definition any {A} : A -> Prop := fun _ => True.
Definition new : ref -> Prop := fun r => length d <= r.

Lemma keeps_ret {A} (good : A -> Prop) (a : A) : good a -> keeps good (ret a).
Proof using Type. intros Ha s Hs. split; assumption. Qed.

Lemma keeps_throw {A} (good : A -> Prop) (e : string) : keeps good (throw e).
Proof using Type. intros s Hs. exact Hs. Qed.

Lemma keeps_bind {A B} (g1 : A -> Prop) (g2 : B -> Prop) (m : M A) (k : A -> M B) :
  keeps g1 m -> (forall a, g1 a -> keeps g2 (k a)) -> keeps g2 (bind m k).
Proof using Type.
  intros Hm Hk s Hs. unfold bind. specialize (Hm s Hs).
  destruct (m s) as [a s'|e s'|]; [|exact Hm|exact Hm].
  destruct Hm as [Hs' Ha]. apply (Hk a Ha s' Hs').
Qed.

Lemma keeps_weaken {A} (g g' : A -> Prop) (m : M A) :
  (forall a, g a -> g' a) -> keeps g m -> keeps g' m.
Proof using Type.
  intros Hg Hm s Hs. specialize (Hm s Hs).
  destruct (m s) as [a s'|e s'|]; [|exact Hm|exact Hm].
  destruct Hm as [Hs' Ha]. split; [exact Hs'|apply Hg, Ha].
Qed.

Lemma keeps_read {A} (good : A -> Prop) (k : dom -> M A) :
  (forall D, framed D -> keeps good (k D)) -> keeps good (bind getDom k).
Proof using Type. intros Hk s Hs. unfold bind, getDom. apply (Hk (s_dom s) Hs s Hs). Qed.

Lemma keeps_forEach {A} (l : list A) (f : A -> M unit) :
  (forall x, x ∈ l -> keeps any (f x)) -> keeps any (forEach l f).
Proof using Type.
  induction l as [|x l IH]; intros Hf; cbn [forEach].
  - apply keeps_ret. exact I.
  - apply (keeps_bind any); [apply Hf, elem_of_cons; left; reflexivity|].
    intros _ _. apply IH. intros y Hy. apply Hf, elem_of_cons. right. exact Hy.
Qed.

Lemma keeps_each (l : list ref) (f : ref -> M unit) :
  Forall new l -> (forall x, new x -> keeps any (f x)) -> keeps any (forEach l f).
Proof using Type.
  intros Hl Hf. apply keeps_forEach. intros x Hx. rewrite Forall_forall in Hl.
  apply Hf, Hl, Hx.
Qed.

Lemma keeps_tryCatch {A} (good : A -> Prop) (m : M A) (h : string -> M A) :
  keeps good m -> (forall e, keeps good (h e)) -> keeps good (tryCatch m h).
Proof using Type.
  intros Hm Hh s Hs. unfold tryCatch. specialize (Hm s Hs).
  destruct (m s) as [a s'|e s'|]; [exact Hm| |exact Hm].
  apply (Hh e s' Hm).
Qed.

Lemma keeps_when (c : bool) (m : M unit) : keeps any m -> keeps any (when c m).
Proof using Type. intros Hm. destruct c; [exact Hm|apply keeps_ret; exact I]. Qed.

Lemma keeps_putDom (D : dom) : framed D -> keeps any (putDom D).
Proof using Type. intros HD s _. split; [exact HD|exact I]. Qed.

Lemma keeps_modifyDom (f : dom -> dom) :
  (forall D, framed D -> framed (f D)) -> keeps any (modifyDom f).
Proof using Type. intros Hf s Hs. split; [apply Hf, Hs|exact I]. Qed.

Lemma keeps_state (g : state -> state) :
  (forall s, s_dom (g s) = s_dom s) -> keeps any (fun s => Ok tt (g s)).
Proof using Type. intros Hg s Hs. split; [rewrite Hg; exact Hs|exact I]. Qed.

Lemma keeps_logError (category message error : string) :
  keeps any (logError category message error).
Proof using Type. intros s Hs. split; [exact Hs|exact I]. Qed.

Lemma keeps_fresh (k : kind) : keeps new (fresh (alloc (blankNode k))).
Proof using Type.
  intros s Hs. unfold fresh, alloc. split; [apply framed_alloc, Hs|].
  apply framed_length, Hs.
Qed.

Lemma keeps_createElement (t : string) : keeps new (createElement t).
Proof using Type. apply keeps_fresh. Qed.

Lemma keeps_createTextNode (x : string) : keeps new (createTextNode x).
Proof using Type. apply keeps_fresh. Qed.

Lemma keeps_createDocumentFragment : keeps new createDocumentFragment.
Proof using Type. apply keeps_fresh. Qed.

Lemma keeps_setAttribute (x : ref) (a v : string) :
  new x -> keeps any (modifyDom (setAttribute x a v)).
Proof using Type.
  intros Hx. apply keeps_modifyDom. intros D HD. apply framed_setAttrs; assumption.
Qed.

Lemma keeps_removeAttribute (x : ref) (a : string) :
  new x -> keeps any (modifyDom (removeAttribute x a)).
Proof using Type.
  intros Hx. apply keeps_modifyDom. intros D HD. apply framed_setAttrs; assumption.
Qed.

Lemma keeps_insertBefore (p i : ref) (b : option ref) :
  new p -> new i -> keeps any (insertBefore p i b).
Proof using Type.
  intros Hp Hi. unfold insertBefore. apply keeps_read. intros D HD.
  destruct (negb (canHaveChildren D p)); [apply keeps_throw|].
  destruct (isInclusiveAncestor D i p); [apply keeps_throw|].
  destruct b as [r|].
  - destruct (negb _); [apply keeps_throw|].
    apply keeps_putDom, framed_insertAll; [exact Hp|apply payload_new; assumption|exact HD].
  - apply keeps_putDom, framed_insertAll; [exact Hp|apply payload_new; assumption|exact HD].
Qed.

Lemma keeps_appendChild (p i : ref) : new p -> new i -> keeps any (appendChild p i).
Proof using Type. intros Hp Hi. apply keeps_insertBefore; assumption. Qed.

Lemma keeps_removeChild (p i : ref) : new i -> keeps any (removeChild p i).
Proof using Type.
  intros Hi. unfold removeChild. apply keeps_read. intros D HD.
  destruct (bool_decide _); [|apply keeps_throw].
  apply keeps_putDom, framed_unlink; assumption.
Qed.

Lemma keeps_replaceChild (p i old : ref) :
  new p -> new i -> new old -> keeps any (replaceChild p i old).
Proof using Type.
  intros Hp Hi Ho. unfold replaceChild. apply keeps_read. intros D HD.
  destruct (negb (canHaveChildren D p)); [apply keeps_throw|].
  destruct (isInclusiveAncestor D i p); [apply keeps_throw|].
  destruct (negb _); [apply keeps_throw|].
  apply keeps_putDom, framed_insertAll;
    [exact Hp|apply payload_new; assumption|apply framed_unlink; assumption].
Qed.

Lemma keeps_cloneNode (x : ref) : keeps new (cloneNode x).
Proof using Type.
  intros s Hs. unfold cloneNode, fresh.
  destruct (load_newer (treeOf (s_dom s) x) None (s_dom s) Hs) as [Hi HD]; [discriminate|].
  destruct (load (treeOf (s_dom s) x) None (s_dom s)) as [i D]. split; assumption.
Qed.

Lemma keeps_withParent (i : ref) (f : ref -> M unit) :
  new i -> (forall p, new p -> keeps any (f p)) -> keeps any (withParent i f).
Proof using Type.
  intros Hi Hf. unfold withParent. apply keeps_read. intros D HD.
  destruct (parentNode D i) as [p|] eqn:Hp; [|apply keeps_ret; exact I].
  apply Hf. apply (parentNode_new D i p HD Hi Hp).
Qed.

Lemma keeps_setTextContent (x : ref) (text : string) :
  new x -> keeps any (setTextContent x text).
Proof using Type.
  intros Hx. unfold setTextContent. apply (keeps_bind any).
  - apply keeps_modifyDom. intros D HD. apply framed_clearKids; assumption.
  - intros _ _. destruct text as [|a r]; [apply keeps_ret; exact I|].
    apply (keeps_bind new).
    + intros s Hs. unfold fresh, alloc. split; [|apply framed_length, Hs].
      apply framed_app; [exact Hs|]. constructor; [|constructor].
      split; [constructor|intros q [= <-]; exact Hx].
    + intros t Ht. apply keeps_modifyDom. intros D HD.
      apply (framed_setKids _ x (fun _ => [t])); [exact HD|exact Hx|].
      intros _ _. constructor; [exact Ht|constructor].
Qed.

Lemma keeps_diverge {A} (good : A -> Prop) : loops = true -> keeps good diverge.
Proof using Type. intros Hl s _. exact Hl. Qed.

(** ** The platform *)

Context (H : Host).

Lemma keeps_setInnerHTML (x : ref) (markup : string) :
  new x -> keeps any (setInnerHTML H x markup).
Proof using Type.
  intros Hx. unfold setInnerHTML. apply (keeps_bind any).
  - apply keeps_modifyDom. intros D HD. apply framed_clearKids; assumption.
  - intros _ _. apply keeps_read. intros D HD.
    destruct (loadForest_framed (parseHTML H (contextTag D x) markup) (Some x) D HD)
      as [Hids HD'].
    { intros q [= <-]. exact Hx. }
    destruct (loadForest _ (Some x) D) as [ids D']. cbn [fst snd] in *.
    apply keeps_putDom. apply (framed_setKids _ x (fun _ => ids)); [exact HD'|exact Hx|].
    intros _ _. exact Hids.
Qed.

Lemma keeps_setOuterHTML (x : ref) (markup : string) :
  new x -> keeps any (setOuterHTML H x markup).
Proof using Type.
  intros Hx. unfold setOuterHTML. apply keeps_read. intros D HD.
  destruct (parentNode D x) as [p|] eqn:Hp; [|apply keeps_ret; exact I].
  pose proof (parentNode_new D x p HD Hx Hp) as Hpn.
  apply (keeps_bind new); [apply keeps_createDocumentFragment|]. intros frag Hfrag.
  apply keeps_read. intros D1 HD1.
  destruct (loadForest_framed (parseHTML H (contextTag D1 p) markup) (Some frag) D1 HD1)
    as [Hids HD'].
  { intros q [= <-]. exact Hfrag. }
  destruct (loadForest _ (Some frag) D1) as [ids D']. cbn [fst snd] in *.
  apply (keeps_bind any).
  - apply keeps_putDom. apply (framed_setKids _ frag (fun _ => ids)); [exact HD'|exact Hfrag|].
    intros _ _. exact Hids.
  - intros _ _. apply keeps_replaceChild; assumption.
Qed.

Lemma keeps_container (markup : string) : keeps new (container H markup).
Proof using Type.
  unfold container. apply (keeps_bind new); [apply keeps_createElement|]. intros c Hc.
  apply (keeps_bind any); [apply keeps_setInnerHTML, Hc|]. intros _ _.
  apply keeps_ret, Hc.
Qed.

(** ** services/complexStructureService.ts *)

Lemma keeps_convertHeaderRow (firstRow : ref) : keeps new (convertHeaderRow H firstRow).
Proof using Type.
  unfold convertHeaderRow. apply (keeps_bind new); [apply keeps_cloneNode|]. intros row Hrow.
  apply keeps_read. intros D HD. apply (keeps_bind any); [|intros _ _; apply keeps_ret, Hrow].
  apply keeps_each; [apply querySelectorAll_new; assumption|]. intros cell Hcell.
  apply (keeps_bind new); [apply keeps_createElement|]. intros th Hth.
  apply keeps_read. intros D1 HD1.
  apply (keeps_bind any); [apply keeps_setInnerHTML, Hth|]. intros _ _.
  apply keeps_read. intros D2 HD2.
  destruct (parentNode D2 cell) as [p|] eqn:Hp; [|apply keeps_ret; exact I].
  apply keeps_replaceChild; [|exact Hth|exact Hcell].
  apply (parentNode_new D2 cell p HD2 Hcell Hp).
Qed.

Lemma keeps_normalizeTableStructure (table : ref) :
  new table -> keeps any (normalizeTableStructure H table).
Proof using Type.
  intros Ht. unfold normalizeTableStructure. apply keeps_read. intros D HD.
  pose proof (querySelectorAll_new D table (tag "tr") HD Ht) as Hrows.
  apply (keeps_bind (fun o : option ref => forall t, o = Some t -> new t)).
  - destruct (querySelector D table (tag "thead")) as [found|] eqn:Hfound.
    { apply keeps_ret. intros t [= <-]. apply (querySelector_new D table _ found HD Ht Hfound). }
    destruct (querySelectorAll D table (tag "tr")) as [|firstRow rows] eqn:Hq.
    { apply keeps_ret. discriminate. }
    assert (Hfirst : new firstRow) by (inversion Hrows; assumption).
    apply (keeps_bind new); [apply keeps_createElement|]. intros thead Hthead.
    apply keeps_read. intros D1 HD1.
    destruct (bool_decide _).
    + apply (keeps_bind any); [apply keeps_appendChild; assumption|]. intros _ _.
      apply keeps_read. intros D2 HD2.
      apply (keeps_bind any); [apply keeps_insertBefore; assumption|]. intros _ _.
      apply keeps_ret. intros t [= <-]. exact Hthead.
    + apply (keeps_bind new); [apply keeps_convertHeaderRow|]. intros row Hrow.
      apply (keeps_bind any); [apply keeps_appendChild; assumption|]. intros _ _.
      apply keeps_read. intros D2 HD2.
      apply (keeps_bind any); [apply keeps_insertBefore; assumption|]. intros _ _.
      apply keeps_ret. intros t [= <-]. exact Hthead.
  - intros thead Hthead. apply keeps_read. intros D1 HD1.
    destruct (querySelector D1 table (tag "tbody")); [apply keeps_ret; exact I|].
    apply (keeps_bind new); [apply keeps_createElement|]. intros tbody Htbody.
    apply (keeps_bind any); [|intros _ _; apply keeps_appendChild; assumption].
    apply keeps_each; [exact Hrows|]. intros row Hrow.
    apply keeps_read. intros D2 HD2.
    destruct (bool_decide _); [apply keeps_appendChild; assumption|apply keeps_ret; exact I].
Qed.

Lemma keeps_processTableAlignments (table : ref) :
  new table -> keeps any (processTableAlignments H table).
Proof using Type.
  intros Ht. unfold processTableAlignments. apply keeps_read. intros D HD.
  apply keeps_each; [apply querySelectorAll_new; assumption|]. intros cell Hcell.
  apply keeps_read. intros D1 HD1. apply (keeps_bind any).
  - repeat (destruct (String.eqb _ _); [apply keeps_setAttribute, Hcell|]).
    apply keeps_ret. exact I.
  - intros _ _. apply keeps_read. intros D2 HD2.
    destruct (getAttribute D2 cell "align"); [|apply keeps_ret; exact I].
    destruct (_ && _); [apply keeps_setAttribute, Hcell|apply keeps_ret; exact I].
Qed.

Lemma keeps_cleanupTableAttributes (table : ref) :
  new table -> keeps any (cleanupTableAttributes table).
Proof using Type.
  intros Ht. unfold cleanupTableAttributes. apply keeps_read. intros D HD.
  apply keeps_each; [apply querySelectorAll_new; assumption|]. intros element He.
  apply keeps_read. intros D1 HD1. apply keeps_forEach. intros name _.
  destruct (negb _); [apply keeps_removeAttribute, He|apply keeps_ret; exact I].
Qed.

Lemma keeps_processTable (tableElement : ref) (options : TableOptions) :
  keeps (fun r => new r \/ r = tableElement) (processTable H tableElement options).
Proof using Type.
  unfold processTable. apply keeps_tryCatch.
  - apply (keeps_bind new); [apply keeps_cloneNode|]. intros clone Hclone.
    apply (keeps_bind any); [apply keeps_normalizeTableStructure, Hclone|]. intros _ _.
    apply (keeps_bind any); [apply keeps_when, keeps_processTableAlignments, Hclone|].
    intros _ _.
    apply (keeps_bind any); [apply keeps_when, keeps_cleanupTableAttributes, Hclone|].
    intros _ _. apply keeps_ret. left. exact Hclone.
  - intros e. apply (keeps_bind any); [apply keeps_logError|]. intros _ _.
    apply keeps_ret. right. reflexivity.
Qed.

Lemma keeps_processDefinitionList (dlElement : ref) :
  keeps (fun r => new r \/ r = dlElement) (processDefinitionList dlElement).
Proof using Type.
  unfold processDefinitionList. apply keeps_tryCatch.
  - apply (keeps_bind new); [apply keeps_cloneNode|]. intros clone Hclone.
    apply keeps_read. intros D HD.
    apply (keeps_bind any).
    { apply keeps_each; [apply querySelectorAll_new; assumption|]. intros term Hterm.
      apply keeps_setAttribute, Hterm. }
    intros _ _. apply (keeps_bind any).
    { apply keeps_each; [apply querySelectorAll_new; assumption|]. intros desc Hdesc.
      apply keeps_setAttribute, Hdesc. }
    intros _ _. apply keeps_ret. left. exact Hclone.
  - intros e. apply (keeps_bind any); [apply keeps_logError|]. intros _ _.
    apply keeps_ret. right. reflexivity.
Qed.

(** ** Calls with loops *)

Context (Hloops : loops = true).

Lemma keeps_markNestedLevels (depth : nat) :
  forall listElement level, new listElement ->
    keeps any (markNestedLevels depth listElement level).
Proof using Hloops.
  induction depth as [|depth IH]; intros listElement level Hl; cbn [markNestedLevels].
  - apply keeps_diverge, Hloops.
  - apply (keeps_bind any); [apply keeps_setAttribute, Hl|]. intros _ _.
    apply keeps_read. intros D HD.
    apply keeps_each; [apply querySelectorAll_new; assumption|]. intros item Hitem.
    apply (keeps_bind any); [apply keeps_setAttribute, Hitem|]. intros _ _.
    apply keeps_read. intros D1 HD1.
    apply keeps_each; [apply querySelectorAll_new; assumption|]. intros nested Hnested.
    apply IH, Hnested.
Qed.

Lemma keeps_processNestedList (listElement : ref) :
  keeps (fun r => new r \/ r = listElement) (processNestedList listElement).
Proof using Hloops.
  unfold processNestedList. apply keeps_tryCatch.
  - apply (keeps_bind new); [apply keeps_cloneNode|]. intros clone Hclone.
    apply keeps_read. intros D HD.
    apply (keeps_bind any); [apply keeps_markNestedLevels, Hclone|]. intros _ _.
    apply keeps_ret. left. exact Hclone.
  - intros e. apply (keeps_bind any); [apply keeps_logError|]. intros _ _.
    apply keeps_ret. right. reflexivity.
Qed.

Lemma keeps_markNestedBlockquotes (depth : nat) :
  forall blockquoteElement level, new blockquoteElement ->
    keeps any (markNestedBlockquotes depth blockquoteElement level).
Proof using Hloops.
  induction depth as [|depth IH]; intros bq level Hb; cbn [markNestedBlockquotes].
  - apply keeps_diverge, Hloops.
  - apply (keeps_bind any); [apply keeps_setAttribute, Hb|]. intros _ _.
    apply keeps_read. intros D HD.
    apply keeps_each; [apply querySelectorAll_new; assumption|]. intros quote Hquote.
    apply IH, Hquote.
Qed.

Lemma keeps_processBlockquote (blockquoteElement : ref) :
  keeps (fun r => new r \/ r = blockquoteElement) (processBlockquote blockquoteElement).
Proof using Hloops.
  unfold processBlockquote. apply keeps_tryCatch.
  - apply (keeps_bind new); [apply keeps_cloneNode|]. intros clone Hclone.
    apply keeps_read. intros D HD.
    apply (keeps_bind any); [apply keeps_markNestedBlockquotes, Hclone|]. intros _ _.
    apply keeps_ret. left. exact Hclone.
  - intros e. apply (keeps_bind any); [apply keeps_logError|]. intros _ _.
    apply keeps_ret. right. reflexivity.
Qed.

(** ** services/markdownConversionService.ts *)

Context (options : MarkdownOptions) (steps : nat).

Lemma keeps_removeSelf (x : ref) :
  new x -> keeps any (withParent x (fun p => removeChild p x)).
Proof using Type.
  intros Hx. apply keeps_withParent; [exact Hx|]. intros p _. apply keeps_removeChild, Hx.
Qed.

Lemma keeps_replaceSelf (x w : ref) :
  new x -> new w -> keeps any (withParent x (fun p => replaceChild p w x)).
Proof using Type.
  intros Hx Hw. apply keeps_withParent; [exact Hx|]. intros p Hp.
  apply keeps_replaceChild; assumption.
Qed.

Lemma keeps_cloneDescriptionContent (n : nat) (desc paragraph : ref) :
  new desc -> new paragraph -> keeps any (cloneDescriptionContent n desc paragraph).
Proof using Hloops.
  intros Hd Hp. induction n as [|n IH]; cbn [cloneDescriptionContent];
    apply keeps_read; intros D HD;
    (destruct (firstChild D desc) as [first|]; [|apply keeps_ret; exact I]).
  - apply keeps_diverge, Hloops.
  - apply (keeps_bind new); [apply keeps_cloneNode|]. intros copy Hcopy.
    apply (keeps_bind any); [apply keeps_appendChild; assumption|]. intros _ _. exact IH.
Qed.

Lemma keeps_pairDescriptions (n : nat) (term fragment : ref) :
  new term -> new fragment ->
  forall desc, (forall dd, desc = Some dd -> new dd) ->
    keeps any (pairDescriptions steps n term fragment desc).
Proof using Hloops.
  intros Ht Hf. induction n as [|n IH]; intros desc Hdesc; cbn [pairDescriptions];
    apply keeps_read; intros D HD;
    (destruct desc as [dd|]; [|apply keeps_ret; exact I]);
    (destruct (negb (hasTag D "dd" dd)); [apply keeps_ret; exact I|]).
  - apply keeps_diverge, Hloops.
  - pose proof (Hdesc dd eq_refl) as Hdd.
    apply (keeps_bind new); [apply keeps_createElement|]. intros bold Hbold.
    apply keeps_read. intros D1 HD1.
    apply (keeps_bind any); [apply keeps_setTextContent, Hbold|]. intros _ _.
    apply (keeps_bind new); [apply keeps_createElement|]. intros paragraph Hpar.
    apply (keeps_bind any); [apply keeps_appendChild; assumption|]. intros _ _.
    apply (keeps_bind new); [apply keeps_createTextNode|]. intros colon Hcolon.
    apply (keeps_bind any); [apply keeps_appendChild; assumption|]. intros _ _.
    apply (keeps_bind any); [apply keeps_cloneDescriptionContent; assumption|]. intros _ _.
    apply (keeps_bind any); [apply keeps_appendChild; assumption|]. intros _ _.
    apply keeps_read. intros D2 HD2.
    apply (keeps_bind any); [apply keeps_removeSelf, Hdd|]. intros _ _.
    apply IH. intros x Hx. apply (nextElementSibling_new D2 dd x HD2 Hdd Hx).
Qed.

Lemma keeps_rewriteTerm (fragment term : ref) :
  new fragment -> new term -> keeps any (rewriteTerm steps fragment term).
Proof using Hloops.
  intros Hf Ht. unfold rewriteTerm. apply keeps_read. intros D HD.
  apply (keeps_bind any); [|intros _ _; apply keeps_removeSelf, Ht].
  apply keeps_pairDescriptions; [exact Ht|exact Hf|].
  intros x Hx. apply (nextElementSibling_new D term x HD Ht Hx).
Qed.

Lemma keeps_rewriteDefinitionList (dl : ref) :
  new dl -> keeps any (rewriteDefinitionList steps dl).
Proof using Hloops.
  intros Hdl. unfold rewriteDefinitionList. apply keeps_read. intros D HD.
  apply (keeps_bind new); [apply keeps_createDocumentFragment|]. intros fragment Hf.
  apply (keeps_bind any).
  { apply keeps_each; [apply querySelectorAll_new; assumption|]. intros term Ht.
    apply keeps_rewriteTerm; assumption. }
  intros _ _. apply (keeps_bind any); [|intros _ _; apply keeps_removeSelf, Hdl].
  apply keeps_withParent; [exact Hdl|]. intros p Hp. apply keeps_insertBefore; assumption.
Qed.

Lemma keeps_moveDetailsContent (n : nat) (details blockquote : ref) (summary : option ref) :
  new details -> new blockquote ->
  keeps any (moveDetailsContent n details blockquote summary).
Proof using Hloops.
  intros Hd Hb. induction n as [|n IH]; cbn [moveDetailsContent];
    apply keeps_read; intros D HD;
    (destruct (firstChild D details) as [first|] eqn:Hfirst; [|apply keeps_ret; exact I]).
  - apply keeps_diverge, Hloops.
  - pose proof (firstChild_new D details first HD Hd Hfirst) as Hnew.
    apply (keeps_bind any); [|intros _ _; exact IH].
    destruct (bool_decide _); [apply keeps_appendChild|apply keeps_removeChild]; assumption.
Qed.

Lemma keeps_rewriteDetails (details : ref) :
  new details -> keeps any (rewriteDetails steps details).
Proof using Hloops.
  intros Hd. unfold rewriteDetails.
  apply (keeps_bind new); [apply keeps_createElement|]. intros blockquote Hb.
  apply keeps_read. intros D HD.
  apply (keeps_bind new); [apply keeps_createElement|]. intros strong Hs.
  apply (keeps_bind any); [apply keeps_setTextContent, Hs|]. intros _ _.
  apply (keeps_bind any); [apply keeps_appendChild; assumption|]. intros _ _.
  apply (keeps_bind new); [apply keeps_createElement|]. intros br Hbr.
  apply (keeps_bind any); [apply keeps_appendChild; assumption|]. intros _ _.
  apply (keeps_bind any); [apply keeps_moveDetailsContent; assumption|]. intros _ _.
  apply keeps_replaceSelf; assumption.
Qed.

Lemma keeps_rewriteFigure (figure : ref) : new figure -> keeps any (rewriteFigure figure).
Proof using Type.
  intros Hf. unfold rewriteFigure. apply keeps_read. intros D HD.
  destruct (querySelector D figure (tag "img")) as [img|] eqn:Himg;
    [|apply keeps_ret; exact I].
  destruct (querySelector D figure (tag "figcaption")) as [cap|] eqn:Hcap;
    [|apply keeps_ret; exact I].
  pose proof (querySelector_new D figure _ img HD Hf Himg) as Hi.
  apply (keeps_bind any); [apply keeps_when, keeps_setAttribute, Hi|]. intros _ _.
  apply (keeps_bind new); [apply keeps_createElement|]. intros wrapper Hw.
  apply (keeps_bind new); [apply keeps_cloneNode|]. intros copy Hcopy.
  apply (keeps_bind any); [apply keeps_appendChild; assumption|]. intros _ _.
  apply (keeps_bind new); [apply keeps_createElement|]. intros br Hbr.
  apply (keeps_bind any); [apply keeps_appendChild; assumption|]. intros _ _.
  apply (keeps_bind new); [apply keeps_createElement|]. intros caption Hc.
  apply keeps_read. intros D1 HD1.
  apply (keeps_bind any); [apply keeps_setTextContent, Hc|]. intros _ _.
  apply (keeps_bind any); [apply keeps_appendChild; assumption|]. intros _ _.
  apply keeps_replaceSelf; assumption.
Qed.

Lemma keeps_adoptListItem (li : ref) : new li -> keeps any (adoptListItem li).
Proof using Type.
  intros Hli. unfold adoptListItem. apply keeps_read. intros D HD.
  apply (keeps_bind new); [apply keeps_createElement|]. intros parentList Hp.
  apply (keeps_bind any); [|intros _ _; apply keeps_appendChild; assumption].
  apply keeps_withParent; [exact Hli|]. intros p Hpn. apply keeps_insertBefore; assumption.
Qed.

Lemma keeps_moveFollowing (n : nat) (fragment : ref) :
  new fragment ->
  forall nextSib, (forall x, nextSib = Some x -> new x) ->
    keeps any (moveFollowing n fragment nextSib).
Proof using Hloops.
  intros Hf. induction n as [|n IH]; intros nextSib Hnext; cbn [moveFollowing];
    (destruct nextSib as [current|]; [|apply keeps_ret; exact I]).
  - apply keeps_diverge, Hloops.
  - pose proof (Hnext current eq_refl) as Hc.
    apply keeps_read. intros D HD.
    apply (keeps_bind any); [apply keeps_appendChild; assumption|]. intros _ _.
    apply IH. intros x Hx. apply (nextSibling_new D current x HD Hc Hx).
Qed.

Lemma keeps_wrapTextAfterNestedList (nestedList : ref) :
  new nestedList -> keeps any (wrapTextAfterNestedList steps nestedList).
Proof using Hloops.
  intros Hn. unfold wrapTextAfterNestedList. apply keeps_read. intros D HD.
  destruct (parentElement D nestedList) as [parent|] eqn:Hpar; [|apply keeps_ret; exact I].
  pose proof (parentElement_new D nestedList parent HD Hn Hpar) as Hp.
  apply (keeps_bind new); [apply keeps_createDocumentFragment|]. intros fragment Hf.
  apply keeps_read. intros D1 HD1.
  apply (keeps_bind any).
  { apply keeps_moveFollowing; [exact Hf|].
    intros x Hx. apply (nextSibling_new D1 nestedList x HD1 Hn Hx). }
  intros _ _. apply keeps_read. intros D2 HD2.
  destruct (0 <? _); [|apply keeps_ret; exact I].
  apply (keeps_bind new); [apply keeps_createElement|]. intros wrapper Hw.
  apply (keeps_bind any); [apply keeps_appendChild; assumption|]. intros _ _.
  apply keeps_appendChild; assumption.
Qed.

Lemma keeps_moveCitation (blockquote cite : ref) :
  new blockquote -> new cite -> keeps any (moveCitation blockquote cite).
Proof using Type.
  intros Hb Hc. unfold moveCitation.
  apply (keeps_bind new); [apply keeps_createElement|]. intros em Hem.
  apply keeps_read. intros D HD.
  apply (keeps_bind any); [apply keeps_setTextContent, Hem|]. intros _ _.
  apply (keeps_bind new); [apply keeps_createElement|]. intros br Hbr.
  apply (keeps_bind any); [apply keeps_appendChild; assumption|]. intros _ _.
  apply (keeps_bind any); [apply keeps_appendChild; assumption|]. intros _ _.
  apply keeps_removeSelf, Hc.
Qed.

Lemma keeps_rewriteIframe (iframe : ref) : new iframe -> keeps any (rewriteIframe H iframe).
Proof using Type.
  intros Hi. unfold rewriteIframe. apply keeps_read. intros D HD.
  destruct (orElse _ _) as [|c0 src]; [apply keeps_ret; exact I|].
  apply (keeps_bind new); [apply keeps_createElement|]. intros wrapper Hw.
  apply (keeps_bind any); [apply keeps_setAttribute, Hw|]. intros _ _.
  apply (keeps_bind new); [apply keeps_createElement|]. intros p Hp.
  apply (keeps_bind any); [apply keeps_setInnerHTML, Hp|]. intros _ _.
  apply keeps_read. intros D1 HD1.
  apply (keeps_bind any).
  { destruct (getAttribute D1 iframe "title") as [[|a title]|]; try (apply keeps_ret; exact I).
    apply (keeps_bind new); [apply keeps_createElement|]. intros description Hd.
    apply (keeps_bind any); [apply keeps_setInnerHTML, Hd|]. intros _ _.
    apply keeps_appendChild; assumption. }
  intros _ _. apply (keeps_bind any); [apply keeps_appendChild; assumption|]. intros _ _.
  apply keeps_replaceSelf; assumption.
Qed.

Lemma keeps_rewriteVideo (video : ref) : new video -> keeps any (rewriteVideo H video).
Proof using Type.
  intros Hv. unfold rewriteVideo.
  apply (keeps_bind new); [apply keeps_createElement|]. intros wrapper Hw.
  apply (keeps_bind any); [apply keeps_setAttribute, Hw|]. intros _ _.
  apply keeps_read. intros D HD.
  apply (keeps_bind any).
  { destruct (getAttribute D video "poster") as [[|a url]|]; try (apply keeps_ret; exact I).
    apply keeps_setInnerHTML, Hw. }
  intros _ _. apply (keeps_bind any).
  { destruct (firstSourceUrl D video) as [|c0 src]; [apply keeps_ret; exact I|].
    apply (keeps_bind new); [apply keeps_createElement|]. intros link Hl.
    apply (keeps_bind any); [apply keeps_setInnerHTML, Hl|]. intros _ _.
    apply keeps_appendChild; assumption. }
  intros _ _. apply keeps_replaceSelf; assumption.
Qed.

Lemma keeps_rewriteAudio (audio : ref) : new audio -> keeps any (rewriteAudio H audio).
Proof using Type.
  intros Ha. unfold rewriteAudio.
  apply (keeps_bind new); [apply keeps_createElement|]. intros wrapper Hw.
  apply (keeps_bind any); [apply keeps_setAttribute, Hw|]. intros _ _.
  apply keeps_read. intros D HD.
  apply (keeps_bind any).
  { destruct (firstSourceUrl D audio); apply keeps_setInnerHTML, Hw. }
  intros _ _. apply keeps_replaceSelf; assumption.
Qed.

(** A pass over the elements a selector finds under the container. *)
Lemma keeps_pass (container : ref) (sel : selector) (f : ref -> M unit) :
  new container -> (forall x, new x -> keeps any (f x)) ->
  keeps any (do D <- getDom; forEach (querySelectorAll D container sel) f).
Proof using Type.
  intros Hc Hf. apply keeps_read. intros D HD.
  apply keeps_each; [apply querySelectorAll_new; assumption|exact Hf].
Qed.

Lemma keeps_rewriteUnusualStructures (container : ref) :
  new container -> keeps any (rewriteUnusualStructures H steps container).
Proof using Hloops.
  intros Hc. unfold rewriteUnusualStructures.
  apply (keeps_bind any).
  { apply keeps_pass; [exact Hc|]. intros x Hx. apply keeps_rewriteDefinitionList, Hx. }
  intros _ _. apply (keeps_bind any).
  { apply keeps_pass; [exact Hc|]. intros x Hx. apply keeps_rewriteDetails, Hx. }
  intros _ _. apply (keeps_bind any).
  { apply keeps_pass; [exact Hc|]. intros x Hx. apply keeps_rewriteFigure, Hx. }
  intros _ _. apply (keeps_bind any).
  { unfold rewriteLists. apply keeps_read. intros D HD. apply (keeps_bind any).
    - apply keeps_each; [apply querySelectorAll_new; assumption|].
      intros x Hx. apply keeps_adoptListItem, Hx.
    - intros _ _. apply keeps_pass; [exact Hc|].
      intros x Hx. apply keeps_wrapTextAfterNestedList, Hx. }
  intros _ _. apply (keeps_bind any).
  { apply keeps_pass; [exact Hc|]. intros blockquote Hb.
    apply keeps_pass; [exact Hb|]. intros cite Hcite. apply keeps_moveCitation; assumption. }
  intros _ _. unfold rewriteMedia. apply keeps_read. intros D HD. apply (keeps_bind any).
  { apply keeps_each; [apply querySelectorAll_new; assumption|].
    intros x Hx. apply keeps_rewriteIframe, Hx. }
  intros _ _. apply keeps_read. intros D1 HD1. apply (keeps_bind any).
  { apply keeps_each; [apply querySelectorAll_new; assumption|].
    intros x Hx. apply keeps_rewriteVideo, Hx. }
  intros _ _. apply keeps_pass; [exact Hc|]. intros x Hx. apply keeps_rewriteAudio, Hx.
Qed.

Lemma keeps_handleUnusualStructures (html : string) :
  keeps any (handleUnusualStructures H steps html).
Proof using Hloops.
  unfold handleUnusualStructures. destruct html as [|a html]; [apply keeps_ret; exact I|].
  apply keeps_tryCatch.
  - apply (keeps_bind new); [apply keeps_container|]. intros c Hc.
    apply (keeps_bind any); [apply keeps_rewriteUnusualStructures, Hc|]. intros _ _.
    apply keeps_read. intros D HD. apply keeps_ret. exact I.
  - intros e. apply (keeps_bind any); [apply keeps_logError|]. intros _ _.
    apply keeps_ret. exact I.
Qed.

Lemma keeps_replaceBy (process : ref -> M ref) (node : ref) :
  new node -> keeps (fun r => new r \/ r = node) (process node) ->
  keeps any (replaceBy process node).
Proof using Type.
  intros Hn Hp. unfold replaceBy. apply (keeps_bind (fun r => new r \/ r = node)); [exact Hp|].
  intros processed [Hnew| ->]; apply keeps_replaceSelf; assumption.
Qed.

Lemma keeps_normalizeStructures (container : ref) :
  new container -> keeps any (normalizeStructures H options container).
Proof using Hloops.
  intros Hc. unfold normalizeStructures.
  apply keeps_read. intros D HD. apply (keeps_bind any).
  { apply keeps_each; [apply querySelectorAll_new; assumption|]. intros table Ht.
    apply keeps_replaceBy; [exact Ht|apply keeps_processTable]. }
  intros _ _. apply keeps_read. intros D1 HD1. apply (keeps_bind any).
  { apply keeps_each; [apply querySelectorAll_new; assumption|]. intros list Hl.
    apply keeps_read. intros D2 HD2.
    destruct (negb _); [|apply keeps_ret; exact I].
    apply keeps_replaceBy; [exact Hl|apply keeps_processNestedList]. }
  intros _ _. apply keeps_read. intros D2 HD2. apply (keeps_bind any).
  { apply keeps_each; [apply querySelectorAll_new; assumption|]. intros dl Hdl.
    apply keeps_replaceBy; [exact Hdl|apply keeps_processDefinitionList]. }
  intros _ _. apply keeps_pass; [exact Hc|]. intros bq Hb. apply keeps_read. intros D3 HD3.
  destruct (negb _); [|apply keeps_ret; exact I].
  apply keeps_replaceBy; [exact Hb|apply keeps_processBlockquote].
Qed.

Lemma keeps_preProcessComplexStructures (html : string) :
  keeps any (preProcessComplexStructures H options html).
Proof using Hloops.
  unfold preProcessComplexStructures. apply keeps_tryCatch.
  - apply (keeps_bind new); [apply keeps_container|]. intros c Hc.
    apply (keeps_bind any); [apply keeps_normalizeStructures, Hc|]. intros _ _.
    apply keeps_read. intros D HD. apply keeps_ret. exact I.
  - intros e. apply (keeps_bind any); [apply keeps_logError|]. intros _ _.
    apply keeps_ret. exact I.
Qed.

Lemma keeps_fold {A B} (good : A -> Prop) (P : B -> Prop) (step : M A -> B -> M A)
    (l : list B) :
  Forall P l ->
  (forall acc x, P x -> keeps good acc -> keeps good (step acc x)) ->
  forall acc, keeps good acc -> keeps good (fold_left step l acc).
Proof using Type.
  intros Hl Hstep. induction Hl as [|x l Hx _ IH]; intros acc Hacc; cbn [fold_left].
  - exact Hacc.
  - apply IH, Hstep; assumption.
Qed.

Lemma keeps_preserveFailed (html error : string) : keeps any (preserveFailed html error).
Proof using Type.
  unfold preserveFailed. apply (keeps_bind any); [apply keeps_logError|]. intros _ _.
  apply keeps_ret. exact I.
Qed.

Lemma keeps_preserveSpecialContent (html : string) :
  keeps any (preserveSpecialContent H html).
Proof using Type.
  unfold preserveSpecialContent. destruct html as [|a html]; [apply keeps_ret; exact I|].
  apply keeps_tryCatch; [|intros e; apply keeps_preserveFailed].
  apply (keeps_bind new); [apply keeps_container|]. intros c Hc.
  destruct (replaceWith inlineMathRegex _ _ _) as [html1 t1].
  destruct (replaceWith blockMathRegex _ _ _) as [html2 t2].
  apply keeps_tryCatch; [|intros e; apply keeps_preserveFailed].
  apply keeps_read. intros D HD.
  apply (keeps_bind any).
  - apply (keeps_fold any new); [apply querySelectorAll_new; assumption| |apply keeps_ret; exact I].
    intros acc block Hb Hacc. apply (keeps_bind any); [exact Hacc|]. intros [m counter] _.
    apply keeps_read. intros D1 HD1.
    apply (keeps_bind any); [apply keeps_setOuterHTML, Hb|]. intros _ _.
    apply keeps_ret. exact I.
  - intros t3 _. destruct (replaceWith commentRegex _ _ _) as [html3 t4].
    apply (keeps_bind any); [apply keeps_state; reflexivity|]. intros _ _.
    apply keeps_read. intros D1 HD1. apply keeps_ret. exact I.
Qed.

Lemma keeps_restoreEntry (result : string) (entry : string * string) :
  keeps any (restoreEntry H result entry).
Proof using Type.
  unfold restoreEntry. destruct entry as [name originalContent].
  repeat (destruct (startsWith _ name); [try (apply keeps_ret; exact I)|]).
  - apply (keeps_bind new); [apply keeps_container|]. intros div Hdiv.
    apply keeps_read. intros D HD.
    destruct (querySelector D div (tag "pre")); apply keeps_ret; exact I.
  - apply keeps_ret. exact I.
Qed.

Lemma keeps_restoreSpecialContent (markdown : string) :
  keeps any (restoreSpecialContent H markdown).
Proof using Type.
  intros s Hs. unfold restoreSpecialContent.
  destruct markdown as [|a markdown]; [split; [exact Hs|exact I]|].
  destruct (s_preserved s) as [|entry entries]; [split; [exact Hs|exact I]|].
  revert s Hs. apply (keeps_bind any).
  - apply (keeps_fold any (fun _ => True)); [apply Forall_forall; intros; exact I|
                                             |apply keeps_ret; exact I].
    intros acc x _ Hacc. apply (keeps_bind any); [exact Hacc|]. intros r _.
    apply keeps_restoreEntry.
  - intros result _. apply (keeps_bind any); [apply keeps_state; reflexivity|]. intros _ _.
    apply keeps_ret. exact I.
Qed.

Lemma keeps_extractFrontMatter (html : string) :
  keeps any (extractFrontMatter options html).
Proof using Type.
  unfold extractFrontMatter. destruct (negb _); [apply keeps_ret; exact I|].
  apply keeps_tryCatch.
  - destruct (search frontMatterRegex html) as [[whole cs]|]; apply keeps_ret; exact I.
  - intros e. apply (keeps_bind any); [apply keeps_logError|]. intros _ _.
    apply keeps_ret. exact I.
Qed.

Lemma keeps_convertToMarkdown (html : string) :
  keeps any (convertToMarkdown H options steps html).
Proof using Hloops.
  unfold convertToMarkdown. apply keeps_tryCatch.
  - destruct (String.eqb _ _); [apply keeps_ret; exact I|].
    apply (keeps_bind any); [apply keeps_extractFrontMatter|].
    intros [processedHtml frontMatter] _.
    apply (keeps_bind any); [apply keeps_state; reflexivity|]. intros _ _.
    apply (keeps_bind any); [apply keeps_preserveSpecialContent|]. intros html1 _.
    apply (keeps_bind any); [apply keeps_handleUnusualStructures|]. intros html2 _.
    apply (keeps_bind any).
    { destruct (processComplexStructures options);
        [apply keeps_preProcessComplexStructures|apply keeps_ret; exact I]. }
    intros html3 _. apply (keeps_bind any).
    { unfold callTurndown. destruct (turndown H html3); [apply keeps_ret; exact I|].
      apply keeps_throw. }
    intros markdown _. apply (keeps_bind any); [apply keeps_restoreSpecialContent|].
    intros restored _. destruct frontMatter as [[|a fm]|]; apply keeps_ret; exact I.
  - intros e. apply (keeps_bind any); [apply keeps_logError|]. intros _ _.
    apply keeps_ret. exact I.
Qed.
End Frame.

(** ** A clone is marked in as many steps as it has nodes

    [cloneNode] creates a parent before its children, and setting
    attributes moves nothing: under a clone, a node comes after its
    parent in the store. *)

Section Marking.
Context (d : dom).

Definition ordered (D : dom) : Prop :=
  forall j n, D !! j = Some n -> length d <= j ->
    forall q, n_parent n = Some q -> q < j.

(** What the marking of a clone keeps. *)
Definition marking (n : nat) (s : state) : Prop :=
  framed d (s_dom s) /\ ordered (s_dom s) /\ length (s_dom s) = n.

Lemma ordered_start : ordered d.
Proof using Type. intros j n Hn Hj. apply lookup_lt_Some in Hn. lia. Qed.

Lemma ordered_app (D ext : dom) :
  ordered D -> length d <= length D ->
  (forall k n, ext !! k = Some n -> forall q, n_parent n = Some q -> q < length D + k) ->
  ordered (D ++ ext).
Proof using Type.
  intros HD Hlen Hext j n Hj Hlj q Hq.
  destruct (decide (j < length D)) as [Hlt|Hge].
  - rewrite lookup_app_l in Hj by exact Hlt. apply (HD j n Hj Hlj q Hq).
  - rewrite lookup_app_r in Hj by lia.
    pose proof (Hext (j - length D) n Hj q Hq). lia.
Qed.

Lemma ordered_update (D : dom) (i : ref) (f : node -> node) :
  ordered D -> (forall n, n_parent (f n) = n_parent n) -> ordered (update i f D).
Proof using Type.
  intros HD Hf j n Hj Hlj q Hq. rewrite lookup_update in Hj.
  destruct (decide (i = j)) as [<-|Hne]; [|apply (HD j n Hj Hlj q Hq)].
  destruct (D !! i) as [n0|] eqn:Hn0; [|discriminate].
  injection Hj as <-. rewrite Hf in Hq. apply (HD i n0 Hn0 Hlj q Hq).
Qed.

Definition loadsOrdered (h : html) : Prop :=
  forall p D, ordered D -> length d <= length D ->
    (forall q, p = Some q -> q < length D) ->
    ordered (snd (load h p D)) /\ length D < length (snd (load h p D)).

Lemma loadForest_ordered (ks : list html) :
  Forall loadsOrdered ks ->
  forall p D, ordered D -> length d <= length D ->
    (forall q, p = Some q -> q < length D) ->
    ordered (snd (loadForest ks p D)) /\ length D <= length (snd (loadForest ks p D)).
Proof using Type.
  induction 1 as [|k ks Hk _ IH]; intros p D HD Hlen Hp; cbn [loadForest].
  - split; [exact HD|cbn [snd]; lia].
  - destruct (Hk p D HD Hlen Hp) as [HD1 Hl1].
    destruct (load k p D) as [j D1]. cbn [fst snd] in *.
    destruct (IH p D1 HD1) as [HD2 Hl2]; [lia|intros q Hq; pose proof (Hp q Hq); lia|].
    destruct (loadForest ks p D1) as [js D2]. cbn [fst snd] in *.
    split; [exact HD2|lia].
Qed.

Lemma load_ordered (h : html) : loadsOrdered h.
Proof using Type.
  induction h as [t a ks IH|x|x] using html_ind2; intros p D HD Hlen Hp.
  - rewrite load_children. unfold alloc. cbv beta iota.
    set (n0 := {| n_kind := Element t; n_attrs := a; n_kids := []; n_parent := p |}).
    assert (HD1 : ordered (D ++ [n0])).
    { apply ordered_app; [exact HD|exact Hlen|].
      intros k n Hk q Hq. destruct k as [|k]; [|destruct k; discriminate].
      injection Hk as <-. pose proof (Hp q Hq). lia. }
    destruct (loadForest_ordered ks IH (Some (length D)) (D ++ [n0]) HD1) as [HD2 Hl2].
    { rewrite length_app. lia. }
    { intros q [= <-]. rewrite length_app. cbn. lia. }
    destruct (loadForest ks (Some (length D)) (D ++ [n0])) as [ids D2]. cbn [fst snd] in *.
    rewrite length_app in Hl2. cbn [length] in Hl2.
    split; [|rewrite length_update; lia].
    apply ordered_update; [exact HD2|reflexivity].
  - cbn [load]. unfold alloc. cbn [fst snd]. split; [|rewrite length_app; cbn; lia].
    apply ordered_app; [exact HD|exact Hlen|].
    intros k n Hk q Hq. destruct k as [|k]; [|destruct k; discriminate].
    injection Hk as <-. pose proof (Hp q Hq). lia.
  - cbn [load]. unfold alloc. cbn [fst snd]. split; [|rewrite length_app; cbn; lia].
    apply ordered_app; [exact HD|exact Hlen|].
    intros k n Hk q Hq. destruct k as [|k]; [|destruct k; discriminate].
    injection Hk as <-. pose proof (Hp q Hq). lia.
Qed.

Lemma marking_setAttribute (n : nat) (x : ref) (a v : string) (s : state) :
  length d <= x -> marking n s ->
  exists s', modifyDom (setAttribute x a v) s = Ok tt s' /\ marking n s'.
Proof using Type.
  intros Hx (Hf & Ho & Hl). eexists. split; [reflexivity|]. unfold marking.
  cbn [s_dom withDom].
  split; [apply framed_setAttrs; assumption|].
  split; [apply ordered_update; [exact Ho|reflexivity]|].
  unfold setAttribute. rewrite length_update. exact Hl.
Qed.

Lemma forEach_marks {A} (n : nat) (l : list A) (f : A -> M unit) :
  (forall x, x ∈ l -> forall s, marking n s -> exists s', f x s = Ok tt s' /\ marking n s') ->
  forall s, marking n s -> exists s', forEach l f s = Ok tt s' /\ marking n s'.
Proof using Type.
  induction l as [|x l IH]; intros Hf s Hs; cbn [forEach].
  - exists s. split; [reflexivity|exact Hs].
  - destruct (Hf x (ltac:(apply elem_of_cons; left; reflexivity)) s Hs) as (s1 & Hrun & Hs1).
    destruct (IH (fun y Hy => Hf y (ltac:(apply elem_of_cons; right; exact Hy))) s1 Hs1)
      as (s2 & Hrun2 & Hs2).
    exists s2. split; [|exact Hs2]. unfold bind. rewrite Hrun. exact Hrun2.
Qed.

(** What [:scope > t] finds has the scope as parent. *)
Lemma scopeChildren (D : dom) (scope : ref) (ts : list string) (x : ref) :
  x ∈ querySelectorAll D scope (map (fun t => ScopeChild (Tag t)) ts) ->
  parentNode D x = Some scope.
Proof using Type.
  unfold querySelectorAll. intros Hx. apply list_elem_of_filter in Hx as [Hm _].
  unfold matches in Hm. apply existsb_exists in Hm as (c & Hc & Hm).
  apply in_map_iff in Hc as (t & <- & _). cbn [matchesComplex] in Hm.
  apply andb_prop in Hm as [_ Hm].
  destruct (parentNode D x) as [q|]; [|discriminate].
  apply Nat.eqb_eq in Hm. subst q. reflexivity.
Qed.

Lemma child_after (D : dom) (scope x : ref) :
  framed d D -> ordered D -> length d <= scope ->
  parentNode D x = Some scope -> x ∈ subtree D scope ->
  scope < x /\ x < length D /\ length d <= x.
Proof using Type.
  intros Hf Ho Hs Hpar Hsub.
  assert (Hx : length d <= x).
  { pose proof (descendants_new d D Hf (length D) scope Hs) as Hall.
    rewrite Forall_forall in Hall. apply Hall, Hsub. }
  unfold parentNode in Hpar. destruct (D !! x) as [n|] eqn:Hn; [|discriminate].
  split; [apply (Ho x n Hn Hx scope Hpar)|]. split; [|exact Hx].
  apply lookup_lt_Some in Hn. exact Hn.
Qed.

Lemma found_after (D : dom) (scope : ref) (ts : list string) (x : ref) :
  framed d D -> ordered D -> length d <= scope ->
  x ∈ querySelectorAll D scope (map (fun t => ScopeChild (Tag t)) ts) ->
  scope < x /\ x < length D /\ length d <= x.
Proof using Type.
  intros Hf Ho Hs Hx. apply child_after; [exact Hf|exact Ho|exact Hs| |].
  - apply (scopeChildren D scope ts x Hx).
  - unfold querySelectorAll in Hx. apply list_elem_of_filter in Hx as [_ Hx]. exact Hx.
Qed.

Lemma markNestedBlockquotes_returns (n : nat) :
  forall depth blockquoteElement level s,
    marking n s -> length d <= blockquoteElement -> n <= blockquoteElement + depth ->
    exists s', markNestedBlockquotes (S depth) blockquoteElement level s = Ok tt s' /\
               marking n s'.
Proof using Type.
  induction depth as [|depth IH]; intros bq level s Hs Hb Hn;
    cbn [markNestedBlockquotes];
    destruct (marking_setAttribute n bq "data-quote-level" (counterToString level) s Hb Hs)
      as (s1 & Hrun1 & Hs1);
    unfold bind at 1; rewrite Hrun1; unfold bind at 1; unfold getDom at 1;
    apply forEach_marks; try exact Hs1; intros quote Hq s2 Hs2;
    destruct Hs1 as (Hf1 & Ho1 & Hl1);
    destruct (found_after (s_dom s1) bq ["blockquote"] quote Hf1 Ho1 Hb Hq)
      as (Hlt & Hin & Hnew).
  - lia.
  - apply IH; [exact Hs2|exact Hnew|lia].
Qed.

Lemma markNestedLevels_returns (n : nat) :
  forall depth listElement level s,
    marking n s -> length d <= listElement -> n <= listElement + depth ->
    exists s', markNestedLevels (S depth) listElement level s = Ok tt s' /\ marking n s'.
Proof using Type.
  induction depth as [|depth IH]; intros list level s Hs Hl Hn;
    cbn [markNestedLevels];
    destruct (marking_setAttribute n list "data-list-level" (counterToString level) s Hl Hs)
      as (s1 & Hrun1 & Hs1);
    unfold bind at 1; rewrite Hrun1; unfold bind at 1; unfold getDom at 1;
    apply forEach_marks; try exact Hs1; intros item Hi s2 Hs2;
    pose proof Hs1 as (Hf1 & Ho1 & Hl1);
    destruct (found_after (s_dom s1) list ["li"] item Hf1 Ho1 Hl Hi)
      as (Hlt & Hin & Hnew).
  - lia.
  - destruct (marking_setAttribute n item "data-list-level" (counterToString level) s2
                Hnew Hs2) as (s3 & Hrun3 & Hs3).
    unfold bind at 1. rewrite Hrun3. unfold bind at 1. unfold getDom at 1.
    apply forEach_marks; [|exact Hs3]. intros nested Hne s4 Hs4.
    pose proof Hs3 as (Hf3 & Ho3 & Hl3).
    destruct (found_after (s_dom s3) item ["ul"; "ol"] nested Hf3 Ho3 Hnew Hne)
      as (Hlt' & Hin' & Hnew').
    apply IH; [exact Hs4|exact Hnew'|lia].
Qed.

Lemma cloneNode_marking (x : ref) (s : state) :
  s_dom s = d ->
  exists s', cloneNode x s = Ok (length d) s' /\ marking (length (s_dom s')) s' /\
             length d < length (s_dom s').
Proof using Type.
  intros Hs. unfold cloneNode, fresh. rewrite Hs.
  destruct (load_newer d (treeOf d x) None d (framed_start d)) as [_ Hf]; [discriminate|].
  destruct (load_ordered (treeOf d x) None d ordered_start) as [Ho Hl];
    [lia|discriminate|].
  destruct (load_loads (treeOf d x) None d) as (n & ext & Hload & _).
  rewrite Hload in *. cbn [fst snd] in *.
  eexists. split; [reflexivity|]. unfold marking. cbn [s_dom withDom].
  split; [|exact Hl]. split; [exact Hf|]. split; [exact Ho|reflexivity].
Qed.

End Marking.
(** ** The services *)

Lemma caught_returns {A} (m : M A) (category message : string) (a : A) (s : state) :
  forall e s', tryCatch m (fun error => do _ <- logError category message error; ret a) s
               <> Throw e s'.
Proof.
  intros e s'. unfold tryCatch. destruct (m s) as [x s1|x s1|]; discriminate.
Qed.

(** [processTable] works on a copy.  Whatever the host, the table, the
    options and the page, it returns; the nodes of the page are then as
    they were, and the element returned is a node created by the call, or
    the table given when the processing of the copy failed. *)
Theorem processTable_leaves_page (H : Host) (tableElement : ref) (options : TableOptions)
    (s : state) :
  exists processed s',
    processTable H tableElement options s = Ok processed s' /\
    (forall j, j < length (s_dom s) -> s_dom s' !! j = s_dom s !! j) /\
    (length (s_dom s) <= processed \/ processed = tableElement).
Proof.
  pose proof (keeps_processTable (s_dom s) false H tableElement options s
                (framed_start (s_dom s))) as Hfine.
  destruct (processTable H tableElement options s) as [r s'|e s'|] eqn:Hrun.
  - destruct Hfine as [[He _] Hr]. exists r, s'. split; [reflexivity|]. split; [exact He|exact Hr].
  - exfalso. unfold processTable in Hrun. apply (caught_returns _ _ _ _ _ _ _ Hrun).
  - discriminate Hfine.
Qed.

(** [processDefinitionList] works on a copy.  Whatever the list and the
    page, it returns the copy it made, the first node created by the
    call, and the nodes of the page are as they were. *)
Theorem processDefinitionList_leaves_page (dlElement : ref) (s : state) :
  exists s',
    processDefinitionList dlElement s = Ok (length (s_dom s)) s' /\
    forall j, j < length (s_dom s) -> s_dom s' !! j = s_dom s !! j.
Proof.
  destruct (cloneNode_marking (s_dom s) dlElement s eq_refl) as (s1 & Hclone & Hs1 & Hlen).
  pose proof Hs1 as (Hf1 & _ & _).
  assert (Hmarks : forall (sel : selector) (a : string) s2,
            marking (s_dom s) (length (s_dom s1)) s2 ->
            exists s3,
              forEach (querySelectorAll (s_dom s1) (length (s_dom s)) sel)
                (fun e => modifyDom (setAttribute e a "true")) s2 = Ok tt s3 /\
              marking (s_dom s) (length (s_dom s1)) s3).
  { intros sel a s2 Hs2. apply forEach_marks; [|exact Hs2]. intros e He s3 Hs3.
    apply marking_setAttribute; [|exact Hs3].
    pose proof (querySelectorAll_new (s_dom s) (s_dom s1) (length (s_dom s)) sel Hf1
                  (le_n _)) as Hall.
    rewrite Forall_forall in Hall. apply Hall, He. }
  destruct (Hmarks (tag "dt") "data-def-term" s1 Hs1) as (s2 & Hterms & Hs2).
  destruct (Hmarks (tag "dd") "data-def-desc" s2 Hs2) as (s3 & Hdescs & Hs3).
  exists s3. split.
  - unfold processDefinitionList, tryCatch. unfold bind at 1. rewrite Hclone.
    unfold bind at 1. unfold getDom at 1. unfold bind at 1. rewrite Hterms.
    unfold bind at 1. rewrite Hdescs. reflexivity.
  - destruct Hs3 as ((He & _) & _). exact He.
Qed.

(** [processNestedList] works on a copy.  Whatever the list and the
    page, it returns the copy it made, the first node created by the
    call; the recursion over the nested lists ends within the steps it
    is given, and the nodes of the page are as they were. *)
Theorem processNestedList_leaves_page (listElement : ref) (s : state) :
  exists s',
    processNestedList listElement s = Ok (length (s_dom s)) s' /\
    forall j, j < length (s_dom s) -> s_dom s' !! j = s_dom s !! j.
Proof.
  destruct (cloneNode_marking (s_dom s) listElement s eq_refl) as (s1 & Hclone & Hs1 & Hlen).
  destruct (markNestedLevels_returns (s_dom s) (length (s_dom s1)) (length (s_dom s1))
              (length (s_dom s)) 0 s1 Hs1) as (s2 & Hmark & Hs2); [lia|lia|].
  exists s2. split.
  - unfold processNestedList, tryCatch. unfold bind at 1. rewrite Hclone.
    unfold bind at 1. unfold getDom at 1. unfold bind at 1. rewrite Hmark. reflexivity.
  - destruct Hs2 as ((He & _) & _). exact He.
Qed.

(** [processBlockquote] works on a copy.  Whatever the block quote and
    the page, it returns the copy it made, the first node created by the
    call; the recursion over the nested block quotes ends within the
    steps it is given, and the nodes of the page are as they were. *)
Theorem processBlockquote_leaves_page (blockquoteElement : ref) (s : state) :
  exists s',
    processBlockquote blockquoteElement s = Ok (length (s_dom s)) s' /\
    forall j, j < length (s_dom s) -> s_dom s' !! j = s_dom s !! j.
Proof.
  destruct (cloneNode_marking (s_dom s) blockquoteElement s eq_refl)
    as (s1 & Hclone & Hs1 & Hlen).
  destruct (markNestedBlockquotes_returns (s_dom s) (length (s_dom s1)) (length (s_dom s1))
              (length (s_dom s)) 0 s1 Hs1) as (s2 & Hmark & Hs2); [lia|lia|].
  exists s2. split.
  - unfold processBlockquote, tryCatch. unfold bind at 1. rewrite Hclone.
    unfold bind at 1. unfold getDom at 1. unfold bind at 1. rewrite Hmark. reflexivity.
  - destruct Hs2 as ((He & _) & _). exact He.
Qed.

(** The conversion does not touch the page.  Whatever the host, the
    options, the markup and the page, when [convertToMarkdown] returns,
    every node that was in the store before the call is as it was: the
    stages work on containers parsed from the markup and on copies. *)
Theorem convertToMarkdown_leaves_page (H : Host) (options : MarkdownOptions) (steps : nat)
    (html : string) (s : state) :
  (exists markdown s',
     convertToMarkdown H options steps html s = Ok markdown s' /\
     forall j, j < length (s_dom s) -> s_dom s' !! j = s_dom s !! j) \/
  convertToMarkdown H options steps html s = OutOfFuel.
Proof.
  pose proof (keeps_convertToMarkdown (s_dom s) true H eq_refl options steps html s
                (framed_start (s_dom s))) as Hfine.
  destruct (convertToMarkdown H options steps html s) as [r s'|e s'|] eqn:Hrun.
  - destruct Hfine as [[He _] _]. left. exists r, s'. split; [reflexivity|exact He].
  - exfalso. unfold convertToMarkdown in Hrun. apply (caught_returns _ _ _ _ _ _ _ Hrun).
  - right. reflexivity.
Qed.

End FrameFacts.
